(** * Battleship Tactics: the rules engine and the AI, embedded in Rocq

    Shallow embedding of [services/gameLogic.ts] (grid utilities, the
    random layout of a fleet, [advanceTurn], [processShot]), of the handlers
    of [App.tsx] (the skill engine [handleUseSkill], the handlers that lift
    a ship off the grid before it is moved, and those that set a game up
    and end it), of the action gate [handleActionSelect] of
    [components/GamePhase.tsx] and of the AI of [services/geminiService.ts]
    in both modes.

    Conventions.
    - JavaScript numbers that hold grid coordinates, lengths, turn numbers and
      counters are integers in the program; they are modelled by [Z].
    - Objects used as dictionaries ([shots], [skillCooldowns], [skillUses],
      [hitLog]) are [gmap]s.  The key [`${x},${y}`] of the damage log is
      modelled by the pair [(x, y)].
    - The players of a game state live in the list [players]; a player object
      obtained with [find] is represented by its index in that list, so that
      two names for the same object (attacker and target of a shot at
      oneself) update the same entry.
    - A function returns [None] where the JavaScript code throws a
      [TypeError] (a property read on [undefined]).
    - [Math.random] is an explicit argument.

    The program comes first, then the predicates in which the properties
    are stated, then example games, then the facts and their proofs. *)

From Stdlib Require Import ZArith Lia Bool.

From stdpp Require Import base option list gmap strings.

Local Open Scope Z_scope.

(** * The program *)

(** ** Data model ([types.ts]) *)

Inductive CellState :=
  | EMPTY | SHIP | HIT | MISS | SUNK | DECOY | RADAR_CONTACT.

#[global] Instance CellState_eq_dec : EqDecision CellState.
Proof. solve_decision. Defined.

Inductive GamePhase :=
  | LOBBY | SETUP | PLAYING | GAME_OVER | TURN_TRANSITION.

#[global] Instance GamePhase_eq_dec : EqDecision GamePhase.
Proof. solve_decision. Defined.

Inductive GameMode := CLASSIC | TACTICAL.

#[global] Instance GameMode_eq_dec : EqDecision GameMode.
Proof. solve_decision. Defined.

Inductive LogResult :=
  | R_HIT | R_MISS | R_SUNK_SHIP | R_SHOT_FIRED | R_SKILL_USED.

#[global] Instance LogResult_eq_dec : EqDecision LogResult.
Proof. solve_decision. Defined.

(** [Grid = CellState[][]]: [grid[y][x]], rows first. *)
Abbreviation Grid := (list (list CellState)).

Record Pos := mkPos { px : Z; py : Z }.

#[global] Instance Pos_eq_dec : EqDecision Pos.
Proof. solve_decision. Defined.

(** [ShipType] is a string in the program: the six tactical roles, and in
    classic mode the ship's name ([type: s.name as any]). *)
Record Ship := mkShip {
  ship_name : string;
  ship_type : string;
  ship_length : Z;
  positions : list Pos;
  isSunk : bool;
  isDamaged : bool;
  hasBeenRepaired : bool;
  hasBeenRelocated : bool;
}.

Record ShipConfig := mkShipConfig {
  cfg_name : string;
  cfg_type : string;
  cfg_length : Z;
}.

Record Player := mkPlayer {
  player_id : string;
  player_name : string;
  isAI : bool;
  grid : Grid;
  ships : list Ship;
  shots : gmap string Grid;
  isReady : bool;
  isEliminated : bool;
  score : Z;
  skillCooldowns : gmap string Z;
  skillUses : gmap string Z;
  decoyPositions : list Pos;
  jammedPositions : list Pos;
  jamTurnsRemaining : Z;
  escapeSkillUnlocked : bool;
}.

Record GameLogEntry := mkLog {
  log_turn : Z;
  log_playerId : string;
  log_playerName : string;
  log_targetId : option string;
  log_targetName : option string;
  log_coords : option Pos;
  log_result : LogResult;
  log_sunkShipName : option string;
  log_hitShipName : option string;
  log_message : option string;
}.

Inductive ActionType := ATTACK | SKILL.

Inductive Stage := SELECT_SHIP | PLACE_SHIP | PLACE_DECOY.

(** An entry of [originalPositions]: a position and the state it had. *)
Record SavedCell := mkSaved { sv_x : Z; sv_y : Z; sv_state : CellState }.

Record ActiveAction := mkAction {
  act_playerId : string;
  act_type : ActionType;
  act_shipType : option string;
  act_stage : option Stage;
  act_shipToMove : option Ship;
  act_isHorizontal : option bool;
  act_originalPositions : option (list SavedCell);
}.

Record ScanCell := mkScan { sc_x : Z; sc_y : Z; sc_state : CellState }.

Record Dimensions := mkDims { rows : Z; cols : Z }.

(** The field [lastHitTurn] of the interface is never read or written by
    the program and is left out. *)
Record GameState := mkGame {
  gameId : string;
  phase : GamePhase;
  players : list Player;
  currentPlayerId : option string;
  winner : option string;
  maxPlayers : Z;
  turn : Z;
  gridDimensions : Dimensions;
  shipsConfig : list ShipConfig;
  gameMode : GameMode;
  log : list GameLogEntry;
  hasActedThisTurn : bool;
  activeAction : option ActiveAction;
  radarScanResult : option (string * list ScanCell);
  jammedArea : option (string * list Pos);
  hitLog : gmap string (gmap (Z * Z) Z);
}.

(** *** Field updates (object mutation, one field at a time) *)

Definition ship_set_positions (v : list Pos) (s : Ship) : Ship :=
  mkShip (ship_name s) (ship_type s) (ship_length s) v (isSunk s)
         (isDamaged s) (hasBeenRepaired s) (hasBeenRelocated s).

Definition ship_set_isSunk (v : bool) (s : Ship) : Ship :=
  mkShip (ship_name s) (ship_type s) (ship_length s) (positions s) v
         (isDamaged s) (hasBeenRepaired s) (hasBeenRelocated s).

Definition ship_set_isDamaged (v : bool) (s : Ship) : Ship :=
  mkShip (ship_name s) (ship_type s) (ship_length s) (positions s) (isSunk s)
         v (hasBeenRepaired s) (hasBeenRelocated s).

Definition ship_set_hasBeenRepaired (v : bool) (s : Ship) : Ship :=
  mkShip (ship_name s) (ship_type s) (ship_length s) (positions s) (isSunk s)
         (isDamaged s) v (hasBeenRelocated s).

Definition ship_set_hasBeenRelocated (v : bool) (s : Ship) : Ship :=
  mkShip (ship_name s) (ship_type s) (ship_length s) (positions s) (isSunk s)
         (isDamaged s) (hasBeenRepaired s) v.

Definition p_set_grid (v : Grid) (p : Player) : Player :=
  mkPlayer (player_id p) (player_name p) (isAI p) v (ships p) (shots p)
    (isReady p) (isEliminated p) (score p) (skillCooldowns p) (skillUses p)
    (decoyPositions p) (jammedPositions p) (jamTurnsRemaining p)
    (escapeSkillUnlocked p).

Definition p_set_ships (v : list Ship) (p : Player) : Player :=
  mkPlayer (player_id p) (player_name p) (isAI p) (grid p) v (shots p)
    (isReady p) (isEliminated p) (score p) (skillCooldowns p) (skillUses p)
    (decoyPositions p) (jammedPositions p) (jamTurnsRemaining p)
    (escapeSkillUnlocked p).

Definition p_set_shots (v : gmap string Grid) (p : Player) : Player :=
  mkPlayer (player_id p) (player_name p) (isAI p) (grid p) (ships p) v
    (isReady p) (isEliminated p) (score p) (skillCooldowns p) (skillUses p)
    (decoyPositions p) (jammedPositions p) (jamTurnsRemaining p)
    (escapeSkillUnlocked p).

Definition p_set_isEliminated (v : bool) (p : Player) : Player :=
  mkPlayer (player_id p) (player_name p) (isAI p) (grid p) (ships p) (shots p)
    (isReady p) v (score p) (skillCooldowns p) (skillUses p)
    (decoyPositions p) (jammedPositions p) (jamTurnsRemaining p)
    (escapeSkillUnlocked p).

Definition p_set_skillCooldowns (v : gmap string Z) (p : Player) : Player :=
  mkPlayer (player_id p) (player_name p) (isAI p) (grid p) (ships p) (shots p)
    (isReady p) (isEliminated p) (score p) v (skillUses p)
    (decoyPositions p) (jammedPositions p) (jamTurnsRemaining p)
    (escapeSkillUnlocked p).

Definition p_set_skillUses (v : gmap string Z) (p : Player) : Player :=
  mkPlayer (player_id p) (player_name p) (isAI p) (grid p) (ships p) (shots p)
    (isReady p) (isEliminated p) (score p) (skillCooldowns p) v
    (decoyPositions p) (jammedPositions p) (jamTurnsRemaining p)
    (escapeSkillUnlocked p).

Definition p_set_decoyPositions (v : list Pos) (p : Player) : Player :=
  mkPlayer (player_id p) (player_name p) (isAI p) (grid p) (ships p) (shots p)
    (isReady p) (isEliminated p) (score p) (skillCooldowns p) (skillUses p)
    v (jammedPositions p) (jamTurnsRemaining p) (escapeSkillUnlocked p).

Definition p_set_jammedPositions (v : list Pos) (p : Player) : Player :=
  mkPlayer (player_id p) (player_name p) (isAI p) (grid p) (ships p) (shots p)
    (isReady p) (isEliminated p) (score p) (skillCooldowns p) (skillUses p)
    (decoyPositions p) v (jamTurnsRemaining p) (escapeSkillUnlocked p).

Definition p_set_jamTurnsRemaining (v : Z) (p : Player) : Player :=
  mkPlayer (player_id p) (player_name p) (isAI p) (grid p) (ships p) (shots p)
    (isReady p) (isEliminated p) (score p) (skillCooldowns p) (skillUses p)
    (decoyPositions p) (jammedPositions p) v (escapeSkillUnlocked p).

Definition p_set_escapeSkillUnlocked (v : bool) (p : Player) : Player :=
  mkPlayer (player_id p) (player_name p) (isAI p) (grid p) (ships p) (shots p)
    (isReady p) (isEliminated p) (score p) (skillCooldowns p) (skillUses p)
    (decoyPositions p) (jammedPositions p) (jamTurnsRemaining p) v.

Definition g_set_phase (v : GamePhase) (g : GameState) : GameState :=
  mkGame (gameId g) v (players g) (currentPlayerId g) (winner g)
    (maxPlayers g) (turn g) (gridDimensions g) (shipsConfig g) (gameMode g)
    (log g) (hasActedThisTurn g) (activeAction g) (radarScanResult g)
    (jammedArea g) (hitLog g).

Definition g_set_players (v : list Player) (g : GameState) : GameState :=
  mkGame (gameId g) (phase g) v (currentPlayerId g) (winner g)
    (maxPlayers g) (turn g) (gridDimensions g) (shipsConfig g) (gameMode g)
    (log g) (hasActedThisTurn g) (activeAction g) (radarScanResult g)
    (jammedArea g) (hitLog g).

Definition g_set_currentPlayerId (v : option string) (g : GameState)
  : GameState :=
  mkGame (gameId g) (phase g) (players g) v (winner g)
    (maxPlayers g) (turn g) (gridDimensions g) (shipsConfig g) (gameMode g)
    (log g) (hasActedThisTurn g) (activeAction g) (radarScanResult g)
    (jammedArea g) (hitLog g).

Definition g_set_winner (v : option string) (g : GameState) : GameState :=
  mkGame (gameId g) (phase g) (players g) (currentPlayerId g) v
    (maxPlayers g) (turn g) (gridDimensions g) (shipsConfig g) (gameMode g)
    (log g) (hasActedThisTurn g) (activeAction g) (radarScanResult g)
    (jammedArea g) (hitLog g).

Definition g_set_turn (v : Z) (g : GameState) : GameState :=
  mkGame (gameId g) (phase g) (players g) (currentPlayerId g) (winner g)
    (maxPlayers g) v (gridDimensions g) (shipsConfig g) (gameMode g)
    (log g) (hasActedThisTurn g) (activeAction g) (radarScanResult g)
    (jammedArea g) (hitLog g).

Definition g_set_log (v : list GameLogEntry) (g : GameState) : GameState :=
  mkGame (gameId g) (phase g) (players g) (currentPlayerId g) (winner g)
    (maxPlayers g) (turn g) (gridDimensions g) (shipsConfig g) (gameMode g)
    v (hasActedThisTurn g) (activeAction g) (radarScanResult g)
    (jammedArea g) (hitLog g).

Definition g_set_hasActedThisTurn (v : bool) (g : GameState) : GameState :=
  mkGame (gameId g) (phase g) (players g) (currentPlayerId g) (winner g)
    (maxPlayers g) (turn g) (gridDimensions g) (shipsConfig g) (gameMode g)
    (log g) v (activeAction g) (radarScanResult g)
    (jammedArea g) (hitLog g).

Definition g_set_activeAction (v : option ActiveAction) (g : GameState)
  : GameState :=
  mkGame (gameId g) (phase g) (players g) (currentPlayerId g) (winner g)
    (maxPlayers g) (turn g) (gridDimensions g) (shipsConfig g) (gameMode g)
    (log g) (hasActedThisTurn g) v (radarScanResult g)
    (jammedArea g) (hitLog g).

Definition g_set_radarScanResult (v : option (string * list ScanCell))
    (g : GameState) : GameState :=
  mkGame (gameId g) (phase g) (players g) (currentPlayerId g) (winner g)
    (maxPlayers g) (turn g) (gridDimensions g) (shipsConfig g) (gameMode g)
    (log g) (hasActedThisTurn g) (activeAction g) v
    (jammedArea g) (hitLog g).

Definition g_set_jammedArea (v : option (string * list Pos)) (g : GameState)
  : GameState :=
  mkGame (gameId g) (phase g) (players g) (currentPlayerId g) (winner g)
    (maxPlayers g) (turn g) (gridDimensions g) (shipsConfig g) (gameMode g)
    (log g) (hasActedThisTurn g) (activeAction g) (radarScanResult g)
    v (hitLog g).

Definition g_set_hitLog (v : gmap string (gmap (Z * Z) Z)) (g : GameState)
  : GameState :=
  mkGame (gameId g) (phase g) (players g) (currentPlayerId g) (winner g)
    (maxPlayers g) (turn g) (gridDimensions g) (shipsConfig g) (gameMode g)
    (log g) (hasActedThisTurn g) (activeAction g) (radarScanResult g)
    (jammedArea g) v.

(** ** Arrays and grids *)

(** [a[i]] for a JavaScript number [i]: [undefined] outside the array. *)
Definition zlookup {A} (l : list A) (i : Z) : option A :=
  if decide (0 <= i) then l !! Z.to_nat i else None.

(** [grid[y][x]]: the outer [None] is the [TypeError] of a missing row, the
    inner [None] is [undefined]. *)
Definition cell_read (g : Grid) (x y : Z) : option (option CellState) :=
  row ← zlookup g y; Some (zlookup row x).

(** [grid[y]?.[x]] *)
Definition cell_opt (g : Grid) (x y : Z) : option CellState :=
  row ← zlookup g y; zlookup row x.

(** [grid[y][x] = v].  [None] when the row is missing ([TypeError]) and
    when the column lies outside the row: there JavaScript grows the row or
    adds a property, which no grid of the program ever undergoes; the model
    stops. *)
Definition cell_write (g : Grid) (x y : Z) (v : CellState) : option Grid :=
  row ← zlookup g y;
  _ ← zlookup row x;
  Some (<[Z.to_nat y := <[Z.to_nat x := v]> row]> g).

(** [positions.forEach(pos => { grid[pos.y][pos.x] = v })] *)
Fixpoint cells_write (g : Grid) (ps : list Pos) (v : CellState)
  : option Grid :=
  match ps with
  | [] => Some g
  | p :: ps' => g' ← cell_write g (px p) (py p) v; cells_write g' ps' v
  end.

(** [Array.prototype.findIndex]; [None] stands for [-1]. *)
Fixpoint findIndex {A} (f : A → bool) (l : list A) : option nat :=
  match l with
  | [] => None
  | a :: l' => if f a then Some 0%nat else S <$> findIndex f l'
  end.

(** [Array.prototype.find] *)
Definition find {A} (f : A → bool) (l : list A) : option A :=
  i ← findIndex f l; l !! i.

Definition pos_eqb (x y : Z) (p : Pos) : bool :=
  bool_decide (px p = x) && bool_decide (py p = y).

(** [ship.positions.some(pos => pos.x === x && pos.y === y)] *)
Definition ship_at (x y : Z) (s : Ship) : bool :=
  existsb (pos_eqb x y) (positions s).

(** [players.find(p => p.id === id)], as an index. *)
Definition findPlayer (pid : option string) (ps : list Player) : option nat :=
  match pid with
  | Some i => findIndex (λ p, bool_decide (player_id p = i)) ps
  | None => None
  end.

(** [constants.ts] *)
Definition SHIPS_CONFIG_TACTICAL : list ShipConfig :=
  [mkShipConfig "Commandship" "Commandship" 5;
   mkShipConfig "Decoyship" "Decoyship" 4;
   mkShipConfig "Radarship" "Radarship" 3;
   mkShipConfig "Repairship" "Repairship" 3;
   mkShipConfig "Jamship" "Jamship" 3;
   mkShipConfig "Mothership" "Mothership" 2].

Definition SHIPS_CONFIG_DEFAULT : list ShipConfig :=
  [mkShipConfig "Carrier" "Carrier" 5;
   mkShipConfig "Battleship" "Battleship" 4;
   mkShipConfig "Cruiser" "Cruiser" 3;
   mkShipConfig "Submarine" "Submarine" 3;
   mkShipConfig "Destroyer" "Destroyer" 2].

Definition getGameConfig (mode : GameMode) : Dimensions * list ShipConfig :=
  match mode with
  | TACTICAL => (mkDims 12 12, SHIPS_CONFIG_TACTICAL)
  | CLASSIC => (mkDims 12 12, SHIPS_CONFIG_DEFAULT)
  end.

(** ** [gameLogic.ts] *)

Definition createEmptyGrid (rows cols : Z) : Grid :=
  replicate (Z.to_nat rows) (replicate (Z.to_nat cols) EMPTY).

(** The footprint computed by the first loop of [canPlaceShip] and by
    [placeShip]. *)
Definition footprint (len x y : Z) (isHorizontal : bool) : list Pos :=
  (λ i, mkPos (x + (if isHorizontal then i else 0))
              (y + (if isHorizontal then 0 else i))) <$> seqZ 0 len.

(** The test of the second loop of [canPlaceShip].  [||] is lazy: the grid
    is read only for a position inside the dimensions. *)
Definition placeable_cell (g : Grid) (d : Dimensions) (p : Pos)
  : option bool :=
  if decide (px p < 0 ∨ px p >= cols d ∨ py p < 0 ∨ py p >= rows d)
  then Some false
  else c ← cell_read g (px p) (py p);
       Some (bool_decide (c = Some EMPTY)).

Fixpoint all_placeable (g : Grid) (d : Dimensions) (ps : list Pos)
  : option bool :=
  match ps with
  | [] => Some true
  | p :: ps' =>
      placeable_cell g d p ≫= λ b : bool,
      if b then all_placeable g d ps' else Some false
  end.

Definition canPlaceShip (g : Grid) (len x y : Z) (isHorizontal : bool)
    (d : Dimensions) : option bool :=
  all_placeable g d (footprint len x y isHorizontal).

Definition placeShip (g : Grid) (s : Ship) (x y : Z) (isHorizontal : bool)
  : option (Grid * Ship) :=
  let newPositions := footprint (ship_length s) x y isHorizontal in
  newGrid ← cells_write g newPositions SHIP;
  Some (newGrid, ship_set_positions newPositions s).

(** *** [createInitialPlayer] *)

Definition createInitialPlayer (id name : string) (isAI : bool)
    (shipsConfig : list ShipConfig) (d : Dimensions) (mode : GameMode)
  : Player :=
  let initialShips :=
    (λ c, mkShip (cfg_name c) (cfg_type c) (cfg_length c) []
                 false false false false) <$> shipsConfig in
  mkPlayer id (if isAI then name +:+ " (AI)" else name) isAI
    (createEmptyGrid (rows d) (cols d)) initialShips ∅ false false 0
    (match mode with
     | TACTICAL =>
         {[ "Radarship"%string := 0; "Commandship"%string := 0;
            "Repairship"%string := 0; "Jamship"%string := 0 ]}
     | CLASSIC => ∅
     end)
    (match mode with
     | TACTICAL => {[ "Decoyship"%string := 2; "Mothership"%string := 1 ]}
     | CLASSIC => ∅
     end)
    [] [] 0 false.

(** *** [findRandomValidPlacement] *)

(** [gridWithoutShip[pos.y][pos.x] = EMPTY], guarded: only a cell that
    exists is written. *)
Definition clear_if_set (g : Grid) (x y : Z) : Grid :=
  default g (cell_write g x y EMPTY).

Definition clear_cells (g : Grid) (ps : list Pos) : Grid :=
  foldl (λ g' p, clear_if_set g' (px p) (py p)) g ps.

(** A draw of the three random values of one attempt: orientation, column
    and row. *)
Definition Draw : Type := bool * (Z * Z).

(** The loop of at most [n] attempts, [k] being the number of attempts
    made so far. *)
Fixpoint tryPlacements (n k : nat) (g : Grid) (len : Z) (d : Dimensions)
    (rnd : nat → Draw) : option (option (Z * Z * bool)) :=
  match n with
  | O => Some None
  | S n' =>
      let '(isHorizontal, (x, y)) := rnd k in
      canPlaceShip g len x y isHorizontal d ≫= λ ok : bool,
      if ok then Some (Some (x, y, isHorizontal))
      else tryPlacements n' (S k) g len d rnd
  end.

(** [findRandomValidPlacement(player, ship, gridDimensions)]; the inner
    [None] is the [null] result.  [ship] is [None] when the caller passes
    [undefined]. *)
Definition findRandomValidPlacement (player : Player) (ship : option Ship)
    (d : Dimensions) (rnd : nat → Draw) : option (option (Z * Z * bool)) :=
  match grid player with
  | [] => Some None
  | [] :: _ => Some None
  | _ =>
      s ← ship;
      tryPlacements 100 0 (clear_cells (grid player) (positions s))
                    (ship_length s) d rnd
  end.

(** *** [placeAllShipsRandomly] and [placeShipsForAI] *)

(** [{ ...shipConfig, positions: [], isSunk: false, ... }] *)
Definition shipToPlace (c : ShipConfig) : Ship :=
  mkShip (cfg_name c) (cfg_type c) (cfg_length c) [] false false false false.

(** The [while (!placed)] loop for one ship.  Every attempt draws an
    orientation, a column and a row; [k] counts the draws made since the
    program started.  At most [n] draws are tried; the inner [None] is the
    attempt after the last one, which gives up and starts the whole fleet
    again. *)
Fixpoint placeRandomly (n k : nat) (g : Grid) (c : ShipConfig)
    (d : Dimensions) (rnd : nat → Draw)
  : option (option (Grid * Ship * nat)) :=
  match n with
  | O => Some None
  | S n' =>
      let '(isHorizontal, (x, y)) := rnd k in
      canPlaceShip g (cfg_length c) x y isHorizontal d ≫= λ ok : bool,
      if ok then
        '(newGrid, newShip) ← placeShip g (shipToPlace c) x y isHorizontal;
        Some (Some (newGrid, newShip, S k))
      else placeRandomly n' (S k) g c d rnd
  end.

(** The [for] loop over the configuration.  [inr k] is the reset after [k]
    draws. *)
Fixpoint placeFleet (cs : list ShipConfig) (k : nat) (g : Grid)
    (newShips : list Ship) (d : Dimensions) (rnd : nat → Draw)
  : option (Grid * list Ship + nat) :=
  match cs with
  | [] => Some (inl (g, newShips))
  | c :: cs' =>
      r ← placeRandomly 500 k g c d rnd;
      match r with
      | Some (g', s, k') => placeFleet cs' k' g' (newShips ++ [s]) d rnd
      | None => Some (inr (k + 500)%nat)
      end
  end.

(** [shipOrder.indexOf(name)] *)
Definition indexOf (l : list string) (n : string) : Z :=
  match findIndex (λ m, bool_decide (m = n)) l with
  | Some i => Z.of_nat i
  | None => -1
  end.

(** [Array.prototype.sort] with the comparator [key(a) - key(b)]: the sort
    is stable, so that its result is the one of the insertion sort that
    keeps elements of equal key in their order. *)
Fixpoint insert_by {A} (key : A → Z) (a : A) (l : list A) : list A :=
  match l with
  | [] => [a]
  | b :: l' => if decide (key b < key a) then b :: insert_by key a l'
               else a :: b :: l'
  end.

Definition sort_by {A} (key : A → Z) (l : list A) : list A :=
  foldr (insert_by key) [] l.

(** [placeAllShipsRandomly(shipsConfig, gridDimensions)], which starts
    again when a ship finds no place.  [restarts] bounds the number of
    resets: the function returns [None] when the bound is passed, and where
    the code throws. *)
Fixpoint placeAllShipsRandomly (restarts : nat) (shipsConfig : list ShipConfig)
    (d : Dimensions) (rnd : nat → Draw) (k : nat)
  : option (Grid * list Ship) :=
  r ← placeFleet shipsConfig k (createEmptyGrid (rows d) (cols d)) [] d rnd;
  match r with
  | inl (newGrid, newShips) =>
      let shipOrder := cfg_name <$> shipsConfig in
      Some (newGrid, sort_by (λ s, indexOf shipOrder (ship_name s)) newShips)
  | inr k' =>
      match restarts with
      | O => None
      | S n => placeAllShipsRandomly n shipsConfig d rnd k'
      end
  end.

(** [{ ...player, grid, ships, isReady: true }] *)
Definition placeShipsForAI (restarts : nat) (player : Player)
    (shipsConfig : list ShipConfig) (d : Dimensions) (rnd : nat → Draw)
  : option Player :=
  '(g, ss) ← placeAllShipsRandomly restarts shipsConfig d rnd 0;
  Some (mkPlayer (player_id player) (player_name player) (isAI player) g ss
          (shots player) true (isEliminated player) (score player)
          (skillCooldowns player) (skillUses player) (decoyPositions player)
          (jammedPositions player) (jamTurnsRemaining player)
          (escapeSkillUnlocked player)).

(** *** [advanceTurn] *)

(** The loop over [skillCooldowns]: every positive counter loses one. *)
Definition tickCooldowns (m : gmap string Z) : gmap string Z :=
  (λ v, if decide (v > 0) then v - 1 else v) <$> m.

(** The jam timer of the player whose turn ends; the second component tells
    whether the timer reached zero in this call. *)
Definition tickJam (p : Player) : Player * bool :=
  if decide (jamTurnsRemaining p > 0) then
    let r := jamTurnsRemaining p - 1 in
    if decide (r = 0)
    then (p_set_jammedPositions [] (p_set_jamTurnsRemaining r p), true)
    else (p_set_jamTurnsRemaining r p, false)
  else (p, false).

(** The [while] loop that skips eliminated players.  [cur] is the index of
    the current player, [None] for [-1].  With [n] players the test runs at
    most [n + 1] times when the loop terminates at all; running out of
    fuel is the loop that never ends (no current player and every player
    eliminated).  [None] also covers the [TypeError] on an empty list of
    players. *)
Fixpoint skipEliminated (fuel : nat) (ps : list Player) (cur : option nat)
    (next : nat) : option nat :=
  match fuel with
  | O => None
  | S fuel' =>
      p ← ps !! next;
      if isEliminated p then
        let next' := ((next + 1) mod length ps)%nat in
        if bool_decide (cur = Some next') then Some next'
        else skipEliminated fuel' ps cur next'
      else Some next
  end.

Definition advanceTurn (gameState : GameState) : option GameState :=
  let cur := findPlayer (currentPlayerId gameState) (players gameState) in
  let gs1 :=
    match cur with
    | Some ci =>
        match players gameState !! ci with
        | Some currentTurnPlayer =>
            let p1 :=
              match gameMode gameState with
              | TACTICAL =>
                  p_set_skillCooldowns
                    (tickCooldowns (skillCooldowns currentTurnPlayer))
                    currentTurnPlayer
              | CLASSIC => currentTurnPlayer
              end in
            let '(p2, cleared) := tickJam p1 in
            let gs' := g_set_players (<[ci := p2]> (players gameState))
                                     gameState in
            if cleared &&
               bool_decide (fst <$> jammedArea gameState
                            = Some (player_id currentTurnPlayer))
            then g_set_jammedArea None gs' else gs'
        | None => gameState
        end
    | None => gameState
    end in
  let n := length (players gs1) in
  if bool_decide (n = 0)%nat then None
  else
    let next0 := match cur with
                 | Some ci => ((ci + 1) mod n)%nat
                 | None => 0%nat
                 end in
    nextPlayerIndex ← skipEliminated (S n) (players gs1) cur next0;
    nextPlayer ← players gs1 !! nextPlayerIndex;
    let hasMultipleHumans :=
      bool_decide
        (1 < length (filter (λ p, isAI p = false) (players gs1)))%nat in
    let gs2 := if negb (isAI nextPlayer) && hasMultipleHumans
               then g_set_phase TURN_TRANSITION gs1 else gs1 in
    Some (g_set_radarScanResult None
           (g_set_activeAction None
              (g_set_currentPlayerId (Some (player_id nextPlayer))
                 (g_set_hasActedThisTurn false
                    (g_set_turn (turn gs1 + 1) gs2))))).

(** *** [processShot] *)

(** [hitShip.positions.every(pos => grid[pos.y][pos.x] === HIT)]; [every]
    stops at the first position that does not read [HIT]. *)
Fixpoint every_hit (g : Grid) (ps : list Pos) : option bool :=
  match ps with
  | [] => Some true
  | p :: ps' =>
      cell_read g (px p) (py p) ≫= λ c : option CellState,
      if bool_decide (c = Some HIT) then every_hit g ps' else Some false
  end.

(** [attacker.shots[targetPlayerId]], allocated on first use. *)
Definition shots_for (attacker : Player) (targetPlayerId : string)
    (d : Dimensions) : Grid :=
  default (createEmptyGrid (rows d) (cols d))
          (shots attacker !! targetPlayerId).

(** [attacker.shots[targetPlayerId] = g], on the player object itself. *)
Definition store_shots (targetPlayerId : string) (g : Grid) (p : Player)
  : Player :=
  p_set_shots (<[targetPlayerId := g]> (shots p)) p.

(** [newGameState.hitLog[target.id][`${x},${y}`] = newGameState.turn], the
    two missing levels being created first. *)
Definition record_hit (targetId : string) (x y t : Z)
    (h : gmap string (gmap (Z * Z) Z)) : gmap string (gmap (Z * Z) Z) :=
  <[targetId := <[(x, y) := t]> (default ∅ (h !! targetId))]> h.

Definition shot_log (gs : GameState) (attacker target : Player) (x y : Z)
    (r : LogResult) (sunkName hitName : option string) : GameLogEntry :=
  mkLog (turn gs) (player_id attacker) (player_name attacker)
        (Some (player_id target)) (Some (player_name target))
        (Some (mkPos x y)) r sunkName hitName None.

Definition is_open_cell_tactical (c : option CellState) : bool :=
  bool_decide (c = Some EMPTY) || bool_decide (c = Some RADAR_CONTACT).

Definition processShot_tactical (gameState : GameState) (ai : nat)
    (attacker : Player) (targetPlayerId : string) (x y : Z)
  : option GameState :=
  let shotsGrid :=
    shots_for attacker targetPlayerId (gridDimensions gameState) in
  currentShotCellState ← cell_read shotsGrid x y;
  if negb (is_open_cell_tactical currentShotCellState) then Some gameState
  else
    ti ← findPlayer (Some targetPlayerId) (players gameState);
    target ← players gameState !! ti;
    match findIndex (pos_eqb x y) (decoyPositions target) with
    | Some decoyIndex =>
        shots1 ← cell_write shotsGrid x y HIT;
        c ← cell_read (grid target) x y;
        grid1 ← (if bool_decide (c = Some DECOY)
                 then cell_write (grid target) x y EMPTY
                 else Some (grid target));
        let ps1 := alter (store_shots targetPlayerId shots1) ai
                         (players gameState) in
        let ps2 := alter (λ p, p_set_grid grid1
                     (p_set_decoyPositions
                        (delete decoyIndex (decoyPositions p)) p)) ti ps1 in
        Some (g_set_hasActedThisTurn false
               (g_set_log
                  (shot_log gameState attacker target x y R_HIT None
                     (Some "unidentified contact"%string) :: log gameState)
                  (g_set_players ps2 gameState)))
    | None =>
        targetCell ← cell_read (grid target) x y;
        if bool_decide (targetCell = Some SHIP) then
          shots1 ← cell_write shotsGrid x y HIT;
          si ← findIndex (ship_at x y) (ships target);
          hitShip ← ships target !! si;
          grid1 ← cell_write (grid target) x y HIT;
          let isMother :=
            bool_decide (ship_type hitShip = "Mothership"%string) in
          let newHitLog :=
            record_hit (player_id target) x y (turn gameState)
                       (hitLog gameState) in
          every_hit grid1 (positions hitShip) ≫= λ sunk : bool,
          if sunk then
            grid2 ← cells_write grid1 (positions hitShip) SUNK;
            shots2 ← cells_write shots1 (positions hitShip) SUNK;
            let ps1 := alter (store_shots targetPlayerId shots2) ai
                             (players gameState) in
            let ps2 := alter (λ p,
                  p_set_isEliminated (isMother || isEliminated p)
                   (p_set_escapeSkillUnlocked
                      (isMother || escapeSkillUnlocked p)
                      (p_set_ships
                         (alter (λ s, ship_set_isSunk true
                                        (ship_set_isDamaged true s))
                                si (ships p))
                         (p_set_grid grid2 p)))) ti ps1 in
            let gs1 :=
              g_set_log
                (shot_log gameState attacker target x y R_SUNK_SHIP
                   (Some (ship_name hitShip)) None :: log gameState)
                (g_set_hitLog newHitLog
                   (g_set_hasActedThisTurn isMother
                      (g_set_players ps2 gameState))) in
            Some (if isMother
                  then g_set_winner (Some (player_id attacker))
                         (g_set_phase GAME_OVER gs1)
                  else gs1)
          else
            let ps1 := alter (store_shots targetPlayerId shots1) ai
                             (players gameState) in
            let ps2 := alter (λ p,
                   p_set_escapeSkillUnlocked
                      (isMother || escapeSkillUnlocked p)
                      (p_set_ships
                         (alter (ship_set_isDamaged true) si (ships p))
                         (p_set_grid grid1 p))) ti ps1 in
            Some (g_set_log
                    (shot_log gameState attacker target x y R_HIT None
                       (Some (ship_name hitShip)) :: log gameState)
                    (g_set_hitLog newHitLog
                       (g_set_hasActedThisTurn isMother
                          (g_set_players ps2 gameState))))
        else
          shots1 ← cell_write shotsGrid x y MISS;
          grid1 ← (if bool_decide (targetCell = Some DECOY)
                   then Some (grid target)
                   else cell_write (grid target) x y MISS);
          let ps1 := alter (store_shots targetPlayerId shots1) ai
                           (players gameState) in
          let ps2 := alter (p_set_grid grid1) ti ps1 in
          Some (g_set_hasActedThisTurn true
                 (g_set_log
                    (shot_log gameState attacker target x y R_MISS None None
                       :: log gameState)
                    (g_set_players ps2 gameState)))
    end.

(** [targetCell === SHIP || targetCell === HIT || targetCell === SUNK] *)
Definition is_hit_cell_classic (c : option CellState) : bool :=
  bool_decide (c = Some SHIP) || bool_decide (c = Some HIT)
  || bool_decide (c = Some SUNK).

(** The tail of the classic branch: elimination of the target, end of the
    game, and the log entry. *)
Definition classic_finish (gameState : GameState) (attacker : Player)
    (ti : nat) (ps2 : list Player) (acted : bool) (entry : GameLogEntry)
  : GameState :=
  let ps3 := alter (λ p, if forallb isSunk (ships p)
                         then p_set_isEliminated true p else p) ti ps2 in
  let activePlayers := filter (λ p, isEliminated p = false) ps3 in
  let gs1 := g_set_hasActedThisTurn acted (g_set_players ps3 gameState) in
  let gs2 :=
    if bool_decide (length activePlayers ≤ 1)%nat then
      g_set_hasActedThisTurn true
        (g_set_winner (player_id <$> head activePlayers)
           (g_set_phase GAME_OVER gs1))
    else gs1 in
  g_set_log (entry :: log gameState) gs2.

Definition processShot_classic (gameState : GameState) (ai : nat)
    (attacker : Player) (targetPlayerId : string) (x y : Z)
  : option GameState :=
  ti ← findPlayer (Some targetPlayerId) (players gameState);
  target ← players gameState !! ti;
  let shotsGrid :=
    shots_for attacker targetPlayerId (gridDimensions gameState) in
  c ← cell_read shotsGrid x y;
  if negb (bool_decide (c = Some EMPTY)) then Some gameState
  else
    targetCell ← cell_read (grid target) x y;
    if is_hit_cell_classic targetCell then
      shots1 ← cell_write shotsGrid x y HIT;
      grid1 ← cell_write (grid target) x y HIT;
      match findIndex (ship_at x y) (ships target) with
      | Some si =>
          hitShip ← ships target !! si;
          every_hit grid1 (positions hitShip) ≫= λ sunk : bool,
          if sunk then
            grid2 ← cells_write grid1 (positions hitShip) SUNK;
            shots2 ← cells_write shots1 (positions hitShip) SUNK;
            let ps1 := alter (store_shots targetPlayerId shots2) ai
                             (players gameState) in
            let ps2 := alter (λ p,
                   p_set_ships (alter (ship_set_isSunk true) si (ships p))
                               (p_set_grid grid2 p)) ti ps1 in
            Some (classic_finish gameState attacker ti ps2
                    false
                    (shot_log gameState attacker target x y R_SUNK_SHIP
                       (Some (ship_name hitShip)) (Some (ship_name hitShip))))
          else
            let ps1 := alter (store_shots targetPlayerId shots1) ai
                             (players gameState) in
            let ps2 := alter (p_set_grid grid1) ti ps1 in
            Some (classic_finish gameState attacker ti ps2 false
                    (shot_log gameState attacker target x y R_HIT None
                       (Some (ship_name hitShip))))
      | None =>
          let ps1 := alter (store_shots targetPlayerId shots1) ai
                           (players gameState) in
          let ps2 := alter (p_set_grid grid1) ti ps1 in
          Some (classic_finish gameState attacker ti ps2 false
                  (shot_log gameState attacker target x y R_HIT None None))
      end
    else
      shots1 ← cell_write shotsGrid x y MISS;
      grid1 ← cell_write (grid target) x y MISS;
      let ps1 := alter (store_shots targetPlayerId shots1) ai
                       (players gameState) in
      let ps2 := alter (p_set_grid grid1) ti ps1 in
      Some (classic_finish gameState attacker ti ps2 true
              (shot_log gameState attacker target x y R_MISS None None))
  .

(** [processShot(gameState, targetPlayerId, x, y)].  The state is copied
    with [JSON.parse(JSON.stringify(gameState))]; the guard returns the
    argument itself, every other path the modified copy. *)
Definition processShot (gameState : GameState) (targetPlayerId : string)
    (x y : Z) : option GameState :=
  ai ← findPlayer (currentPlayerId gameState) (players gameState);
  attacker ← players gameState !! ai;
  match gameMode gameState with
  | TACTICAL => processShot_tactical gameState ai attacker targetPlayerId x y
  | CLASSIC => processShot_classic gameState ai attacker targetPlayerId x y
  end.

(** ** The skill engine: [handleUseSkill] of [App.tsx]

    The engine is the function the specification calls [useSkill].  The
    game state it works on is the argument [gameStateOverride] or the state
    held by the component; both are the parameter [sourceGame] here, and
    [game!.gridDimensions] is the dimensions of that state, which never
    change during a game.  [showToast] is returned as the field [toast];
    [setGame] stores the returned state and is not modelled. *)

Record SkillOptions := mkOpts {
  opt_x : Z;
  opt_y : Z;
  opt_isHorizontal : bool;
  opt_targetShipType : option string;
}.

Record SkillResult := mkResult {
  success : bool;
  newState : GameState;
  toast : option string;
}.

Definition skill_log (gs : GameState) (attacker : Player) (msg : string)
  : GameLogEntry :=
  mkLog (turn gs) (player_id attacker) (player_name attacker)
        None None None R_SKILL_USED None None (Some msg).

(** The exit with [actionTaken = false]. *)
Definition skill_fail (gs : GameState) (msg : option string) : SkillResult :=
  mkResult false (g_set_activeAction None gs) msg.

(** The exit with [actionTaken = true]. *)
Definition skill_done (gs : GameState) (entry : GameLogEntry) : SkillResult :=
  mkResult true
    (g_set_activeAction None
       (g_set_hasActedThisTurn true (g_set_log (entry :: log gs) gs)))
    None.

(** [if (player.shots[attacker.id]?.[pos.y]?.[pos.x])
       player.shots[attacker.id][pos.y][pos.x] = EMPTY], for every position
    of [ps]. *)
Definition forget_cells (aid : string) (ps : list Pos) (p : Player)
  : Player :=
  match shots p !! aid with
  | Some g => p_set_shots (<[aid := clear_cells g ps]> (shots p)) p
  | None => p
  end.

(** The [forEach] over the players other than the attacker. *)
Definition forget_for_opponents (aid : string) (ps : list Pos)
    (players : list Player) : list Player :=
  (λ p, if bool_decide (player_id p = aid) then p
        else forget_cells aid ps p) <$> players.

(** [originalPositions.forEach(pos =>
       attacker.grid[pos.y][pos.x] = pos.state)] *)
Fixpoint restore_cells (g : Grid) (l : list SavedCell) : option Grid :=
  match l with
  | [] => Some g
  | c :: l' =>
      g' ← cell_write g (sv_x c) (sv_y c) (sv_state c); restore_cells g' l'
  end.

Definition saved_pos (c : SavedCell) : Pos := mkPos (sv_x c) (sv_y c).

(** The opponent: [players.find(p => p.id !== attacker.id)]. *)
Definition findOpponent (attacker : Player) (ps : list Player)
  : option nat :=
  findIndex (λ p, negb (bool_decide (player_id p = player_id attacker))) ps.

(** The four cells of a radar scan, in the order of the two loops. *)
Definition scan_cells (x y : Z) : list Pos :=
  i ← [0; 1]; j ← [0; 1]; [mkPos (x + j) (y + i)].

(** The body of the two loops of the radar scan.  The shot grid [sg] and
    the opponent's grid [og] are read only for a cell that passes the
    bounds test; they are [None] when the opponent or the shot grid is
    [undefined]. *)
Fixpoint radar_scan (sg og : option Grid) (d : Dimensions) (cs : list Pos)
  : option (list ScanCell) :=
  match cs with
  | [] => Some []
  | c :: cs' =>
      if bool_decide (px c < cols d ∧ py c < rows d) then
        g ← sg;
        seen ← cell_read g (px c) (py c);
        if bool_decide (seen = Some EMPTY) then
          g' ← og;
          opponentCell ← cell_read g' (px c) (py c);
          rest ← radar_scan sg og d cs';
          Some (mkScan (px c) (py c)
                  (if bool_decide (opponentCell = Some SHIP)
                      || bool_decide (opponentCell = Some DECOY)
                   then RADAR_CONTACT else MISS) :: rest)
        else radar_scan sg og d cs'
      else radar_scan sg og d cs'
  end.

(** The cells of a jam: the 3x3 block around [(x, y)], clipped. *)
Definition jam_cells (x y : Z) (d : Dimensions) : list Pos :=
  filter (λ c, 0 <= px c ∧ px c < cols d ∧ 0 <= py c ∧ py c < rows d)
         (i ← [-1; 0; 1]; j ← [-1; 0; 1]; [mkPos (x + j) (y + i)]).

(** [p.shots[attacker.id] && (p.shots[attacker.id][y][x] = EMPTY)], for
    every player. *)
Fixpoint hide_cell (aid : string) (x y : Z) (ps : list Player)
  : option (list Player) :=
  match ps with
  | [] => Some []
  | p :: ps' =>
      p' ← match shots p !! aid with
           | Some g =>
               g' ← cell_write g x y EMPTY;
               Some (p_set_shots (<[aid := g']> (shots p)) p)
           | None => Some p
           end;
      rest ← hide_cell aid x y ps';
      Some (p' :: rest)
  end.

(** [positions.some(p => grid[p.y][p.x] === HIT)] *)
Fixpoint some_hit (g : Grid) (ps : list Pos) : option bool :=
  match ps with
  | [] => Some false
  | p :: ps' =>
      cell_read g (px p) (py p) ≫= λ c : option CellState,
      if bool_decide (c = Some HIT) then Some true else some_hit g ps'
  end.

Definition is_type (t : string) (s : Ship) : bool :=
  bool_decide (ship_type s = t).

Definition is_named (n : string) (s : Ship) : bool :=
  bool_decide (ship_name s = n).

Definition set_cooldown (k : string) (v : Z) (p : Player) : Player :=
  p_set_skillCooldowns (<[k := v]> (skillCooldowns p)) p.

Definition set_uses (k : string) (v : Z) (p : Player) : Player :=
  p_set_skillUses (<[k := v]> (skillUses p)) p.

Definition escape_message (attacker : Player) : string :=
  player_name attacker
    +:+ " used Escape! The Mothership has been repaired and relocated!".

(** The case ['Mothership'].  In the branch of the human player
    [originalPositions] is read where the code uses it: inside the loop
    over the other players when the placement is accepted, and when it is
    rejected. *)
Definition skill_Mothership (gs : GameState) (ai : nat) (attacker : Player)
    (options : SkillOptions) (isAI : bool) (rnd : nat → Draw)
  : option SkillResult :=
  let d := gridDimensions gs in
  if isAI then
    let mi := findIndex (is_type "Mothership") (ships attacker) in
    let mothership := mi ≫= λ i, ships attacker !! i in
    placement ← findRandomValidPlacement attacker mothership d rnd;
    match placement with
    | Some (x, y, isHorizontal) =>
        shipIndex ← mi;
        m ← mothership;
        gridWithoutOldShip ← cells_write (grid attacker) (positions m) EMPTY;
        let ps1 := forget_for_opponents (player_id attacker) (positions m)
                     (players gs) in
        '(newGrid, newShip) ← placeShip gridWithoutOldShip m x y isHorizontal;
        let ps2 := alter (λ p,
              set_uses "Mothership" 0
                (p_set_grid newGrid
                   (p_set_ships
                      (<[shipIndex := ship_set_isDamaged false newShip]>
                         (ships p)) p))) ai ps1 in
        Some (skill_done (g_set_players ps2 gs)
                (skill_log gs attacker (escape_message attacker)))
    | None => Some (skill_fail gs None)
    end
  else
    action ← activeAction gs;
    mothershipFromAction ← act_shipToMove action;
    let x := opt_x options in
    let y := opt_y options in
    let isHorizontal := opt_isHorizontal options in
    canPlaceShip (grid attacker) (ship_length mothershipFromAction)
                 x y isHorizontal d ≫= λ ok : bool,
    mi ← findIndex (is_type "Mothership") (ships attacker);
    m ← ships attacker !! mi;
    if ok then
      ps1 ← (if forallb (λ p, bool_decide (player_id p = player_id attacker))
                        (players gs)
             then Some (players gs)
             else
               originalPositions ← act_originalPositions action;
               Some (forget_for_opponents (player_id attacker)
                       (saved_pos <$> originalPositions) (players gs)));
      '(newGrid, newShip) ← placeShip (grid attacker) m x y isHorizontal;
      let ps2 := alter (λ p,
            set_uses "Mothership" 0
              (p_set_grid newGrid
                 (p_set_ships
                    (alter (λ s, ship_set_positions (positions newShip)
                                   (ship_set_isDamaged false s))
                           mi (ships p)) p))) ai ps1 in
      Some (skill_done (g_set_players ps2 gs)
              (skill_log gs attacker (escape_message attacker)))
    else
      originalPositions ← act_originalPositions action;
      restored ← restore_cells (grid attacker) originalPositions;
      let ps1 := alter (λ p,
            p_set_grid restored
              (p_set_ships
                 (alter (ship_set_positions (saved_pos <$> originalPositions))
                        mi (ships p)) p)) ai (players gs) in
      Some (skill_fail (g_set_players ps1 gs)
              (Some "Invalid placement for escape maneuver."%string))
  .

Definition skill_Radarship (gs : GameState) (ai : nat) (attacker : Player)
    (options : SkillOptions) : option SkillResult :=
  let opponent := findOpponent attacker (players gs) ≫= λ oi,
                  players gs !! oi in
  scanResults ← radar_scan
                  (opponent ≫= λ o, shots attacker !! player_id o)
                  (grid <$> opponent) (gridDimensions gs)
                  (scan_cells (opt_x options) (opt_y options));
  let ps1 := alter (set_cooldown "Radarship" 3) ai (players gs) in
  Some (skill_done
          (g_set_radarScanResult (Some (player_id attacker, scanResults))
             (g_set_players ps1 gs))
          (skill_log gs attacker "Radar Scan used. Cooldown set to 3 turns.")).

Definition skill_Jamship (gs : GameState) (ai : nat) (attacker : Player)
    (options : SkillOptions) : option SkillResult :=
  oi ← findOpponent attacker (players gs);
  opponent ← players gs !! oi;
  let jammedCoords :=
    jam_cells (opt_x options) (opt_y options) (gridDimensions gs) in
  let ps1 := alter (λ p, p_set_jamTurnsRemaining 1
                           (p_set_jammedPositions jammedCoords p))
                   oi (players gs) in
  let ps2 := alter (set_cooldown "Jamship" 4) ai ps1 in
  Some (skill_done
          (g_set_jammedArea (Some (player_id opponent, jammedCoords))
             (g_set_players ps2 gs))
          (skill_log gs attacker
             (player_name attacker +:+ " used Jam. Cooldown set to 4 turns."))).

(** [hitLog?.[attacker.id]?.[`${x},${y}`] ?? 999] *)
Definition damage_turn (gs : GameState) (pid : string) (x y : Z) : Z :=
  default 999 (hitLog gs !! pid ≫= λ m, m !! (x, y)).

Definition skill_Repairship (gs : GameState) (ai : nat) (attacker : Player)
    (options : SkillOptions) (isAI : bool) : option SkillResult :=
  let x := opt_x options in
  let y := opt_y options in
  let ri := findIndex (ship_at x y) (ships attacker) in
  let repairedShip := ri ≫= λ i, ships attacker !! i in
  let rejection :=
    Some (skill_fail gs
            (if isAI then None
             else Some "Cannot repair this part."%string)) in
  if from_option isSunk false repairedShip then rejection
  else if from_option hasBeenRepaired false repairedShip then rejection
  else
    cell_read (grid attacker) x y ≫= λ c : option CellState,
    if negb (bool_decide (c = Some HIT)) then rejection
    else if bool_decide
              (damage_turn gs (player_id attacker) x y >= turn gs)
    then rejection
    else
      grid1 ← cell_write (grid attacker) x y SHIP;
      ps1 ← hide_cell (player_id attacker) x y
             (alter (p_set_grid grid1) ai (players gs));
      i ← ri;
      ship ← repairedShip;
      isStillDamaged ← some_hit grid1 (positions ship);
      let ps2 := alter (λ p,
            p_set_ships
              (alter (λ s, ship_set_isDamaged isStillDamaged
                             (ship_set_hasBeenRepaired true s))
                     i (ships p))
              (set_cooldown "Repairship" 3 p)) ai ps1 in
      Some (skill_done (g_set_players ps2 gs)
              (skill_log gs attacker
                 (player_name attacker +:+ " repaired their "
                  +:+ ship_name ship +:+ ". Cooldown: 3 turns."
                  +:+ (if isStillDamaged then ""
                       else " It's fully repaired and hidden!")))).

(** [attacker.skillUses.Decoyship!--].  The counter is present for every
    tactical player ([createInitialPlayer]).  For a player without the
    counter JavaScript stores [NaN], which no value of the model stands
    for: the model leaves the counter absent, and what is stated of the
    counter is stated of a counter that is present. *)
Definition skill_Decoyship (gs : GameState) (ai : nat) (attacker : Player)
    (options : SkillOptions) (isAI : bool) : option SkillResult :=
  let x := opt_x options in
  let y := opt_y options in
  cell_read (grid attacker) x y ≫= λ c : option CellState,
  if bool_decide (c = Some EMPTY) then
    grid1 ← cell_write (grid attacker) x y DECOY;
    let ps1 := alter (λ p,
          p_set_skillUses (alter (λ u, u - 1) "Decoyship"%string (skillUses p))
            (p_set_decoyPositions (decoyPositions p ++ [mkPos x y])
               (p_set_grid grid1 p))) ai (players gs) in
    Some (skill_done (g_set_players ps1 gs)
            (skill_log gs attacker
               (player_name attacker +:+ " deployed a decoy beacon.")))
  else
    Some (skill_fail gs
            (if isAI then None
             else Some "Cannot place decoy there."%string)).

Definition skill_Commandship (gs : GameState) (ai : nat) (attacker : Player)
    (options : SkillOptions) (isAI : bool) (rnd : nat → Draw)
  : option SkillResult :=
  let d := gridDimensions gs in
  if isAI then
    match find (λ s, bool_decide (Some (ship_type s)
                                  = opt_targetShipType options))
               (ships attacker) with
    | None => Some (skill_fail gs None)
    | Some shipToMove =>
        if isDamaged shipToMove || isSunk shipToMove
           || hasBeenRelocated shipToMove
        then Some (skill_fail gs None)
        else
          placement ← findRandomValidPlacement attacker (Some shipToMove)
                        d rnd;
          match placement with
          | Some (x, y, isHorizontal) =>
              gridWithoutShip ← cells_write (grid attacker)
                                  (positions shipToMove) EMPTY;
              '(newGrid, newShip) ← placeShip gridWithoutShip shipToMove
                                      x y isHorizontal;
              shipIndex ← findIndex (is_named (ship_name newShip))
                            (ships attacker);
              let ps1 := alter (λ p,
                    set_cooldown "Commandship" 4
                      (p_set_grid newGrid
                         (p_set_ships
                            (<[shipIndex :=
                                 ship_set_hasBeenRelocated true newShip]>
                               (ships p)) p))) ai (players gs) in
              Some (skill_done (g_set_players ps1 gs)
                      (skill_log gs attacker
                         (player_name attacker +:+ " relocated their "
                          +:+ ship_name shipToMove +:+ ".")))
          | None => Some (skill_fail gs None)
          end
    end
  else
    action ← activeAction gs;
    shipToMoveFromAction ← act_shipToMove action;
    let x := opt_x options in
    let y := opt_y options in
    let isHorizontal := opt_isHorizontal options in
    canPlaceShip (grid attacker) (ship_length shipToMoveFromAction)
                 x y isHorizontal d ≫= λ ok : bool,
    shipIndex ← findIndex (is_named (ship_name shipToMoveFromAction))
                  (ships attacker);
    ship ← ships attacker !! shipIndex;
    if ok then
      '(newGrid, newShip) ← placeShip (grid attacker) ship x y isHorizontal;
      let ps1 := alter (λ p,
            set_cooldown "Commandship" 4
              (p_set_grid newGrid
                 (p_set_ships
                    (<[shipIndex := ship_set_hasBeenRelocated true newShip]>
                       (ships p)) p))) ai (players gs) in
      Some (skill_done (g_set_players ps1 gs)
              (skill_log gs attacker
                 (player_name attacker +:+ " relocated their "
                  +:+ ship_name shipToMoveFromAction +:+ ".")))
    else
      originalPositions ← act_originalPositions action;
      restored ← restore_cells (grid attacker) originalPositions;
      let ps1 := alter (λ p,
            p_set_grid restored
              (p_set_ships
                 (alter (ship_set_positions (saved_pos <$> originalPositions))
                        shipIndex (ships p)) p)) ai (players gs) in
      Some (skill_fail (g_set_players ps1 gs)
              (Some "Invalid placement for relocation."%string))
  .

(** [handleUseSkill(skillType, options, isAI, gameStateOverride)].  A
    [skillType] outside the six cases of the [switch] falls through with
    [actionTaken] still true. *)
Definition useSkill (skillType : string) (options : SkillOptions)
    (isAI : bool) (rnd : nat → Draw) (sourceGame : GameState)
  : option SkillResult :=
  ai ← findPlayer (currentPlayerId sourceGame) (players sourceGame);
  attacker ← players sourceGame !! ai;
  if String.eqb skillType "Mothership" then
    skill_Mothership sourceGame ai attacker options isAI rnd
  else if String.eqb skillType "Radarship" then
    skill_Radarship sourceGame ai attacker options
  else if String.eqb skillType "Jamship" then
    skill_Jamship sourceGame ai attacker options
  else if String.eqb skillType "Repairship" then
    skill_Repairship sourceGame ai attacker options isAI
  else if String.eqb skillType "Decoyship" then
    skill_Decoyship sourceGame ai attacker options isAI
  else if String.eqb skillType "Commandship" then
    skill_Commandship sourceGame ai attacker options isAI rnd
  else
    Some (skill_done sourceGame
            (skill_log sourceGame attacker (skillType +:+ " used"))).

(** ** The action gate of the user interface: [handleActionSelect] of
    [GamePhase.tsx] *)

Inductive SelectOutcome :=
  | NoEffect
  | SetActiveAction (a : option ActiveAction)
  | ActivateMothershipEscape.

Definition is_attack_action (a : ActiveAction) : bool :=
  match act_type a with ATTACK => true | SKILL => false end.

(** [handleActionSelect(actionType)] of the component rendered for
    [playerId]; the component renders nothing, and has no handler, when
    the local player is not found. *)
Definition handleActionSelect (game : GameState) (playerId : string)
    (actionType : string) : SelectOutcome :=
  match find (λ p, bool_decide (player_id p = playerId)) (players game) with
  | None => NoEffect
  | Some localPlayer =>
      let isMyTurn := bool_decide (currentPlayerId game = Some playerId) in
      let canTakeAction := isMyTurn && negb (hasActedThisTurn game) in
      if negb canTakeAction then NoEffect
      else if match activeAction game with
              | Some a =>
                  bool_decide (act_shipType a = Some actionType)
                  || (String.eqb actionType "ATTACK" && is_attack_action a)
              | None => false
              end
      then SetActiveAction None
      else if String.eqb actionType "ATTACK"
      then SetActiveAction
             (Some (mkAction playerId ATTACK None None None None None))
      else
        match find (is_type actionType) (ships localPlayer) with
        | None => NoEffect
        | Some ship =>
            if isSunk ship then NoEffect
            else
              let cooldown :=
                default 0 (skillCooldowns localPlayer !! actionType) in
              let uses := default 1 (skillUses localPlayer !! actionType) in
              if bool_decide (cooldown > 0) || bool_decide (uses <= 0)
              then NoEffect
              else if String.eqb actionType "Mothership"
              then ActivateMothershipEscape
              else
                let stage :=
                  if String.eqb actionType "Commandship"
                  then Some SELECT_SHIP
                  else if String.eqb actionType "Decoyship"
                  then Some PLACE_DECOY
                  else None in
                SetActiveAction
                  (Some (mkAction playerId SKILL (Some actionType) stage
                           None None None))
        end
  end.

(** ** The AI: [geminiService.ts] *)

(** [shotsGrid[y]?.[x] ?? EMPTY] *)
Definition shot_at (g : Grid) (x y : Z) : CellState :=
  default EMPTY (cell_opt g x y).

Definition cells_h (len x y : Z) : list Pos :=
  (λ i, mkPos (x + i) y) <$> seqZ 0 len.

Definition cells_v (len x y : Z) : list Pos :=
  (λ i, mkPos x (y + i)) <$> seqZ 0 len.

Definition no_miss (g : Grid) (cs : list Pos) : bool :=
  forallb (λ c, negb (bool_decide (shot_at g (px c) (py c) = MISS))) cs.

Definition canShipBePlaced (shotsGrid : Grid) (len x y : Z)
    (isHorizontal : bool) (d : Dimensions) : bool :=
  if isHorizontal then
    if decide (x + len > cols d) then false
    else no_miss shotsGrid (cells_h len x y)
  else
    if decide (y + len > rows d) then false
    else no_miss shotsGrid (cells_v len x y).

(** The heatmap, [number[][]].  Every write of [buildProbabilityMap] is
    inside the map: the loops and [canShipBePlaced] bound the cells that
    are incremented, and the boost tests the bounds itself.  [pm_update]
    therefore leaves the map alone outside its range. *)
Abbreviation ProbMap := (list (list Z)).

Definition pm_update (f : Z → Z) (m : ProbMap) (c : Pos) : ProbMap :=
  if decide (0 <= px c ∧ 0 <= py c)
  then alter (alter f (Z.to_nat (px c))) (Z.to_nat (py c)) m
  else m.

Definition pm_lookup (m : ProbMap) (x y : Z) : option Z :=
  row ← zlookup m y; zlookup row x.

(** [probabilityMap[y][x]], read inside the map. *)
Definition pm_at (m : ProbMap) (x y : Z) : Z := default 0 (pm_lookup m x y).

Definition all_cells (d : Dimensions) : list Pos :=
  y ← seqZ 0 (rows d); x ← seqZ 0 (cols d); [mkPos x y].

Definition is_hit_at (g : Grid) (c : Pos) : bool :=
  bool_decide (shot_at g (px c) (py c) = HIT).

(** [hitCells]: the cells of the grid that read [HIT]. *)
Definition hitCells_of (g : Grid) (d : Dimensions) : list Pos :=
  filter (λ c, is_hit_at g c = true) (all_cells d).

(** One iteration of the innermost loop for one orientation. *)
Definition count_placement (g : Grid) (d : Dimensions) (hitCells : list Pos)
    (len x y : Z) (isHorizontal : bool) (m : ProbMap) : ProbMap :=
  if canShipBePlaced g len x y isHorizontal d then
    let cells := if isHorizontal then cells_h len x y else cells_v len x y in
    let placementHits := filter (λ c, is_hit_at g c = true) cells in
    let relevantHits :=
      if isHorizontal
      then filter (λ h, py h = y ∧ px h >= x ∧ px h < x + len) hitCells
      else filter (λ h, px h = x ∧ py h >= y ∧ py h < y + len) hitCells in
    if bool_decide (length placementHits = length relevantHits)
    then foldl (pm_update Z.succ) m cells
    else m
  else m.

Definition count_ship (g : Grid) (d : Dimensions) (hitCells : list Pos)
    (m : ProbMap) (ship : Ship) : ProbMap :=
  foldl (λ m1 y,
    foldl (λ m2 x,
      count_placement g d hitCells (ship_length ship) x y false
        (count_placement g d hitCells (ship_length ship) x y true m2))
      m1 (seqZ 0 (cols d)))
    m (seqZ 0 (rows d)).

(** The raw counts, before the boost. *)
Definition rawProbabilityMap (opponent : Player) (g : Grid) (d : Dimensions)
  : ProbMap :=
  foldl (count_ship g d (hitCells_of g d))
        (replicate (Z.to_nat (rows d)) (replicate (Z.to_nat (cols d)) 0))
        (filter (λ s, isSunk s = false) (ships opponent)).

Definition adjacent (c : Pos) : list Pos :=
  [mkPos (px c) (py c - 1); mkPos (px c) (py c + 1);
   mkPos (px c - 1) (py c); mkPos (px c + 1) (py c)].

Definition in_grid (d : Dimensions) (c : Pos) : bool :=
  bool_decide (px c >= 0 ∧ px c < cols d ∧ py c >= 0 ∧ py c < rows d).

(** The test of the boost on a neighbour of a hit. *)
Definition boostable (g : Grid) (d : Dimensions) (c : Pos) : bool :=
  in_grid d c && bool_decide (shot_at g (px c) (py c) = EMPTY).

Definition boost (g : Grid) (d : Dimensions) (m : ProbMap) : ProbMap :=
  foldl (λ m1 hit,
    foldl (λ m2 cell,
      if boostable g d cell then pm_update (λ v, v * 5) m2 cell else m2)
      m1 (adjacent hit))
    m (hitCells_of g d).

Definition buildProbabilityMap (opponent : Player) (g : Grid)
    (d : Dimensions) : ProbMap :=
  boost g d (rawProbabilityMap opponent g d).

(** The cells of a heatmap in the order of the two loops of
    [findBestTargets]. *)
Definition pm_cells (m : ProbMap) : list Pos :=
  '(y, row) ← imap (λ i r, (Z.of_nat i, r)) m;
  (λ x, mkPos (Z.of_nat x) y) <$> seq 0 (length row).

Definition is_open_at (g : Grid) (c : Pos) : bool :=
  bool_decide (shot_at g (px c) (py c) = EMPTY)
  || bool_decide (shot_at g (px c) (py c) = RADAR_CONTACT).

Definition findBestTargets (m : ProbMap) (g : Grid) : list Pos :=
  snd (foldl (λ (acc : Z * list Pos) c,
          let '(maxProbability, bestTargets) := acc in
          if is_open_at g c then
            if decide (pm_at m (px c) (py c) > maxProbability)
            then (pm_at m (px c) (py c), [c])
            else if decide (pm_at m (px c) (py c) = maxProbability)
            then (maxProbability, bestTargets ++ [c])
            else acc
          else acc)
        (-1, []) (pm_cells m)).

(** The anchors of the 2x2 blocks, in the order of the loops. *)
Definition block_anchors (d : Dimensions) : list Pos :=
  y ← seqZ 0 (rows d - 1); x ← seqZ 0 (cols d - 1); [mkPos x y].

(** The sum of the four cells of the block at [c].  The cells are read
    with [pm_at]: on a map of the dimensions of the game ([map_shape]
    below) the blocks of [block_anchors] lie inside the map and every
    read finds its cell; outside the map, where JavaScript reads
    [undefined] and the sum is [NaN], or throws for a missing row, the
    model reads 0, and nothing is stated of [findBestRadarSpot] there. *)
Definition density (m : ProbMap) (c : Pos) : Z :=
  pm_at m (px c) (py c) + pm_at m (px c) (py c + 1)
  + pm_at m (px c + 1) (py c) + pm_at m (px c + 1) (py c + 1).

Definition findBestRadarSpot (m : ProbMap) (d : Dimensions) : Pos :=
  snd (foldl (λ (acc : Z * Pos) c,
          if decide (density m c > fst acc) then (density m c, c) else acc)
        (-1, mkPos 0 0) (block_anchors d)).

(** [findBestDecoySpot]; [minDensity] starts at [Infinity], here [None].
    [rnd] is the random value that selects among the spots. *)
Definition findBestDecoySpot (m : ProbMap) (g : Grid) (d : Dimensions)
    (rnd : nat) : option Pos :=
  let potentialSpots :=
    snd (foldl (λ (acc : option Z * list Pos) c,
            if bool_decide (shot_at g (px c) (py c) = EMPTY) then
              match fst acc with
              | None => (Some (density m c), [c])
              | Some minDensity =>
                  if decide (density m c < minDensity)
                  then (Some (density m c), [c])
                  else if decide (density m c = minDensity)
                  then (fst acc, snd acc ++ [c])
                  else acc
              end
            else acc)
          (None, []) (block_anchors d)) in
  potentialSpots !! (rnd mod length potentialSpots)%nat.

Definition relocatable (t : string) (s : Ship) : bool :=
  bool_decide (ship_type s = t) && negb (isDamaged s) && negb (isSunk s)
  && negb (hasBeenRelocated s).

Definition valuableShipsPriority : list string :=
  ["Mothership"; "Repairship"; "Jamship"; "Radarship"; "Decoyship";
   "Commandship"]%string.

Definition findShipToRelocate (aiPlayer opponent : Player) (d : Dimensions)
  : option Ship :=
  let opponentShotsGrid :=
    default (createEmptyGrid (rows d) (cols d))
            (shots opponent !! player_id aiPlayer) in
  let opponentProbabilityMap :=
    buildProbabilityMap aiPlayer opponentShotsGrid d in
  let threatened (t : string) : option Ship :=
    ship ← find (relocatable t) (ships aiPlayer);
    let shipThreat :=
      foldl (λ sum pos, sum + pm_at opponentProbabilityMap (px pos) (py pos))
            0 (positions ship) in
    if decide (shipThreat > ship_length ship * 2) then Some ship else None in
  head (omap threatened valuableShipsPriority).

Inductive AIMove :=
  | MoveAttack (coords : Pos)
  | MoveSkill (shipType : string) (coords : option Pos)
              (targetShipType : option string).

(** [(gameState.hitLog?.[aiPlayer.id]?.[`${pos.x},${pos.y}`] ?? 999)
      < gameState.turn] on a cell that reads [HIT]. *)
Definition repairable (gs : GameState) (aiPlayer : Player) (pos : Pos)
  : bool :=
  bool_decide (cell_opt (grid aiPlayer) (px pos) (py pos) = Some HIT)
  && bool_decide (damage_turn gs (player_id aiPlayer) (px pos) (py pos)
                  < turn gs).

(** The first ship of greatest length: [sort((a, b) => b.length - a.length)]
    is stable, and its first element is taken. *)
Definition longest (ss : list Ship) : option Ship :=
  foldl (λ best s,
           match best with
           | Some b => if decide (ship_length s > ship_length b)
                       then Some s else best
           | None => Some s
           end) None ss.

(** [Math.round(sum / n)] for a sum of coordinates: the nearest integer,
    halves upwards. *)
Definition round_div (sum n : Z) : Z := (2 * sum + n) / (2 * n).

Definition cooldown_of (p : Player) (k : string) : Z :=
  default 0 (skillCooldowns p !! k).

Definition uses_of (p : Player) (k : string) : Z :=
  default 0 (skillUses p !! k).

(** [getAITacticalMove(aiPlayer, opponent, gameState)].  [rnd1] and [rnd2]
    stand for the first and the second random number drawn: an index into
    a list of [n] elements is [rnd mod n]. *)
Definition getAITacticalMove (aiPlayer opponent : Player)
    (gameState : GameState) (rnd1 rnd2 : nat) : AIMove :=
  let d := gridDimensions gameState in
  let shotsGrid :=
    default (createEmptyGrid (rows d) (cols d))
            (shots aiPlayer !! player_id opponent) in
  let probabilityMap := buildProbabilityMap opponent shotsGrid d in
  let mothership := find (is_type "Mothership") (ships aiPlayer) in
  let escape :=
    match mothership with
    | Some m =>
        if isDamaged m && escapeSkillUnlocked aiPlayer
           && bool_decide (uses_of aiPlayer "Mothership" > 0)
        then Some (MoveSkill "Mothership" None None)
        else if isDamaged m
                && bool_decide (cooldown_of aiPlayer "Repairship" = 0)
                && negb (hasBeenRepaired m)
        then (λ pos, MoveSkill "Repairship" (Some pos) None)
               <$> find (repairable gameState aiPlayer) (positions m)
        else None
    | None => None
    end in
  let lethal :=
    match find (is_type "Mothership") (ships opponent) with
    | Some om =>
        if isDamaged om then
          let hitsOnMothership :=
            filter (λ pos, is_hit_at shotsGrid pos = true) (positions om) in
          if bool_decide (Z.of_nat (length hitsOnMothership)
                          = ship_length om - 1)
          then MoveAttack
                 <$> find (λ pos, bool_decide
                             (shot_at shotsGrid (px pos) (py pos) = EMPTY))
                          (positions om)
          else None
        else None
    | None => None
    end in
  let bestTargets := findBestTargets probabilityMap shotsGrid in
  let bestTarget := bestTargets !! (rnd1 mod length bestTargets)%nat in
  let confident :=
    match bestTarget with
    | Some b => if decide (pm_at probabilityMap (px b) (py b) > 10)
                then Some (MoveAttack b) else None
    | None => None
    end in
  let jam :=
    match find (is_type "Repairship") (ships opponent) with
    | Some opponentRepairShip =>
        if bool_decide (cooldown_of aiPlayer "Jamship" = 0)
           && existsb isDamaged (ships opponent)
           && negb (isSunk opponentRepairShip)
           && bool_decide (cooldown_of opponent "Repairship" = 0)
        then
          let hitCells := hitCells_of shotsGrid d in
          if bool_decide (0 < length hitCells)%nat then
            Some (MoveSkill "Jamship"
                    (Some (mkPos
                       (round_div (foldl (λ a c, a + px c) 0 hitCells)
                                  (Z.of_nat (length hitCells)))
                       (round_div (foldl (λ a c, a + py c) 0 hitCells)
                                  (Z.of_nat (length hitCells)))))
                    None)
          else None
        else None
    | None => None
    end in
  let relocate :=
    if bool_decide (cooldown_of aiPlayer "Commandship" = 0) then
      (λ s, MoveSkill "Commandship" None (Some (ship_type s)))
        <$> findShipToRelocate aiPlayer opponent d
    else None in
  let repair :=
    if bool_decide (cooldown_of aiPlayer "Repairship" = 0) then
      shipToRepair ← longest
        (filter (λ s, isDamaged s = true ∧ isSunk s = false
                      ∧ hasBeenRepaired s = false
                      ∧ ship_type s ≠ "Mothership"%string)
                (ships aiPlayer));
      (λ pos, MoveSkill "Repairship" (Some pos) None)
        <$> find (repairable gameState aiPlayer) (positions shipToRepair)
    else None in
  let radar :=
    if bool_decide (cooldown_of aiPlayer "Radarship" = 0)
    then Some (MoveSkill "Radarship"
                 (Some (findBestRadarSpot probabilityMap d)) None)
    else None in
  let decoy :=
    if bool_decide (uses_of aiPlayer "Decoyship" > 0) then
      (λ pos, MoveSkill "Decoyship" (Some pos) None)
        <$> findBestDecoySpot probabilityMap shotsGrid d rnd2
    else None in
  let fallback :=
    match bestTarget with
    | Some b => MoveAttack b
    | None =>
        let emptyCells :=
          filter (λ c, shot_at shotsGrid (px c) (py c) = EMPTY)
                 (all_cells d) in
        MoveAttack (default (mkPos 0 0)
                      (emptyCells !! (rnd2 mod length emptyCells)%nat))
    end in
  default fallback
    (head (omap id [escape; lethal; confident; jam; relocate; repair;
                    radar; decoy])).

(** *** [getAIMove]: the hunt and target strategy of the classic mode

    [shotsGrid?.[y]?.[x] || EMPTY] is [shot_at]: a cell state is never a
    falsy value.  [rnd] stands for the one random number that the function
    draws: an index into a list of [n] elements is [rnd mod n]. *)
Definition emptyCells_of (g : Grid) (d : Dimensions) : list Pos :=
  filter (λ c, shot_at g (px c) (py c) = EMPTY) (all_cells d).

Definition huntCells_of (g : Grid) (d : Dimensions) : list Pos :=
  filter (λ c, (px c + py c) mod 2 = 0) (emptyCells_of g d).

(** [if (!potentialTargets.some(t => ...)) potentialTargets.push(cell)] *)
Definition push_new (acc : list Pos) (c : Pos) : list Pos :=
  if decide (c ∈ acc) then acc else acc ++ [c].

Definition potentialTargets_of (g : Grid) (d : Dimensions) : list Pos :=
  foldl (λ acc hit,
           foldl (λ acc' cell,
                    if boostable g d cell then push_new acc' cell else acc')
                 acc (adjacent hit))
        [] (hitCells_of g d).

(** [list[Math.floor(Math.random() * list.length)]] *)
Definition pick (rnd : nat) (l : list Pos) : option Pos :=
  l !! (rnd mod length l)%nat.

Definition getAIMove (shotsGrid : Grid) (d : Dimensions) (rnd : nat) : Pos :=
  let hitCells := hitCells_of shotsGrid d in
  let target :=
    if bool_decide (0 < length hitCells)%nat
    then pick rnd (potentialTargets_of shotsGrid d) else None in
  match target with
  | Some c => c
  | None =>
      match pick rnd (huntCells_of shotsGrid d) with
      | Some c => c
      | None =>
          match pick rnd (emptyCells_of shotsGrid d) with
          | Some c => c
          | None => mkPos 0 0
          end
      end
  end.

(** ** [handleActivateMothershipEscape] of [App.tsx]

    The first step of the human player's escape: the Mothership is lifted
    off the grid and the action descriptor remembers where it was.  The
    result is [None] when the handler returns without a new state. *)
Fixpoint save_cells (g : Grid) (ps : list Pos) : option (list SavedCell) :=
  match ps with
  | [] => Some []
  | p :: ps' =>
      c ← cell_read g (px p) (py p);
      rest ← save_cells g ps';
      Some (mkSaved (px p) (py p) (default EMPTY c) :: rest)
  end.

Definition orientation_of (ps : list Pos) : bool :=
  match ps with
  | p0 :: p1 :: _ => bool_decide (py p0 = py p1)
  | _ => true
  end.

Definition handleActivateMothershipEscape (game : GameState)
  : option GameState :=
  pi ← findPlayer (currentPlayerId game) (players game);
  player ← players game !! pi;
  mi ← findIndex (is_type "Mothership") (ships player);
  mothership ← ships player !! mi;
  if negb (escapeSkillUnlocked player)
     || bool_decide (uses_of player "Mothership" <= 0)
  then None
  else
    let isHorizontal := orientation_of (positions mothership) in
    originalPositionsWithState ← save_cells (grid player)
                                   (positions mothership);
    grid1 ← cells_write (grid player) (positions mothership) EMPTY;
    let lifted := ship_set_positions [] mothership in
    let ps1 := alter (λ p, p_set_grid grid1
                             (p_set_ships (<[mi := lifted]> (ships p)) p))
                     pi (players game) in
    Some (g_set_activeAction
            (Some (mkAction (player_id player) SKILL
                     (Some "Mothership"%string) (Some PLACE_SHIP)
                     (Some lifted) (Some isHorizontal)
                     (Some originalPositionsWithState)))
            (g_set_players ps1 game)).

(** ** [handleSelectShipForRelocation] of [App.tsx]

    The first step of the human player's relocation: the chosen ship is
    lifted off the grid and the action descriptor remembers where it was.
    The result is [None] when the handler returns without a new state. *)
Definition handleSelectShipForRelocation (game : GameState)
    (shipToRelocate : Ship) : option GameState :=
  pi ← findPlayer (currentPlayerId game) (players game);
  player ← players game !! pi;
  si ← findIndex (is_named (ship_name shipToRelocate)) (ships player);
  ship ← ships player !! si;
  if isDamaged ship || hasBeenRelocated ship then None
  else
    let isHorizontal := orientation_of (positions ship) in
    originalPositionsWithState ← save_cells (grid player) (positions ship);
    grid1 ← cells_write (grid player) (positions ship) EMPTY;
    let lifted := ship_set_positions [] ship in
    let ps1 := alter (λ p, p_set_grid grid1
                             (p_set_ships (<[si := lifted]> (ships p)) p))
                     pi (players game) in
    Some (g_set_activeAction
            (Some (mkAction (player_id player) SKILL
                     (Some "Commandship"%string) (Some PLACE_SHIP)
                     (Some lifted) (Some isHorizontal)
                     (Some originalPositionsWithState)))
            (g_set_players ps1 game)).

(** ** The handlers of [App.tsx] that set a game up and end it

    The component keeps the game and the index [playerIndexToSetup] of the
    human player whose fleet is being laid out; a handler is a function
    of both, and returns [None] when it returns without storing a new
    state, and where the code throws. *)

Definition p_set_isReady (v : bool) (p : Player) : Player :=
  mkPlayer (player_id p) (player_name p) (isAI p) (grid p) (ships p) (shots p)
    v (isEliminated p) (score p) (skillCooldowns p) (skillUses p)
    (decoyPositions p) (jammedPositions p) (jamTurnsRemaining p)
    (escapeSkillUnlocked p).

(** [handleCreateGame(playerName, gameMode, opponentType, player2Name)].
    [id1], [id2] and [gid] are the three results of [crypto.randomUUID()];
    [vsAI] says that [opponentType] is ['AI']. *)
Definition handleCreateGame (id1 id2 gid : string) (playerName : string)
    (gameMode : GameMode) (vsAI : bool) (player2Name : string)
    (playerIndexToSetup : option nat) : GameState * option nat :=
  let '(d, shipsConfig) := getGameConfig gameMode in
  let player1 :=
    createInitialPlayer id1 playerName false shipsConfig d gameMode in
  let other :=
    if vsAI
    then createInitialPlayer id2 "Gemini AI" true shipsConfig d gameMode
    else createInitialPlayer id2 player2Name false shipsConfig d gameMode in
  let player1' :=
    store_shots (player_id other) (createEmptyGrid (rows d) (cols d))
                player1 in
  let other' :=
    store_shots (player_id player1) (createEmptyGrid (rows d) (cols d))
                other in
  (mkGame gid SETUP [player1'; other'] None None 2 1 d shipsConfig gameMode
          [] false None None None ∅,
   if vsAI then playerIndexToSetup else Some 0%nat).

(** [handleReady(playerWithShips)].  [restarts] and [rnd] are those of
    [placeShipsForAI]. *)
Definition handleReady (game : GameState) (playerIndexToSetup : option nat)
    (playerWithShips : Player) (restarts : nat) (rnd : nat → Draw)
  : option (GameState * option nat) :=
  playerIndex ← findIndex (λ p, bool_decide
                                  (player_id p = player_id playerWithShips))
                          (players game);
  let newPlayers :=
    <[playerIndex := p_set_isReady true playerWithShips]> (players game) in
  let isHotSeat := forallb (λ p, negb (isAI p)) newPlayers in
  if isHotSeat then
    if bool_decide (playerIndexToSetup = Some 0%nat) then
      p1 ← newPlayers !! 1%nat;
      Some (g_set_currentPlayerId (Some (player_id p1))
              (g_set_phase TURN_TRANSITION (g_set_players newPlayers game)),
            Some 1%nat)
    else
      p0 ← newPlayers !! 0%nat;
      Some (g_set_currentPlayerId (Some (player_id p0))
              (g_set_phase PLAYING (g_set_players newPlayers game)),
            None)
  else
    newPlayers' ←
      match findIndex isAI newPlayers with
      | Some aiPlayerIndex =>
          aiPlayer ← newPlayers !! aiPlayerIndex;
          placed ← placeShipsForAI restarts aiPlayer (shipsConfig game)
                     (gridDimensions game) rnd;
          Some (<[aiPlayerIndex := placed]> newPlayers)
      | None => Some newPlayers
      end;
    p0 ← newPlayers' !! 0%nat;
    Some (g_set_currentPlayerId (Some (player_id p0))
            (g_set_phase PLAYING (g_set_players newPlayers' game)),
          playerIndexToSetup).

(** [handleContinueFromTransition()] *)
Definition handleContinueFromTransition (game : GameState)
    (playerIndexToSetup : option nat) : GameState :=
  g_set_phase (match playerIndexToSetup with
               | Some _ => SETUP
               | None => PLAYING
               end) game.

(** [handleFireShot(targetPlayerId, x, y)]: no shot without a target; the
    empty string is as good as none. *)
Definition handleFireShot (game : GameState) (targetPlayerId : option string)
    (x y : Z) : option GameState :=
  tid ← targetPlayerId;
  if String.eqb tid "" then None else processShot game tid x y.

(** [handleEndTurn()] *)
Definition handleEndTurn (game : GameState) : option GameState :=
  advanceTurn game.

(** [handleSurrender()] *)
Definition handleSurrender (game : GameState) : option GameState :=
  surrenderingPlayerId ← currentPlayerId game;
  if String.eqb surrenderingPlayerId "" then None
  else
    surrenderingPlayer ←
      find (λ p, bool_decide (player_id p = surrenderingPlayerId))
           (players game);
    opponent ←
      find (λ p, negb (bool_decide (player_id p = surrenderingPlayerId)))
           (players game);
    Some (g_set_log
            (mkLog (turn game) surrenderingPlayerId
                   (player_name surrenderingPlayer) None None None
                   R_SKILL_USED None None
                   (Some (player_name surrenderingPlayer
                          +:+ " has surrendered."))
             :: log game)
            (g_set_winner (Some (player_id opponent))
               (g_set_phase GAME_OVER game))).

(** * The vocabulary of the claims *)

(** ** Shots *)

(** A shot-grid cell that holds a confirmed result: the guard of
    [processShot] lets no further shot through. *)
Definition closed_cell (c : option CellState) : Prop :=
  ∃ v, c = Some v ∧ v ≠ EMPTY ∧ v ≠ RADAR_CONTACT.

(** The cell holds a live decoy of the target. *)
Definition live_decoy (target : Player) (x y : Z) : Prop :=
  mkPos x y ∈ decoyPositions target.

(** The ship a shot at [(x, y)] is attributed to: the first one that lists
    the position. *)
Definition hitShip_of (target : Player) (x y : Z) : option Ship :=
  find (ship_at x y) (ships target).

(** The attacker has no confirmed result at the cell yet. *)
Definition unshot (gs : GameState) (attacker : Player) (tid : string)
    (x y : Z) : Prop :=
  let c := cell_opt (shots_for attacker tid (gridDimensions gs)) x y in
  match gameMode gs with
  | CLASSIC => c = Some EMPTY
  | TACTICAL => c = Some EMPTY ∨ c = Some RADAR_CONTACT
  end.

(** At most one player is left in the game. *)
Definition game_decided (gs : GameState) : Prop :=
  (length (filter (λ p, isEliminated p = false) (players gs)) ≤ 1)%nat.

(** ** Fleets *)

Definition reads (g : Grid) (p : Pos) (v : CellState) : Prop :=
  cell_opt g (px p) (py p) = Some v.

(** The state of one fleet: [g] is the owner's grid, [ss] the ships, [sg]
    the shot grid the player at turn keeps for this owner.
    - a sunk ship reads [SUNK] on all its positions;
    - a ship afloat reads [SHIP] or [HIT] on its positions, and [SHIP] on
      at least one of them when it is placed;
    - ships do not overlap;
    - a ship cell that no longer reads [SHIP] is closed for the attacker. *)
Record ships_ok (sg g : Grid) (ss : list Ship) : Prop := {
  ok_sunk : ∀ i s p, ss !! i = Some s → isSunk s = true →
            p ∈ positions s → reads g p SUNK;
  ok_afloat : ∀ i s p, ss !! i = Some s → isSunk s = false →
              p ∈ positions s → reads g p SHIP ∨ reads g p HIT;
  ok_intact : ∀ i s, ss !! i = Some s → isSunk s = false →
              positions s ≠ [] → ∃ p, p ∈ positions s ∧ reads g p SHIP;
  ok_disjoint : ∀ i j s1 s2 p, ss !! i = Some s1 → ss !! j = Some s2 →
                p ∈ positions s1 → p ∈ positions s2 → i = j;
  ok_shots : ∀ i s p, ss !! i = Some s → p ∈ positions s →
             ¬ reads g p SHIP → closed_cell (cell_opt sg (px p) (py p));
}.

Definition closes (sg sg' : Grid) : Prop :=
  ∀ x y, closed_cell (cell_opt sg x y) → closed_cell (cell_opt sg' x y).

(** Positions and the sunk flag are all the invariant reads of a ship. *)
Definition same_hull (s s' : Ship) : Prop :=
  positions s' = positions s ∧ isSunk s' = isSunk s.

(** The invariant of a game state: every fleet is in order with respect
    to the shot grid that the player at turn keeps for its owner. *)
Definition fleet_inv (gs : GameState) : Prop :=
  ∀ ai attacker i p,
    findPlayer (currentPlayerId gs) (players gs) = Some ai →
    players gs !! ai = Some attacker →
    players gs !! i = Some p →
    ships_ok (shots_for attacker (player_id p) (gridDimensions gs))
             (grid p) (ships p).

(** A sequence of calls [processShot(state, target, x, y)], each on the
    state returned by the previous one. *)
Fixpoint processShots (gs : GameState) (l : list (string * (Z * Z)))
  : option GameState :=
  match l with
  | [] => Some gs
  | (tid, (x, y)) :: l' =>
      gs1 ← processShot gs tid x y; processShots gs1 l'
  end.

(** The fleet of a player at the start of the battle: no ship is sunk, the
    positions of every ship read [SHIP] on the owner's grid, and no two
    ships share a position. *)
Definition fresh_fleet (g : Grid) (ss : list Ship) : Prop :=
  (∀ i s, ss !! i = Some s →
     isSunk s = false ∧ ∀ p, p ∈ positions s → reads g p SHIP) ∧
  (∀ i j s1 s2 p, ss !! i = Some s1 → ss !! j = Some s2 →
     p ∈ positions s1 → p ∈ positions s2 → i = j).

Definition fresh_state (gs : GameState) : Prop :=
  ∀ i p, players gs !! i = Some p → fresh_fleet (grid p) (ships p).

Definition has_current (gs : GameState) : Prop :=
  ∃ ai a, findPlayer (currentPlayerId gs) (players gs) = Some ai ∧
          players gs !! ai = Some a.

(** The sequence of shots holds a shot at position [q] of player [p]. *)
Definition fired_at (l : list (string * (Z * Z))) (p : Player) (q : Pos)
  : Prop :=
  (player_id p, (px q, py q)) ∈ l.

(** What one shot at [(x, y)] that passes the guard does to the cells:
    [g0] and [gN] are the grid of the target before and after, [s0] and
    [sN] the record the attacker keeps for the target; [live] says that a
    live decoy is at the cell.
    - a cell stops reading [SHIP] only at [(x, y)];
    - no cell starts to read [SHIP];
    - without a live decoy the cell [(x, y)] does not read [SHIP]
      afterwards;
    - the record changes only at [(x, y)] and at cells that read [SUNK]
      on the grid afterwards. *)
Definition shot_marks (x y : Z) (live : Prop) (g0 gN s0 sN : Grid) : Prop :=
  (∀ x' y', cell_opt g0 x' y' = Some SHIP → cell_opt gN x' y' ≠ Some SHIP →
            x' = x ∧ y' = y) ∧
  (∀ x' y', cell_opt gN x' y' = Some SHIP → cell_opt g0 x' y' = Some SHIP) ∧
  (¬ live → cell_opt gN x y ≠ Some SHIP) ∧
  (∀ x' y', cell_opt sN x' y' = cell_opt s0 x' y' ∨ (x' = x ∧ y' = y) ∨
            cell_opt gN x' y' = Some SUNK).

(** The start of a battle as far as the shots are concerned: the players
    have distinct ids, no decoy lies on a position of a ship, and the
    player at turn has no confirmed result at a position of a ship. *)
Definition open_battle (gs : GameState) : Prop :=
  NoDup (player_id <$> players gs) ∧
  ∀ i p s q, players gs !! i = Some p → s ∈ ships p → q ∈ positions s →
    ¬ live_decoy p (px q) (py q) ∧
    ∀ ai attacker,
      findPlayer (currentPlayerId gs) (players gs) = Some ai →
      players gs !! ai = Some attacker →
      unshot gs attacker (player_id p) (px q) (py q).

(** Every position of a ship that no longer reads [SHIP] was shot at. *)
Definition shots_told (l : list (string * (Z * Z))) (gs : GameState)
  : Prop :=
  ∀ i p s q, players gs !! i = Some p → s ∈ ships p → q ∈ positions s →
    ¬ reads (grid p) q SHIP → fired_at l p q.

(** [open_battle] as it stands after the shots [l]: a position of a ship
    that still reads [SHIP] is open in the record of the player at turn,
    and one that was shot at no longer reads [SHIP]. *)
Definition shots_landed (l : list (string * (Z * Z))) (gs : GameState)
  : Prop :=
  NoDup (player_id <$> players gs) ∧
  ∀ i p s q, players gs !! i = Some p → s ∈ ships p → q ∈ positions s →
    ¬ live_decoy p (px q) (py q) ∧
    (reads (grid p) q SHIP →
     ∀ ai attacker,
       findPlayer (currentPlayerId gs) (players gs) = Some ai →
       players gs !! ai = Some attacker →
       unshot gs attacker (player_id p) (px q) (py q)) ∧
    (fired_at l p q → ¬ reads (grid p) q SHIP).

(** ** Turns *)

(** The player who ends the turn, after the cooldowns and the jam timer
    have been counted down. *)
Definition end_of_turn (mode : GameMode) (p : Player) : Player :=
  fst (tickJam
         match mode with
         | TACTICAL =>
             p_set_skillCooldowns (tickCooldowns (skillCooldowns p)) p
         | CLASSIC => p
         end).

(** ** Skills *)

(** A grid of the dimensions of the game. *)
Definition grid_shape (d : Dimensions) (g : Grid) : Prop :=
  length g = Z.to_nat (rows d) ∧
  Forall (λ row, length row = Z.to_nat (cols d)) g.

(** A position inside the grid. *)
Definition in_bounds (d : Dimensions) (p : Pos) : Prop :=
  0 <= px p < cols d ∧ 0 <= py p < rows d.

(** A shot that finds the state in order: the player at turn and the
    target are players of the game, the attacker's shot grid and the
    target's grid have the dimensions of the game, the target's ships lie
    inside the grid, a Ship cell at the coordinate belongs to a ship, and
    the coordinate is inside the grid. *)
Definition shootable (gs : GameState) (tid : string) (x y : Z) : Prop :=
  let d := gridDimensions gs in
  ∃ ai attacker ti target,
    findPlayer (currentPlayerId gs) (players gs) = Some ai ∧
    players gs !! ai = Some attacker ∧
    findPlayer (Some tid) (players gs) = Some ti ∧
    players gs !! ti = Some target ∧
    grid_shape d (shots_for attacker tid d) ∧
    grid_shape d (grid target) ∧
    (∀ s, s ∈ ships target → Forall (in_bounds d) (positions s)) ∧
    (cell_opt (grid target) x y = Some SHIP →
     is_Some (findIndex (ship_at x y) (ships target))) ∧
    0 <= x < cols d ∧ 0 <= y < rows d.

(** The turn at which the damage log says the cell was hit, if any. *)
Definition logged_damage (gs : GameState) (pid : string) (x y : Z)
  : option Z :=
  hitLog gs !! pid ≫= λ m, m !! (x, y).


(** *** The gates: cooldowns, uses and the jam

    The gates are the fields that say whether a skill may be used: the
    cooldowns, the uses left, and the jam record.  A player with the gates
    cleared, a state with the gates of every player cleared, and what a
    skill invocation yields when the gates are not looked at. *)
Definition clear_gates (p : Player) : Player :=
  mkPlayer (player_id p) (player_name p) (isAI p) (grid p) (ships p)
    (shots p) (isReady p) (isEliminated p) (score p) ∅ ∅
    (decoyPositions p) [] 0 (escapeSkillUnlocked p).

Definition ungated (gs : GameState) : GameState :=
  mkGame (gameId gs) (phase gs) (clear_gates <$> players gs)
    (currentPlayerId gs) (winner gs) (maxPlayers gs) (turn gs)
    (gridDimensions gs) (shipsConfig gs) (gameMode gs) (log gs)
    (hasActedThisTurn gs) (activeAction gs) (radarScanResult gs) None
    (hitLog gs).

(** Two states that differ in the gates only. *)
Definition same_board (gs gs' : GameState) : Prop := ungated gs = ungated gs'.

(** Success, message and, the gates apart, the new state. *)
Definition outcome (r : SkillResult) : bool * option string * GameState :=
  (success r, toast r, ungated (newState r)).

(** Two lists of players that differ in the gates only. *)
Definition same_fleets (l1 l2 : list Player) : Prop :=
  clear_gates <$> l1 = clear_gates <$> l2.

(** An update of a player that does not look at the gates. *)
Definition gate_blind (f : Player → Player) : Prop :=
  ∀ p q, clear_gates p = clear_gates q → clear_gates (f p) = clear_gates (f q).

(** The same state without any jam record. *)
Definition clear_jam (p : Player) : Player :=
  mkPlayer (player_id p) (player_name p) (isAI p) (grid p) (ships p)
    (shots p) (isReady p) (isEliminated p) (score p) (skillCooldowns p)
    (skillUses p) (decoyPositions p) [] 0 (escapeSkillUnlocked p).

Definition unjammed (gs : GameState) : GameState :=
  mkGame (gameId gs) (phase gs) (clear_jam <$> players gs)
    (currentPlayerId gs) (winner gs) (maxPlayers gs) (turn gs)
    (gridDimensions gs) (shipsConfig gs) (gameMode gs) (log gs)
    (hasActedThisTurn gs) (activeAction gs) (radarScanResult gs) None
    (hitLog gs).

(** ** The heatmap

    The counting of [buildProbabilityMap] in the words of the
    specification: candidate placements, what each of them adds to the
    cells of its footprint, and the hits next to a cell. *)

(** The number of occurrences of a cell in a list of cells. *)
Definition count (c : Pos) (l : list Pos) : nat :=
  length (filter (λ c', c' = c) l).

(** A candidate placement: a length, an anchor and an orientation. *)
Record Placement := mkPlacement {
  pl_len : Z; pl_x : Z; pl_y : Z; pl_horizontal : bool;
}.

Definition pl_footprint (pl : Placement) : list Pos :=
  footprint (pl_len pl) (pl_x pl) (pl_y pl) (pl_horizontal pl).

(** The footprint lies inside the grid and passes through no [MISS]. *)
Definition fits (g : Grid) (d : Dimensions) (pl : Placement) : bool :=
  forallb (λ c, in_grid d c
                && negb (bool_decide (shot_at g (px c) (py c) = MISS)))
          (pl_footprint pl).

(** What a candidate placement adds: one count for each cell of its
    footprint if it fits, nothing otherwise. *)
Definition placement_cells (g : Grid) (d : Dimensions) (pl : Placement)
  : list Pos :=
  if fits g d pl then pl_footprint pl else [].

(** The cells counted for a ship of length [len]: every anchor of the
    grid, both orientations. *)
Definition ship_cells (g : Grid) (d : Dimensions) (len : Z) : list Pos :=
  y ← seqZ 0 (rows d); x ← seqZ 0 (cols d); h ← [true; false];
  placement_cells g d (mkPlacement len x y h).

Definition contributions (g : Grid) (d : Dimensions) (lens : list Z)
  : list Pos :=
  len ← lens; ship_cells g d len.

Definition raw_count (g : Grid) (d : Dimensions) (lens : list Z) (c : Pos)
  : Z :=
  Z.of_nat (count c (contributions g d lens)).

(** The neighbours of a cell that are hits. *)
Definition adjacent_hits (g : Grid) (d : Dimensions) (c : Pos) : list Pos :=
  filter (λ n, in_grid d n = true ∧ is_hit_at g n = true) (adjacent c).

Definition unsunk_lengths (p : Player) : list Z :=
  ship_length <$> filter (λ s, isSunk s = false) (ships p).

(** The cells that the boost multiplies, one entry per multiplication. *)
Definition boost_cells (g : Grid) (d : Dimensions) : list Pos :=
  hit ← hitCells_of g d; filter (λ c, boostable g d c = true) (adjacent hit).

(** The configuration a ship was built from. *)
Definition config_of (s : Ship) : ShipConfig :=
  mkShipConfig (ship_name s) (ship_type s) (ship_length s).

(** The heatmap as a function of the lengths of the unsunk ships. *)
Definition heatmap_of_lengths (lens : list Z) (g : Grid) (d : Dimensions)
  : ProbMap :=
  boost g d
    (foldl (pm_update Z.succ)
       (replicate (Z.to_nat (rows d)) (replicate (Z.to_nat (cols d)) 0))
       (contributions g d lens)).

(** The heatmap of the standard fleet on the empty 12x12 grid, and its
    best cells. *)
Definition first_heatmap : ProbMap :=
  Eval vm_compute in
    heatmap_of_lengths (cfg_length <$> SHIPS_CONFIG_TACTICAL)
                       (createEmptyGrid 12 12) (mkDims 12 12).

Definition first_targets : list Pos :=
  Eval vm_compute in findBestTargets first_heatmap (createEmptyGrid 12 12).

(** * The vocabulary of the further properties *)

(** ** Fleets laid out by the rules *)

(** A fleet laid out by the rules: the grid has the dimensions of the
    game, every ship lies inside it, the ships are new, and the grid reads
    [SHIP] on the positions of the ships and [EMPTY] everywhere else. *)
Record deployed (d : Dimensions) (g : Grid) (ss : list Ship) : Prop := {
  dep_shape : grid_shape d g;
  dep_fresh : fresh_fleet g ss;
  dep_inside : ∀ s, s ∈ ss → Forall (in_bounds d) (positions s);
  dep_new : ∀ s, s ∈ ss →
            isDamaged s = false ∧ hasBeenRepaired s = false ∧
            hasBeenRelocated s = false;
  dep_cells : ∀ x y v, cell_opt g x y = Some v →
              v = EMPTY ∨ (v = SHIP ∧ ∃ s, s ∈ ss ∧ mkPos x y ∈ positions s);
}.

(** A player whose fleet is laid out by the rules of the setup phase and
    who has not fired yet. *)
Definition set_up (d : Dimensions) (p : Player) : Prop :=
  deployed d (grid p) (ships p) ∧ isEliminated p = false ∧
  decoyPositions p = [].

(** ** Seats around the table *)

(** The player [k] seats after the player of index [ci], around the
    table. *)
Definition seat_after (gs : GameState) (ci k : nat) : option Player :=
  players gs !! ((ci + k) mod length (players gs))%nat.

(** The humans of a game. *)
Definition humans (gs : GameState) : list Player :=
  filter (λ p, isAI p = false) (players gs).

(** ** What a shot keeps *)

(** What a shot leaves of a ship: its name, type, length and positions and
    the marks of repair and relocation; the marks of damage are only ever
    raised. *)
Definition ship_kept (s s' : Ship) : Prop :=
  ship_name s' = ship_name s ∧ ship_type s' = ship_type s ∧
  ship_length s' = ship_length s ∧ positions s' = positions s ∧
  hasBeenRepaired s' = hasBeenRepaired s ∧
  hasBeenRelocated s' = hasBeenRelocated s ∧
  (isSunk s = true → isSunk s' = true) ∧
  (isDamaged s = true → isDamaged s' = true).

(** What a shot leaves of a player: identity, cooldowns, uses and jam;
    the ships in the sense of [ship_kept]; a player is never brought back
    into the game, an escape never locked again, and no decoy is added. *)
Definition player_kept (p p' : Player) : Prop :=
  player_id p' = player_id p ∧ player_name p' = player_name p ∧
  isAI p' = isAI p ∧ isReady p' = isReady p ∧ score p' = score p ∧
  skillCooldowns p' = skillCooldowns p ∧ skillUses p' = skillUses p ∧
  jammedPositions p' = jammedPositions p ∧
  jamTurnsRemaining p' = jamTurnsRemaining p ∧
  Forall2 ship_kept (ships p) (ships p') ∧
  (isEliminated p = true → isEliminated p' = true) ∧
  (escapeSkillUnlocked p = true → escapeSkillUnlocked p' = true) ∧
  sublist (decoyPositions p') (decoyPositions p).

(** The state of a cell of the shot grid that goes with a log result. *)
Definition cell_of_result (r : LogResult) : CellState :=
  match r with
  | R_HIT => HIT
  | R_MISS => MISS
  | R_SUNK_SHIP => SUNK
  | R_SHOT_FIRED | R_SKILL_USED => EMPTY
  end.

(** The shot at [(x, y)] sank the Mothership of the target: the result is
    a sunk ship, and the ship the shot is attributed to is a Mothership. *)
Definition sinks_mothership (target : Player) (x y : Z) (r : LogResult)
  : Prop :=
  r = R_SUNK_SHIP ∧
  ∃ hs, hitShip_of target x y = Some hs ∧
        ship_type hs = "Mothership"%string.

(** The players still in the game. *)
Definition activePlayers (gs : GameState) : list Player :=
  filter (λ p, isEliminated p = false) (players gs).

(** ** Rows and echoes *)

(** Two grids with as many rows, row by row of the same length. *)
Definition same_rows (g g' : Grid) : Prop :=
  Forall2 (λ r r' : list CellState, length r = length r') g g'.

(** What the radar says of a cell of the opponent's grid: a contact on a
    ship or a decoy, a miss on anything else. *)
Definition radar_echo (c : option CellState) : CellState :=
  if bool_decide (c = Some SHIP) || bool_decide (c = Some DECOY)
  then RADAR_CONTACT else MISS.

(** ** The moves of the AI *)

(** A move that the gates of the user interface would let through, and
    that the engine has no reason to refuse on account of its target: an
    attack on a cell that is open in the record of shots (or on the corner
    (0,0), the last resort); a skill whose cooldown is over or whose uses
    are not spent, aimed as the skill requires. *)
Definition move_in_order (aiPlayer : Player) (gs : GameState)
    (shotsGrid : Grid) (mv : AIMove) : Prop :=
  match mv with
  | MoveAttack c => is_open_at shotsGrid c = true ∨ c = mkPos 0 0
  | MoveSkill t coords target =>
      (t = "Mothership"%string ∧ uses_of aiPlayer "Mothership" > 0 ∧
       escapeSkillUnlocked aiPlayer = true ∧
       ∃ m, m ∈ ships aiPlayer ∧ ship_type m = "Mothership"%string ∧
            isDamaged m = true) ∨
      (t = "Repairship"%string ∧ cooldown_of aiPlayer "Repairship" = 0 ∧
       ∃ pos s, coords = Some pos ∧ s ∈ ships aiPlayer ∧
                pos ∈ positions s ∧ hasBeenRepaired s = false ∧
                repairable gs aiPlayer pos = true) ∨
      (t = "Jamship"%string ∧ cooldown_of aiPlayer "Jamship" = 0 ∧
       is_Some coords) ∨
      (t = "Commandship"%string ∧ cooldown_of aiPlayer "Commandship" = 0 ∧
       ∃ s, s ∈ ships aiPlayer ∧ target = Some (ship_type s) ∧
            relocatable (ship_type s) s = true) ∨
      (t = "Radarship"%string ∧ cooldown_of aiPlayer "Radarship" = 0 ∧
       is_Some coords) ∨
      (t = "Decoyship"%string ∧ uses_of aiPlayer "Decoyship" > 0 ∧
       is_Some coords)
  end.

(** A heatmap of the dimensions of the game: every cell of the grid has a
    value, so that no read of [findBestRadarSpot] leaves the map. *)
Definition map_shape (d : Dimensions) (m : ProbMap) : Prop :=
  length m = Z.to_nat (rows d) ∧
  Forall (λ row, length row = Z.to_nat (cols d)) m.

(** * Example games

    The states below are built with the functions of the program:
    [createInitialPlayer], then [placeShip] for every ship, as the setup
    phase does. *)

(** The setup of a fleet: the ships of the player, placed at the given
    anchors. *)
Fixpoint deploy (g : Grid) (ss : list Ship) (anchors : list (Z * Z * bool))
  : option (Grid * list Ship) :=
  match ss, anchors with
  | s :: ss', (x, y, h) :: anchors' =>
      '(g1, s1) ← placeShip g s x y h;
      '(g2, rest) ← deploy g1 ss' anchors';
      Some (g2, s1 :: rest)
  | _, _ => Some (g, [])
  end.

Definition ready (p : Player) (anchors : list (Z * Z * bool)) : Player :=
  match deploy (grid p) (ships p) anchors with
  | Some (g, ss) =>
      mkPlayer (player_id p) (player_name p) (isAI p) g ss (shots p) true
        (isEliminated p) (score p) (skillCooldowns p) (skillUses p)
        (decoyPositions p) (jammedPositions p) (jamTurnsRemaining p)
        (escapeSkillUnlocked p)
  | None => p
  end.

(** [player.shots[opponent.id] = createEmptyGrid(rows, cols)], as
    [handleCreateGame] does for both players. *)
Definition with_shots (opponentId : string) (d : Dimensions) (p : Player)
  : Player :=
  p_set_shots {[ opponentId := createEmptyGrid (rows d) (cols d) ]} p.

Definition new_game (mode : GameMode) (d : Dimensions)
    (cfg : list ShipConfig) (p1 p2 : Player) : GameState :=
  mkGame "game" PLAYING [p1; p2] (Some (player_id p1)) None 2 1 d cfg mode
         [] false None None None ∅.

(** Scenario A of the specification: classic rules on a 5x5 grid, one
    ship of length 2 per player, the one of player ["b"] on (0,0)-(1,0). *)
Definition duel_config : list ShipConfig :=
  [mkShipConfig "Destroyer" "Destroyer" 2].

Definition duel_ann : Player :=
  with_shots "b" (mkDims 5 5)
    (ready (createInitialPlayer "a" "Ann" false duel_config (mkDims 5 5)
              CLASSIC) [(0, 4, true)]).

Definition duel_bob : Player :=
  with_shots "a" (mkDims 5 5)
    (ready (createInitialPlayer "b" "Bob" false duel_config (mkDims 5 5)
              CLASSIC) [(0, 0, true)]).

Definition duel : GameState :=
  new_game CLASSIC (mkDims 5 5) duel_config duel_ann duel_bob.

(** The same duel under tactical rules, the ship being a Radarship. *)
Definition skirmish_config : list ShipConfig :=
  [mkShipConfig "Radarship" "Radarship" 2].

Definition skirmish_ann : Player :=
  with_shots "b" (mkDims 5 5)
    (ready (createInitialPlayer "a" "Ann" false skirmish_config (mkDims 5 5)
              TACTICAL) [(0, 4, true)]).

Definition skirmish_bob : Player :=
  with_shots "a" (mkDims 5 5)
    (ready (createInitialPlayer "b" "Bob" false skirmish_config (mkDims 5 5)
              TACTICAL) [(0, 0, true)]).

Definition skirmish : GameState :=
  new_game TACTICAL (mkDims 5 5) skirmish_config skirmish_ann skirmish_bob.

(** Tactical games in the standard configuration: 12x12, six ships per
    player, one ship every second row from the left edge. *)
Definition standard_anchors : list (Z * Z * bool) :=
  [(0, 0, true); (0, 2, true); (0, 4, true); (0, 6, true); (0, 8, true);
   (0, 10, true)].

Definition standard_player (id name : string) (isAI : bool)
    (opponentId : string) : Player :=
  with_shots opponentId (mkDims 12 12)
    (ready (createInitialPlayer id name isAI SHIPS_CONFIG_TACTICAL
              (mkDims 12 12) TACTICAL) standard_anchors).

Definition ann : Player := standard_player "a" "Ann" false "b".

Definition gemini : Player := standard_player "b" "Gemini AI" true "a".

(** Ann against the AI. *)
Definition battle : GameState :=
  new_game TACTICAL (mkDims 12 12) SHIPS_CONFIG_TACTICAL ann gemini.

(** Ann against Bob on one device, on a 6x6 grid with three ships each:
    the Radarship on (0,0)-(2,0), the Jamship on (0,2)-(2,2) and the
    Mothership on (0,4)-(1,4). *)
Definition patrol_config : list ShipConfig :=
  [mkShipConfig "Radarship" "Radarship" 3;
   mkShipConfig "Jamship" "Jamship" 3;
   mkShipConfig "Mothership" "Mothership" 2].

Definition patrol_player (id name opponentId : string) : Player :=
  with_shots opponentId (mkDims 6 6)
    (ready (createInitialPlayer id name false patrol_config (mkDims 6 6)
              TACTICAL)
       [(0, 0, true); (0, 2, true); (0, 4, true)]).

Definition patrol_ann : Player := patrol_player "a" "Ann" "b".

Definition patrol_bob : Player := patrol_player "b" "Bob" "a".

Definition patrol : GameState :=
  new_game TACTICAL (mkDims 6 6) patrol_config patrol_ann patrol_bob.

(** A source of random draws that always proposes the top left corner,
    horizontally. *)
Definition corner_draws : nat → Draw := λ _, (true, (0, 0)).

(** A shot grid of one row of three cells, the outer two hit, and an
    opponent with one ship of length 3 afloat. *)
Definition strip : Grid := [[HIT; EMPTY; HIT]].

Definition strip_dims : Dimensions := mkDims 1 3.

Definition strip_owner : Player :=
  createInitialPlayer "b" "Bob" false [mkShipConfig "Cruiser" "Cruiser" 3]
    strip_dims CLASSIC.

(** *** Reading the result of a call on an example game *)

#[global] Instance Ship_inhabited : Inhabited Ship :=
  populate (mkShip "" "" 0 [] false false false false).

#[global] Instance Player_inhabited : Inhabited Player :=
  populate (createInitialPlayer "" "" false [] (mkDims 0 0) CLASSIC).

#[global] Instance GameState_inhabited : Inhabited GameState :=
  populate (new_game CLASSIC (mkDims 0 0) [] inhabitant inhabitant).

#[global] Instance SkillResult_inhabited : Inhabited SkillResult :=
  populate (mkResult false inhabitant None).

(** The value of a call that returns one. *)
Definition the {A} `{Inhabited A} (x : option A) : A := default inhabitant x.

(** Scenario A after the first shot on Bob's ship, and after both. *)
Definition duel_hit : GameState := the (processShot duel "b" 0 0).

Definition duel_sunk : GameState := the (processShot duel_hit "b" 1 0).

(** A human escape under way: with Bob at turn, Bob hits Ann's Mothership
    at (0,4); the turn passes to Ann; Ann activates the escape, which
    lifts the Mothership off her grid. *)
Definition patrol_bob_first : GameState :=
  g_set_currentPlayerId (Some "b"%string) patrol.

Definition patrol_mothership_hit : GameState :=
  the (processShot patrol_bob_first "a" 0 4).

Definition patrol_ann_turn : GameState :=
  the (advanceTurn patrol_mothership_hit).

Definition escape_under_way : GameState :=
  the (handleActivateMothershipEscape patrol_ann_turn).

(** The tactical duel with Bob at turn; Bob hits Ann's ship at (0,4); the
    same state with Ann at turn, so that the log dates the damage of the
    cell to the current turn. *)
Definition skirmish_bob_first : GameState :=
  g_set_currentPlayerId (Some "b"%string) skirmish.

Definition skirmish_hit : GameState :=
  the (processShot skirmish_bob_first "a" 0 4).

Definition damaged_this_turn : GameState :=
  g_set_currentPlayerId (Some "a"%string) skirmish_hit.



(** Ann scans with the radar and ends her turn; Bob ends his. *)
Definition skirmish_scan : SkillResult :=
  the (useSkill "Radarship" (mkOpts 2 2 true None) false corner_draws
         skirmish).

Definition skirmish_scanned : GameState := newState skirmish_scan.



(** A human player against the AI on a 3x3 grid, a Commandship, a Jamship
    and a Mothership each, one ship per row.  Ann jams the block around
    (1,1), which is the whole grid, and ends her turn; the AI relocates
    its Mothership and ends its turn; Ann ends hers. *)
Definition cove_config : list ShipConfig :=
  [mkShipConfig "Commandship" "Commandship" 3;
   mkShipConfig "Jamship" "Jamship" 3;
   mkShipConfig "Mothership" "Mothership" 2].

Definition cove_player (id name : string) (isAI : bool)
    (opponentId : string) : Player :=
  with_shots opponentId (mkDims 3 3)
    (ready (createInitialPlayer id name isAI cove_config (mkDims 3 3)
              TACTICAL)
       [(0, 0, true); (0, 1, true); (0, 2, true)]).

Definition cove_ann : Player := cove_player "a" "Ann" false "b".

Definition cove_gemini : Player := cove_player "b" "Gemini AI" true "a".

Definition cove : GameState :=
  new_game TACTICAL (mkDims 3 3) cove_config cove_ann cove_gemini.

Definition cove_jam : SkillResult :=
  the (useSkill "Jamship" (mkOpts 1 1 true None) false corner_draws cove).

Definition cove_jammed_turn : GameState :=
  the (advanceTurn (newState cove_jam)).

(** A source of random draws that always proposes (1,2), horizontally. *)
Definition side_draws : nat → Draw := λ _, (true, (1, 2)).

Definition cove_relocation : SkillResult :=
  the (useSkill "Commandship" (mkOpts 0 0 true (Some "Mothership"%string))
         true side_draws cove_jammed_turn).


(** *** More example games *)

(** A source of random draws that proposes every row twice, from the left
    edge and horizontally: the second proposal of a row finds it taken. *)
Definition row_draws : nat → Draw := λ k, (true, (0, Z.of_nat (k / 2))).

(** The fleet of the patrol, laid out at random on a 6x6 grid. *)
Definition patrol_recruit : Player :=
  createInitialPlayer "c" "Cy" true patrol_config (mkDims 6 6) TACTICAL.

Definition patrol_cy : Player :=
  the (placeShipsForAI 0 patrol_recruit patrol_config (mkDims 6 6) row_draws).

(** The patrol after Ann ended her first turn. *)
Definition patrol_bob_turn : GameState := the (advanceTurn patrol).

(** Ann scans the corner of the tactical duel that holds Bob's ship. *)
Definition skirmish_echo : SkillResult :=
  the (useSkill "Radarship" (mkOpts 0 0 true None) false corner_draws
         skirmish).

(** Ann drops a decoy at (5,5) and ends her turn; Bob shoots at it. *)
Definition patrol_decoy : SkillResult :=
  the (useSkill "Decoyship" (mkOpts 5 5 true None) false corner_draws patrol).

Definition patrol_decoy_bob : GameState :=
  the (advanceTurn (newState patrol_decoy)).

Definition patrol_decoy_hit : GameState :=
  the (processShot patrol_decoy_bob "a" 5 5).

(** Ann's escape, with a placement that fits and with one that does
    not. *)
Definition escape_done : SkillResult :=
  the (useSkill "Mothership" (mkOpts 3 5 true None) false corner_draws
         escape_under_way).

Definition escape_refused : SkillResult :=
  the (useSkill "Mothership" (mkOpts 5 0 true None) false corner_draws
         escape_under_way).

(** In the battle Ann picks her Radarship for relocation; a placement
    that fits, and one that leaves the grid. *)
Definition ann_radarship : Ship := the (ships ann !! 2%nat).

Definition radarship_picked : GameState :=
  the (handleSelectShipForRelocation battle ann_radarship).

Definition relocation_done : SkillResult :=
  the (useSkill "Commandship" (mkOpts 6 1 true None) false corner_draws
         radarship_picked).

Definition relocation_refused : SkillResult :=
  the (useSkill "Commandship" (mkOpts 11 1 true None) false corner_draws
         radarship_picked).

(** The battle with the AI at turn, which relocates its Radarship. *)
Definition battle_gemini_turn : GameState :=
  g_set_currentPlayerId (Some "b"%string) battle.

Definition gemini_relocation : SkillResult :=
  the (useSkill "Commandship" (mkOpts 0 0 true (Some "Radarship"%string))
         true row_draws battle_gemini_turn).

(** The tactical duel after Bob's hit at (0,4), with Ann at turn in the
    next turn; Ann repairs the cell. *)
Definition skirmish_ann_later : GameState := the (advanceTurn skirmish_hit).

Definition skirmish_repair : SkillResult :=
  the (useSkill "Repairship" (mkOpts 0 4 true None) false corner_draws
         skirmish_ann_later).

#[global] Instance Setup_inhabited : Inhabited (GameState * option nat) :=
  populate (inhabitant, None).

(** A new game against the AI, and the fleet that the human player hands
    in. *)
Definition lobby : GameState :=
  (handleCreateGame "a" "b" "g" "Ann" TACTICAL true "" None).1.

Definition ann_ready : Player :=
  the (placeShipsForAI 0 (the (players lobby !! 0%nat)) (shipsConfig lobby)
         (gridDimensions lobby) row_draws).

Definition first_battle : GameState :=
  (the (handleReady lobby None ann_ready 0 row_draws)).1.

(** A second human player with the standard fleet. *)
Definition bob : Player := standard_player "b" "Bob" false "a".

(** * Facts *)

(** ** Reading and writing grids *)

Section grid_facts.
Implicit Types (g : Grid) (x y : Z) (v : CellState) (ps : list Pos).

Lemma zlookup_Some {A} (l : list A) (i : Z) (a : A) :
  zlookup l i = Some a ↔ 0 <= i ∧ l !! Z.to_nat i = Some a.
Proof. unfold zlookup. case_decide; [tauto|]. split; [done|tauto]. Qed.

Lemma zlookup_insert_same {A} (l : list A) (i : Z) (a b : A) :
  zlookup l i = Some a → zlookup (<[Z.to_nat i := b]> l) i = Some b.
Proof.
  rewrite !zlookup_Some. intros [? Hl]. split; [done|].
  apply list_lookup_insert_eq. by eapply lookup_lt_Some.
Qed.

Lemma zlookup_insert_other {A} (l : list A) (i j : Z) (b : A) :
  0 <= i → i ≠ j → zlookup (<[Z.to_nat i := b]> l) j = zlookup l j.
Proof.
  intros Hi Hne. unfold zlookup. case_decide; [|done].
  apply list_lookup_insert_ne. lia.
Qed.

Lemma cell_opt_read g x y : cell_opt g x y = cell_read g x y ≫= id.
Proof. unfold cell_opt, cell_read. by destruct (zlookup g y). Qed.

Lemma cell_read_opt g x y c :
  cell_read g x y = Some c → cell_opt g x y = c.
Proof. rewrite cell_opt_read. by intros ->. Qed.

Lemma cell_opt_Some_read g x y v :
  cell_opt g x y = Some v → cell_read g x y = Some (Some v).
Proof.
  unfold cell_opt, cell_read. destruct (zlookup g y); simpl; [|done].
  by intros ->.
Qed.

(** After [grid[y][x] = v] the cell reads [v] and every other cell reads
    what it read before. *)
Lemma cell_write_read g x y v g' x' y' :
  cell_write g x y v = Some g' →
  cell_read g' x' y' =
    if decide (x' = x ∧ y' = y) then Some (Some v) else cell_read g x' y'.
Proof.
  unfold cell_write. intros H.
  apply bind_Some in H as (row & Hrow & H).
  apply bind_Some in H as (c & Hc & H). simplify_eq.
  pose proof Hrow as [Hy _]%zlookup_Some.
  pose proof Hc as [Hx _]%zlookup_Some.
  unfold cell_read. destruct (decide (y' = y)) as [->|Hny].
  - rewrite (zlookup_insert_same _ _ _ _ Hrow), Hrow.
    cbn [mbind option_bind]. case_decide as Hd.
    + destruct Hd as [-> _]. by rewrite (zlookup_insert_same _ _ _ _ Hc).
    + f_equal. apply zlookup_insert_other; [done|].
      intros ->. by apply Hd.
  - rewrite (zlookup_insert_other g y y') by done.
    case_decide as Hd; [by destruct Hd|done].
Qed.

Lemma cell_write_opt g x y v g' x' y' :
  cell_write g x y v = Some g' →
  cell_opt g' x' y' =
    if decide (x' = x ∧ y' = y) then Some v else cell_opt g x' y'.
Proof.
  intros H. rewrite !cell_opt_read, (cell_write_read _ _ _ _ _ _ _ H).
  by case_decide.
Qed.

Lemma cell_write_is_Some g x y v :
  is_Some (cell_opt g x y) → is_Some (cell_write g x y v).
Proof.
  unfold cell_opt, cell_write. destruct (zlookup g y) as [row|]; simpl.
  - intros [c ->]. simpl. eauto.
  - by intros [? ?].
Qed.

Lemma cell_write_Some_inv g x y v g' :
  cell_write g x y v = Some g' → is_Some (cell_opt g x y).
Proof.
  unfold cell_opt, cell_write. destruct (zlookup g y) as [row|]; simpl;
    [|done].
  destruct (zlookup row x); simpl; [eauto|done].
Qed.

Lemma existsb_pos_eqb x y ps :
  existsb (pos_eqb x y) ps = true ↔ mkPos x y ∈ ps.
Proof.
  rewrite existsb_exists. split.
  - intros ([a b] & Hin & H). unfold pos_eqb in H. simpl in H.
    apply andb_true_iff in H as [->%bool_decide_eq_true ->%bool_decide_eq_true].
    by apply list_elem_of_In.
  - intros Hin. exists (mkPos x y). split; [by apply list_elem_of_In|].
    unfold pos_eqb. simpl. by rewrite !bool_decide_eq_true_2.
Qed.

(** After the [forEach] that writes [v] at every position of [ps]. *)
Lemma cells_write_read g ps v g' x' y' :
  cells_write g ps v = Some g' →
  cell_read g' x' y' =
    if existsb (pos_eqb x' y') ps then Some (Some v) else cell_read g x' y'.
Proof.
  revert g. induction ps as [|p ps IH]; intros g H; simpl in *.
  - by simplify_eq.
  - apply bind_Some in H as (g1 & H1 & H).
    rewrite (IH _ H). rewrite (cell_write_read _ _ _ _ _ x' y' H1).
    unfold pos_eqb at 2. destruct (existsb _ ps); [by rewrite orb_true_r|].
    rewrite orb_false_r. case_decide as Hd.
    + destruct Hd as [-> ->]. by rewrite !bool_decide_eq_true_2.
    + destruct (bool_decide (px p = x')) eqn:E1;
        destruct (bool_decide (py p = y')) eqn:E2; simpl; try done.
      apply bool_decide_eq_true in E1, E2. naive_solver.
Qed.

Lemma cells_write_opt g ps v g' x' y' :
  cells_write g ps v = Some g' →
  cell_opt g' x' y' =
    if existsb (pos_eqb x' y') ps then Some v else cell_opt g x' y'.
Proof.
  intros H. rewrite !cell_opt_read, (cells_write_read _ _ _ _ _ _ H).
  by destruct (existsb _ ps).
Qed.

Lemma every_hit_true g ps :
  every_hit g ps = Some true →
  ∀ p, p ∈ ps → cell_opt g (px p) (py p) = Some HIT.
Proof.
  induction ps as [|q ps IH]; simpl; intros H p Hp.
  - by apply elem_of_nil in Hp.
  - apply bind_Some in H as (c & Hc & H).
    case_bool_decide as Hd; [|done]. subst c.
    apply elem_of_cons in Hp as [->|Hp]; [|by apply IH].
    by apply cell_read_opt in Hc.
Qed.

Lemma every_hit_false g ps :
  every_hit g ps = Some false →
  ∃ p, p ∈ ps ∧ cell_opt g (px p) (py p) ≠ Some HIT.
Proof.
  induction ps as [|q ps IH]; simpl; intros H; [done|].
  apply bind_Some in H as (c & Hc & H).
  case_bool_decide as Hd.
  - destruct (IH H) as (p & ? & ?). exists p. split; [by right|done].
  - exists q. split; [by left|]. by rewrite (cell_read_opt _ _ _ _ Hc).
Qed.
End grid_facts.

(** *** Grids of the dimensions of the game *)

Lemma grid_shape_row d g y :
  grid_shape d g → 0 <= y < rows d → is_Some (zlookup g y).
Proof.
  intros [Hlen _] Hy. unfold zlookup. rewrite decide_True by lia.
  apply lookup_lt_is_Some. lia.
Qed.

Lemma grid_shape_read d g x y :
  grid_shape d g → 0 <= y < rows d → is_Some (cell_read g x y).
Proof.
  intros Hs Hy. destruct (grid_shape_row d g y Hs Hy) as [row Hrow].
  unfold cell_read. rewrite Hrow. simpl. eauto.
Qed.

Lemma grid_shape_cell d g x y :
  grid_shape d g → 0 <= x < cols d → 0 <= y < rows d →
  is_Some (cell_opt g x y).
Proof.
  intros [Hlen Hrows] Hx Hy. unfold cell_opt, zlookup.
  rewrite decide_True by lia.
  destruct (lookup_lt_is_Some_2 g (Z.to_nat y)) as [row Hrow]; [lia|].
  rewrite Hrow. simpl. rewrite decide_True by lia.
  apply lookup_lt_is_Some.
  rewrite Forall_forall in Hrows.
  rewrite (Hrows row) by (by eapply list_elem_of_lookup_2). lia.
Qed.

Lemma grid_shape_empty d : grid_shape d (createEmptyGrid (rows d) (cols d)).
Proof.
  unfold createEmptyGrid. split; [by rewrite length_replicate|].
  apply Forall_forall. intros row [-> _]%elem_of_replicate.
  by rewrite length_replicate.
Qed.

Lemma grid_shape_write d g x y v g' :
  grid_shape d g → cell_write g x y v = Some g' → grid_shape d g'.
Proof.
  intros [Hlen Hrows] H. unfold cell_write in H.
  apply bind_Some in H as (row & Hrow & H).
  apply bind_Some in H as (c & Hc & H). simplify_eq.
  apply zlookup_Some in Hrow as [_ Hrow].
  split; [by rewrite length_insert|].
  apply Forall_insert; [done|]. rewrite length_insert.
  rewrite Forall_forall in Hrows. apply Hrows.
  by eapply list_elem_of_lookup_2.
Qed.

Lemma cell_write_total d g x y v :
  grid_shape d g → 0 <= x < cols d → 0 <= y < rows d →
  ∃ g', cell_write g x y v = Some g' ∧ grid_shape d g'.
Proof.
  intros Hs Hx Hy.
  destruct (cell_write_is_Some g x y v) as [g' Hg'].
  { by eapply grid_shape_cell. }
  exists g'. split; [done|]. by eapply grid_shape_write.
Qed.

Lemma cells_write_total d g ps v :
  grid_shape d g → Forall (in_bounds d) ps →
  ∃ g', cells_write g ps v = Some g' ∧ grid_shape d g'.
Proof.
  intros Hs Hps. revert g Hs.
  induction Hps as [|p ps [Hx Hy] _ IH]; intros g Hs; simpl; [eauto|].
  destruct (cell_write_total d g (px p) (py p) v Hs Hx Hy) as (g1 & -> & Hs1).
  simpl. by apply IH.
Qed.

Lemma every_hit_total d g ps :
  grid_shape d g → Forall (in_bounds d) ps → is_Some (every_hit g ps).
Proof.
  intros Hs Hps. induction Hps as [|p ps [Hx Hy] _ IH]; simpl; [eauto|].
  destruct (grid_shape_read d g (px p) (py p) Hs Hy) as [c ->]. simpl.
  by destruct (bool_decide _).
Qed.

(** ** Finding players *)

Section find_facts.
Context {A : Type}.
Implicit Types (f : A → bool) (l : list A).

Lemma findIndex_Some f l i :
  findIndex f l = Some i → ∃ a, l !! i = Some a ∧ f a = true.
Proof.
  revert i. induction l as [|a l IH]; intros i; simpl; [done|].
  destruct (f a) eqn:E.
  - intros [= <-]. eauto.
  - intros (j & Hj & ->)%fmap_Some. by apply IH.
Qed.

Lemma findIndex_alter f (h : A → A) l i :
  (∀ a, f (h a) = f a) → findIndex f (alter h i l) = findIndex f l.
Proof.
  intros Hh. revert i. induction l as [|a l IH]; intros [|i]; simpl;
    try done.
  - by rewrite Hh.
  - destruct (f a); [done|]. f_equal. apply IH.
Qed.

Lemma findIndex_None f l :
  findIndex f l = None → ∀ a, a ∈ l → f a = false.
Proof.
  induction l as [|b l IH]; simpl; intros H a Ha.
  - by apply elem_of_nil in Ha.
  - destruct (f b) eqn:E; [done|].
    apply fmap_None in H.
    apply elem_of_cons in Ha as [->|Ha]; [done|by apply IH].
Qed.
End find_facts.

Lemma findPlayer_alter pid (h : Player → Player) ps i :
  (∀ p, player_id (h p) = player_id p) →
  findPlayer pid (alter h i ps) = findPlayer pid ps.
Proof.
  intros Hh. destruct pid as [s|]; [|done]. simpl.
  apply findIndex_alter. intros p. by rewrite Hh.
Qed.

Lemma findPlayer_Some pid ps i :
  findPlayer pid ps = Some i →
  ∃ p, ps !! i = Some p ∧ pid = Some (player_id p).
Proof.
  destruct pid as [s|]; [|done]. simpl.
  intros (p & Hp & Hid%bool_decide_eq_true)%findIndex_Some.
  exists p. by subst.
Qed.

(** ** Facts about [processShot] *)

(** Inversion of a successful computation in the option monad. *)
Ltac opt_inv H :=
  repeat first
    [ discriminate H
    | match type of H with
      | (_ ≫= _) = Some _ =>
          let a := fresh "a" in
          let E := fresh "E" in
          apply bind_Some in H as (a & E & H)
      | (if ?b then _ else _) = Some _ => destruct b eqn:?
      | match ?m with _ => _ end = Some _ => destruct m eqn:?
      end ].

Lemma closed_after_write g x y v g' :
  v ≠ EMPTY → v ≠ RADAR_CONTACT →
  cell_write g x y v = Some g' → closed_cell (cell_opt g' x y).
Proof.
  intros ?? H. rewrite (cell_write_opt _ _ _ _ _ x y H).
  rewrite decide_True by done. by exists v.
Qed.

Lemma closed_after_sunk g ps g' x y :
  cells_write g ps SUNK = Some g' →
  closed_cell (cell_opt g x y) → closed_cell (cell_opt g' x y).
Proof.
  intros H Hc. rewrite (cells_write_opt _ _ _ _ x y H).
  destruct (existsb _ ps); [by exists SUNK|done].
Qed.

Ltac solve_closed :=
  first
    [ eapply closed_after_write; [| |eassumption]; done
    | eapply closed_after_sunk; [eassumption|];
      eapply closed_after_write; [| |eassumption]; done ].

(** Projections of updated records, computed without unfolding anything
    else. *)
Ltac rsimpl :=
  cbn [ship_name ship_type ship_length positions isSunk isDamaged
       hasBeenRepaired hasBeenRelocated
       ship_set_positions ship_set_isSunk ship_set_isDamaged
       ship_set_hasBeenRepaired ship_set_hasBeenRelocated
       player_id player_name isAI grid ships shots isReady isEliminated
       score skillCooldowns skillUses decoyPositions jammedPositions
       jamTurnsRemaining escapeSkillUnlocked
       p_set_grid p_set_ships p_set_shots p_set_isEliminated
       p_set_skillCooldowns p_set_skillUses p_set_decoyPositions
       p_set_jammedPositions p_set_jamTurnsRemaining
       p_set_escapeSkillUnlocked store_shots
       gameId phase players currentPlayerId winner maxPlayers turn
       gridDimensions shipsConfig gameMode log hasActedThisTurn
       activeAction radarScanResult jammedArea hitLog
       g_set_phase g_set_players g_set_currentPlayerId g_set_winner
       g_set_turn g_set_log g_set_hasActedThisTurn g_set_activeAction
       g_set_radarScanResult g_set_jammedArea g_set_hitLog] in *.

Lemma classic_finish_players gs att ti ps2 acted e :
  players (classic_finish gs att ti ps2 acted e) =
  alter (λ p, if forallb isSunk (ships p)
              then p_set_isEliminated true p else p) ti ps2.
Proof. unfold classic_finish. cbv zeta. by case_bool_decide. Qed.

Lemma classic_finish_same gs att ti ps2 acted e :
  currentPlayerId (classic_finish gs att ti ps2 acted e) = currentPlayerId gs
  ∧ gameMode (classic_finish gs att ti ps2 acted e) = gameMode gs
  ∧ gridDimensions (classic_finish gs att ti ps2 acted e) = gridDimensions gs.
Proof. unfold classic_finish. cbv zeta. by case_bool_decide. Qed.

(** What a call that passes the guard leaves behind: the attacker's shot
    grid for the target holds a confirmed result at the cell, and the two
    players are updated in place, identities unchanged. *)
Lemma processShot_fired gs tid x y gs' :
  processShot gs tid x y = Some gs' →
  gs' = gs ∨
  ∃ ai ti sN (F : Player → Player),
    findPlayer (currentPlayerId gs) (players gs) = Some ai ∧
    findPlayer (Some tid) (players gs) = Some ti ∧
    players gs' = alter F ti (alter (store_shots tid sN) ai (players gs)) ∧
    (∀ p, player_id (F p) = player_id p ∧ shots (F p) = shots p) ∧
    closed_cell (cell_opt sN x y) ∧
    currentPlayerId gs' = currentPlayerId gs ∧
    gameMode gs' = gameMode gs ∧
    gridDimensions gs' = gridDimensions gs.
Proof.
  unfold processShot. intros H.
  apply bind_Some in H as (ai & Hai & H).
  apply bind_Some in H as (attacker & Hatt & H).
  destruct (gameMode gs) eqn:Hmode.
  - (* classic *)
    unfold processShot_classic in H. cbv zeta in H.
    apply bind_Some in H as (ti & Hti & H).
    apply bind_Some in H as (target & Htg & H).
    apply bind_Some in H as (c & Hc & H).
    destruct (negb _) eqn:Hg; [left; by simplify_eq|right].
    opt_inv H; simplify_eq;
      match goal with
      | |- context [classic_finish ?a ?b ?c ?d ?e ?f] =>
          destruct (classic_finish_same a b c d e f) as (?&?&?)
      end;
      rewrite classic_finish_players, list_alter_alter_eq;
      (eexists ai, ti, _, _; split_and!;
        [done|done|reflexivity
        |intros p; unfold compose; cbn beta;
         match goal with
         | |- context [forallb ?f ?l] => by destruct (forallb f l)
         end
        | |done|congruence|done]);
      solve_closed.
  - (* tactical *)
    unfold processShot_tactical in H. cbv zeta in H.
    apply bind_Some in H as (c & Hc & H).
    destruct (negb _) eqn:Hg; [left; by simplify_eq|right].
    opt_inv H; simplify_eq;
      try match goal with
          | |- context [if bool_decide ?P then _ else _] =>
              destruct (bool_decide P)
          end; rsimpl;
      (eexists ai, _, _, _; split_and!;
        [done|done|reflexivity|by intros []| |done|done|done]);
      solve_closed.
Qed.

Lemma lookup_alter_alter_shots (F : Player → Player) (tid : string)
    (sN : Grid) (ai ti : nat) (ps : list Player) (a : Player) :
  (∀ p, player_id (F p) = player_id p ∧ shots (F p) = shots p) →
  ps !! ai = Some a →
  ∃ a', alter F ti (alter (store_shots tid sN) ai ps) !! ai = Some a' ∧
        shots a' = <[tid := sN]> (shots a).
Proof.
  intros HF Ha. rewrite list_lookup_alter. case_decide; subst.
  - rewrite list_lookup_alter_eq, Ha. simpl. eexists. split; [done|].
    by rewrite (proj2 (HF _)).
  - rewrite list_lookup_alter_eq, Ha. simpl. eauto.
Qed.

Lemma shots_for_stored a tid sN d :
  shots a !! tid = Some sN → shots_for a tid d = sN.
Proof. unfold shots_for. by intros ->. Qed.

Lemma processShot_total gs tid x y ai attacker ti target :
  let d := gridDimensions gs in
  findPlayer (currentPlayerId gs) (players gs) = Some ai →
  players gs !! ai = Some attacker →
  findPlayer (Some tid) (players gs) = Some ti →
  players gs !! ti = Some target →
  grid_shape d (shots_for attacker tid d) →
  grid_shape d (grid target) →
  (∀ s, s ∈ ships target → Forall (in_bounds d) (positions s)) →
  (cell_opt (grid target) x y = Some SHIP →
   is_Some (findIndex (ship_at x y) (ships target))) →
  0 <= x < cols d → 0 <= y < rows d →
  is_Some (processShot gs tid x y).
Proof.
  intros d Hai Ha Hti Ht Hsg Hg Hpos Hship Hx Hy.
  destruct (grid_shape_read d _ x y Hsg Hy) as [seen Hseen].
  destruct (grid_shape_read d _ x y Hg Hy) as [cell Hcell].
  assert (∀ v, ∃ g', cell_write (shots_for attacker tid d) x y v = Some g'
                     ∧ grid_shape d g') as Hws
    by (intros v; by apply cell_write_total).
  assert (∀ v, ∃ g', cell_write (grid target) x y v = Some g'
                     ∧ grid_shape d g') as Hwg
    by (intros v; by apply cell_write_total).
  unfold processShot. rewrite Hai. cbn [mbind option_bind]. rewrite Ha.
  cbn [mbind option_bind].
  destruct (gameMode gs).
  - unfold processShot_classic. rewrite Hti. cbn [mbind option_bind].
    rewrite Ht. cbn [mbind option_bind]. cbv zeta. fold d. rewrite Hseen.
    cbn [mbind option_bind].
    destruct (negb _); [eauto|]. rewrite Hcell. cbn [mbind option_bind].
    destruct (is_hit_cell_classic cell).
    + destruct (Hws HIT) as (s1 & -> & Hs1).
      destruct (Hwg HIT) as (g1 & -> & Hg1). cbn [mbind option_bind].
      destruct (findIndex (ship_at x y) (ships target)) as [si|] eqn:Hsi;
        [|eauto].
      apply findIndex_Some in Hsi as (hitShip & Hhit & _).
      rewrite Hhit. cbn [mbind option_bind].
      assert (Forall (in_bounds d) (positions hitShip)) as Hin.
      { apply Hpos. by eapply list_elem_of_lookup_2. }
      destruct (every_hit_total d g1 _ Hg1 Hin) as [sunk ->].
      cbn [mbind option_bind]. destruct sunk; [|eauto].
      destruct (cells_write_total d g1 _ SUNK Hg1 Hin) as (g2 & -> & _).
      destruct (cells_write_total d s1 _ SUNK Hs1 Hin) as (s2 & -> & _).
      cbn [mbind option_bind]. eauto.
    + destruct (Hws MISS) as (s1 & -> & Hs1).
      destruct (Hwg MISS) as (g1 & -> & Hg1). cbn [mbind option_bind]. eauto.
  - unfold processShot_tactical. cbv zeta. fold d. rewrite Hseen.
    cbn [mbind option_bind].
    destruct (negb _); [eauto|]. rewrite Hti. cbn [mbind option_bind].
    rewrite Ht. cbn [mbind option_bind].
    destruct (findIndex (pos_eqb x y) (decoyPositions target)).
    + destruct (Hws HIT) as (s1 & -> & Hs1). cbn [mbind option_bind].
      rewrite Hcell. cbn [mbind option_bind].
      destruct (bool_decide (cell = Some DECOY)).
      * destruct (Hwg EMPTY) as (g1 & -> & Hg1). cbn [mbind option_bind].
        eauto.
      * cbn [mbind option_bind]. eauto.
    + rewrite Hcell. cbn [mbind option_bind].
      destruct (bool_decide (cell = Some SHIP)) eqn:Hc.
      * apply bool_decide_eq_true in Hc. subst cell.
        destruct (Hws HIT) as (s1 & -> & Hs1). cbn [mbind option_bind].
        destruct Hship as [si Hsi].
        { by apply cell_read_opt. }
        rewrite Hsi. cbn [mbind option_bind].
        apply findIndex_Some in Hsi as (hitShip & Hhit & _).
        rewrite Hhit. cbn [mbind option_bind].
        destruct (Hwg HIT) as (g1 & -> & Hg1). cbn [mbind option_bind].
        cbv zeta.
        assert (Forall (in_bounds d) (positions hitShip)) as Hin.
        { apply Hpos. by eapply list_elem_of_lookup_2. }
        destruct (every_hit_total d g1 _ Hg1 Hin) as [sunk ->].
        cbn [mbind option_bind]. destruct sunk; [|eauto].
        destruct (cells_write_total d g1 _ SUNK Hg1 Hin) as (g2 & -> & _).
        destruct (cells_write_total d s1 _ SUNK Hs1 Hin) as (s2 & -> & _).
        cbn [mbind option_bind]. eauto.
      * destruct (Hws MISS) as (s1 & -> & Hs1). cbn [mbind option_bind].
        destruct (bool_decide (cell = Some DECOY)).
        -- cbn [mbind option_bind]. eauto.
        -- destruct (Hwg MISS) as (g1 & -> & Hg1). cbn [mbind option_bind].
           eauto.
Qed.

Lemma processShot_shootable gs tid x y :
  shootable gs tid x y → is_Some (processShot gs tid x y).
Proof.
  intros (ai & attacker & ti & target & Hai & Ha & Hti & Ht & Hsg & Hg
          & Hpos & Hship & Hx & Hy).
  by eapply processShot_total.
Qed.

(** C3.  [processShot] is idempotent: a second call with the same target
    and coordinates returns the state produced by the first call, because
    the first call either was itself stopped by the guard or left a
    confirmed result (Hit, Miss or Sunk) in the attacker's shot grid, at
    which the guard of the second call returns its argument.  The first
    call returns for every state in order and every coordinate inside the
    grid. *)
Theorem processShot_idempotent gs tid x y :
  (shootable gs tid x y → is_Some (processShot gs tid x y)) ∧
  ∀ gs', processShot gs tid x y = Some gs' →
         processShot gs' tid x y = Some gs'.
Proof.
  split; [apply processShot_shootable|]. intros gs' H.
  destruct (processShot_fired _ _ _ _ _ H)
    as [->|(ai & ti & sN & F & Hai & Hti & Hps & HF & Hcl & Hcur & Hm & Hd)];
    [done|].
  destruct (findPlayer_Some _ _ _ Hai) as (a & Ha & _).
  destruct (findPlayer_Some _ _ _ Hti) as (t & Ht & _).
  destruct (lookup_alter_alter_shots F tid sN ai ti _ _ HF Ha)
    as (a' & Ha' & Hsh).
  rewrite <- Hps in Ha'.
  assert (Hai' : findPlayer (currentPlayerId gs') (players gs') = Some ai).
  { rewrite Hcur, Hps, !findPlayer_alter; [done|done|apply HF]. }
  assert (Hti' : findPlayer (Some tid) (players gs') = Some ti).
  { rewrite Hps, !findPlayer_alter; [done|done|apply HF]. }
  assert (Ht' : is_Some (players gs' !! ti)).
  { apply lookup_lt_is_Some. rewrite Hps, !length_alter.
    by eapply lookup_lt_Some. }
  destruct Ht' as [t' Ht'].
  assert (Hsf : shots_for a' tid (gridDimensions gs') = sN).
  { apply shots_for_stored. rewrite Hsh. apply lookup_insert_eq. }
  destruct Hcl as (v & Hv & Hne1 & Hne2).
  apply cell_opt_Some_read in Hv.
  unfold processShot. rewrite Hai'. cbn [mbind option_bind].
  rewrite Ha'. cbn [mbind option_bind]. rewrite Hm.
  destruct (gameMode gs).
  - unfold processShot_classic. rewrite Hti'. cbn [mbind option_bind].
    rewrite Ht'. cbn [mbind option_bind]. rewrite Hsf, Hv.
    cbn [mbind option_bind]. rewrite bool_decide_eq_false_2; [done|].
    intros [=]. done.
  - unfold processShot_tactical. rewrite Hsf, Hv. cbn [mbind option_bind].
    unfold is_open_cell_tactical.
    rewrite !bool_decide_eq_false_2; [done| |]; intros [=]; done.
Qed.

(** *** Who keeps the turn after a shot *)

Lemma classic_finish_acted gs att ti ps2 acted e :
  hasActedThisTurn (classic_finish gs att ti ps2 acted e) =
  acted || bool_decide (game_decided (classic_finish gs att ti ps2 acted e)).
Proof.
  unfold game_decided. rewrite classic_finish_players.
  unfold classic_finish. cbv zeta. case_bool_decide; rsimpl.
  - by rewrite orb_true_r.
  - by rewrite orb_false_r.
Qed.

Lemma findIndex_pos_eqb_None x y (l : list Pos) :
  findIndex (pos_eqb x y) l = None ↔ mkPos x y ∉ l.
Proof.
  rewrite <- existsb_pos_eqb. induction l as [|p l IH]; simpl; [done|].
  destruct (pos_eqb x y p); simpl; [split; [done|intros []; done]|].
  rewrite fmap_None. apply IH.
Qed.

(** C2 (amended).  For a shot at a cell the attacker has not shot before:
    in classic mode a miss sets [hasActedThisTurn], and a hit leaves it
    false unless the shot decides the game (at most one player is left
    uneliminated), in which case it is set as well; in tactical mode
    [hasActedThisTurn] is set exactly when the shot misses or hits the
    Mothership, and it is false for every other hit and for a hit on a
    live decoy.  The call returns for every state in order and every
    coordinate inside the grid. *)
Theorem processShot_turn_end gs tid x y ai attacker ti target :
  findPlayer (currentPlayerId gs) (players gs) = Some ai →
  players gs !! ai = Some attacker →
  findPlayer (Some tid) (players gs) = Some ti →
  players gs !! ti = Some target →
  unshot gs attacker tid x y →
  (shootable gs tid x y → is_Some (processShot gs tid x y)) ∧
  ∀ gs', processShot gs tid x y = Some gs' →
  match gameMode gs with
  | CLASSIC =>
      (is_hit_cell_classic (cell_opt (grid target) x y) = false →
       hasActedThisTurn gs' = true) ∧
      (is_hit_cell_classic (cell_opt (grid target) x y) = true →
       (hasActedThisTurn gs' = true ↔ game_decided gs'))
  | TACTICAL =>
      hasActedThisTurn gs' = true ↔
        ¬ live_decoy target x y ∧
        (cell_opt (grid target) x y ≠ Some SHIP ∨
         ∃ s, hitShip_of target x y = Some s ∧
              ship_type s = "Mothership"%string)
  end.
Proof.
  intros Hai Ha Hti Ht Hun. split; [apply processShot_shootable|].
  intros gs' H. unfold processShot in H.
  rewrite Hai in H. cbn [mbind option_bind] in H.
  rewrite Ha in H. cbn [mbind option_bind] in H.
  unfold unshot in Hun. cbv zeta in Hun.
  destruct (gameMode gs) eqn:Hmode.
  - unfold processShot_classic in H. cbv zeta in H.
    rewrite Hti in H. cbn [mbind option_bind] in H.
    rewrite Ht in H. cbn [mbind option_bind] in H.
    rewrite (cell_opt_Some_read _ _ _ _ Hun) in H.
    cbn [mbind option_bind] in H.
    rewrite bool_decide_eq_true_2 in H by done. cbn [negb] in H.
    apply bind_Some in H as (c & Hc & H).
    rewrite (cell_read_opt _ _ _ _ Hc).
    opt_inv H; simplify_eq; rewrite classic_finish_acted;
      (split; [intros Hh|intros Hh]; try congruence);
      rewrite ?orb_true_l, ?orb_false_l, ?bool_decide_eq_true; done.
  - unfold processShot_tactical in H. cbv zeta in H.
    assert (∃ c, cell_read
              (shots_for attacker tid (gridDimensions gs)) x y = Some c ∧
              is_open_cell_tactical c = true) as (c0 & Hc0 & Hop).
    { destruct Hun as [Hun|Hun]; apply cell_opt_Some_read in Hun;
        eexists; split; try done. }
    rewrite Hc0 in H. cbn [mbind option_bind] in H.
    rewrite Hop in H. cbn [negb] in H.
    rewrite Hti in H. cbn [mbind option_bind] in H.
    rewrite Ht in H. cbn [mbind option_bind] in H.
    unfold live_decoy, hitShip_of, find.
    destruct (findIndex (pos_eqb x y) (decoyPositions target)) eqn:Hdec.
    + opt_inv H; simplify_eq; rsimpl; split; [done|]; intros [Hnd _];
        destruct Hnd; apply existsb_pos_eqb;
        apply not_false_iff_true; intros Hf;
        assert (findIndex (pos_eqb x y) (decoyPositions target) = None)
          as Hn; try congruence;
        apply findIndex_pos_eqb_None; rewrite <- existsb_pos_eqb;
        congruence.
    + apply findIndex_pos_eqb_None in Hdec.
      apply bind_Some in H as (c & Hc & H).
      rewrite (cell_read_opt _ _ _ _ Hc).
      destruct (bool_decide (c = Some SHIP)) eqn:Hship.
      * apply bool_decide_eq_true in Hship.
        apply bind_Some in H as (s1 & _ & H).
        apply bind_Some in H as (si & Hsi & H). rewrite Hsi.
        cbn [mbind option_bind].
        apply bind_Some in H as (hs & Hhs & H). rewrite Hhs.
        destruct (bool_decide (ship_type hs = "Mothership"%string)) eqn:Hm.
        -- apply bool_decide_eq_true in Hm.
           opt_inv H; simplify_eq; rsimpl;
             (split; [intros _; split; [done|right; eauto]|done]).
        -- apply bool_decide_eq_false in Hm.
           opt_inv H; simplify_eq; rsimpl;
             (split; [done|intros [_ [?|(s & ? & ?)]]; simplify_eq; done]).
      * apply bool_decide_eq_false in Hship.
        opt_inv H; simplify_eq; rsimpl; (split; [|done]); intros _;
          (split; [done|by left]).
Qed.

(** ** The fleet invariant of [processShot] *)

Lemma closes_refl sg : closes sg sg.
Proof. by intros x y. Qed.

Lemma closes_write sg x y v sg' :
  v ≠ EMPTY → v ≠ RADAR_CONTACT →
  cell_write sg x y v = Some sg' → closes sg sg'.
Proof.
  intros ?? H x' y' Hc. rewrite (cell_write_opt _ _ _ _ _ x' y' H).
  case_decide; [by exists v|done].
Qed.

Lemma closes_sunk sg ps sg' :
  cells_write sg ps SUNK = Some sg' → closes sg sg'.
Proof. intros H x y. by apply (closed_after_sunk sg ps). Qed.

Lemma closes_trans sg1 sg2 sg3 :
  closes sg1 sg2 → closes sg2 sg3 → closes sg1 sg3.
Proof. intros H1 H2 x y ?. by apply H2, H1. Qed.

Lemma pos_eta (p : Pos) : mkPos (px p) (py p) = p.
Proof. by destruct p. Qed.

Lemma ship_at_elem x y s : ship_at x y s = true ↔ mkPos x y ∈ positions s.
Proof. apply existsb_pos_eqb. Qed.

Lemma not_closed_open c :
  c = Some EMPTY ∨ c = Some RADAR_CONTACT → ¬ closed_cell c.
Proof. intros [->| ->] (v & [= <-] & ? & ?); done. Qed.

(** Past the guard, a position of a ship still reads [SHIP]. *)
Lemma guard_ship_cell sg g ss x y i s :
  ships_ok sg g ss → ¬ closed_cell (cell_opt sg x y) →
  ss !! i = Some s → mkPos x y ∈ positions s →
  cell_opt g x y = Some SHIP.
Proof.
  intros Hok Hopen Hs Hin.
  destruct (decide (cell_opt g x y = Some SHIP)) as [|Hn]; [done|].
  destruct Hopen. by apply (ok_shots _ _ _ Hok i s (mkPos x y)).
Qed.

(** A step that changes no ship cell. *)
Lemma ships_ok_frame sg g ss sg' g' ss' :
  ships_ok sg g ss →
  (∀ i s p, ss !! i = Some s → p ∈ positions s →
            cell_opt g' (px p) (py p) = cell_opt g (px p) (py p)) →
  closes sg sg' →
  (∀ i s', ss' !! i = Some s' → ∃ s, ss !! i = Some s ∧ same_hull s s') →
  ships_ok sg' g' ss'.
Proof.
  intros Hok Hg Hsg Hss. split.
  - intros i s' p Hs' Hsunk Hp.
    destruct (Hss _ _ Hs') as (s & Hs & Hpos & Hsk).
    rewrite Hpos in Hp. rewrite Hsk in Hsunk. unfold reads.
    rewrite (Hg _ _ _ Hs Hp). by eapply (ok_sunk _ _ _ Hok).
  - intros i s' p Hs' Hsunk Hp.
    destruct (Hss _ _ Hs') as (s & Hs & Hpos & Hsk).
    rewrite Hpos in Hp. rewrite Hsk in Hsunk. unfold reads.
    rewrite (Hg _ _ _ Hs Hp). by eapply (ok_afloat _ _ _ Hok).
  - intros i s' Hs' Hsunk Hne.
    destruct (Hss _ _ Hs') as (s & Hs & Hpos & Hsk).
    rewrite Hpos in Hne. rewrite Hsk in Hsunk.
    destruct (ok_intact _ _ _ Hok i s Hs Hsunk Hne) as (p & Hp & Hr).
    exists p. rewrite Hpos. split; [done|]. unfold reads.
    by rewrite (Hg _ _ _ Hs Hp).
  - intros i j s1' s2' p H1 H2 Hp1 Hp2.
    destruct (Hss _ _ H1) as (s1 & Hs1 & Hpos1 & _).
    destruct (Hss _ _ H2) as (s2 & Hs2 & Hpos2 & _).
    rewrite Hpos1 in Hp1. rewrite Hpos2 in Hp2.
    by eapply (ok_disjoint _ _ _ Hok).
  - intros i s' p Hs' Hp Hr.
    destruct (Hss _ _ Hs') as (s & Hs & Hpos & _).
    rewrite Hpos in Hp. apply Hsg. eapply (ok_shots _ _ _ Hok); [done..|].
    unfold reads in *. by rewrite <- (Hg _ _ _ Hs Hp).
Qed.

Lemma same_hull_alter (f : Ship → Ship) si (ss : list Ship) :
  (∀ s, same_hull s (f s)) →
  ∀ i s', alter f si ss !! i = Some s' →
          ∃ s, ss !! i = Some s ∧ same_hull s s'.
Proof.
  intros Hf i s'. rewrite list_lookup_alter. case_decide; subst.
  - intros (s & Hs & ->)%fmap_Some. eauto.
  - intros Hs. exists s'. by split.
Qed.

Lemma same_hull_id (ss : list Ship) :
  ∀ i s', ss !! i = Some s' → ∃ s, ss !! i = Some s ∧ same_hull s s'.
Proof. intros i s' Hs. exists s'. by split. Qed.

(** A write at a cell that belongs to no ship, or that leaves the grid as
    it is. *)
Lemma ships_ok_off_ship sg g ss sg' g' x y v :
  ships_ok sg g ss →
  ¬ closed_cell (cell_opt sg x y) →
  g' = g ∨
    (cell_write g x y v = Some g' ∧
     (cell_opt g x y ≠ Some SHIP ∨
      ∀ i s, ss !! i = Some s → mkPos x y ∉ positions s)) →
  closes sg sg' →
  ships_ok sg' g' ss.
Proof.
  intros Hok Hopen Hg Hsg.
  apply (ships_ok_frame sg g ss); [done| |done|apply same_hull_id].
  intros i s p Hs Hp. destruct Hg as [->|[Hw Hno]]; [done|].
  rewrite (cell_write_opt _ _ _ _ _ (px p) (py p) Hw).
  case_decide as Hd; [|done]. destruct Hd as [Hx Hy].
  assert (mkPos x y ∈ positions s) as Hin.
  { rewrite <- Hx, <- Hy. by rewrite pos_eta. }
  destruct Hno as [Hno|Hno].
  - destruct Hno. by eapply guard_ship_cell.
  - by destruct (Hno _ _ Hs).
Qed.

Lemma cell_write_pos g x y v g' p :
  cell_write g x y v = Some g' →
  cell_opt g' (px p) (py p) =
    if decide (p = mkPos x y) then Some v else cell_opt g (px p) (py p).
Proof.
  intros H. rewrite (cell_write_opt _ _ _ _ _ (px p) (py p) H).
  destruct p as [a b]; simpl.
  destruct (decide (a = x ∧ b = y)) as [[-> ->]|Hn].
  - by rewrite decide_True.
  - rewrite decide_False; [done|]. intros [= -> ->]. by apply Hn.
Qed.

Lemma cells_write_pos g ps v g' p :
  cells_write g ps v = Some g' →
  cell_opt g' (px p) (py p) =
    if decide (p ∈ ps) then Some v else cell_opt g (px p) (py p).
Proof.
  intros H. rewrite (cells_write_opt _ _ _ _ (px p) (py p) H).
  destruct (existsb _ ps) eqn:E.
  - apply existsb_pos_eqb in E. rewrite pos_eta in E.
    by rewrite decide_True.
  - rewrite decide_False; [done|]. intros Hin.
    rewrite <- (pos_eta p) in Hin. apply existsb_pos_eqb in Hin.
    congruence.
Qed.

(** A hit that does not sink the ship. *)
Lemma ships_ok_hit sg g ss x y si hs sg1 g1 (f : Ship → Ship) :
  ships_ok sg g ss → ss !! si = Some hs → mkPos x y ∈ positions hs →
  cell_opt g x y = Some SHIP →
  cell_write g x y HIT = Some g1 → cell_write sg x y HIT = Some sg1 →
  every_hit g1 (positions hs) = Some false →
  (∀ s, same_hull s (f s)) →
  ships_ok sg1 g1 (alter f si ss).
Proof.
  intros Hok Hhs Hxy Hcell Hg Hsg Hev Hf.
  assert (Hafloat : isSunk hs = false).
  { destruct (isSunk hs) eqn:E; [|done].
    pose proof (ok_sunk _ _ _ Hok si hs _ Hhs E Hxy) as Hr.
    unfold reads in Hr. simpl in Hr. congruence. }
  assert (Hother : ∀ i s p, ss !! i = Some s → i ≠ si →
            p ∈ positions s → p ≠ mkPos x y).
  { intros i s p Hs Hne Hp ->. destruct Hne.
    by eapply (ok_disjoint _ _ _ Hok). }
  assert (Hlook : ∀ i s', alter f si ss !! i = Some s' →
            ∃ s, ss !! i = Some s ∧ same_hull s s').
  { by apply same_hull_alter. }
  split.
  - intros i s' p Hs' Hsunk Hp.
    destruct (Hlook _ _ Hs') as (s & Hs & Hpos & Hsk).
    rewrite Hpos in Hp. rewrite Hsk in Hsunk.
    destruct (decide (i = si)) as [->|Hne]; [congruence|].
    unfold reads. rewrite (cell_write_pos _ _ _ _ _ p Hg).
    rewrite decide_False by eauto. by eapply (ok_sunk _ _ _ Hok).
  - intros i s' p Hs' Hsunk Hp.
    destruct (Hlook _ _ Hs') as (s & Hs & Hpos & Hsk).
    rewrite Hpos in Hp. rewrite Hsk in Hsunk.
    unfold reads. rewrite !(cell_write_pos _ _ _ _ _ p Hg).
    case_decide; [by right|]. by eapply (ok_afloat _ _ _ Hok).
  - intros i s' Hs' Hsunk Hne.
    destruct (Hlook _ _ Hs') as (s & Hs & Hpos & Hsk).
    rewrite Hpos in Hne |- *. rewrite Hsk in Hsunk.
    destruct (decide (i = si)) as [->|Hni].
    + assert (s = hs) as -> by congruence.
      destruct (every_hit_false _ _ Hev) as (p & Hp & Hnh).
      exists p. split; [done|]. unfold reads.
      rewrite (cell_write_pos _ _ _ _ _ p Hg) in Hnh |- *.
      case_decide; [done|].
      destruct (ok_afloat _ _ _ Hok si hs p Hhs Hafloat Hp); done.
    + destruct (ok_intact _ _ _ Hok i s Hs Hsunk Hne) as (p & Hp & Hr).
      exists p. split; [done|]. unfold reads.
      rewrite (cell_write_pos _ _ _ _ _ p Hg).
      rewrite decide_False by eauto. done.
  - intros i j s1' s2' p H1 H2 Hp1 Hp2.
    destruct (Hlook _ _ H1) as (s1 & Hs1 & Hpos1 & _).
    destruct (Hlook _ _ H2) as (s2 & Hs2 & Hpos2 & _).
    rewrite Hpos1 in Hp1. rewrite Hpos2 in Hp2.
    by eapply (ok_disjoint _ _ _ Hok).
  - intros i s' p Hs' Hp Hr.
    destruct (Hlook _ _ Hs') as (s & Hs & Hpos & _).
    rewrite Hpos in Hp. unfold reads in Hr.
    rewrite (cell_write_pos _ _ _ _ _ p Hg) in Hr.
    rewrite (cell_write_pos _ _ _ _ _ p Hsg).
    case_decide; [by exists HIT|].
    by eapply (ok_shots _ _ _ Hok).
Qed.

(** The hit that sinks the ship. *)
Lemma ships_ok_sink sg g ss x y si hs sg1 g1 sg2 g2 (f : Ship → Ship) :
  ships_ok sg g ss → ss !! si = Some hs → mkPos x y ∈ positions hs →
  cell_write g x y HIT = Some g1 → cell_write sg x y HIT = Some sg1 →
  cells_write g1 (positions hs) SUNK = Some g2 →
  cells_write sg1 (positions hs) SUNK = Some sg2 →
  (∀ s, positions (f s) = positions s ∧ isSunk (f s) = true) →
  ships_ok sg2 g2 (alter f si ss).
Proof.
  intros Hok Hhs Hxy Hg Hsg Hg2 Hsg2 Hf.
  assert (Hother : ∀ i s p, ss !! i = Some s → i ≠ si →
            p ∈ positions s → p ∉ positions hs).
  { intros i s p Hs Hne Hp Hin. destruct Hne.
    by eapply (ok_disjoint _ _ _ Hok). }
  assert (Hcell : ∀ i s p, ss !! i = Some s → i ≠ si → p ∈ positions s →
            cell_opt g2 (px p) (py p) = cell_opt g (px p) (py p)).
  { intros i s p Hs Hne Hp.
    rewrite (cells_write_pos _ _ _ _ p Hg2).
    rewrite decide_False by eauto.
    rewrite (cell_write_pos _ _ _ _ _ p Hg).
    rewrite decide_False; [done|]. intros ->. by eapply Hother. }
  assert (Hlook : ∀ i s', alter f si ss !! i = Some s' →
            (i = si ∧ s' = f hs) ∨ (i ≠ si ∧ ss !! i = Some s')).
  { intros i s'. rewrite list_lookup_alter. case_decide; subst.
    - rewrite Hhs. intros [= <-]. by left.
    - by right. }
  split.
  - intros i s' p Hs' Hsunk Hp. unfold reads.
    destruct (Hlook _ _ Hs') as [[-> ->]|[Hne Hs]].
    + rewrite (proj1 (Hf hs)) in Hp.
      rewrite (cells_write_pos _ _ _ _ p Hg2). by rewrite decide_True.
    + rewrite (Hcell _ _ _ Hs Hne Hp). by eapply (ok_sunk _ _ _ Hok).
  - intros i s' p Hs' Hsunk Hp. unfold reads.
    destruct (Hlook _ _ Hs') as [[-> ->]|[Hne Hs]].
    + rewrite (proj2 (Hf hs)) in Hsunk. done.
    + rewrite !(Hcell _ _ _ Hs Hne Hp). by eapply (ok_afloat _ _ _ Hok).
  - intros i s' Hs' Hsunk Hnil.
    destruct (Hlook _ _ Hs') as [[-> ->]|[Hne Hs]].
    + rewrite (proj2 (Hf hs)) in Hsunk. done.
    + destruct (ok_intact _ _ _ Hok i s' Hs Hsunk Hnil) as (p & Hp & Hr).
      exists p. split; [done|]. unfold reads.
      by rewrite (Hcell _ _ _ Hs Hne Hp).
  - intros i j s1' s2' p H1 H2 Hp1 Hp2.
    destruct (Hlook _ _ H1) as [[-> ->]|[Hn1 Hs1]];
      destruct (Hlook _ _ H2) as [[-> ->]|[Hn2 Hs2]];
      rewrite ?(proj1 (Hf hs)) in *; try done.
    + by eapply (ok_disjoint _ _ _ Hok si j hs s2' p).
    + by eapply (ok_disjoint _ _ _ Hok i si s1' hs p).
    + by eapply (ok_disjoint _ _ _ Hok).
  - intros i s' p Hs' Hp Hr.
    destruct (Hlook _ _ Hs') as [[-> ->]|[Hne Hs]].
    + rewrite (proj1 (Hf hs)) in Hp.
      rewrite (cells_write_pos _ _ _ _ p Hsg2).
      rewrite decide_True by done. by exists SUNK.
    + unfold reads in Hr. rewrite (Hcell _ _ _ Hs Hne Hp) in Hr.
      eapply closes_sunk; [done|].
      eapply closes_write; [| |done|]; [done..|].
      by eapply (ok_shots _ _ _ Hok).
Qed.

Lemma shots_for_insert a (tid k : string) sN d a' :
  shots a' = <[tid := sN]> (shots a) →
  shots_for a' k d = if decide (k = tid) then sN else shots_for a k d.
Proof.
  intros Hs. unfold shots_for. rewrite Hs. case_decide; subst.
  - by rewrite lookup_insert_eq.
  - by rewrite lookup_insert_ne.
Qed.

Lemma lookup_store_shots (ps : list Player) ai (tid : string) (sN : Grid)
    i p :
  alter (store_shots tid sN) ai ps !! i = Some p →
  ∃ p0, ps !! i = Some p0 ∧ player_id p = player_id p0 ∧
        grid p = grid p0 ∧ ships p = ships p0.
Proof.
  rewrite list_lookup_alter. case_decide; subst.
  - intros (p0 & Hp0 & ->)%fmap_Some. exists p0. by destruct p0.
  - intros Hp. by exists p.
Qed.

Lemma fleet_inv_update gs gs' ai attacker ti target tid sN gN ssN
    (F : Player → Player) :
  fleet_inv gs →
  findPlayer (currentPlayerId gs) (players gs) = Some ai →
  players gs !! ai = Some attacker →
  findPlayer (Some tid) (players gs) = Some ti →
  players gs !! ti = Some target →
  players gs' = alter F ti (alter (store_shots tid sN) ai (players gs)) →
  (∀ p, player_id (F p) = player_id p ∧ shots (F p) = shots p ∧
        grid (F p) = gN) →
  (∀ p, ships p = ships target → ships (F p) = ssN) →
  currentPlayerId gs' = currentPlayerId gs →
  gridDimensions gs' = gridDimensions gs →
  closes (shots_for attacker tid (gridDimensions gs)) sN →
  ships_ok sN gN ssN →
  fleet_inv gs'.
Proof.
  intros Hinv Hai Ha Hti Ht Hps HF Hships Hcur Hd Hcl Hok.
  assert (HF' : ∀ p, player_id (F p) = player_id p ∧ shots (F p) = shots p)
    by (intros p; destruct (HF p) as (?&?&?); done).
  intros ai' a' i p Hai' Ha' Hp.
  rewrite Hcur, Hps, !findPlayer_alter in Hai'; [|done|apply HF'].
  assert (ai' = ai) as -> by congruence.
  destruct (lookup_alter_alter_shots F tid sN ai ti _ _ HF' Ha)
    as (a'' & Ha'' & Hsh).
  rewrite <- Hps in Ha''. assert (a'' = a') as -> by congruence.
  rewrite Hd, (shots_for_insert attacker tid _ sN _ a' Hsh).
  destruct (findPlayer_Some _ _ _ Hti) as (t0 & Ht0 & Htid).
  assert (t0 = target) as -> by congruence. injection Htid as Htid.
  rewrite Hps in Hp. rewrite list_lookup_alter in Hp.
  destruct (decide (ti = i)) as [<-|Hne].
  - apply fmap_Some in Hp as (q & Hq & ->).
    apply lookup_store_shots in Hq as (p0 & Hp0 & Hid & _ & Hsq).
    assert (p0 = target) as -> by congruence.
    destruct (HF q) as (Hid' & _ & Hg).
    rewrite Hid', Hid, <- Htid, decide_True by done.
    by rewrite Hg, (Hships q Hsq).
  - apply lookup_store_shots in Hp as (p0 & Hp0 & Hid & Hg & Hsq).
    rewrite Hid, Hg, Hsq.
    pose proof (Hinv ai attacker i p0 Hai Ha Hp0) as Hok0.
    case_decide as Hk; [|done].
    eapply ships_ok_frame; [exact Hok0|done| |apply same_hull_id].
    by rewrite Hk.
Qed.

Lemma ship_found (ss : list Ship) x y si :
  findIndex (ship_at x y) ss = Some si →
  ∃ hs, ss !! si = Some hs ∧ mkPos x y ∈ positions hs.
Proof.
  intros (hs & Hhs & Hat)%findIndex_Some. exists hs. split; [done|].
  by apply ship_at_elem.
Qed.

Lemma no_ship_found (ss : list Ship) x y :
  findIndex (ship_at x y) ss = None →
  ∀ i s, ss !! i = Some s → mkPos x y ∉ positions s.
Proof.
  intros Hn i s Hs Hin. apply ship_at_elem in Hin.
  rewrite (findIndex_None _ _ Hn s) in Hin; [done|].
  by eapply list_elem_of_lookup_2.
Qed.

(** The bookkeeping shared by the branches of the classic mode. *)
Ltac classic_branch Hinv Hai Ha Hti Ht sN gN ssN :=
  match goal with
  | |- fleet_inv (classic_finish ?gs ?att ?ti ?ps2 ?acted ?e) =>
      destruct (classic_finish_same gs att ti ps2 acted e) as (?&?&?);
      eapply (fleet_inv_update gs _ _ att ti _ _ sN gN ssN);
      [exact Hinv|exact Hai|exact Ha|exact Hti|exact Ht
      |rewrite classic_finish_players, list_alter_alter_eq; reflexivity
      |intros p; unfold compose; cbn beta;
       match goal with
       | |- context [forallb ?f ?l] => destruct (forallb f l)
       end; destruct p; done
      |intros p Hp; unfold compose; cbn beta;
       match goal with
       | |- context [forallb ?f ?l] => destruct (forallb f l)
       end; rsimpl; rewrite ?Hp; done
      |done|done| | ]
  end.

Ltac tactical_branch Hinv Hai Ha Hti Ht sN gN ssN :=
  match goal with
  | |- fleet_inv ?gs' =>
      eapply (fleet_inv_update _ gs' _ _ _ _ _ sN gN ssN);
      [exact Hinv|exact Hai|exact Ha|exact Hti|exact Ht
      |rsimpl; reflexivity
      |intros p; destruct p; done
      |intros p Hp; rsimpl; rewrite ?Hp; done
      |done|done| | ]
  end.

(** [processShot] preserves the fleet invariant. *)
Lemma processShot_fleet_inv gs tid x y gs' :
  fleet_inv gs → processShot gs tid x y = Some gs' → fleet_inv gs'.
Proof.
  intros Hinv H. unfold processShot in H.
  apply bind_Some in H as (ai & Hai & H).
  apply bind_Some in H as (attacker & Ha & H).
  destruct (gameMode gs) eqn:Hmode.
  - unfold processShot_classic in H. cbv zeta in H.
    apply bind_Some in H as (ti & Hti & H).
    apply bind_Some in H as (target & Ht & H).
    destruct (findPlayer_Some _ _ _ Hti) as (t0 & Ht0 & Htid).
    assert (t0 = target) as -> by congruence. injection Htid as Htid.
    pose proof (Hinv ai attacker ti target Hai Ha Ht) as Hok.
    rewrite <- Htid in Hok.
    apply bind_Some in H as (c & Hc & H).
    destruct (negb _) eqn:Hg; [by simplify_eq|].
    apply negb_false_iff, bool_decide_eq_true in Hg. subst c.
    assert (Hopen : ¬ closed_cell
              (cell_opt (shots_for attacker tid (gridDimensions gs)) x y)).
    { rewrite (cell_read_opt _ _ _ _ Hc). apply not_closed_open. by left. }
    apply bind_Some in H as (tc & Htc & H). apply cell_read_opt in Htc.
    destruct (is_hit_cell_classic tc) eqn:Hhit.
    + apply bind_Some in H as (s1 & Hs1 & H).
      apply bind_Some in H as (g1 & Hg1 & H).
      destruct (findIndex (ship_at x y) (ships target)) as [si|] eqn:Hsi.
      * destruct (ship_found _ _ _ _ Hsi) as (hs & Hhs & Hin).
        rewrite Hhs in H. cbn [mbind option_bind] in H.
        pose proof (guard_ship_cell _ _ _ _ _ _ _ Hok Hopen Hhs Hin) as Hsh.
        apply bind_Some in H as (sunk & Hev & H). destruct sunk.
        -- apply bind_Some in H as (g2 & Hg2 & H).
           apply bind_Some in H as (s2 & Hs2 & H). injection H as <-.
           classic_branch Hinv Hai Ha Hti Ht s2 g2
             (alter (ship_set_isSunk true) si (ships target)).
           ++ eapply closes_trans; [|by eapply closes_sunk].
              (eapply closes_write; [| |exact Hs1]; done).
           ++ by eapply (ships_ok_sink _ _ _ x y si hs s1 g1).
        -- injection H as <-.
           classic_branch Hinv Hai Ha Hti Ht s1 g1 (ships target).
           ++ (eapply closes_write; [| |exact Hs1]; done).
           ++ rewrite <- (list_alter_id id (ships target) si) by done.
              by eapply (ships_ok_hit _ _ _ x y si hs).
      * injection H as <-.
        classic_branch Hinv Hai Ha Hti Ht s1 g1 (ships target).
        -- (eapply closes_write; [| |exact Hs1]; done).
        -- eapply (ships_ok_off_ship _ _ _ _ _ x y HIT);
             [exact Hok|done| |(eapply closes_write; [| |exact Hs1]; done)].
           right. split; [done|]. right. by apply no_ship_found.
    + apply bind_Some in H as (s1 & Hs1 & H).
      apply bind_Some in H as (g1 & Hg1 & H). injection H as <-.
      classic_branch Hinv Hai Ha Hti Ht s1 g1 (ships target).
      * (eapply closes_write; [| |exact Hs1]; done).
      * eapply (ships_ok_off_ship _ _ _ _ _ x y MISS);
          [exact Hok|done| |(eapply closes_write; [| |exact Hs1]; done)].
        right. split; [done|]. left. rewrite Htc. intros ->. done.
  - unfold processShot_tactical in H. cbv zeta in H.
    apply bind_Some in H as (c & Hc & H).
    destruct (negb _) eqn:Hg; [by simplify_eq|].
    apply negb_false_iff in Hg.
    assert (Hopen : ¬ closed_cell
              (cell_opt (shots_for attacker tid (gridDimensions gs)) x y)).
    { rewrite (cell_read_opt _ _ _ _ Hc). apply not_closed_open.
      unfold is_open_cell_tactical in Hg.
      apply orb_true_iff in Hg as [Hg|Hg]; apply bool_decide_eq_true in Hg;
        auto. }
    apply bind_Some in H as (ti & Hti & H).
    apply bind_Some in H as (target & Ht & H).
    destruct (findPlayer_Some _ _ _ Hti) as (t0 & Ht0 & Htid).
    assert (t0 = target) as -> by congruence. injection Htid as Htid.
    pose proof (Hinv ai attacker ti target Hai Ha Ht) as Hok.
    rewrite <- Htid in Hok.
    destruct (findIndex (pos_eqb x y) (decoyPositions target))
      as [decoyIndex|] eqn:Hdec.
    + apply bind_Some in H as (s1 & Hs1 & H).
      apply bind_Some in H as (tc & Htc & H). apply cell_read_opt in Htc.
      apply bind_Some in H as (g1 & Hg1 & H). injection H as <-.
      tactical_branch Hinv Hai Ha Hti Ht s1 g1 (ships target).
      * eapply closes_write; [| |exact Hs1]; done.
      * eapply (ships_ok_off_ship _ _ _ _ _ x y EMPTY);
          [exact Hok|done| |eapply closes_write; [| |exact Hs1]; done].
        case_bool_decide; [right|left; by injection Hg1].
        split; [done|]. left. rewrite Htc. intros ->. done.
    + apply bind_Some in H as (tc & Htc & H). apply cell_read_opt in Htc.
      case_bool_decide as Hship.
      * subst tc.
        apply bind_Some in H as (s1 & Hs1 & H).
        apply bind_Some in H as (si & Hsi & H).
        destruct (ship_found _ _ _ _ Hsi) as (hs & Hhs & Hin).
        rewrite Hhs in H. cbn [mbind option_bind] in H.
        apply bind_Some in H as (g1 & Hg1 & H).
        apply bind_Some in H as (sunk & Hev & H). destruct sunk.
        -- apply bind_Some in H as (g2 & Hg2 & H).
           apply bind_Some in H as (s2 & Hs2 & H). injection H as <-.
           destruct (bool_decide (ship_type hs = "Mothership"%string));
             tactical_branch Hinv Hai Ha Hti Ht s2 g2
               (alter (λ s, ship_set_isSunk true (ship_set_isDamaged true s))
                      si (ships target));
             try (eapply closes_trans; [|by eapply closes_sunk];
                  eapply closes_write; [| |exact Hs1]; done);
             by eapply (ships_ok_sink _ _ _ x y si hs s1 g1).
        -- injection H as <-.
           tactical_branch Hinv Hai Ha Hti Ht s1 g1
             (alter (ship_set_isDamaged true) si (ships target)).
           ++ eapply closes_write; [| |exact Hs1]; done.
           ++ by eapply (ships_ok_hit _ _ _ x y si hs).
      * apply bind_Some in H as (s1 & Hs1 & H).
        apply bind_Some in H as (g1 & Hg1 & H). injection H as <-.
        tactical_branch Hinv Hai Ha Hti Ht s1 g1 (ships target).
        -- eapply closes_write; [| |exact Hs1]; done.
        -- eapply (ships_ok_off_ship _ _ _ _ _ x y MISS);
             [exact Hok|done| |eapply closes_write; [| |exact Hs1]; done].
           case_bool_decide; [left; by injection Hg1|right].
           split; [done|]. left. by rewrite Htc.
Qed.

(** *** Sequences of shots *)

Lemma fresh_ships_ok sg g ss : fresh_fleet g ss → ships_ok sg g ss.
Proof.
  intros [Hf Hd]. split.
  - intros i s p Hs Hsunk. destruct (Hf i s Hs). congruence.
  - intros i s p Hs _ Hp. left. by apply (Hf i s Hs).
  - intros i s Hs _ Hne. destruct (positions s) as [|p l] eqn:E; [done|].
    exists p. split; [by left|]. apply (Hf i s Hs). rewrite E. by left.
  - exact Hd.
  - intros i s p Hs Hp Hr. destruct Hr. by apply (Hf i s Hs).
Qed.

Lemma fresh_fleet_inv gs : fresh_state gs → fleet_inv gs.
Proof. intros Hf ai a i p _ _ Hp. apply fresh_ships_ok. by eapply Hf. Qed.

Lemma processShots_fleet_inv gs l gs' :
  fleet_inv gs → processShots gs l = Some gs' → fleet_inv gs'.
Proof.
  revert gs. induction l as [|[tid [x y]] l IH]; intros gs Hinv H; simpl in H.
  - by simplify_eq.
  - apply bind_Some in H as (gs1 & H1 & H).
    eapply IH; [|done]. by eapply processShot_fleet_inv.
Qed.

Lemma processShot_has_current gs tid x y gs' :
  processShot gs tid x y = Some gs' → has_current gs'.
Proof.
  intros H.
  assert (has_current gs) as Hc.
  { unfold processShot in H. apply bind_Some in H as (ai & Hai & H).
    apply bind_Some in H as (a & Ha & _). by exists ai, a. }
  destruct (processShot_fired _ _ _ _ _ H)
    as [->|(ai & ti & sN & F & Hai & Hti & Hps & HF & _ & Hcur & _)];
    [done|].
  destruct (findPlayer_Some _ _ _ Hai) as (a & Ha & _).
  destruct (lookup_alter_alter_shots F tid sN ai ti _ _ HF Ha)
    as (a' & Ha' & _).
  exists ai, a'. rewrite Hcur, Hps. split; [|done].
  rewrite !findPlayer_alter; [done|done|apply HF].
Qed.

Lemma processShots_has_current gs l gs' :
  has_current gs → processShots gs l = Some gs' → has_current gs'.
Proof.
  revert gs. induction l as [|[tid [x y]] l IH]; intros gs Hc H; simpl in H.
  - by simplify_eq.
  - apply bind_Some in H as (gs1 & H1 & H).
    eapply IH; [|done]. by eapply processShot_has_current.
Qed.

(** What the invariant says about the sunk flag of a placed ship. *)
Lemma ships_ok_sunk_iff sg g ss i s :
  ships_ok sg g ss → ss !! i = Some s → positions s ≠ [] →
  (isSunk s = true ↔ ∀ q, q ∈ positions s → reads g q SUNK) ∧
  ¬ (∀ q, q ∈ positions s → reads g q HIT).
Proof.
  intros Hok Hs Hne. destruct (isSunk s) eqn:Hsunk.
  - assert (∀ q, q ∈ positions s → reads g q SUNK) as Hall
      by (intros q Hq; by eapply (ok_sunk _ _ _ Hok)).
    split; [done|]. intros Hhit.
    destruct (positions s) as [|q l] eqn:E; [done|].
    assert (q ∈ q :: l) as Hq by (by left).
    pose proof (Hall q Hq) as H1. pose proof (Hhit q Hq) as H2.
    unfold reads in *. congruence.
  - destruct (ok_intact _ _ _ Hok i s Hs Hsunk Hne) as (q & Hq & Hr).
    split; [split; [done|]|].
    + intros Hall. pose proof (Hall q Hq) as H1. unfold reads in *.
      congruence.
    + intros Hall. pose proof (Hall q Hq) as H1. unfold reads in *.
      congruence.
Qed.

(** ** Facts about [advanceTurn] *)

Lemma succ_mod (n next : nat) :
  (next < n)%nat →
  ((next + 1) mod n)%nat = if decide (next + 1 = n)%nat then 0%nat
                           else (next + 1)%nat.
Proof.
  intros Hlt. case_decide as Hd.
  - rewrite Hd. apply Nat.Div0.mod_same.
  - apply Nat.mod_small. lia.
Qed.

(** With a current player the loop of [advanceTurn] ends: it comes back to
    the current index after at most [length ps] steps. *)
Lemma skipEliminated_terminates (ps : list Player) (ci : nat) :
  (ci < length ps)%nat →
  ∀ fuel next,
    (next < length ps)%nat →
    ((if decide (next < ci)%nat then ci - next
      else ci + length ps - next) ≤ fuel)%nat →
    ∃ r, skipEliminated fuel ps (Some ci) next = Some r ∧
         (r < length ps)%nat.
Proof.
  intros Hci. induction fuel as [|fuel IH]; intros next Hnext Hm.
  - case_decide; lia.
  - simpl. destruct (lookup_lt_is_Some_2 ps next Hnext) as [p Hp].
    rewrite Hp. cbn [mbind option_bind].
    destruct (isEliminated p); [|eauto].
    rewrite succ_mod by done.
    case_bool_decide as Hb.
    + eexists. split; [done|]. case_decide; lia.
    + apply IH; [case_decide; lia|].
      assert ((if decide (next + 1 = length ps)%nat then 0 else next + 1)%nat
              ≠ ci) as Hne by (intros Heq; apply Hb; by rewrite Heq).
      repeat case_decide; lia.
Qed.

Lemma tickJam_cooldowns p :
  skillCooldowns (fst (tickJam p)) = skillCooldowns p.
Proof. unfold tickJam. by repeat case_decide. Qed.

Lemma tickCooldowns_lookup (m : gmap string Z) k :
  tickCooldowns m !! k =
    (λ v, if decide (v > 0) then v - 1 else v) <$> m !! k.
Proof. unfold tickCooldowns. by rewrite lookup_fmap. Qed.

(** [advanceTurn] with a player at turn: it returns, only the player at
    turn is modified, and the turn passes to the next player when that one
    is still in the game. *)
Lemma advanceTurn_players gs ci p :
  findPlayer (currentPlayerId gs) (players gs) = Some ci →
  players gs !! ci = Some p →
  ∃ gs',
    advanceTurn gs = Some gs' ∧
    players gs' = <[ci := end_of_turn (gameMode gs) p]> (players gs) ∧
    gameMode gs' = gameMode gs ∧
    gridDimensions gs' = gridDimensions gs ∧
    turn gs' = turn gs + 1 ∧
    hasActedThisTurn gs' = false ∧
    activeAction gs' = None ∧
    radarScanResult gs' = None ∧
    (∀ q, players gs !! ((ci + 1) mod length (players gs))%nat = Some q →
          ((ci + 1) mod length (players gs))%nat ≠ ci →
          isEliminated q = false →
          currentPlayerId gs' = Some (player_id q)).
Proof.
  intros Hci Hp. unfold advanceTurn. rewrite Hci. cbv zeta. rewrite Hp.
  unfold end_of_turn.
  set (p1 := match gameMode gs with
             | CLASSIC => p
             | TACTICAL => p_set_skillCooldowns
                             (tickCooldowns (skillCooldowns p)) p
             end).
  destruct (tickJam p1) as [p2 cleared] eqn:Hjam. cbn [fst].
  pose proof (lookup_lt_Some _ _ _ Hp) as Hlt.
  set (gs1 := if cleared && _ then _ else _).
  assert (Hps : players gs1 = <[ci := p2]> (players gs)).
  { unfold gs1. by destruct (cleared && _). }
  assert (Hsame : turn gs1 = turn gs ∧ gameMode gs1 = gameMode gs ∧
                  gridDimensions gs1 = gridDimensions gs).
  { unfold gs1. by destruct (cleared && _). }
  destruct Hsame as (Hturn & Hmode & Hdim).
  assert (Hlen : length (players gs1) = length (players gs)).
  { by rewrite Hps, length_insert. }
  rewrite bool_decide_eq_false_2 by lia.
  destruct (skipEliminated_terminates (players gs1) ci)
    with (fuel := S (length (players gs1)))
         (next := ((ci + 1) mod length (players gs1))%nat)
    as (r & Hr & Hrlt).
  - lia.
  - apply Nat.mod_upper_bound. lia.
  - rewrite succ_mod by lia. repeat case_decide; lia.
  - rewrite Hr. cbn [mbind option_bind].
    destruct (lookup_lt_is_Some_2 _ _ Hrlt) as [np Hnp].
    rewrite Hnp. cbn [mbind option_bind].
    eexists. split; [done|].
    set (b := negb (isAI np) && _).
    assert (players (if b then g_set_phase TURN_TRANSITION gs1 else gs1)
            = players gs1 ∧
            turn (if b then g_set_phase TURN_TRANSITION gs1 else gs1)
            = turn gs1 ∧
            gameMode (if b then g_set_phase TURN_TRANSITION gs1 else gs1)
            = gameMode gs1 ∧
            gridDimensions (if b then g_set_phase TURN_TRANSITION gs1
                            else gs1) = gridDimensions gs1)
      as (Hpb & Htb & Hmb & Hdb) by (by destruct b).
    rsimpl. rewrite Hpb, Hmb, Hdb, Hps, Hturn. split_and!; try done.
    intros q Hq Hne Hel. f_equal. f_equal.
    rewrite Hlen in Hr. simpl in Hr.
    rewrite Hps, list_lookup_insert_ne, Hq in Hr by done.
    cbn [mbind option_bind] in Hr. rewrite Hel in Hr.
    injection Hr as <-.
    rewrite Hps, list_lookup_insert_ne, Hq in Hnp by done. congruence.
Qed.

(** The players of a classic game are created without cooldowns and
    without use counters. *)
Lemma createInitialPlayer_classic id name ai cfg d :
  skillCooldowns (createInitialPlayer id name ai cfg d CLASSIC) = ∅ ∧
  skillUses (createInitialPlayer id name ai cfg d CLASSIC) = ∅.
Proof. done. Qed.

(** C7.  When the player at turn is one of the players, [advanceTurn]
    returns a state in which the turn counter is one more,
    [hasActedThisTurn] is false, and the action descriptor and the radar
    result are cleared.  The cooldowns are counted down under tactical
    rules only: there every skill cooldown of the player who ends the
    turn that is strictly positive is one less and every other one is
    unchanged, so that a cooldown at 0 stays at 0 and none becomes
    negative.  A player of a classic game has no cooldown to count down
    ([createInitialPlayer] gives none, and skills are offered under
    tactical rules only), so that the same holds of every game. *)
Theorem advanceTurn_spec gs ci p :
  findPlayer (currentPlayerId gs) (players gs) = Some ci →
  players gs !! ci = Some p →
  ∃ gs' p',
    advanceTurn gs = Some gs' ∧
    players gs' !! ci = Some p' ∧
    turn gs' = turn gs + 1 ∧
    hasActedThisTurn gs' = false ∧
    activeAction gs' = None ∧
    radarScanResult gs' = None ∧
    (∀ k, skillCooldowns p' !! k =
          match gameMode gs with
          | TACTICAL =>
              (λ v, if decide (v > 0) then v - 1 else v)
                <$> skillCooldowns p !! k
          | CLASSIC => skillCooldowns p !! k
          end) ∧
    ((gameMode gs = CLASSIC → skillCooldowns p = ∅) →
     ∀ k, skillCooldowns p' !! k =
          (λ v, if decide (v > 0) then v - 1 else v)
            <$> skillCooldowns p !! k).
Proof.
  intros Hci Hp.
  destruct (advanceTurn_players gs ci p Hci Hp)
    as (gs' & Hadv & Hps & _ & _ & Hturn & Hact & Haa & Hrad & _).
  assert (Hmode : ∀ k, skillCooldowns (end_of_turn (gameMode gs) p) !! k =
            match gameMode gs with
            | TACTICAL =>
                (λ v, if decide (v > 0) then v - 1 else v)
                  <$> skillCooldowns p !! k
            | CLASSIC => skillCooldowns p !! k
            end).
  { intros k. unfold end_of_turn. rewrite tickJam_cooldowns.
    destruct (gameMode gs); [done|]. rsimpl. apply tickCooldowns_lookup. }
  exists gs', (end_of_turn (gameMode gs) p). split_and!; try done.
  - rewrite Hps. apply list_lookup_insert_eq. by eapply lookup_lt_Some.
  - intros Hclassic k. rewrite Hmode.
    destruct (gameMode gs); [|done]. by rewrite Hclassic, lookup_empty.
Qed.

(** ** Facts about the skill engine *)


(** *** The engine does not look at the gates

    Running a skill on a state and on the same state with the gates
    cleared, step by step: every test of the engine reads a field that the
    clearing leaves alone, and every update commutes with it. *)

Lemma findIndex_fmap {A B} (f : B → bool) (e : A → B) (l : list A) :
  findIndex f (e <$> l) = findIndex (λ a, f (e a)) l.
Proof.
  induction l as [|a l IH]; [done|]. rewrite fmap_cons. simpl.
  destruct (f (e a)); [done|]. by rewrite IH.
Qed.

Lemma same_fleets_cleared l : same_fleets (clear_gates <$> l) l.
Proof.
  unfold same_fleets. rewrite <- list_fmap_compose.
  by apply list_fmap_ext.
Qed.

Lemma same_fleets_lookup l1 l2 i :
  same_fleets l1 l2 → clear_gates <$> l1 !! i = clear_gates <$> l2 !! i.
Proof. intros H. by rewrite <- !list_lookup_fmap, H. Qed.

Lemma same_fleets_alter f i l1 l2 :
  gate_blind f → same_fleets l1 l2 →
  same_fleets (alter f i l1) (alter f i l2).
Proof.
  intros Hf H. apply list_eq. intros j.
  pose proof (same_fleets_lookup _ _ j H) as Hj.
  rewrite !list_lookup_fmap.
  destruct (decide (j = i)) as [->|Hne].
  - rewrite !list_lookup_alter_eq.
    destruct (l1 !! i) as [p|], (l2 !! i) as [q|]; try done.
    change (Some (clear_gates (f p)) = Some (clear_gates (f q))).
    f_equal. apply Hf. by apply (inj Some).
  - by rewrite !list_lookup_alter_ne.
Qed.

Lemma same_fleets_fmap f l1 l2 :
  gate_blind f → same_fleets l1 l2 → same_fleets (f <$> l1) (f <$> l2).
Proof.
  intros Hf H. apply list_eq. intros j.
  pose proof (same_fleets_lookup _ _ j H) as Hj.
  rewrite !list_lookup_fmap.
  destruct (l1 !! j) as [p|], (l2 !! j) as [q|]; try done.
  change (Some (clear_gates (f p)) = Some (clear_gates (f q))).
  f_equal. apply Hf. by apply (inj Some).
Qed.

Lemma outcome_eq r1 r2 :
  success r1 = success r2 → toast r1 = toast r2 →
  ungated (newState r1) = ungated (newState r2) →
  Some (outcome r1) = Some (outcome r2).
Proof. unfold outcome. by intros -> -> ->. Qed.

Lemma ungated_eq gs1 gs2 :
  gameId gs1 = gameId gs2 → phase gs1 = phase gs2 →
  same_fleets (players gs1) (players gs2) →
  currentPlayerId gs1 = currentPlayerId gs2 → winner gs1 = winner gs2 →
  maxPlayers gs1 = maxPlayers gs2 → turn gs1 = turn gs2 →
  gridDimensions gs1 = gridDimensions gs2 →
  shipsConfig gs1 = shipsConfig gs2 → gameMode gs1 = gameMode gs2 →
  log gs1 = log gs2 → hasActedThisTurn gs1 = hasActedThisTurn gs2 →
  activeAction gs1 = activeAction gs2 →
  radarScanResult gs1 = radarScanResult gs2 → hitLog gs1 = hitLog gs2 →
  ungated gs1 = ungated gs2.
Proof.
  unfold ungated, same_fleets.
  by intros -> -> -> -> -> -> -> -> -> -> -> -> -> -> ->.
Qed.

(** Projections of updated records and steps of the option monad. *)
Ltac gsimpl :=
  cbn [clear_gates ungated
       ship_name ship_type ship_length positions isSunk isDamaged
       hasBeenRepaired hasBeenRelocated
       ship_set_positions ship_set_isSunk ship_set_isDamaged
       ship_set_hasBeenRepaired ship_set_hasBeenRelocated
       player_id player_name isAI grid ships shots isReady isEliminated
       score skillCooldowns skillUses decoyPositions jammedPositions
       jamTurnsRemaining escapeSkillUnlocked
       p_set_grid p_set_ships p_set_shots p_set_isEliminated
       p_set_skillCooldowns p_set_skillUses p_set_decoyPositions
       p_set_jammedPositions p_set_jamTurnsRemaining
       p_set_escapeSkillUnlocked set_cooldown set_uses
       gameId phase players currentPlayerId winner maxPlayers turn
       gridDimensions shipsConfig gameMode log hasActedThisTurn
       activeAction radarScanResult jammedArea hitLog
       g_set_phase g_set_players g_set_currentPlayerId g_set_winner
       g_set_turn g_set_log g_set_hasActedThisTurn g_set_activeAction
       g_set_radarScanResult g_set_jammedArea g_set_hitLog
       success newState toast mbind option_bind] in *.

Ltac osimpl :=
  repeat first
    [ progress gsimpl
    | match goal with
      | |- context [@fmap option _ _ _ ?f (Some ?x)] =>
          change (@fmap option _ _ _ f (Some x)) with (Some (f x))
      | |- context [@fmap option ?I ?A ?B ?f None] =>
          change (@fmap option I A B f None) with (@None B)
      end ].

Lemma forallb_fmap {A B} (f : B → bool) (e : A → B) (l : list A) :
  forallb f (e <$> l) = forallb (λ a, f (e a)) l.
Proof.
  induction l as [|a l IH]; [done|]. rewrite fmap_cons. simpl.
  by rewrite IH.
Qed.

Lemma gate_blind_forget aid ps :
  gate_blind (λ p, if bool_decide (player_id p = aid) then p
                   else forget_cells aid ps p).
Proof.
  intros p q H.
  assert (player_id p = player_id q) as Hid by (by injection H).
  assert (shots p = shots q) as Hs by (by injection H).
  rewrite Hid. destruct (bool_decide _); [done|].
  unfold forget_cells. rewrite Hs. destruct (shots q !! aid); [|done].
  unfold clear_gates in *. injection H; clear H; intros. gsimpl.
  f_equal; first [assumption|congruence].
Qed.

Lemma cons_eq_inv {A} (a b : A) (l k : list A) :
  a :: l = b :: k → a = b ∧ l = k.
Proof. by intros [= -> ->]. Qed.

Lemma hide_cell_fleets aid x y l1 l2 :
  same_fleets l1 l2 →
  match hide_cell aid x y l1, hide_cell aid x y l2 with
  | Some a, Some b => same_fleets a b
  | None, None => True
  | _, _ => False
  end.
Proof.
  revert l2. induction l1 as [|p l1 IH]; intros [|q l2] H; try done.
  unfold same_fleets in H. rewrite !fmap_cons in H.
  apply cons_eq_inv in H as [Hpq H]. specialize (IH l2 H). simpl.
  assert (shots p = shots q) as Hs by (by injection Hpq).
  rewrite Hs. destruct (shots q !! aid) as [g|]; simpl.
  - destruct (cell_write g x y EMPTY) as [g'|]; simpl; [|done].
    destruct (hide_cell aid x y l1), (hide_cell aid x y l2); simpl; try done.
    unfold same_fleets. rewrite !fmap_cons. f_equal; [|done].
    unfold clear_gates in *. injection Hpq; clear Hpq; intros. gsimpl.
    f_equal; first [assumption|congruence].
  - destruct (hide_cell aid x y l1), (hide_cell aid x y l2); simpl; try done.
    unfold same_fleets. rewrite !fmap_cons. by f_equal.
Qed.

Lemma findRandomValidPlacement_gates p s d rnd :
  findRandomValidPlacement (clear_gates p) s d rnd
  = findRandomValidPlacement p s d rnd.
Proof. done. Qed.

Ltac gate_blind_tac :=
  let p := fresh "p" in let q := fresh "q" in let H := fresh "H" in
  intros p q H; unfold clear_gates in *; injection H; clear H; intros;
  gsimpl; f_equal; first [assumption | congruence].

(** Lists of players that went through the same updates. *)
Ltac fleets :=
  repeat first
    [ assumption
    | apply same_fleets_cleared
    | apply same_fleets_alter; [gate_blind_tac|]
    | unfold forget_for_opponents; apply same_fleets_fmap;
        [apply gate_blind_forget|] ].

(** The two runs end with the same outcome. *)
Ltac leaf :=
  apply outcome_eq; [reflexivity|reflexivity|];
  unfold skill_done, skill_fail, skill_log; gsimpl;
  apply ungated_eq; gsimpl;
  lazymatch goal with
  | |- same_fleets _ _ => fleets
  | |- _ => reflexivity
  end.

(** One step of the two runs side by side. *)
Ltac step :=
  match goal with
  | |- context [findRandomValidPlacement (clear_gates _)] =>
      rewrite !findRandomValidPlacement_gates
  | |- None = _ => reflexivity
  | |- Some (outcome _) = _ => leaf
  | |- outcome <$> (hide_cell ?a ?x ?y ?l1 ≫= _)
       = outcome <$> (hide_cell _ _ _ ?l2 ≫= _) =>
      let H := fresh "Hfleets" in
      assert (same_fleets l1 l2) as H by fleets;
      apply (hide_cell_fleets a x y) in H;
      destruct (hide_cell a x y l1), (hide_cell a x y l2); osimpl;
      [ | exfalso; exact H | exfalso; exact H | reflexivity ]
  | |- outcome <$> ((if ?b then _ else _) ≫= _) = _ =>
      destruct b eqn:?; osimpl
  | |- outcome <$> ((?m ≫= _) ≫= _) = _ => destruct m eqn:?; osimpl
  | |- outcome <$> (?m ≫= _) = _ => destruct m eqn:?; osimpl
  | |- outcome <$> (if ?b then _ else _) = _ => destruct b eqn:?; osimpl
  | |- outcome <$> (match ?m with _ => _ end) = _ => destruct m eqn:?; osimpl
  end.

Lemma skill_Radarship_ungated gs ai attacker o :
  outcome <$> skill_Radarship (ungated gs) ai (clear_gates attacker) o
  = outcome <$> skill_Radarship gs ai attacker o.
Proof.
  unfold skill_Radarship. cbv zeta.
  unfold findOpponent. gsimpl.
  rewrite findIndex_fmap. gsimpl.
  destruct (findIndex _ (players gs)) as [oi|]; osimpl.
  - rewrite list_lookup_fmap. destruct (players gs !! oi) as [opp|]; osimpl;
      repeat step.
  - repeat step.
Qed.

Lemma skill_Jamship_ungated gs ai attacker o :
  outcome <$> skill_Jamship (ungated gs) ai (clear_gates attacker) o
  = outcome <$> skill_Jamship gs ai attacker o.
Proof.
  unfold skill_Jamship. cbv zeta.
  unfold findOpponent. gsimpl.
  rewrite findIndex_fmap. gsimpl.
  destruct (findIndex _ (players gs)) as [oi|]; osimpl; [|done].
  rewrite list_lookup_fmap. destruct (players gs !! oi) as [opp|]; osimpl;
    repeat step.
Qed.

Lemma skill_Decoyship_ungated gs ai attacker o isAI :
  outcome <$> skill_Decoyship (ungated gs) ai (clear_gates attacker) o isAI
  = outcome <$> skill_Decoyship gs ai attacker o isAI.
Proof.
  unfold skill_Decoyship. cbv zeta. gsimpl. repeat step.
Qed.

Lemma skill_Repairship_ungated gs ai attacker o isAI :
  outcome <$> skill_Repairship (ungated gs) ai (clear_gates attacker) o isAI
  = outcome <$> skill_Repairship gs ai attacker o isAI.
Proof.
  unfold skill_Repairship, damage_turn. cbv zeta. gsimpl. repeat step.
Qed.

Lemma skill_Mothership_ungated gs ai attacker o isAI rnd :
  outcome <$> skill_Mothership (ungated gs) ai (clear_gates attacker) o isAI rnd
  = outcome <$> skill_Mothership gs ai attacker o isAI rnd.
Proof.
  unfold skill_Mothership, escape_message. cbv zeta. gsimpl.
  rewrite forallb_fmap. gsimpl. repeat step.
Qed.

Lemma skill_Commandship_ungated gs ai attacker o isAI rnd :
  outcome <$> skill_Commandship (ungated gs) ai (clear_gates attacker) o isAI
                rnd
  = outcome <$> skill_Commandship gs ai attacker o isAI rnd.
Proof.
  unfold skill_Commandship. cbv zeta. gsimpl. repeat step.
Qed.

Lemma findPlayer_fmap pid (e : Player → Player) ps :
  (∀ p, player_id (e p) = player_id p) →
  findPlayer pid (e <$> ps) = findPlayer pid ps.
Proof.
  intros He. destruct pid as [s|]; [|done]. simpl.
  rewrite findIndex_fmap.
  induction ps as [|p ps IH]; [done|]. simpl. rewrite He.
  destruct (bool_decide _); [done|]. by rewrite IH.
Qed.

Lemma useSkill_ungated skillType o isAI rnd gs :
  outcome <$> useSkill skillType o isAI rnd (ungated gs)
  = outcome <$> useSkill skillType o isAI rnd gs.
Proof.
  unfold useSkill. gsimpl. rewrite findPlayer_fmap by done.
  destruct (findPlayer _ _) as [ai|]; osimpl; [|done].
  rewrite list_lookup_fmap.
  destruct (players gs !! ai) as [attacker|]; osimpl; [|done].
  destruct (String.eqb skillType "Mothership");
    [apply skill_Mothership_ungated|].
  destruct (String.eqb skillType "Radarship");
    [apply skill_Radarship_ungated|].
  destruct (String.eqb skillType "Jamship"); [apply skill_Jamship_ungated|].
  destruct (String.eqb skillType "Repairship");
    [apply skill_Repairship_ungated|].
  destruct (String.eqb skillType "Decoyship");
    [apply skill_Decoyship_ungated|].
  destruct (String.eqb skillType "Commandship");
    [apply skill_Commandship_ungated|].
  osimpl. step.
Qed.

Lemma useSkill_same_board skillType o isAI rnd gs gs' :
  same_board gs gs' →
  outcome <$> useSkill skillType o isAI rnd gs
  = outcome <$> useSkill skillType o isAI rnd gs'.
Proof.
  intros H. rewrite <- (useSkill_ungated _ _ _ _ gs).
  rewrite <- (useSkill_ungated _ _ _ _ gs'). by rewrite H.
Qed.

Lemma same_board_unjammed gs : same_board gs (unjammed gs).
Proof.
  unfold same_board, ungated, unjammed. cbn. f_equal.
  rewrite <- list_fmap_compose. by apply list_fmap_ext.
Qed.


Lemma handleActionSelect_unjammed gs pid t :
  handleActionSelect (unjammed gs) pid t = handleActionSelect gs pid t.
Proof.
  unfold handleActionSelect, find. cbn [players unjammed].
  rewrite findIndex_fmap. cbn [clear_jam player_id].
  destruct (findIndex _ (players gs)) as [i|]; cbn [mbind option_bind];
    [|done].
  rewrite list_lookup_fmap. by destruct (players gs !! i).
Qed.



Lemma damage_turn_logged gs pid x y t :
  logged_damage gs pid x y = Some t → damage_turn gs pid x y = t.
Proof. unfold damage_turn, logged_damage. by intros ->. Qed.

Lemma useSkill_Repairship_unfold gs ai attacker opts isAI rnd :
  findPlayer (currentPlayerId gs) (players gs) = Some ai →
  players gs !! ai = Some attacker →
  useSkill "Repairship" opts isAI rnd gs =
  skill_Repairship gs ai attacker opts isAI.
Proof.
  intros Hai Ha. unfold useSkill. rewrite Hai. cbn [mbind option_bind].
  rewrite Ha. done.
Qed.

(** C5.  A repair of a cell whose damage the log dates to the current
    turn never succeeds, whatever else holds, and it returns a failure
    when the cell lies in a row of the caster's grid.  A repair succeeds
    only for a cell that belongs to a ship of the caster that is neither
    sunk nor repaired before, that reads Hit on the caster's grid, and
    whose logged damage is not of the current turn. *)
Theorem useSkill_Repairship_precondition gs ai attacker x y h t isAI rnd :
  findPlayer (currentPlayerId gs) (players gs) = Some ai →
  players gs !! ai = Some attacker →
  let call := useSkill "Repairship" (mkOpts x y h t) isAI rnd gs in
  (logged_damage gs (player_id attacker) x y = Some (turn gs) →
     (∀ r, call = Some r → success r = false) ∧
     (is_Some (zlookup (grid attacker) y) →
      ∃ r, call = Some r ∧ success r = false)) ∧
  (∀ r, call = Some r → success r = true →
     (∃ s, hitShip_of attacker x y = Some s ∧
           mkPos x y ∈ positions s ∧
           isSunk s = false ∧ hasBeenRepaired s = false) ∧
     cell_opt (grid attacker) x y = Some HIT ∧
     logged_damage gs (player_id attacker) x y ≠ Some (turn gs)).
Proof.
  intros Hai Ha call. unfold call.
  rewrite (useSkill_Repairship_unfold _ _ _ _ _ _ Hai Ha).
  unfold skill_Repairship. cbn [opt_x opt_y]. cbv zeta.
  unfold hitShip_of, find.
  destruct (findIndex (ship_at x y) (ships attacker) ≫= _) as [s|] eqn:Hs;
    cbn [from_option].
  - split.
    + intros Hlog. rewrite (damage_turn_logged _ _ _ _ _ Hlog).
      split.
      * intros r H.
        destruct (isSunk s); [by simplify_eq|].
        destruct (hasBeenRepaired s); [by simplify_eq|].
        apply bind_Some in H as (c & Hc & H).
        destruct (negb _); [by simplify_eq|].
        rewrite bool_decide_eq_true_2 in H by lia. by simplify_eq.
      * intros [row Hrow].
        destruct (isSunk s); [eauto|].
        destruct (hasBeenRepaired s); [eauto|].
        unfold cell_read. rewrite Hrow. cbn [mbind option_bind].
        destruct (negb _); [eauto|].
        rewrite bool_decide_eq_true_2 by lia. eauto.
    + intros r H Hr.
      destruct (isSunk s) eqn:Hsunk; [by simplify_eq|].
      destruct (hasBeenRepaired s) eqn:Hrep; [by simplify_eq|].
      apply bind_Some in H as (c & Hc & H).
      destruct (negb _) eqn:Hhit; [by simplify_eq|].
      apply negb_false_iff, bool_decide_eq_true in Hhit. subst c.
      case_bool_decide as Hturn; [by simplify_eq|].
      split_and!.
      * exists s. split_and!; try done.
        apply bind_Some in Hs as (i & Hi & Hsi).
        destruct (ship_found _ _ _ _ Hi) as (s' & Hs' & Hin). congruence.
      * by apply cell_read_opt in Hc.
      * intros Hlog. rewrite (damage_turn_logged _ _ _ _ _ Hlog) in Hturn.
        lia.
  - split.
    + intros Hlog. rewrite (damage_turn_logged _ _ _ _ _ Hlog).
      split.
      * intros r H.
        apply bind_Some in H as (c & Hc & H).
        destruct (negb _); [by simplify_eq|].
        rewrite bool_decide_eq_true_2 in H by lia. by simplify_eq.
      * intros [row Hrow].
        unfold cell_read. rewrite Hrow. cbn [mbind option_bind].
        destruct (negb _); [eauto|].
        rewrite bool_decide_eq_true_2 by lia. eauto.
    + intros r H Hr.
      apply bind_Some in H as (c & Hc & H).
      destruct (negb _) eqn:Hhit; [by simplify_eq|].
      case_bool_decide as Hturn; [by simplify_eq|].
      apply bind_Some in H as (g1 & _ & H).
      apply bind_Some in H as (ps1 & _ & H).
      apply bind_Some in H as (i & Hi & H).
      apply bind_Some in H as (s & Hs' & H).
      rewrite Hi in Hs. cbn [mbind option_bind] in Hs. congruence.
Qed.

Lemma g_set_players_same gs : g_set_players (players gs) gs = gs.
Proof. by destruct gs. Qed.


(** ** The jam *)

Lemma findOpponent_ne attacker ps oi opponent :
  findOpponent attacker ps = Some oi → ps !! oi = Some opponent →
  player_id opponent ≠ player_id attacker.
Proof.
  intros (o & Ho & Hne)%findIndex_Some Hopp.
  assert (o = opponent) as -> by congruence.
  apply negb_true_iff in Hne. by apply bool_decide_eq_false in Hne.
Qed.

Lemma elem_of_jam_cells x y d c :
  c ∈ jam_cells x y d ↔
  x - 1 <= px c <= x + 1 ∧ y - 1 <= py c <= y + 1 ∧
  0 <= px c < cols d ∧ 0 <= py c < rows d.
Proof.
  unfold jam_cells. rewrite list_elem_of_filter. simpl.
  rewrite !elem_of_cons, elem_of_nil. destruct c as [a b]. simpl.
  split.
  - intros [Hb Hc].
    repeat (destruct Hc as [Hc|Hc]; [simplify_eq/=; lia|]). done.
  - intros (Hx & Hy & Hbx & Hby). split; [lia|].
    assert (a = x - 1 ∨ a = x ∨ a = x + 1) as Ha by lia.
    assert (b = y - 1 ∨ b = y ∨ b = y + 1) as Hb by lia.
    destruct Ha as [-> | [-> | ->]]; destruct Hb as [-> | [-> | ->]];
      rewrite ?Z.add_0_r; replace (x + -1) with (x - 1) by lia;
      replace (y + -1) with (y - 1) by lia; tauto.
Qed.

(** The state a successful jam leaves behind. *)
Lemma useSkill_Jamship_state gs ai attacker oi opponent x y h t isAI rnd :
  findPlayer (currentPlayerId gs) (players gs) = Some ai →
  players gs !! ai = Some attacker →
  findOpponent attacker (players gs) = Some oi →
  players gs !! oi = Some opponent →
  ∃ r,
    useSkill "Jamship" (mkOpts x y h t) isAI rnd gs = Some r ∧
    success r = true ∧
    players (newState r) =
      alter (set_cooldown "Jamship" 4) ai
        (alter (λ p, p_set_jamTurnsRemaining 1
                       (p_set_jammedPositions
                          (jam_cells x y (gridDimensions gs)) p))
               oi (players gs)) ∧
    currentPlayerId (newState r) = currentPlayerId gs ∧
    gameMode (newState r) = gameMode gs ∧
    gridDimensions (newState r) = gridDimensions gs.
Proof.
  intros Hai Ha Hoi Ho.
  unfold useSkill. rewrite Hai. cbn [mbind option_bind].
  rewrite Ha. cbn [mbind option_bind].
  change (String.eqb "Jamship" "Mothership") with false.
  change (String.eqb "Jamship" "Radarship") with false.
  change (String.eqb "Jamship" "Jamship") with true. cbv iota.
  unfold skill_Jamship. cbv zeta. rewrite Hoi. cbn [mbind option_bind].
  rewrite Ho. cbn [mbind option_bind].
  eexists. split; [done|]. by unfold skill_done.
Qed.

Lemma findIndex_first {A} (f : A → bool) (l : list A) i a :
  l !! i = Some a → f a = true →
  (∀ j b, (j < i)%nat → l !! j = Some b → f b = false) →
  findIndex f l = Some i.
Proof.
  revert i. induction l as [|b l IH]; intros i Hl Ha Hbefore; [done|].
  destruct i as [|i]; simpl in *.
  - simplify_eq. by rewrite Ha.
  - rewrite (Hbefore 0%nat b) by (done || lia).
    rewrite (IH i); [done|done|done|].
    intros j c Hj Hc. apply (Hbefore (S j) c); [lia|done].
Qed.

Lemma end_of_turn_id m p : player_id (end_of_turn m p) = player_id p.
Proof.
  unfold end_of_turn, tickJam. destruct m; repeat case_decide; done.
Qed.

Lemma end_of_turn_jam_over m p :
  jamTurnsRemaining p = 1 →
  jamTurnsRemaining (end_of_turn m p) = 0 ∧
  jammedPositions (end_of_turn m p) = [].
Proof.
  intros Hj. unfold end_of_turn, tickJam.
  destruct m; rsimpl; rewrite Hj; by repeat case_decide.
Qed.

(** What the code does with a jam.  A jam aimed at [(x, y)] succeeds, sets
    the caster's Jamship cooldown to 4 and records on the opponent, with a
    duration of one turn, exactly the cells of the 3x3 block around
    [(x, y)] that lie inside the grid.  In a game of two players whose
    opponent is still in the game, the record is intact when the caster
    has ended the turn and the opponent is at turn, and it is cleared when
    the opponent ends that turn.  Neither the skill engine nor
    [handleActionSelect] reads the record: in the jammed turn both answer
    as they do in the same state without it. *)
Lemma jam_lasts_one_turn gs ai attacker oi opponent x y h t isAI rnd :
  findPlayer (currentPlayerId gs) (players gs) = Some ai →
  players gs !! ai = Some attacker →
  findOpponent attacker (players gs) = Some oi →
  players gs !! oi = Some opponent →
  length (players gs) = 2%nat →
  isEliminated opponent = false →
  ∃ r gs2 gs3 a1 o1 o3,
    useSkill "Jamship" (mkOpts x y h t) isAI rnd gs = Some r ∧
    success r = true ∧
    players (newState r) !! ai = Some a1 ∧
    skillCooldowns a1 !! "Jamship"%string = Some 4 ∧
    players (newState r) !! oi = Some o1 ∧
    jamTurnsRemaining o1 = 1 ∧
    (∀ c, c ∈ jammedPositions o1 ↔
          x - 1 <= px c <= x + 1 ∧ y - 1 <= py c <= y + 1 ∧
          0 <= px c < cols (gridDimensions gs) ∧
          0 <= py c < rows (gridDimensions gs)) ∧
    advanceTurn (newState r) = Some gs2 ∧
    currentPlayerId gs2 = Some (player_id opponent) ∧
    players gs2 !! oi = Some o1 ∧
    (∀ skillType opts isAI' rnd',
       outcome <$> useSkill skillType opts isAI' rnd' gs2
       = outcome <$> useSkill skillType opts isAI' rnd' (unjammed gs2)) ∧
    (∀ playerId actionType,
       handleActionSelect gs2 playerId actionType
       = handleActionSelect (unjammed gs2) playerId actionType) ∧
    advanceTurn gs2 = Some gs3 ∧
    players gs3 !! oi = Some o3 ∧
    jamTurnsRemaining o3 = 0 ∧
    jammedPositions o3 = [].
Proof.
  intros Hai Ha Hoi Ho Hlen Hel.
  pose proof (findOpponent_ne _ _ _ _ Hoi Ho) as Hid.
  assert (ai ≠ oi) as Hne by (intros ->; congruence).
  pose proof (lookup_lt_Some _ _ _ Ha) as Hlta.
  pose proof (lookup_lt_Some _ _ _ Ho) as Hlto.
  destruct (useSkill_Jamship_state gs ai attacker oi opponent x y h t
              isAI rnd Hai Ha Hoi Ho)
    as (r & Hr & Hsucc & Hps & Hcur & Hmode & Hdim).
  set (jam := λ p, p_set_jamTurnsRemaining 1
                     (p_set_jammedPositions
                        (jam_cells x y (gridDimensions gs)) p)) in Hps.
  set (a1 := set_cooldown "Jamship" 4 attacker).
  set (o1 := jam opponent).
  assert (Ha1 : players (newState r) !! ai = Some a1).
  { rewrite Hps, list_lookup_alter_eq, list_lookup_alter_ne, Ha; done. }
  assert (Ho1 : players (newState r) !! oi = Some o1).
  { rewrite Hps, list_lookup_alter_ne, list_lookup_alter_eq, Ho; done. }
  assert (Hlen1 : length (players (newState r)) = 2%nat).
  { by rewrite Hps, !length_alter. }
  assert (Hai1 : findPlayer (currentPlayerId (newState r))
                   (players (newState r)) = Some ai).
  { rewrite Hcur, Hps, !findPlayer_alter; done. }
  assert (Hnext : ((ai + 1) mod 2)%nat = oi).
  { destruct ai as [|[|?]], oi as [|[|?]]; simpl in *; lia. }
  destruct (advanceTurn_players _ ai a1 Hai1 Ha1)
    as (gs2 & Hadv2 & Hps2 & Hmode2 & _ & _ & _ & _ & _ & Hcur2).
  rewrite Hlen1, Hnext in Hcur2.
  specialize (Hcur2 o1 Ho1 (not_eq_sym Hne) Hel).
  assert (Ho2 : players gs2 !! oi = Some o1).
  { rewrite Hps2, list_lookup_insert_ne; done. }
  assert (Hoi2 : findPlayer (currentPlayerId gs2) (players gs2) = Some oi).
  { rewrite Hcur2. simpl. apply (findIndex_first _ _ oi o1 Ho2).
    - by apply bool_decide_eq_true.
    - intros j b Hj Hb. assert (j = ai) as ->.
      { destruct ai as [|[|?]], oi as [|[|?]]; simpl in *; lia. }
      rewrite Hps2, list_lookup_insert_eq in Hb by lia.
      injection Hb as <-. rewrite end_of_turn_id.
      apply bool_decide_eq_false. unfold a1, o1. simpl. congruence. }
  destruct (advanceTurn_players _ oi o1 Hoi2 Ho2)
    as (gs3 & Hadv3 & Hps3 & _).
  destruct (end_of_turn_jam_over (gameMode gs2) o1) as [Hj0 Hjp]; [done|].
  exists r, gs2, gs3, a1, o1, (end_of_turn (gameMode gs2) o1).
  split_and!; try done.
  - unfold a1, set_cooldown. rsimpl. apply lookup_insert_eq.
  - intros c. unfold o1, jam. rsimpl. apply elem_of_jam_cells.
  - intros. apply useSkill_same_board, same_board_unjammed.
  - intros. symmetry. apply handleActionSelect_unjammed.
  - rewrite Hps3. apply list_lookup_insert_eq. by eapply lookup_lt_Some.
Qed.

(** ** Facts about the heatmap *)

Lemma count_nil c : count c [] = 0%nat.
Proof. done. Qed.

Lemma count_cons c a l :
  count c (a :: l) = ((if decide (a = c) then 1 else 0) + count c l)%nat.
Proof.
  unfold count. rewrite filter_cons. by case_decide.
Qed.

Lemma count_app c l1 l2 : count c (l1 ++ l2) = (count c l1 + count c l2)%nat.
Proof. unfold count. by rewrite filter_app, length_app. Qed.

Lemma count_bind {A} c (l : list A) (k : A → list Pos) :
  count c (l ≫= k) = sum_list_with (λ x, count c (k x)) l.
Proof.
  induction l as [|a l IH]; [done|].
  rewrite bind_cons, count_app, IH. done.
Qed.

Lemma count_NoDup c l :
  NoDup l → count c l = if decide (c ∈ l) then 1%nat else 0%nat.
Proof.
  induction 1 as [|a l Hnin Hnd IH]; [done|].
  rewrite count_cons, IH.
  destruct (decide (a = c)) as [->|Hne].
  - rewrite decide_False by done. rewrite decide_True by (by left). done.
  - destruct (decide (c ∈ l)).
    + rewrite decide_True by (by right). done.
    + rewrite decide_False; [done|]. intros [?|?]%elem_of_cons; congruence.
Qed.

Lemma sum_indicator {A} (P : A → Prop) `{∀ x, Decision (P x)} (l : list A) :
  sum_list_with (λ x, if decide (P x) then 1%nat else 0%nat) l
  = length (filter P l).
Proof.
  induction l as [|a l IH]; [done|]. simpl. rewrite filter_cons, IH.
  by case_decide.
Qed.

Lemma foldl_bind {A B C} (f : A → C → A) (a : A) (l : list B)
    (k : B → list C) :
  foldl f a (l ≫= k) = foldl (λ a' x, foldl f a' (k x)) a l.
Proof.
  revert a. induction l as [|b l IH]; intros a; [done|].
  rewrite bind_cons, foldl_app. apply IH.
Qed.

Lemma zlookup_alter {A} (f : A → A) (l : list A) (i j : Z) :
  0 <= i →
  zlookup (alter f (Z.to_nat i) l) j =
    if decide (i = j) then f <$> zlookup l j else zlookup l j.
Proof.
  intros Hi. unfold zlookup. destruct (decide (0 <= j)) as [Hj|Hj].
  - rewrite list_lookup_alter.
    destruct (decide (i = j)) as [->|Hne].
    + by rewrite decide_True.
    + rewrite decide_False; [done|]. lia.
  - by case_decide.
Qed.

Lemma zlookup_neg {A} (l : list A) (i : Z) : i < 0 → zlookup l i = None.
Proof. intros Hi. unfold zlookup. rewrite decide_False; [done|lia]. Qed.

Lemma pm_lookup_update f m c x y :
  pm_lookup (pm_update f m c) x y =
    if decide (c = mkPos x y) then f <$> pm_lookup m x y
    else pm_lookup m x y.
Proof.
  unfold pm_update, pm_lookup. destruct c as [a b]. cbn [px py].
  destruct (decide (0 <= a ∧ 0 <= b)) as [[Ha Hb]|Hn].
  - rewrite zlookup_alter by done.
    destruct (decide (b = y)) as [->|Hne].
    + destruct (zlookup m y) as [row|]; cbn [fmap option_fmap option_map
        mbind option_bind]; [|by case_decide].
      rewrite zlookup_alter by done.
      destruct (decide (a = x)) as [->|Hne'].
      * by rewrite decide_True.
      * rewrite decide_False; [done|]. intros [=]. done.
    + rewrite decide_False; [done|]. intros [=]. done.
  - case_decide as Hd; [|done]. injection Hd as -> ->.
    destruct (decide (0 <= y)) as [Hy|Hy].
    + assert (x < 0) as Hx by lia.
      destruct (zlookup m y) as [row|]; cbn [fmap option_fmap option_map
        mbind option_bind]; [|done].
      by rewrite zlookup_neg.
    + rewrite zlookup_neg by lia. done.
Qed.

Lemma pm_lookup_foldl f m cs x y :
  pm_lookup (foldl (pm_update f) m cs) x y =
    Nat.iter (count (mkPos x y) cs) f <$> pm_lookup m x y.
Proof.
  revert m. induction cs as [|c cs IH]; intros m; simpl.
  - by destruct (pm_lookup m x y).
  - rewrite IH, pm_lookup_update, count_cons.
    case_decide; [|done].
    rewrite <- option_fmap_compose. apply option_fmap_ext.
    intros v. unfold compose. symmetry. apply Nat.iter_succ_r.
Qed.

Lemma iter_succ (k : nat) v : Nat.iter k Z.succ v = v + Z.of_nat k.
Proof. induction k as [|k IH]; simpl; lia. Qed.

Lemma iter_times5 (k : nat) v :
  Nat.iter k (λ v, v * 5) v = v * 5 ^ Z.of_nat k.
Proof.
  induction k as [|k IH]; simpl; [lia|].
  rewrite IH, Nat2Z.inj_succ, Z.pow_succ_r by lia. lia.
Qed.

(** *** Placements and their footprints *)

Lemma cells_h_footprint len x y : cells_h len x y = footprint len x y true.
Proof.
  unfold cells_h, footprint. apply list_fmap_ext. intros _ i _.
  by rewrite Z.add_0_r.
Qed.

Lemma cells_v_footprint len x y : cells_v len x y = footprint len x y false.
Proof.
  unfold cells_v, footprint. apply list_fmap_ext. intros _ i _.
  by rewrite Z.add_0_r.
Qed.

Lemma elem_of_footprint len x y h c :
  c ∈ footprint len x y h ↔
  if h then py c = y ∧ x <= px c < x + len
  else px c = x ∧ y <= py c < y + len.
Proof.
  unfold footprint. rewrite list_elem_of_fmap. destruct c as [a b].
  setoid_rewrite elem_of_seqZ. destruct h; simpl.
  - split.
    + intros (i & [= -> ->] & Hi). lia.
    + intros (-> & Ha). exists (a - x). split; [f_equal; lia|lia].
  - split.
    + intros (i & [= -> ->] & Hi). lia.
    + intros (-> & Hb). exists (b - y). split; [f_equal; lia|lia].
Qed.

Lemma NoDup_footprint len x y h : NoDup (footprint len x y h).
Proof.
  unfold footprint. apply NoDup_fmap_2; [|apply NoDup_seqZ].
  intros i j [= Hx Hy]. destruct h; lia.
Qed.

Lemma elem_of_all_cells d c :
  c ∈ all_cells d ↔ 0 <= px c < cols d ∧ 0 <= py c < rows d.
Proof.
  unfold all_cells. rewrite list_elem_of_bind. destruct c as [a b]. simpl.
  split.
  - intros (y & Hc & Hy). apply list_elem_of_bind in Hc as (x & Hc & Hx).
    apply list_elem_of_singleton in Hc. injection Hc as -> ->.
    apply elem_of_seqZ in Hx, Hy. lia.
  - intros [Ha Hb]. exists b. split; [|apply elem_of_seqZ; lia].
    apply list_elem_of_bind. exists a.
    split; [by apply list_elem_of_singleton|apply elem_of_seqZ; lia].
Qed.

Lemma NoDup_all_cells d : NoDup (all_cells d).
Proof.
  unfold all_cells. apply NoDup_bind; [| |apply NoDup_seqZ].
  - intros y1 y2 c _ _ H1 H2.
    apply list_elem_of_bind in H1 as (x1 & H1 & _).
    apply list_elem_of_bind in H2 as (x2 & H2 & _).
    apply list_elem_of_singleton in H1, H2. congruence.
  - intros y _. apply NoDup_bind; [| |apply NoDup_seqZ].
    + intros x1 x2 c _ _ H1 H2.
      apply list_elem_of_singleton in H1, H2. congruence.
    + intros x _. apply NoDup_singleton.
Qed.

Lemma elem_of_hitCells g d c :
  c ∈ hitCells_of g d ↔ in_grid d c = true ∧ is_hit_at g c = true.
Proof.
  unfold hitCells_of. rewrite list_elem_of_filter, elem_of_all_cells.
  unfold in_grid. rewrite bool_decide_eq_true. split; intros [? ?].
  - split; [lia|done].
  - split; [done|lia].
Qed.

(** The test of the code and the words of the claim agree on the anchors
    that the loops visit. *)
Lemma canShipBePlaced_fits g d len x y h :
  0 <= x < cols d → 0 <= y < rows d →
  canShipBePlaced g len x y h d = fits g d (mkPlacement len x y h).
Proof.
  intros Hx Hy. unfold canShipBePlaced, fits, pl_footprint, no_miss.
  cbn [pl_len pl_x pl_y pl_horizontal].
  rewrite cells_h_footprint, cells_v_footprint.
  assert (∀ (l : list Pos) (P Q : Pos → bool),
            (∀ c, c ∈ l → P c = Q c) → forallb P l = forallb Q l) as Hext.
  { intros l P Q. induction l as [|a l IH]; intros HPQ; [done|]. simpl.
    rewrite HPQ by (by left). f_equal. apply IH. intros c Hc.
    apply HPQ. by right. }
  assert (∀ (l : list Pos) (P : Pos → bool) c,
            c ∈ l → P c = false → forallb P l = false) as Hfalse.
  { intros l P c Hc HP. apply not_true_is_false. intros Hall.
    rewrite forallb_forall in Hall.
    rewrite (Hall c) in HP; [done|by apply list_elem_of_In]. }
  destruct h.
  - case_decide as Hover.
    + symmetry. apply (Hfalse _ _ (mkPos (x + len - 1) y)).
      * apply elem_of_footprint. simpl. lia.
      * assert (in_grid d (mkPos (x + len - 1) y) = false) as ->; [|done].
        apply bool_decide_eq_false. simpl. lia.
    + apply Hext. intros c Hc. apply elem_of_footprint in Hc.
      assert (in_grid d c = true) as ->; [|done].
      apply bool_decide_eq_true. lia.
  - case_decide as Hover.
    + symmetry. apply (Hfalse _ _ (mkPos x (y + len - 1))).
      * apply elem_of_footprint. simpl. lia.
      * assert (in_grid d (mkPos x (y + len - 1)) = false) as ->; [|done].
        apply bool_decide_eq_false. simpl. lia.
    + apply Hext. intros c Hc. apply elem_of_footprint in Hc.
      assert (in_grid d c = true) as ->; [|done].
      apply bool_decide_eq_true. lia.
Qed.

Lemma fits_in_grid g d pl c :
  fits g d pl = true → c ∈ pl_footprint pl → in_grid d c = true.
Proof.
  unfold fits. rewrite forallb_forall. intros Hall Hc.
  apply list_elem_of_In in Hc. apply Hall in Hc.
  by apply andb_true_iff in Hc as [? _].
Qed.

(** The comparison of [placementHits] with [relevantHits] never rejects a
    placement: inside the grid both lists hold the hits of the footprint. *)
Lemma hits_check g d len x y h :
  fits g d (mkPlacement len x y h) = true →
  length (filter (λ c, is_hit_at g c = true) (footprint len x y h)) =
  length (if h
          then filter (λ c, py c = y ∧ px c >= x ∧ px c < x + len)
                      (hitCells_of g d)
          else filter (λ c, px c = x ∧ py c >= y ∧ py c < y + len)
                      (hitCells_of g d)).
Proof.
  intros Hfits. apply Permutation_length.
  assert (NoDup (hitCells_of g d)) as Hnd
    by (apply NoDup_filter, NoDup_all_cells).
  assert (∀ c, c ∈ footprint len x y h → in_grid d c = true) as Hin
    by (intros c Hc; by eapply (fits_in_grid g d (mkPlacement len x y h))).
  destruct h; (apply NoDup_Permutation;
    [apply NoDup_filter, NoDup_footprint|by apply NoDup_filter|]);
    intros c; rewrite !list_elem_of_filter, elem_of_hitCells;
    (split; [intros [Hh Hc]; pose proof (Hin c Hc);
               apply elem_of_footprint in Hc; split; [lia|done]
            |intros [Hr [_ Hh]]; split; [done|];
               apply elem_of_footprint; lia]).
Qed.

Lemma count_placement_spec g d len x y h m :
  0 <= x < cols d → 0 <= y < rows d →
  count_placement g d (hitCells_of g d) len x y h m =
  foldl (pm_update Z.succ) m (placement_cells g d (mkPlacement len x y h)).
Proof.
  intros Hx Hy. unfold count_placement, placement_cells.
  rewrite (canShipBePlaced_fits g d len x y h Hx Hy).
  destruct (fits g d (mkPlacement len x y h)) eqn:Hfits; [|done].
  cbv zeta. unfold pl_footprint. cbn [pl_len pl_x pl_y pl_horizontal].
  assert ((if h then cells_h len x y else cells_v len x y)
          = footprint len x y h) as ->.
  { destruct h; [apply cells_h_footprint|apply cells_v_footprint]. }
  rewrite bool_decide_eq_true_2; [done|].
  rewrite (hits_check g d len x y h Hfits). by destruct h.
Qed.

Lemma foldl_bind_in {A B C} (F : A → B → A) (f : A → C → A)
    (k : B → list C) (l : list B) (a : A) :
  (∀ a' x, x ∈ l → F a' x = foldl f a' (k x)) →
  foldl F a l = foldl f a (l ≫= k).
Proof.
  revert a. induction l as [|b l IH]; intros a HF; [done|].
  rewrite bind_cons, foldl_app. simpl. rewrite HF by (by left).
  apply IH. intros a' x Hx. apply HF. by right.
Qed.

Lemma count_ship_spec g d m ship :
  count_ship g d (hitCells_of g d) m ship =
  foldl (pm_update Z.succ) m (ship_cells g d (ship_length ship)).
Proof.
  unfold count_ship, ship_cells.
  apply foldl_bind_in. intros m1 y Hy. apply elem_of_seqZ in Hy.
  apply foldl_bind_in. intros m2 x Hx. apply elem_of_seqZ in Hx.
  rewrite !count_placement_spec by lia.
  rewrite !bind_cons. change (@mbind list _ _ _ ?f []) with (@nil Pos).
  rewrite app_nil_r, foldl_app. done.
Qed.

(** The raw map is the map of the counts of [contributions]. *)
Lemma rawProbabilityMap_contributions opponent g d :
  rawProbabilityMap opponent g d =
  foldl (pm_update Z.succ)
        (replicate (Z.to_nat (rows d)) (replicate (Z.to_nat (cols d)) 0))
        (contributions g d (unsunk_lengths opponent)).
Proof.
  unfold rawProbabilityMap, contributions, unsunk_lengths.
  generalize (replicate (Z.to_nat (rows d))
                (replicate (Z.to_nat (cols d)) 0)).
  induction (filter (λ s, isSunk s = false) (ships opponent))
    as [|s ss IH]; intros m; [done|].
  rewrite fmap_cons, bind_cons, foldl_app. simpl.
  rewrite count_ship_spec. apply IH.
Qed.

Lemma pm_lookup_zero d x y :
  0 <= x < cols d → 0 <= y < rows d →
  pm_lookup (replicate (Z.to_nat (rows d)) (replicate (Z.to_nat (cols d)) 0))
            x y = Some 0.
Proof.
  intros Hx Hy. unfold pm_lookup, zlookup.
  rewrite decide_True by lia. rewrite lookup_replicate_2 by lia.
  cbn [mbind option_bind]. rewrite decide_True by lia.
  apply lookup_replicate_2. lia.
Qed.

Lemma foldl_filter_cond {A B} (P : B → bool) (f : A → B → A) (a : A)
    (l : list B) :
  foldl (λ a' x, if P x then f a' x else a') a l =
  foldl f a (filter (λ x, P x = true) l).
Proof.
  revert a. induction l as [|b l IH]; intros a; [done|].
  rewrite filter_cons. simpl. destruct (P b) eqn:E.
  - rewrite decide_True by done. simpl. apply IH.
  - rewrite decide_False by done. apply IH.
Qed.

Lemma boost_spec g d m :
  boost g d m = foldl (pm_update (λ v, v * 5)) m (boost_cells g d).
Proof.
  unfold boost, boost_cells. apply foldl_bind_in. intros m1 hit _.
  apply foldl_filter_cond.
Qed.

Lemma NoDup_adjacent c : NoDup (adjacent c).
Proof.
  unfold adjacent. repeat apply NoDup_cons_2; try apply NoDup_nil_2;
    rewrite ?elem_of_cons, ?elem_of_nil; intros H;
    repeat (destruct H as [H|H]; [injection H; lia|]); done.
Qed.

Lemma adjacent_sym c h : c ∈ adjacent h ↔ h ∈ adjacent c.
Proof.
  unfold adjacent. rewrite !elem_of_cons, !elem_of_nil.
  destruct c as [a b], h as [a' b']. simpl.
  split; intros H;
    repeat (destruct H as [H|H];
            [injection H as -> ->;
             first [left; f_equal; lia
                   |right; left; f_equal; lia
                   |right; right; left; f_equal; lia
                   |right; right; right; left; f_equal; lia]|]);
    done.
Qed.

Lemma sum_list_with_eq {A} (f f' : A → nat) (l : list A) :
  (∀ x, f x = f' x) → sum_list_with f l = sum_list_with f' l.
Proof.
  intros Hf. induction l as [|a l IH]; simpl; [done|]. by rewrite Hf, IH.
Qed.

Lemma sum_list_with_zero {A} (l : list A) :
  sum_list_with (λ _, 0%nat) l = 0%nat.
Proof. induction l; simpl; done. Qed.

Lemma count_boost_cells g d c :
  count c (boost_cells g d) =
  if boostable g d c then length (adjacent_hits g d c) else 0%nat.
Proof.
  unfold boost_cells. rewrite count_bind.
  assert (∀ h, count c (filter (λ c', boostable g d c' = true) (adjacent h))
             = if decide (boostable g d c = true ∧ c ∈ adjacent h)
               then 1%nat else 0%nat) as Hone.
  { intros h. rewrite count_NoDup by apply NoDup_filter, NoDup_adjacent.
    destruct (decide (boostable g d c = true ∧ c ∈ adjacent h)) as [Hd|Hd].
    - rewrite decide_True; [done|]. by apply list_elem_of_filter.
    - rewrite decide_False; [done|]. by rewrite list_elem_of_filter. }
  rewrite (sum_list_with_eq _ _ _ Hone).
  destruct (boostable g d c) eqn:Hb.
  - rewrite (sum_list_with_eq _
               (λ h, if decide (c ∈ adjacent h) then 1%nat else 0%nat)).
    + rewrite (sum_indicator (λ h, c ∈ adjacent h)).
      apply Permutation_length, NoDup_Permutation.
      * apply NoDup_filter, NoDup_filter, NoDup_all_cells.
      * apply NoDup_filter, NoDup_adjacent.
      * intros h. unfold adjacent_hits.
        rewrite !list_elem_of_filter, elem_of_hitCells, adjacent_sym. tauto.
    + intros h. destruct (decide (c ∈ adjacent h)).
      * by rewrite decide_True.
      * rewrite decide_False; [done|tauto].
  - rewrite (sum_list_with_eq _ (λ _, 0%nat)).
    + apply sum_list_with_zero.
    + intros h. rewrite decide_False; [done|]. intros [? _]. done.
Qed.

(** C8 (amended).  The raw count of a cell is the number of candidate
    placements of unsunk ships, over every anchor of the grid and both
    orientations, whose footprint lies inside the grid, passes through no
    Miss cell and covers the cell: a placement adds one to each cell of its
    footprint iff it fits.  The value of a cell in the final map is its raw
    count, multiplied by 5 once for each Hit cell 4-adjacent to it when the
    cell is still unshot: the factor is 5 to the number of adjacent Hit
    cells. *)
Theorem buildProbabilityMap_cell opponent g d x y :
  0 <= x < cols d → 0 <= y < rows d →
  pm_lookup (rawProbabilityMap opponent g d) x y =
    Some (raw_count g d (unsunk_lengths opponent) (mkPos x y)) ∧
  pm_lookup (buildProbabilityMap opponent g d) x y =
    Some (raw_count g d (unsunk_lengths opponent) (mkPos x y)
          * 5 ^ (if bool_decide (shot_at g x y = EMPTY)
                 then Z.of_nat (length (adjacent_hits g d (mkPos x y)))
                 else 0)).
Proof.
  intros Hx Hy.
  assert (Hraw : pm_lookup (rawProbabilityMap opponent g d) x y =
                 Some (raw_count g d (unsunk_lengths opponent) (mkPos x y))).
  { rewrite rawProbabilityMap_contributions, pm_lookup_foldl.
    rewrite pm_lookup_zero by done. simpl. rewrite iter_succ.
    unfold raw_count. f_equal; lia. }
  split; [done|].
  unfold buildProbabilityMap.
  rewrite boost_spec, pm_lookup_foldl, Hraw. simpl.
  rewrite iter_times5, count_boost_cells. unfold boostable.
  assert (in_grid d (mkPos x y) = true) as ->.
  { apply bool_decide_eq_true. simpl. lia. }
  cbn [px py andb]. by destruct (bool_decide _).
Qed.

(** ** The first tactical move of the AI *)

Lemma buildProbabilityMap_lengths opponent g d :
  buildProbabilityMap opponent g d =
  heatmap_of_lengths (unsunk_lengths opponent) g d.
Proof.
  unfold buildProbabilityMap, heatmap_of_lengths.
  by rewrite rawProbabilityMap_contributions.
Qed.

Lemma first_heatmap_eq :
  heatmap_of_lengths (cfg_length <$> SHIPS_CONFIG_TACTICAL)
                     (createEmptyGrid 12 12) (mkDims 12 12) = first_heatmap.
Proof. vm_compute. reflexivity. Qed.

Lemma first_targets_eq :
  findBestTargets first_heatmap (createEmptyGrid 12 12) = first_targets.
Proof. vm_compute. reflexivity. Qed.

Lemma first_targets_confident :
  forallb (λ b, 10 <? pm_at first_heatmap (px b) (py b)) first_targets
  = true.
Proof. vm_compute. reflexivity. Qed.

Lemma unsunk_lengths_standard opponent :
  config_of <$> ships opponent = SHIPS_CONFIG_TACTICAL →
  (∀ s, s ∈ ships opponent → isSunk s = false) →
  unsunk_lengths opponent = cfg_length <$> SHIPS_CONFIG_TACTICAL.
Proof.
  intros Hcfg Hsunk. unfold unsunk_lengths.
  assert (filter (λ s, isSunk s = false) (ships opponent) = ships opponent)
    as ->.
  { clear Hcfg. revert Hsunk. generalize (ships opponent).
    intros l. induction l as [|s ss IH]; intros Hsunk; [done|].
    rewrite filter_cons, decide_True by (apply Hsunk; by left).
    f_equal. apply IH. intros s' Hs'. apply Hsunk. by right. }
  rewrite <- Hcfg, <- list_fmap_compose. done.
Qed.

Lemma find_elem {A} (f : A → bool) (l : list A) a :
  find f l = Some a → a ∈ l ∧ f a = true.
Proof.
  unfold find. intros (i & Hi & Ha)%bind_Some.
  destruct (findIndex_Some _ _ _ Hi) as (b & Hb & Hf).
  assert (b = a) as -> by congruence.
  split; [by eapply list_elem_of_lookup_2|done].
Qed.

(** On its first tactical move the AI attacks one of the best cells of the
    heatmap. *)
Lemma first_move_attacks aiPlayer opponent gs rnd1 rnd2 :
  gridDimensions gs = mkDims 12 12 →
  config_of <$> ships opponent = SHIPS_CONFIG_TACTICAL →
  (∀ s, s ∈ ships opponent → isSunk s = false ∧ isDamaged s = false) →
  (∀ s, s ∈ ships aiPlayer → isDamaged s = false) →
  shots aiPlayer !! player_id opponent = None ∨
    shots aiPlayer !! player_id opponent = Some (createEmptyGrid 12 12) →
  ∃ c, c ∈ first_targets ∧
       getAITacticalMove aiPlayer opponent gs rnd1 rnd2 = MoveAttack c.
Proof.
  intros Hd Hcfg Hopp Hai Hshots.
  unfold getAITacticalMove. rewrite Hd. cbv zeta. cbn [rows cols].
  assert (default (createEmptyGrid 12 12)
            (shots aiPlayer !! player_id opponent) = createEmptyGrid 12 12)
    as -> by (by destruct Hshots as [-> | ->]).
  rewrite buildProbabilityMap_lengths, unsunk_lengths_standard;
    [|done|intros s Hs; by apply Hopp].
  rewrite first_heatmap_eq, first_targets_eq.
  assert (∃ b, first_targets !! (rnd1 mod length first_targets)%nat = Some b)
    as [b Hb].
  { apply lookup_lt_is_Some. apply Nat.mod_upper_bound. done. }
  rewrite Hb.
  assert (b ∈ first_targets) as Hin by (by eapply list_elem_of_lookup_2).
  pose proof (proj1 (forallb_forall _ _) first_targets_confident b
                (proj1 (list_elem_of_In _ _) Hin)) as Hgt.
  apply Z.ltb_lt in Hgt. rewrite decide_True by lia.
  exists b. split; [done|].
  assert (match find (is_type "Mothership") (ships aiPlayer) with
          | Some m =>
              if isDamaged m && escapeSkillUnlocked aiPlayer
                 && bool_decide (uses_of aiPlayer "Mothership" > 0)
              then Some (MoveSkill "Mothership" None None)
              else if isDamaged m
                      && bool_decide (cooldown_of aiPlayer "Repairship" = 0)
                      && negb (hasBeenRepaired m)
              then (λ pos, MoveSkill "Repairship" (Some pos) None)
                     <$> find (repairable gs aiPlayer) (positions m)
              else None
          | None => None
          end = None) as ->.
  { destruct (find _ (ships aiPlayer)) as [m|] eqn:Hm; [|done].
    apply find_elem in Hm as [Hm _]. by rewrite (Hai m Hm). }
  match goal with
  | |- context [find (is_type "Mothership") (ships opponent)] =>
      destruct (find (is_type "Mothership") (ships opponent)) as [om|] eqn:Hom
  end.
  - apply find_elem in Hom as [Hom _].
    rewrite (proj2 (Hopp om Hom)). done.
  - done.
Qed.

(** C9.  On the first tactical move in the standard 12x12 configuration,
    with no ship damaged on either side and no shot recorded, the AI never
    answers with a Repairship, Commandship or Mothership action: it
    answers with an attack or a radar scan (it attacks, every best cell of
    the heatmap scoring above the threshold of 10). *)
Theorem first_move_is_attack_or_radar aiPlayer opponent gs rnd1 rnd2 :
  gridDimensions gs = mkDims 12 12 →
  config_of <$> ships opponent = SHIPS_CONFIG_TACTICAL →
  (∀ s, s ∈ ships opponent → isSunk s = false ∧ isDamaged s = false) →
  (∀ s, s ∈ ships aiPlayer → isDamaged s = false) →
  shots aiPlayer !! player_id opponent = None ∨
    shots aiPlayer !! player_id opponent = Some (createEmptyGrid 12 12) →
  let move := getAITacticalMove aiPlayer opponent gs rnd1 rnd2 in
  (∀ coords target,
     move ≠ MoveSkill "Repairship" coords target ∧
     move ≠ MoveSkill "Commandship" coords target ∧
     move ≠ MoveSkill "Mothership" coords target) ∧
  ((∃ c, move = MoveAttack c) ∨
   (∃ coords target, move = MoveSkill "Radarship" coords target)).
Proof.
  intros Hd Hcfg Hopp Hai Hshots move.
  destruct (first_move_attacks aiPlayer opponent gs rnd1 rnd2
              Hd Hcfg Hopp Hai Hshots) as (c & _ & Hc).
  unfold move. rewrite Hc. split; [by intros|]. left. by exists c.
Qed.

(** ** The claims on the example games *)

(** Closed equations are settled by running the definitions. *)
Ltac run := vm_compute; reflexivity.

(** Case analysis on the index of a lookup in a concrete list. *)
Ltac index_cases i H :=
  vm_compute in H;
  repeat lazymatch type of H with
         | None = Some _ => discriminate H
         | Some _ = Some _ => apply (inj Some) in H; subst
         | _ => destruct i as [|i]; vm_compute in H
         end.

Ltac elem_cases H :=
  vm_compute in H;
  repeat (apply elem_of_cons in H as [->|H]; [|]);
  try (by apply elem_of_nil in H).

Lemma duel_fresh : fresh_state duel.
Proof.
  intros i p Hp. index_cases i Hp.
  - split.
    + intros j s Hs. index_cases j Hs. split; [reflexivity|].
      intros q Hq. elem_cases Hq; vm_compute; reflexivity.
    + intros j k s1 s2 q H1 H2 _ _. index_cases j H1. index_cases k H2.
      reflexivity.
  - split.
    + intros j s Hs. index_cases j Hs. split; [reflexivity|].
      intros q Hq. elem_cases Hq; vm_compute; reflexivity.
    + intros j k s1 s2 q H1 H2 _ _. index_cases j H1. index_cases k H2.
      reflexivity.
Qed.

Lemma duel_shots :
  processShots duel [("b"%string, (0, 0)); ("b"%string, (1, 0))]
  = Some duel_sunk.
Proof. run. Qed.

(** C1, as stated, fails: after the two shots that sink Bob's ship in
    scenario A the ship is marked sunk, yet its positions read Sunk, not
    Hit. *)
Lemma sunk_ship_reads_sunk_not_hit :
  fresh_state duel ∧
  ∃ gs' p s,
    processShots duel [("b"%string, (0, 0)); ("b"%string, (1, 0))] = Some gs' ∧
    players gs' !! 1%nat = Some p ∧
    ships p !! 0%nat = Some s ∧
    positions s = [mkPos 0 0; mkPos 1 0] ∧
    isSunk s = true ∧
    reads (grid p) (mkPos 0 0) SUNK ∧
    ¬ (∀ q, q ∈ positions s → reads (grid p) q HIT).
Proof.
  split; [exact duel_fresh|].
  pose (p := the (players duel_sunk !! 1%nat)).
  pose (s := the (ships p !! 0%nat)).
  assert (Hpos : positions s = [mkPos 0 0; mkPos 1 0]) by run.
  assert (Hread : reads (grid p) (mkPos 0 0) SUNK) by run.
  exists duel_sunk, p, s.
  split; [exact duel_shots|]. split; [run|]. split; [run|].
  split; [exact Hpos|]. split; [run|]. split; [exact Hread|].
  intros Hall. specialize (Hall (mkPos 0 0)).
  rewrite Hpos in Hall. unfold reads in Hall, Hread.
  rewrite Hread in Hall. discriminate Hall. by left.
Qed.

(** C2, as stated, fails in classic mode: the second shot of scenario A
    hits, and the returned state has [hasActedThisTurn = true], because
    the hit sinks the last ship and ends the game. *)
Lemma classic_hit_that_ends_the_turn :
  ∃ attacker target gs2,
    processShot duel "b" 0 0 = Some duel_hit ∧
    gameMode duel_hit = CLASSIC ∧
    findPlayer (currentPlayerId duel_hit) (players duel_hit) = Some 0%nat ∧
    players duel_hit !! 0%nat = Some attacker ∧
    findPlayer (Some "b"%string) (players duel_hit) = Some 1%nat ∧
    players duel_hit !! 1%nat = Some target ∧
    unshot duel_hit attacker "b" 1 0 ∧
    is_hit_cell_classic (cell_opt (grid target) 1 0) = true ∧
    processShot duel_hit "b" 1 0 = Some gs2 ∧
    hasActedThisTurn gs2 = true.
Proof.
  exists (the (players duel_hit !! 0%nat)), (the (players duel_hit !! 1%nat)),
    duel_sunk.
  repeat (split; [run|]). run.
Qed.

(** C2 (amended) on the tactical duel: Ann hits Bob's Radarship and keeps
    the turn. *)
Lemma processShot_turn_end_witness :
  ∃ gs',
    unshot skirmish skirmish_ann "b" 0 0 ∧
    processShot skirmish "b" 0 0 = Some gs' ∧
    cell_opt (grid skirmish_bob) 0 0 = Some SHIP ∧
    (hasActedThisTurn gs' = true ↔
       ¬ live_decoy skirmish_bob 0 0 ∧
       (cell_opt (grid skirmish_bob) 0 0 ≠ Some SHIP ∨
        ∃ s, hitShip_of skirmish_bob 0 0 = Some s ∧
             ship_type s = "Mothership"%string)).
Proof.
  pose (gs' := the (processShot skirmish "b" 0 0)).
  assert (Hai : findPlayer (currentPlayerId skirmish) (players skirmish)
                = Some 0%nat) by run.
  assert (Ha : players skirmish !! 0%nat = Some skirmish_ann) by run.
  assert (Hti : findPlayer (Some "b"%string) (players skirmish)
                = Some 1%nat) by run.
  assert (Ht : players skirmish !! 1%nat = Some skirmish_bob) by run.
  assert (Hun : unshot skirmish skirmish_ann "b" 0 0) by (left; run).
  assert (Hshot : processShot skirmish "b" 0 0 = Some gs') by run.
  destruct (processShot_turn_end skirmish "b" 0 0 0 skirmish_ann 1
              skirmish_bob Hai Ha Hti Ht Hun) as [_ Hend].
  exists gs'. split; [exact Hun|]. split; [exact Hshot|]. split; [run|].
  exact (Hend gs' Hshot).
Defined.

(** C3 on scenario A: the first shot, fired twice. *)
Lemma processShot_idempotent_witness :
  shootable duel "b" 0 0 ∧
  processShot duel "b" 0 0 = Some duel_hit ∧
  processShot duel_hit "b" 0 0 = Some duel_hit.
Proof.
  destruct (processShot_idempotent duel "b" 0 0) as [_ Hidem].
  assert (H : processShot duel "b" 0 0 = Some duel_hit) by run.
  split; [|exact (conj H (Hidem duel_hit H))].
  exists 0%nat, duel_ann, 1%nat, duel_bob.
  split; [run|]. split; [run|]. split; [run|]. split; [run|].
  split; [split; [run|vm_compute; repeat constructor]|].
  split; [split; [run|vm_compute; repeat constructor]|].
  split.
  { intros s Hs. elem_cases Hs.
    repeat (constructor; [unfold in_bounds; simpl; lia|]). constructor. }
  split; [intros _; vm_compute; by eexists|].
  simpl. lia.
Defined.



(** C5 on the tactical duel: a repair of a cell hit in the current turn
    is rejected. *)
Lemma useSkill_Repairship_precondition_witness :
  ∃ a0,
    processShot skirmish_bob_first "a" 0 4 = Some skirmish_hit ∧
    players damaged_this_turn !! 0%nat = Some a0 ∧
    cell_opt (grid a0) 0 4 = Some HIT ∧
    logged_damage damaged_this_turn (player_id a0) 0 4
      = Some (turn damaged_this_turn) ∧
    ∃ r, useSkill "Repairship" (mkOpts 0 4 true None) false corner_draws
           damaged_this_turn = Some r ∧
         success r = false.
Proof.
  pose (a0 := the (players damaged_this_turn !! 0%nat)).
  assert (Ha : players damaged_this_turn !! 0%nat = Some a0) by run.
  assert (Hlog : logged_damage damaged_this_turn (player_id a0) 0 4
                 = Some (turn damaged_this_turn)) by run.
  exists a0. split; [run|].
  split; [exact Ha|]. split; [run|]. split; [exact Hlog|].
  apply (useSkill_Repairship_precondition damaged_this_turn 0 a0 0 4 true
           None false corner_draws); [run|exact Ha|exact Hlog|].
  vm_compute. eexists. reflexivity.
Defined.

(** C6.  The jam is recorded and never applied.  On the 3x3 grid Ann
    jams the block around (1,1); the jam succeeds and the turn passes to
    the AI, whose three ships all lie inside the jammed block while the
    jam has one turn to run.  The move that [getAITacticalMove] chooses in
    that turn is a relocation by the Commandship, and the skill engine
    carries it out: the invocation succeeds and the Mothership moves from
    (0,2)-(1,2) to (1,2)-(2,2). *)
Theorem jammed_AI_uses_its_Commandship :
  ∃ gemini ann r gemini',
    useSkill "Jamship" (mkOpts 1 1 true None) false corner_draws cove
      = Some cove_jam ∧
    success cove_jam = true ∧
    advanceTurn (newState cove_jam) = Some cove_jammed_turn ∧
    phase cove_jammed_turn = PLAYING ∧
    currentPlayerId cove_jammed_turn = Some "b"%string ∧
    players cove_jammed_turn = [ann; gemini] ∧
    isAI gemini = true ∧
    jamTurnsRemaining gemini = 1 ∧
    (∀ s p, s ∈ ships gemini → p ∈ positions s →
            p ∈ jammedPositions gemini) ∧
    (ship_type <$> ships gemini)
      = ["Commandship"; "Jamship"; "Mothership"]%string ∧
    (∀ rnd1 rnd2,
       getAITacticalMove gemini ann cove_jammed_turn rnd1 rnd2
       = MoveSkill "Commandship" None (Some "Mothership"%string)) ∧
    useSkill "Commandship" (mkOpts 0 0 true (Some "Mothership"%string))
      true side_draws cove_jammed_turn = Some r ∧
    success r = true ∧
    players (newState r) !! 1%nat = Some gemini' ∧
    (positions <$> ships gemini) !! 2%nat = Some [mkPos 0 2; mkPos 1 2] ∧
    (positions <$> ships gemini') !! 2%nat = Some [mkPos 1 2; mkPos 2 2].
Proof.
  eexists (the (players cove_jammed_turn !! 1%nat)),
    (the (players cove_jammed_turn !! 0%nat)), cove_relocation, _.
  split_and!; try run.
  intros s p Hs Hp.
  assert (Hall : Forall (λ s, Forall (λ p, p ∈ jammedPositions
                     (the (players cove_jammed_turn !! 1%nat)))
                   (positions s))
            (ships (the (players cove_jammed_turn !! 1%nat)))).
  { vm_compute. repeat constructor. }
  rewrite Forall_forall in Hall. specialize (Hall s Hs).
  rewrite Forall_forall in Hall. by apply Hall.
Qed.


(** The jam on the patrol: Ann jams the block around (1,0). *)
Lemma jam_lasts_one_turn_witness :
  ∃ r gs2 gs3 a1 o1 o3,
    useSkill "Jamship" (mkOpts 1 0 true None) false corner_draws patrol
      = Some r ∧
    success r = true ∧
    players (newState r) !! 0%nat = Some a1 ∧
    skillCooldowns a1 !! "Jamship"%string = Some 4 ∧
    players (newState r) !! 1%nat = Some o1 ∧
    jamTurnsRemaining o1 = 1 ∧
    (∀ c, c ∈ jammedPositions o1 ↔
          1 - 1 <= px c <= 1 + 1 ∧ 0 - 1 <= py c <= 0 + 1 ∧
          0 <= px c < cols (gridDimensions patrol) ∧
          0 <= py c < rows (gridDimensions patrol)) ∧
    advanceTurn (newState r) = Some gs2 ∧
    currentPlayerId gs2 = Some (player_id patrol_bob) ∧
    players gs2 !! 1%nat = Some o1 ∧
    (∀ skillType opts isAI' rnd',
       outcome <$> useSkill skillType opts isAI' rnd' gs2
       = outcome <$> useSkill skillType opts isAI' rnd' (unjammed gs2)) ∧
    (∀ playerId actionType,
       handleActionSelect gs2 playerId actionType
       = handleActionSelect (unjammed gs2) playerId actionType) ∧
    advanceTurn gs2 = Some gs3 ∧
    players gs3 !! 1%nat = Some o3 ∧
    jamTurnsRemaining o3 = 0 ∧
    jammedPositions o3 = [].
Proof.
  apply (jam_lasts_one_turn patrol 0 patrol_ann 1 patrol_bob 1 0 true None
           false corner_draws); run.
Defined.

(** C7 on the tactical duel, after a radar scan: the cooldown of the radar
    goes from 3 to 2 and that of the jammer stays at 0; and on scenario
    A, a classic game, whose players have no cooldown. *)
Lemma advanceTurn_spec_witness :
  (∃ a0 gs' a1,
    useSkill "Radarship" (mkOpts 2 2 true None) false corner_draws skirmish
      = Some skirmish_scan ∧
    players skirmish_scanned !! 0%nat = Some a0 ∧
    skillCooldowns a0 !! "Radarship"%string = Some 3 ∧
    skillCooldowns a0 !! "Jamship"%string = Some 0 ∧
    advanceTurn skirmish_scanned = Some gs' ∧
    players gs' !! 0%nat = Some a1 ∧
    turn gs' = turn skirmish_scanned + 1 ∧
    hasActedThisTurn gs' = false ∧
    activeAction gs' = None ∧
    radarScanResult gs' = None ∧
    skillCooldowns a1 !! "Radarship"%string = Some 2 ∧
    skillCooldowns a1 !! "Jamship"%string = Some 0) ∧
  (∃ gs' a1,
    gameMode duel = CLASSIC ∧
    skillCooldowns duel_ann = ∅ ∧
    advanceTurn duel = Some gs' ∧
    players gs' !! 0%nat = Some a1 ∧
    turn gs' = turn duel + 1 ∧
    ∀ k, skillCooldowns a1 !! k =
         (λ v, if decide (v > 0) then v - 1 else v)
           <$> skillCooldowns duel_ann !! k).
Proof.
  split.
  - pose (a0 := the (players skirmish_scanned !! 0%nat)).
    assert (Ha : players skirmish_scanned !! 0%nat = Some a0) by run.
    assert (H3 : skillCooldowns a0 !! "Radarship"%string = Some 3) by run.
    assert (H0 : skillCooldowns a0 !! "Jamship"%string = Some 0) by run.
    assert (Hci : findPlayer (currentPlayerId skirmish_scanned)
                    (players skirmish_scanned) = Some 0%nat) by run.
    destruct (advanceTurn_spec skirmish_scanned 0 a0 Hci Ha)
      as (gs' & a1 & Hadv & Ha1 & Hturn & Hacted & Haction & Hradar & _
          & Hcd).
    assert (Hwf : gameMode skirmish_scanned = CLASSIC →
                  skillCooldowns a0 = ∅) by (intros E; vm_compute in E;
                                             discriminate).
    pose proof (Hcd Hwf "Radarship"%string) as Hr.
    pose proof (Hcd Hwf "Jamship"%string) as Hj.
    rewrite H3 in Hr. rewrite H0 in Hj.
    exists a0, gs', a1.
    split; [run|].
    exact (conj Ha (conj H3 (conj H0 (conj Hadv (conj Ha1 (conj Hturn
            (conj Hacted (conj Haction (conj Hradar (conj Hr Hj)))))))))).
  - assert (Hci : findPlayer (currentPlayerId duel) (players duel)
                  = Some 0%nat) by run.
    assert (Ha : players duel !! 0%nat = Some duel_ann) by run.
    assert (Hmode : gameMode duel = CLASSIC) by run.
    assert (Hno : skillCooldowns duel_ann = ∅) by run.
    destruct (advanceTurn_spec duel 0 duel_ann Hci Ha)
      as (gs' & a1 & Hadv & Ha1 & Hturn & _ & _ & _ & _ & Hcd).
    exists gs', a1.
    exact (conj Hmode (conj Hno (conj Hadv (conj Ha1 (conj Hturn
            (Hcd (λ _, Hno))))))).
Defined.

(** C8, as stated, fails: the middle cell of the strip is unshot and has
    a hit on either side; its raw count is 1 and its final value is 25,
    not 5. *)
Lemma cell_between_two_hits_is_boosted_twice :
  shot_at strip 1 0 = EMPTY ∧
  shot_at strip 0 0 = HIT ∧
  shot_at strip 2 0 = HIT ∧
  pm_lookup (rawProbabilityMap strip_owner strip strip_dims) 1 0 = Some 1 ∧
  pm_lookup (buildProbabilityMap strip_owner strip strip_dims) 1 0
    = Some 25.
Proof. repeat (split; [run|]). run. Qed.

(** C8 (amended) on the strip: the middle cell has raw count 1 and two
    adjacent hits. *)
Lemma buildProbabilityMap_cell_witness :
  raw_count strip strip_dims (unsunk_lengths strip_owner) (mkPos 1 0) = 1 ∧
  adjacent_hits strip strip_dims (mkPos 1 0) = [mkPos 0 0; mkPos 2 0] ∧
  pm_lookup (rawProbabilityMap strip_owner strip strip_dims) 1 0 =
    Some (raw_count strip strip_dims (unsunk_lengths strip_owner)
            (mkPos 1 0)) ∧
  pm_lookup (buildProbabilityMap strip_owner strip strip_dims) 1 0 =
    Some (raw_count strip strip_dims (unsunk_lengths strip_owner)
            (mkPos 1 0)
          * 5 ^ (if bool_decide (shot_at strip 1 0 = EMPTY)
                 then Z.of_nat (length (adjacent_hits strip strip_dims
                                          (mkPos 1 0)))
                 else 0)).
Proof.
  split; [run|]. split; [run|].
  apply (buildProbabilityMap_cell strip_owner strip strip_dims 1 0);
    simpl; lia.
Defined.

(** C9 on the first move of the AI against Ann. *)
Lemma first_move_is_attack_or_radar_witness :
  let move := getAITacticalMove gemini ann battle 0 0 in
  (∀ coords target,
     move ≠ MoveSkill "Repairship" coords target ∧
     move ≠ MoveSkill "Commandship" coords target ∧
     move ≠ MoveSkill "Mothership" coords target) ∧
  ((∃ c, move = MoveAttack c) ∨
   (∃ coords target, move = MoveSkill "Radarship" coords target)).
Proof.
  apply (first_move_is_attack_or_radar gemini ann battle 0 0).
  - reflexivity.
  - run.
  - intros s Hs. elem_cases Hs; split; reflexivity.
  - intros s Hs. elem_cases Hs; reflexivity.
  - right. run.
Defined.


(** * Further properties of the program *)

(** ** Laying out a fleet *)

Lemma placeable_cell_spec d g p :
  grid_shape d g →
  ∃ b, placeable_cell g d p = Some b ∧
       (b = true ↔ in_bounds d p ∧ reads g p EMPTY).
Proof.
  intros Hs. unfold placeable_cell, in_bounds, reads. case_decide as Hd.
  - exists false. split; [done|]. split; [done|]. lia.
  - destruct (grid_shape_read d g (px p) (py p) Hs) as [c Hc]; [lia|].
    rewrite Hc. cbn [mbind option_bind]. eexists. split; [done|].
    rewrite (cell_read_opt _ _ _ _ Hc), bool_decide_eq_true.
    split; [intros ->; split; [lia|done]|tauto].
Qed.

Lemma all_placeable_spec d g ps :
  grid_shape d g →
  ∃ b, all_placeable g d ps = Some b ∧
       (b = true ↔ ∀ p, p ∈ ps → in_bounds d p ∧ reads g p EMPTY).
Proof.
  intros Hs. induction ps as [|p ps (b & Hb & IH)]; simpl.
  - exists true. split; [done|]. split; [|done].
    intros _ p Hp. by apply elem_of_nil in Hp.
  - destruct (placeable_cell_spec d g p Hs) as (b1 & -> & H1).
    cbn [mbind option_bind]. destruct b1.
    + exists b. split; [done|]. rewrite IH. split.
      * intros H q [->|Hq]%elem_of_cons; [by apply H1|by apply H].
      * intros H q Hq. apply H. by right.
    + exists false. split; [done|]. split; [done|].
      intros H. apply H1, H. by left.
Qed.

Lemma canPlaceShip_iff d g len x y h :
  grid_shape d g →
  ∃ b, canPlaceShip g len x y h d = Some b ∧
       (b = true ↔
        ∀ p, p ∈ footprint len x y h → in_bounds d p ∧ reads g p EMPTY).
Proof. intros Hs. by apply all_placeable_spec. Qed.

Lemma cells_write_elem g ps v g' x y :
  cells_write g ps v = Some g' →
  cell_opt g' x y = if decide (mkPos x y ∈ ps) then Some v
                    else cell_opt g x y.
Proof.
  intros H. rewrite (cells_write_opt _ _ _ _ _ _ H).
  destruct (existsb _ ps) eqn:E.
  - apply existsb_pos_eqb in E. by rewrite decide_True.
  - rewrite decide_False; [done|].
    intros Hin%existsb_pos_eqb. congruence.
Qed.

Lemma placeShip_writes d g s x y h :
  grid_shape d g →
  canPlaceShip g (ship_length s) x y h d = Some true →
  ∃ g',
    placeShip g s x y h
    = Some (g', ship_set_positions (footprint (ship_length s) x y h) s) ∧
    grid_shape d g' ∧
    ∀ x' y', cell_opt g' x' y' =
             if decide (mkPos x' y' ∈ footprint (ship_length s) x y h)
             then Some SHIP else cell_opt g x' y'.
Proof.
  intros Hs Hok.
  destruct (canPlaceShip_iff d g (ship_length s) x y h Hs) as (b & Hb & Hiff).
  rewrite Hok in Hb. injection Hb as <-.
  destruct (cells_write_total d g (footprint (ship_length s) x y h) SHIP)
    as (g' & Hw & Hs'); [done| |].
  { apply Forall_forall. intros p Hp. by apply (proj1 Hiff eq_refl p). }
  exists g'. unfold placeShip. cbv zeta. rewrite Hw. split; [done|].
  split; [done|]. intros x' y'. by apply cells_write_elem.
Qed.

(** X1.  [canPlaceShip] and [placeShip] on a grid of the dimensions of the
    game.  [canPlaceShip] returns, and says yes exactly when every cell of
    the footprint lies inside the grid and reads [EMPTY]; a ship without
    length fits anywhere.  Where it says yes, [placeShip] returns: the
    ship gets the footprint as its positions, the grid keeps its
    dimensions, reads [SHIP] on the footprint and is unchanged everywhere
    else. *)
Theorem canPlaceShip_placeShip d g s x y h :
  grid_shape d g →
  ∃ b, canPlaceShip g (ship_length s) x y h d = Some b ∧
       (b = true ↔
        ∀ p, p ∈ footprint (ship_length s) x y h →
             in_bounds d p ∧ reads g p EMPTY) ∧
       (ship_length s <= 0 → b = true) ∧
       (b = true →
        ∃ g',
          placeShip g s x y h
          = Some (g', ship_set_positions
                        (footprint (ship_length s) x y h) s) ∧
          grid_shape d g' ∧
          ∀ x' y', cell_opt g' x' y' =
                   if decide (mkPos x' y' ∈ footprint (ship_length s) x y h)
                   then Some SHIP else cell_opt g x' y').
Proof.
  intros Hs.
  destruct (canPlaceShip_iff d g (ship_length s) x y h Hs)
    as (b & Hb & Hiff).
  exists b. split_and!; [done|done| |].
  - intros Hlen. apply Hiff. intros p Hp.
    apply elem_of_footprint in Hp. destruct h; lia.
  - intros ->. by apply placeShip_writes.
Qed.

(** *** [findRandomValidPlacement] *)

Lemma clear_if_set_opt g x y x' y' :
  cell_opt (clear_if_set g x y) x' y' =
    if decide (x' = x ∧ y' = y ∧ is_Some (cell_opt g x y)) then Some EMPTY
    else cell_opt g x' y'.
Proof.
  unfold clear_if_set. destruct (cell_write g x y EMPTY) as [g'|] eqn:E.
  - simpl. rewrite (cell_write_opt _ _ _ _ _ _ _ E).
    apply cell_write_Some_inv in E.
    destruct (decide (x' = x ∧ y' = y)) as [[-> ->]|Hn].
    + by rewrite decide_True.
    + rewrite decide_False; [done|]. intros (? & ? & _). by apply Hn.
  - simpl. rewrite decide_False; [done|]. intros (_ & _ & H).
    apply (cell_write_is_Some g x y EMPTY) in H. rewrite E in H.
    by destruct H.
Qed.

Lemma clear_if_set_shape d g x y :
  grid_shape d g → grid_shape d (clear_if_set g x y).
Proof.
  intros Hs. unfold clear_if_set.
  destruct (cell_write g x y EMPTY) as [g'|] eqn:E; [|done].
  by eapply grid_shape_write.
Qed.

Lemma clear_cells_shape d g ps :
  grid_shape d g → grid_shape d (clear_cells g ps).
Proof.
  unfold clear_cells. revert g.
  induction ps as [|p ps IH]; intros g Hs; simpl; [done|].
  by apply IH, clear_if_set_shape.
Qed.

(** A cell of the grid without the ship reads what it read before, or
    [EMPTY] when it is a position of the ship. *)
Lemma clear_cells_opt g ps x y v :
  cell_opt (clear_cells g ps) x y = Some v →
  cell_opt g x y = Some v ∨ (v = EMPTY ∧ mkPos x y ∈ ps).
Proof.
  unfold clear_cells. revert g.
  induction ps as [|p ps IH]; intros g H; simpl in *; [by left|].
  destruct (IH _ H) as [H1|[-> Hin]]; [|right; split; [done|by right]].
  rewrite clear_if_set_opt in H1. case_decide as Hd; [|by left].
  destruct Hd as (-> & -> & _). injection H1 as <-.
  right. split; [done|]. destruct p. by left.
Qed.

Lemma tryPlacements_spec d g len rnd n k r :
  tryPlacements n k g len d rnd = Some r →
  match r with
  | Some (x, y, h) =>
      ∃ j, (k ≤ j < k + n)%nat ∧ rnd j = (h, (x, y)) ∧
           canPlaceShip g len x y h d = Some true ∧
           ∀ i, (k ≤ i < j)%nat →
                canPlaceShip g len (rnd i).2.1 (rnd i).2.2 (rnd i).1 d
                = Some false
  | None =>
      ∀ i, (k ≤ i < k + n)%nat →
           canPlaceShip g len (rnd i).2.1 (rnd i).2.2 (rnd i).1 d = Some false
  end.
Proof.
  revert k. induction n as [|n IH]; intros k H; simpl in H.
  - injection H as <-. intros i Hi. lia.
  - destruct (rnd k) as [h [x y]] eqn:Hk.
    apply bind_Some in H as (ok & Hok & H). destruct ok.
    + injection H as <-. exists k. split_and!; [lia|lia|done|done|].
      intros i Hi. lia.
    + specialize (IH (S k) H).
      assert (Hfirst : ∀ i, i = k →
                canPlaceShip g len (rnd i).2.1 (rnd i).2.2 (rnd i).1 d
                = Some false).
      { intros i ->. by rewrite Hk. }
      destruct r as [[[x' y'] h']|].
      * destruct IH as (j & Hj & Hr & Hc & Hbefore).
        exists j. split_and!; [lia|lia|done|done|].
        intros i Hi. destruct (decide (i = k)) as [->|]; [by apply Hfirst|].
        apply Hbefore. lia.
      * intros i Hi. destruct (decide (i = k)) as [->|]; [by apply Hfirst|].
        apply IH. lia.
Qed.

Lemma tryPlacements_total d g len rnd n k :
  grid_shape d g → is_Some (tryPlacements n k g len d rnd).
Proof.
  intros Hs. revert k. induction n as [|n IH]; intros k; simpl; [eauto|].
  destruct (rnd k) as [h [x y]].
  destruct (canPlaceShip_iff d g len x y h Hs) as (b & -> & _).
  cbn [mbind option_bind]. destruct b; eauto.
Qed.

(** X2.  on a grid of the dimensions of the game [findRandomValidPlacement]
    returns.  A placement it proposes is one of the first hundred draws,
    lies inside the grid, and covers only cells that read [EMPTY] or that
    the ship itself occupies. *)
Theorem findRandomValidPlacement_fits d player s rnd :
  grid_shape d (grid player) →
  ∃ r, findRandomValidPlacement player (Some s) d rnd = Some r ∧
       ∀ x y h, r = Some (x, y, h) →
         (∃ j, (j < 100)%nat ∧ rnd j = (h, (x, y))) ∧
         ∀ p, p ∈ footprint (ship_length s) x y h →
              in_bounds d p ∧
              (reads (grid player) p EMPTY ∨ p ∈ positions s).
Proof.
  intros Hs. unfold findRandomValidPlacement.
  destruct (grid player) as [|[|c row] g] eqn:Hg.
  - exists None. split; [done|]. by intros.
  - exists None. split; [done|]. by intros.
  - rewrite <- Hg in *. cbn [mbind option_bind].
    pose proof (clear_cells_shape d _ (positions s) Hs) as Hs'.
    destruct (tryPlacements_total d _ (ship_length s) rnd 100 0 Hs')
      as [r Hr].
    exists r. split; [done|]. intros x y h ->.
    apply tryPlacements_spec in Hr as (j & Hj & Hd & Hok & _).
    split; [exists j; split; [lia|done]|].
    destruct (canPlaceShip_iff d _ (ship_length s) x y h Hs')
      as (b & Hb & Hiff).
    rewrite Hok in Hb. injection Hb as <-.
    intros p Hp. destruct (proj1 Hiff eq_refl p Hp) as [Hin Hr].
    split; [done|]. unfold reads in *.
    apply clear_cells_opt in Hr as [?|[_ ?]]; [by left|right].
    by destruct p.
Qed.

(** *** [placeAllShipsRandomly] *)

Lemma createEmptyGrid_opt r c x y v :
  cell_opt (createEmptyGrid r c) x y = Some v → v = EMPTY.
Proof.
  unfold cell_opt, createEmptyGrid. intros H.
  apply bind_Some in H as (row & Hrow & H).
  apply zlookup_Some in Hrow as [_ Hrow], H as [_ H].
  apply lookup_replicate in Hrow as [-> _].
  by apply lookup_replicate in H as [-> _].
Qed.

Lemma deployed_empty d : deployed d (createEmptyGrid (rows d) (cols d)) [].
Proof.
  split.
  - apply grid_shape_empty.
  - split; intros *; by rewrite lookup_nil.
  - intros s Hs. by apply elem_of_nil in Hs.
  - intros s Hs. by apply elem_of_nil in Hs.
  - intros x y v Hv. left. by eapply createEmptyGrid_opt.
Qed.

Lemma config_of_placed c ps :
  config_of (ship_set_positions ps (shipToPlace c)) = c.
Proof. by destruct c. Qed.

(** One more ship on a fleet laid out by the rules. *)
Lemma deployed_snoc d g ss c x y h g' s' :
  deployed d g ss →
  canPlaceShip g (cfg_length c) x y h d = Some true →
  placeShip g (shipToPlace c) x y h = Some (g', s') →
  deployed d g' (ss ++ [s']) ∧ config_of s' = c.
Proof.
  intros [Hs [Hf Hdis] Hin Hnew Hcells] Hok Hp.
  destruct (canPlaceShip_iff d g (cfg_length c) x y h Hs) as (b & Hb & Hiff).
  rewrite Hok in Hb. injection Hb as <-.
  pose proof (proj1 Hiff eq_refl) as Hfree. clear Hiff.
  destruct (placeShip_writes d g (shipToPlace c) x y h Hs Hok)
    as (g1 & Hp1 & Hs1 & Hread).
  rewrite Hp in Hp1. injection Hp1 as <- ->.
  change (ship_length (shipToPlace c)) with (cfg_length c) in *.
  set (fp := footprint (cfg_length c) x y h) in *.
  assert (Hold : ∀ i s p, ss !! i = Some s → p ∈ positions s → p ∉ fp).
  { intros i s p Hi Hps Hfp. destruct (Hf i s Hi) as [_ Hr].
    specialize (Hr p Hps). destruct (Hfree p Hfp) as [_ He].
    unfold reads in *. congruence. }
  split; [|apply config_of_placed]. split.
  - done.
  - split.
    + intros i s Hi. apply lookup_snoc_Some in Hi as [[_ Hi]|[_ <-]].
      * destruct (Hf i s Hi) as [Hsunk Hr]. split; [done|].
        intros p Hps. unfold reads. rewrite Hread.
        destruct p as [a b]. simpl.
        rewrite decide_False; [by apply (Hr _ Hps)|]. by eapply Hold.
      * split; [done|]. intros p Hps. unfold reads. rewrite Hread.
        destruct p as [a b]. simpl. by rewrite decide_True.
    + intros i j s1 s2 p Hi Hj H1 H2.
      apply lookup_snoc_Some in Hi as [[Hil Hi]|[Hil <-]];
        apply lookup_snoc_Some in Hj as [[Hjl Hj]|[Hjl <-]].
      * by eapply Hdis.
      * by destruct (Hold i s1 p Hi H1).
      * by destruct (Hold j s2 p Hj H2).
      * congruence.
  - intros s [Hs0| ->%list_elem_of_singleton]%elem_of_app; [by apply Hin|].
    apply Forall_forall. intros p Hps. by apply Hfree.
  - intros s [Hs0| ->%list_elem_of_singleton]%elem_of_app; [by apply Hnew|].
    done.
  - intros a b v Hv. rewrite Hread in Hv. case_decide as Hd.
    + injection Hv as <-. right. split; [done|].
      eexists. split; [apply elem_of_app; right; by left|done].
    + destruct (Hcells a b v Hv) as [->|[-> (s & Hs0 & Hps)]]; [by left|].
      right. split; [done|]. exists s.
      split; [apply elem_of_app; by left|done].
Qed.

Lemma placeRandomly_deployed d rnd c n k g ss g' s' k' :
  deployed d g ss →
  placeRandomly n k g c d rnd = Some (Some (g', s', k')) →
  deployed d g' (ss ++ [s']) ∧ config_of s' = c.
Proof.
  intros Hd. revert k. induction n as [|n IH]; intros k H; simpl in H;
    [done|].
  destruct (rnd k) as [h [x y]].
  apply bind_Some in H as (ok & Hok & H). destruct ok; [|by eapply IH].
  apply bind_Some in H as ([g1 s1] & Hp & H). injection H as <- <- <-.
  by eapply deployed_snoc.
Qed.

Lemma placeFleet_deployed d rnd cs k g ss g' ss' :
  deployed d g ss →
  placeFleet cs k g ss d rnd = Some (inl (g', ss')) →
  deployed d g' ss' ∧ config_of <$> ss' = (config_of <$> ss) ++ cs.
Proof.
  revert k g ss. induction cs as [|c cs IH]; intros k g ss Hd H;
    cbn [placeFleet] in H.
  - injection H as <- <-. by rewrite app_nil_r.
  - apply bind_Some in H as (r & Hr & H).
    destruct r as [[[g1 s1] k1]|]; [|done].
    destruct (placeRandomly_deployed _ _ _ _ _ _ _ _ _ _ Hd Hr) as [Hd1 Hc].
    destruct (IH _ _ _ Hd1 H) as [Hd' Hcfg]. split; [done|].
    by rewrite Hcfg, fmap_app, <- app_assoc, <- Hc.
Qed.

Lemma insert_by_perm {A} (key : A → Z) a l : insert_by key a l ≡ₚ a :: l.
Proof.
  induction l as [|b l IH]; simpl; [done|].
  case_decide; [|done]. by rewrite IH, Permutation_swap.
Qed.

Lemma sort_by_perm {A} (key : A → Z) l : sort_by key l ≡ₚ l.
Proof.
  induction l as [|a l IH]; simpl; [done|].
  by rewrite insert_by_perm, IH.
Qed.

(** A list whose keys count upwards is sorted already. *)
Lemma sort_by_sorted {A} (key : A → Z) l off :
  (∀ i a, l !! i = Some a → key a = off + Z.of_nat i) →
  sort_by key l = l.
Proof.
  revert off. induction l as [|a l IH]; intros off H; simpl; [done|].
  rewrite (IH (off + 1)).
  - destruct l as [|b l]; simpl; [done|].
    rewrite decide_False; [done|].
    rewrite (H 0%nat a eq_refl), (H 1%nat b eq_refl). lia.
  - intros i b Hb. rewrite (H (S i) b Hb). lia.
Qed.

Lemma findIndex_NoDup (l : list string) i n :
  NoDup l → l !! i = Some n →
  findIndex (λ m, bool_decide (m = n)) l = Some i.
Proof.
  intros Hnd. revert i. induction Hnd as [|m l Hm _ IH]; intros i Hi;
    [by rewrite lookup_nil in Hi|].
  destruct i as [|i]; simpl in *.
  - injection Hi as ->. by rewrite bool_decide_eq_true_2.
  - rewrite bool_decide_eq_false_2.
    + by rewrite (IH i Hi).
    + intros ->. apply Hm. by eapply list_elem_of_lookup_2.
Qed.

Lemma fresh_fleet_perm g ss ss' :
  ss' ≡ₚ ss → fresh_fleet g ss → fresh_fleet g ss'.
Proof.
  intros (_ & f & Hinj & Hf)%Permutation_inj [H1 H2]. split.
  - intros i s Hi. rewrite Hf in Hi. by eapply H1.
  - intros i j s1 s2 p Hi Hj Hp1 Hp2. rewrite Hf in Hi, Hj.
    apply Hinj. by eapply H2.
Qed.

Lemma deployed_perm d g ss ss' :
  ss' ≡ₚ ss → deployed d g ss → deployed d g ss'.
Proof.
  intros Hp [Hs Hf Hin Hnew Hcells]. split.
  - done.
  - by eapply fresh_fleet_perm.
  - intros s Hs0. apply Hin. by rewrite <- Hp.
  - intros s Hs0. apply Hnew. by rewrite <- Hp.
  - intros x y v Hv. destruct (Hcells x y v Hv) as [?|[-> (s & ? & ?)]];
      [by left|right]. split; [done|]. exists s. by rewrite Hp.
Qed.

Lemma placeAllShipsRandomly_deployed n cfg d rnd k g ss :
  placeAllShipsRandomly n cfg d rnd k = Some (g, ss) →
  deployed d g ss ∧ config_of <$> ss ≡ₚ cfg ∧
  (NoDup (cfg_name <$> cfg) → config_of <$> ss = cfg).
Proof.
  revert k. induction n as [|n IH]; intros k H;
    cbn [placeAllShipsRandomly] in H;
    apply bind_Some in H as (r & Hr & H);
    (destruct r as [[g1 ss1]|k1]; [|first [done|by eapply IH]]);
    injection H as <- <-;
    destruct (placeFleet_deployed _ _ _ _ _ _ _ _ (deployed_empty d) Hr)
      as [Hd Hcfg]; simpl in Hcfg;
    (split; [by eapply deployed_perm; [apply sort_by_perm|]|]);
    (split; [by rewrite sort_by_perm, Hcfg|]);
    intros Hnd; rewrite (sort_by_sorted _ _ 0); [done| |done|];
    intros i s Hi; unfold indexOf;
    (rewrite (findIndex_NoDup _ i); [lia|done|]);
    rewrite <- Hcfg, <- list_fmap_compose, list_lookup_fmap, Hi; done.
Qed.

Lemma placeShipsForAI_deployed_aux n player cfg d rnd p' :
  placeShipsForAI n player cfg d rnd = Some p' →
  deployed d (grid p') (ships p') ∧
  config_of <$> ships p' ≡ₚ cfg ∧
  isReady p' = true ∧
  player_id p' = player_id player ∧
  shots p' = shots player ∧
  isEliminated p' = isEliminated player ∧
  decoyPositions p' = decoyPositions player ∧
  isAI p' = isAI player ∧
  (NoDup (cfg_name <$> cfg) → config_of <$> ships p' = cfg).
Proof.
  unfold placeShipsForAI. intros H.
  apply bind_Some in H as ([g ss] & Hg & H). injection H as <-. simpl.
  destruct (placeAllShipsRandomly_deployed _ _ _ _ _ _ _ Hg) as (? & ? & ?).
  done.
Qed.

Lemma placeAllShipsRandomly_more n m cfg d rnd k r :
  placeAllShipsRandomly n cfg d rnd k = Some r → (n ≤ m)%nat →
  placeAllShipsRandomly m cfg d rnd k = Some r.
Proof.
  revert m k. induction n as [|n IH]; intros m k H Hle;
    cbn [placeAllShipsRandomly] in H;
    apply bind_Some in H as (f & Hf & H);
    (destruct m as [|m]; [try lia|]); cbn [placeAllShipsRandomly];
    rewrite Hf; cbn [mbind option_bind];
    destruct f as [[g1 ss1]|k1]; try done.
  apply IH; [done|lia].
Qed.

(** X3.  the fleet that [placeShipsForAI] returns is laid out by the rules:
    the grid has the dimensions of the game, every ship lies inside it,
    no two ships share a cell, the grid reads [SHIP] exactly on the ships,
    and the ships are those of the configuration, all new.  The player is
    ready and is otherwise unchanged.  The bound on the number of resets
    has no influence on the result: every greater bound gives the same
    player. *)
Theorem placeShipsForAI_deployed n player cfg d rnd p' :
  placeShipsForAI n player cfg d rnd = Some p' →
  deployed d (grid p') (ships p') ∧
  config_of <$> ships p' ≡ₚ cfg ∧
  p' = mkPlayer (player_id player) (player_name player) (isAI player)
         (grid p') (ships p') (shots player) true (isEliminated player)
         (score player) (skillCooldowns player) (skillUses player)
         (decoyPositions player) (jammedPositions player)
         (jamTurnsRemaining player) (escapeSkillUnlocked player) ∧
  ∀ m, (n ≤ m)%nat → placeShipsForAI m player cfg d rnd = Some p'.
Proof.
  unfold placeShipsForAI. intros H.
  apply bind_Some in H as ([g ss] & Hg & H). injection H as <-.
  cbn [grid ships].
  destruct (placeAllShipsRandomly_deployed _ _ _ _ _ _ _ Hg) as (? & ? & _).
  split; [done|]. split; [done|]. split; [done|].
  intros m Hm. by rewrite (placeAllShipsRandomly_more _ _ _ _ _ _ _ Hg Hm).
Qed.

(** X4.  when the names of the configuration are distinct, the ships that
    [placeShipsForAI] returns come in the order of the configuration,
    each with the name, the type and the length of its entry. *)
Theorem placeShipsForAI_order n player cfg d rnd p' :
  NoDup (cfg_name <$> cfg) →
  placeShipsForAI n player cfg d rnd = Some p' →
  config_of <$> ships p' = cfg.
Proof.
  intros Hnd H.
  destruct (placeShipsForAI_deployed_aux _ _ _ _ _ _ H)
    as (_ & _ & _ & _ & _ & _ & _ & _ & Ho).
  by apply Ho.
Qed.

(** ** Passing the turn *)

Lemma mod_wrap (a n : nat) :
  (n ≤ a < 2 * n)%nat → (a mod n = a - n)%nat.
Proof.
  intros H. symmetry. apply (Nat.mod_unique a n 1); lia.
Qed.

Lemma seat_mod (ci m n : nat) :
  (ci < n)%nat → (1 ≤ m ≤ n)%nat →
  ((ci + m) mod n = ci ↔ m = n)%nat.
Proof.
  intros Hci Hm. destruct (decide (ci + m < n)%nat).
  - rewrite Nat.mod_small by lia. lia.
  - rewrite mod_wrap by lia. lia.
Qed.

Lemma seat_next (ci m n : nat) :
  (0 < n)%nat → (((ci + m) mod n + 1) mod n = (ci + S m) mod n)%nat.
Proof.
  intros Hn. rewrite Nat.Div0.add_mod_idemp_l. f_equal. lia.
Qed.

(** The loop of [advanceTurn], started [m] seats after the current player
    with every seat in between eliminated, stops at the first seat whose
    player is still in the game, or else back at the current player. *)
Lemma skipEliminated_seats (ps : list Player) (ci : nat) :
  (ci < length ps)%nat →
  ∀ fuel m,
    (1 ≤ m)%nat → (m < length ps ∨ (length ps = 1 ∧ m = 1))%nat →
    (length ps - m < fuel)%nat →
    (∀ j q, (1 ≤ j < m)%nat →
            ps !! ((ci + j) mod length ps)%nat = Some q →
            isEliminated q = true) →
    ∃ k, (m ≤ k ≤ length ps)%nat ∧
         skipEliminated fuel ps (Some ci) ((ci + m) mod length ps)%nat
         = Some ((ci + k) mod length ps)%nat ∧
         (∀ j q, (1 ≤ j < k)%nat →
                 ps !! ((ci + j) mod length ps)%nat = Some q →
                 isEliminated q = true) ∧
         (∀ q, (k < length ps)%nat →
               ps !! ((ci + k) mod length ps)%nat = Some q →
               isEliminated q = false).
Proof.
  intros Hci. set (n := length ps) in *.
  induction fuel as [|fuel IH]; intros m Hm1 Hm Hfuel Hbefore; [lia|].
  cbn [skipEliminated].
  assert (Hlt : ((ci + m) mod n < length ps)%nat)
    by (apply Nat.mod_upper_bound; lia).
  destruct (lookup_lt_is_Some_2 ps _ Hlt) as [p Hp].
  rewrite Hp. cbn [mbind option_bind].
  destruct (isEliminated p) eqn:Hel.
  - fold n. rewrite seat_next by lia. case_bool_decide as Hb.
    + (* back at the current player *)
      injection Hb as Hb. symmetry in Hb.
      exists n. split; [lia|]. split; [|split].
      * f_equal. rewrite Hb. symmetry. apply seat_mod; lia.
      * intros j q Hj Hq.
        destruct (decide (j < m)%nat); [eapply Hbefore; [|done]; lia|].
        assert (j = m) as ->.
        { destruct Hm as [Hm|Hm]; [|lia].
          apply seat_mod in Hb; lia. }
        congruence.
      * intros q Hq. lia.
    + assert (S m < n)%nat as Hsm.
      { destruct (decide (S m < n)%nat); [done|]. destruct Hb. f_equal.
        destruct Hm as [Hm|[Hn ->]].
        - symmetry. apply seat_mod; lia.
        - rewrite Hn, Nat.mod_1_r. lia. }
      destruct (IH (S m)) as (k & Hk & Hr & Hall & Hlast);
        [lia|lia|lia| |].
      * intros j q Hj Hq.
        destruct (decide (j < m)%nat); [eapply Hbefore; [|done]; lia|].
        assert (j = m) as -> by lia. congruence.
      * exists k. split; [lia|]. done.
  - exists m. split; [lia|]. split; [done|]. split; [done|].
    intros q _ Hq. congruence.
Qed.

Lemma end_of_turn_eliminated m p :
  isEliminated (end_of_turn m p) = isEliminated p.
Proof.
  unfold end_of_turn, tickJam. destruct m; repeat case_decide; done.
Qed.

Lemma end_of_turn_isAI m p : isAI (end_of_turn m p) = isAI p.
Proof.
  unfold end_of_turn, tickJam. destruct m; repeat case_decide; done.
Qed.

Lemma end_of_turn_board m p :
  clear_gates (end_of_turn m p) = clear_gates p.
Proof.
  unfold end_of_turn, tickJam. destruct m; repeat case_decide; done.
Qed.

(** [advanceTurn] with a player at turn, step by step: the player at turn
    is counted down, the loop picks the seat of the next player, and the
    rest of the state is left alone. *)
Lemma advanceTurn_steps gs ci p :
  findPlayer (currentPlayerId gs) (players gs) = Some ci →
  players gs !! ci = Some p →
  let ps1 := <[ci := end_of_turn (gameMode gs) p]> (players gs) in
  ∃ gs' r np,
    advanceTurn gs = Some gs' ∧
    skipEliminated (S (length ps1)) ps1 (Some ci)
                   ((ci + 1) mod length ps1)%nat = Some r ∧
    ps1 !! r = Some np ∧
    players gs' = ps1 ∧
    currentPlayerId gs' = Some (player_id np) ∧
    phase gs' = (if negb (isAI np)
                    && bool_decide
                         (1 < length (filter (λ q, isAI q = false) ps1))%nat
                 then TURN_TRANSITION else phase gs) ∧
    (jammedArea gs' = jammedArea gs ∨ jammedArea gs' = None) ∧
    log gs' = log gs ∧ winner gs' = winner gs ∧ hitLog gs' = hitLog gs ∧
    gameId gs' = gameId gs ∧ maxPlayers gs' = maxPlayers gs ∧
    shipsConfig gs' = shipsConfig gs ∧
    gridDimensions gs' = gridDimensions gs ∧ gameMode gs' = gameMode gs.
Proof.
  intros Hci Hp ps1. unfold advanceTurn. rewrite Hci. cbv zeta. rewrite Hp.
  subst ps1. unfold end_of_turn.
  set (p1 := match gameMode gs with
             | CLASSIC => p
             | TACTICAL => p_set_skillCooldowns
                             (tickCooldowns (skillCooldowns p)) p
             end).
  destruct (tickJam p1) as [p2 cleared] eqn:Hjam. cbn [fst].
  pose proof (lookup_lt_Some _ _ _ Hp) as Hlt.
  set (gs1 := if cleared && _ then _ else _).
  assert (Hps : players gs1 = <[ci := p2]> (players gs)).
  { unfold gs1. by destruct (cleared && _). }
  assert (Hsame : turn gs1 = turn gs ∧ gameMode gs1 = gameMode gs ∧
                  gridDimensions gs1 = gridDimensions gs ∧
                  phase gs1 = phase gs ∧ log gs1 = log gs ∧
                  winner gs1 = winner gs ∧ hitLog gs1 = hitLog gs ∧
                  gameId gs1 = gameId gs ∧ maxPlayers gs1 = maxPlayers gs ∧
                  shipsConfig gs1 = shipsConfig gs ∧
                  (jammedArea gs1 = jammedArea gs ∨ jammedArea gs1 = None)).
  { unfold gs1. destruct (cleared && _); split_and!; try done;
      [by right|by left]. }
  destruct Hsame as (Hturn & Hmode & Hdim & Hph & Hlog & Hwin & Hhit & Hid
                     & Hmax & Hcfg & Hja).
  assert (Hlen : length (players gs1) = length (players gs)).
  { by rewrite Hps, length_insert. }
  rewrite bool_decide_eq_false_2 by lia.
  destruct (skipEliminated_terminates (players gs1) ci)
    with (fuel := S (length (players gs1)))
         (next := ((ci + 1) mod length (players gs1))%nat)
    as (r & Hr & Hrlt).
  - lia.
  - apply Nat.mod_upper_bound. lia.
  - rewrite succ_mod by lia. repeat case_decide; lia.
  - rewrite Hr. cbn [mbind option_bind].
    destruct (lookup_lt_is_Some_2 _ _ Hrlt) as [np Hnp].
    rewrite Hnp. cbn [mbind option_bind].
    rewrite Hps in Hr, Hnp.
    eexists _, r, np. split; [done|].
    set (b := negb (isAI np) && _).
    assert (∀ {A} (f : GameState → A),
              (∀ g, f (g_set_phase TURN_TRANSITION g) = f g) →
              f (if b then g_set_phase TURN_TRANSITION gs1 else gs1) = f gs1)
      as Hb by (intros A f Hf; by destruct b).
    rsimpl.
    rewrite (Hb _ players), (Hb _ jammedArea), (Hb _ log), (Hb _ winner),
      (Hb _ hitLog), (Hb _ gameId), (Hb _ maxPlayers), (Hb _ shipsConfig),
      (Hb _ gridDimensions), (Hb _ gameMode) by done.
    split_and!; try done.
    subst b. rewrite Hps. destruct (isAI np); cbn [negb andb]; [exact Hph|].
    repeat case_bool_decide; first [reflexivity|exact Hph|contradiction].
Qed.

Lemma lookup_counted (ps : list Player) ci m p i q' :
  ps !! ci = Some p →
  <[ci := end_of_turn m p]> ps !! i = Some q' →
  ∃ q, ps !! i = Some q ∧ isEliminated q' = isEliminated q ∧
       player_id q' = player_id q ∧ isAI q' = isAI q.
Proof.
  intros Hci Hi. destruct (decide (i = ci)) as [->|Hne].
  - rewrite list_lookup_insert_eq in Hi by (by eapply lookup_lt_Some).
    injection Hi as <-. exists p. split; [done|].
    by rewrite end_of_turn_eliminated, end_of_turn_id, end_of_turn_isAI.
  - rewrite list_lookup_insert_ne in Hi by done. eauto.
Qed.

Lemma lookup_counted_inv (ps : list Player) ci m p i q :
  ps !! ci = Some p →
  ps !! i = Some q →
  ∃ q', <[ci := end_of_turn m p]> ps !! i = Some q' ∧
        isEliminated q' = isEliminated q.
Proof.
  intros Hci Hi. destruct (decide (i = ci)) as [->|Hne].
  - rewrite list_lookup_insert_eq by (by eapply lookup_lt_Some).
    eexists. split; [done|]. rewrite end_of_turn_eliminated. congruence.
  - rewrite list_lookup_insert_ne by done. eauto.
Qed.

(** X5.  with a player at turn, [advanceTurn] returns and passes the turn
    around the table: to the first player after the current one who is
    not eliminated, and back to the current player when every other
    player is eliminated.  The turn never passes to an eliminated player
    while a player is left in the game. *)
Theorem advanceTurn_next_player gs ci p :
  findPlayer (currentPlayerId gs) (players gs) = Some ci →
  players gs !! ci = Some p →
  ∃ gs' k np,
    advanceTurn gs = Some gs' ∧
    (1 ≤ k ≤ length (players gs))%nat ∧
    seat_after gs ci k = Some np ∧
    currentPlayerId gs' = Some (player_id np) ∧
    (∀ j q, (1 ≤ j < k)%nat → seat_after gs ci j = Some q →
            isEliminated q = true) ∧
    ((k < length (players gs))%nat → isEliminated np = false) ∧
    ((∃ q, q ∈ players gs ∧ isEliminated q = false) →
     isEliminated np = false).
Proof.
  intros Hci Hp.
  destruct (advanceTurn_steps gs ci p Hci Hp)
    as (gs' & r & np' & Hadv & Hr & Hnp & _ & Hcur & _).
  cbv zeta in Hr, Hnp.
  set (ps1 := <[ci := end_of_turn (gameMode gs) p]> (players gs)) in *.
  pose proof (lookup_lt_Some _ _ _ Hp) as Hlt.
  assert (Hlen : length ps1 = length (players gs))
    by (unfold ps1; by rewrite length_insert).
  destruct (skipEliminated_seats ps1 ci) with (fuel := S (length ps1))
                                               (m := 1%nat)
    as (k & Hk & Hr' & Hall & Hlast); [lia|lia|lia|lia|intros; lia|].
  rewrite Hr in Hr'. injection Hr' as ->. rewrite Hlen in *.
  destruct (lookup_counted _ _ _ _ _ _ Hp Hnp)
    as (np & Hnp0 & Hel & Hid & _).
  assert (Hbefore : ∀ j q, (1 ≤ j < k)%nat → seat_after gs ci j = Some q →
                           isEliminated q = true).
  { intros j q Hj Hq. unfold seat_after in Hq.
    destruct (lookup_counted_inv _ ci (gameMode gs) p _ _ Hp Hq)
      as (q' & Hq' & <-).
    by eapply Hall. }
  assert (Hin : (k < length (players gs))%nat → isEliminated np = false).
  { intros Hkn. rewrite <- Hel. by eapply Hlast. }
  exists gs', k, np. split_and!; try done; try lia.
  - congruence.
  - intros (q & Hq & Hqe).
    destruct (decide (k < length (players gs))%nat) as [|Hkn];
      [by apply Hin|].
    assert (k = length (players gs)) as -> by lia.
    assert (np = p) as ->.
    { unfold seat_after in Hnp0. rewrite (proj2 (seat_mod _ _ _ Hlt Hk)) in Hnp0
        by done. congruence. }
    apply list_elem_of_lookup in Hq as [j Hj].
    destruct (decide (j = ci)) as [->|Hne]; [congruence|].
    pose proof (lookup_lt_Some _ _ _ Hj) as Hjlt.
    set (n := length (players gs)) in *.
    assert (isEliminated q = true); [|congruence].
    apply (Hbefore (if decide (ci < j)%nat then j - ci else j + n - ci)%nat);
      [case_decide; lia|].
    unfold seat_after. fold n. case_decide.
    + rewrite Nat.mod_small by lia. by replace (ci + (j - ci))%nat with j by lia.
    + rewrite mod_wrap by lia.
      by replace (ci + (j + n - ci) - n)%nat with j by lia.
Qed.

(** X6.  ending a turn changes no board.  The players keep their grids,
    fleets, shot grids and decoys (only cooldowns and the jam of the
    player at turn are counted down), the log, the damage log and the
    winner are unchanged, and the hand-over screen is shown only when the
    game has more than one human player. *)
Theorem advanceTurn_keeps_boards gs ci p gs' :
  findPlayer (currentPlayerId gs) (players gs) = Some ci →
  players gs !! ci = Some p →
  advanceTurn gs = Some gs' →
  same_fleets (players gs') (players gs) ∧
  log gs' = log gs ∧ hitLog gs' = hitLog gs ∧ winner gs' = winner gs ∧
  gridDimensions gs' = gridDimensions gs ∧ gameMode gs' = gameMode gs ∧
  shipsConfig gs' = shipsConfig gs ∧
  (phase gs' = phase gs ∨
   phase gs' = TURN_TRANSITION ∧ (1 < length (humans gs))%nat).
Proof.
  intros Hci Hp Hadv.
  destruct (advanceTurn_steps gs ci p Hci Hp)
    as (gs1 & r & np & Hadv1 & _ & _ & Hps & _ & Hph & _ & Hlog & Hwin
        & Hhit & _ & _ & Hcfg & Hdim & Hmode).
  rewrite Hadv in Hadv1. injection Hadv1 as <-.
  split_and!; try done.
  - rewrite Hps. unfold same_fleets.
    rewrite list_fmap_insert, end_of_turn_board.
    apply list_insert_id. by rewrite list_lookup_fmap, Hp.
  - rewrite Hph. destruct (negb (isAI np)); simpl; [|by left].
    case_bool_decide as Hh; [right|by left]. split; [done|].
    unfold humans. revert Hh. clear -Hp.
    assert (length (filter (λ q, isAI q = false)
                      (<[ci := end_of_turn (gameMode gs) p]> (players gs)))
            = length (filter (λ q, isAI q = false) (players gs))) as ->;
      [|done].
    revert ci Hp. generalize (players gs) as l.
    induction l as [|a l IH]; intros [|ci] Hp; simpl in *; try done.
    + injection Hp as ->.
      rewrite !filter_cons, end_of_turn_isAI.
      by destruct (decide (isAI p = false)).
    + rewrite !filter_cons. destruct (decide (isAI a = false)); simpl;
        by rewrite (IH ci Hp).
Qed.

(** ** What a shot changes *)

Lemma ship_kept_refl s : ship_kept s s.
Proof. by repeat split. Qed.

Lemma ships_kept_refl ss : Forall2 ship_kept ss ss.
Proof. apply Forall2_same_length_lookup. split; [done|].
  intros i s s' H1 H2. assert (s = s') as -> by congruence.
  apply ship_kept_refl. Qed.

Lemma ships_kept_alter (f : Ship → Ship) i ss :
  (∀ s, ship_kept s (f s)) → Forall2 ship_kept ss (alter f i ss).
Proof.
  intros Hf. apply Forall2_same_length_lookup.
  split; [by rewrite length_alter|].
  intros j s s' H1 H2. rewrite list_lookup_alter in H2.
  case_decide; subst.
  - rewrite H1 in H2. injection H2 as <-. apply Hf.
  - assert (s = s') as -> by congruence. apply ship_kept_refl.
Qed.

Lemma player_kept_refl p : player_kept p p.
Proof. repeat split; try done. apply ships_kept_refl. Qed.

Lemma ship_kept_trans s1 s2 s3 :
  ship_kept s1 s2 → ship_kept s2 s3 → ship_kept s1 s3.
Proof.
  intros (?&?&?&?&?&?&?&?) (?&?&?&?&?&?&?&?).
  repeat split; try congruence; auto.
Qed.

Lemma player_kept_trans p1 p2 p3 :
  player_kept p1 p2 → player_kept p2 p3 → player_kept p1 p3.
Proof.
  intros (?&?&?&?&?&?&?&?&?&Hs1&?&?&Hd1) (?&?&?&?&?&?&?&?&?&Hs2&?&?&Hd2).
  repeat split; try congruence; auto.
  - eapply Forall2_trans; [|exact Hs1|exact Hs2].
    intros ???. apply ship_kept_trans.
  - by etrans.
Qed.

Lemma players_kept_alter (F G : Player → Player) ti ai ps :
  (∀ p, player_kept p (F p)) → (∀ p, player_kept p (G p)) →
  Forall2 player_kept ps (alter F ti (alter G ai ps)).
Proof.
  intros HF HG. apply Forall2_same_length_lookup.
  split; [by rewrite !length_alter|].
  intros j p p' H1 H2. rewrite list_lookup_alter in H2.
  assert (∀ q, alter G ai ps !! j = Some q → player_kept p q) as HG'.
  { intros q Hq. rewrite list_lookup_alter in Hq. case_decide; subst.
    - rewrite H1 in Hq. injection Hq as <-. apply HG.
    - assert (p = q) as -> by congruence. apply player_kept_refl. }
  case_decide; subst.
  - apply fmap_Some in H2 as (q & Hq & ->).
    eapply player_kept_trans; [by apply HG'|apply HF].
  - by apply HG'.
Qed.

Lemma store_shots_kept tid sN p : player_kept p (store_shots tid sN p).
Proof. repeat split; try done. apply ships_kept_refl. Qed.

Ltac kept :=
  intros [];
  repeat match goal with
         | |- context [forallb ?f ?l] => destruct (forallb f l)
         end;
  unfold player_kept; rsimpl;
  split_and!; try done;
  first [ apply ships_kept_refl
        | apply ships_kept_alter; intros []; by repeat split
        | by intros ->
        | intros ->; by rewrite orb_true_r
        | apply sublist_delete
        | idtac ].

Lemma classic_finish_fields gs att ti ps2 acted e :
  let gs' := classic_finish gs att ti ps2 acted e in
  turn gs' = turn gs ∧ currentPlayerId gs' = currentPlayerId gs ∧
  gridDimensions gs' = gridDimensions gs ∧ gameMode gs' = gameMode gs ∧
  shipsConfig gs' = shipsConfig gs ∧ activeAction gs' = activeAction gs ∧
  radarScanResult gs' = radarScanResult gs ∧
  jammedArea gs' = jammedArea gs ∧ hitLog gs' = hitLog gs ∧
  log gs' = e :: log gs.
Proof. unfold classic_finish. cbv zeta. by case_bool_decide. Qed.

(** X7.  a shot moves no ship and touches no cooldown, use counter or jam.
    Every player keeps identity and ships; marks of damage, eliminations
    and unlocked escapes are only ever added, decoys only removed; the
    turn counter, the player at turn, the dimensions, the mode and the
    action in progress are unchanged. *)
Theorem processShot_keeps gs tid x y gs' :
  processShot gs tid x y = Some gs' →
  Forall2 player_kept (players gs) (players gs') ∧
  turn gs' = turn gs ∧ currentPlayerId gs' = currentPlayerId gs ∧
  gridDimensions gs' = gridDimensions gs ∧ gameMode gs' = gameMode gs ∧
  shipsConfig gs' = shipsConfig gs ∧ activeAction gs' = activeAction gs ∧
  radarScanResult gs' = radarScanResult gs ∧
  jammedArea gs' = jammedArea gs.
Proof.
  assert (Hrefl : Forall2 player_kept (players gs) (players gs)).
  { apply Forall2_same_length_lookup. split; [done|].
    intros i p p' H1 H2. assert (p = p') as -> by congruence.
    apply player_kept_refl. }
  unfold processShot. intros H.
  apply bind_Some in H as (ai & Hai & H).
  apply bind_Some in H as (attacker & Hatt & H).
  destruct (gameMode gs) eqn:Hmode.
  - (* classic *)
    unfold processShot_classic in H. cbv zeta in H.
    apply bind_Some in H as (ti & Hti & H).
    apply bind_Some in H as (target & Htg & H).
    apply bind_Some in H as (c & Hc & H).
    destruct (negb _) eqn:Hg; [by simplify_eq|].
    opt_inv H; simplify_eq;
      (split;
       [rewrite classic_finish_players, list_alter_alter_eq;
        apply players_kept_alter; [unfold compose; kept
                                  |apply store_shots_kept]
       |match goal with
        | |- context [classic_finish ?a ?b ?c ?d ?e ?f] =>
            destruct (classic_finish_fields a b c d e f)
              as (?&?&?&?&?&?&?&?&_)
        end; split_and!; congruence]).
  - (* tactical *)
    unfold processShot_tactical in H. cbv zeta in H.
    apply bind_Some in H as (c & Hc & H).
    destruct (negb _) eqn:Hg; [by simplify_eq|].
    opt_inv H; simplify_eq;
      try match goal with
          | |- context [if bool_decide ?P then _ else _] =>
              destruct (bool_decide P)
          end; rsimpl;
      (split; [apply players_kept_alter; [kept|apply store_shots_kept]
              |split_and!; first [reflexivity|exact Hmode]]).
Qed.

Lemma write_frame g x y v g' x' y' :
  cell_write g x y v = Some g' →
  cell_opt g' x' y' = cell_opt g x' y' ∨
  (x' = x ∧ y' = y ∧ cell_opt g' x' y' = Some v).
Proof.
  intros H. rewrite (cell_write_opt _ _ _ _ _ x' y' H).
  case_decide as Hd; [right|by left]. by destruct Hd.
Qed.

Lemma write_here g x y v g' :
  cell_write g x y v = Some g' → cell_opt g' x y = Some v.
Proof.
  intros H. rewrite (cell_write_opt _ _ _ _ _ x y H).
  by rewrite decide_True.
Qed.

Lemma sunk_frame g x y v g1 ps g2 x' y' :
  cell_write g x y v = Some g1 → cells_write g1 ps SUNK = Some g2 →
  mkPos x y ∈ ps →
  cell_opt g2 x' y' = cell_opt g x' y' ∨
  (mkPos x' y' ∈ ps ∧ cell_opt g2 x' y' = Some SUNK).
Proof.
  intros H1 H2 Hin. rewrite (cells_write_opt _ _ _ _ x' y' H2).
  destruct (existsb _ ps) eqn:E.
  - right. by apply existsb_pos_eqb in E.
  - left. rewrite (cell_write_opt _ _ _ _ _ x' y' H1).
    rewrite decide_False; [done|]. intros [-> ->].
    apply existsb_pos_eqb in Hin. congruence.
Qed.

Lemma sunk_here g ps g2 x y :
  cells_write g ps SUNK = Some g2 → mkPos x y ∈ ps →
  cell_opt g2 x y = Some SUNK.
Proof.
  intros H2 Hin. rewrite (cells_write_opt _ _ _ _ x y H2).
  apply existsb_pos_eqb in Hin. by rewrite Hin.
Qed.

Lemma if_same_proj {A} (f : GameState → A) (b : bool) g1 g2 :
  f g1 = f g2 → f (if b then g1 else g2) = f g2.
Proof. by destruct b. Qed.

Ltac mem := first [by left|by right; left|by right; right; left].

(** The cases of a shot that passes the guard, with what each of them
    writes. *)
Lemma processShot_effect gs tid x y gs' :
  processShot gs tid x y = Some gs' →
  gs' = gs ∨
  ∃ ai attacker ti target sN gN (F : Player → Player) r sunkName hitName,
    findPlayer (currentPlayerId gs) (players gs) = Some ai ∧
    players gs !! ai = Some attacker ∧
    findPlayer (Some tid) (players gs) = Some ti ∧
    players gs !! ti = Some target ∧
    players gs' = alter F ti (alter (store_shots tid sN) ai (players gs)) ∧
    (∀ p, player_id (F p) = player_id p ∧ shots (F p) = shots p ∧
          grid (F p) = gN) ∧
    log gs' = shot_log gs attacker target x y r sunkName hitName :: log gs ∧
    r ∈ [R_HIT; R_MISS; R_SUNK_SHIP] ∧
    cell_opt sN x y = Some (cell_of_result r) ∧
    (∀ x' y',
       cell_opt sN x' y'
       = cell_opt (shots_for attacker tid (gridDimensions gs)) x' y' ∨
       (x' = x ∧ y' = y) ∨
       (∃ s, s ∈ ships target ∧ mkPos x y ∈ positions s ∧
             mkPos x' y' ∈ positions s ∧ cell_opt sN x' y' = Some SUNK)) ∧
    (∀ x' y',
       cell_opt gN x' y' = cell_opt (grid target) x' y' ∨
       (x' = x ∧ y' = y ∧
        cell_opt gN x' y' ∈ [Some HIT; Some MISS; Some EMPTY]) ∨
       (∃ s, s ∈ ships target ∧ mkPos x y ∈ positions s ∧
             mkPos x' y' ∈ positions s ∧ cell_opt gN x' y' = Some SUNK)) ∧
    match gameMode gs with
    | TACTICAL =>
        (sinks_mothership target x y r ∧ phase gs' = GAME_OVER ∧
         hasActedThisTurn gs' = true ∧
         winner gs' = Some (player_id attacker) ∧
         ∀ p, isEliminated (F p) = true) ∨
        (¬ sinks_mothership target x y r ∧ phase gs' = phase gs ∧
         winner gs' = winner gs)
    | CLASSIC =>
        (game_decided gs' ∧ phase gs' = GAME_OVER ∧
         hasActedThisTurn gs' = true ∧
         winner gs' = player_id <$> head (activePlayers gs')) ∨
        (¬ game_decided gs' ∧ phase gs' = phase gs ∧
         winner gs' = winner gs)
    end.
Proof.
  unfold processShot. intros H.
  apply bind_Some in H as (ai & Hai & H).
  apply bind_Some in H as (attacker & Ha & H).
  destruct (gameMode gs) eqn:Hmode.
  - unfold processShot_classic in H. cbv zeta in H.
    apply bind_Some in H as (ti & Hti & H).
    apply bind_Some in H as (target & Ht & H).
    apply bind_Some in H as (c & Hc & H).
    destruct (negb _) eqn:Hg; [left; by simplify_eq|right].
    apply bind_Some in H as (tc & Htc & H).
    assert (Hover : ∀ ps2 acted e,
      let gs1 := classic_finish gs attacker ti ps2 acted e in
      (game_decided gs1 ∧ phase gs1 = GAME_OVER ∧
       hasActedThisTurn gs1 = true ∧
       winner gs1 = player_id <$> head (activePlayers gs1)) ∨
      (¬ game_decided gs1 ∧ phase gs1 = phase gs ∧ winner gs1 = winner gs)).
    { intros ps2 acted e gs1. subst gs1. unfold game_decided, activePlayers.
      rewrite classic_finish_players. unfold classic_finish. cbv zeta.
      match goal with
      | |- context [bool_decide ?P] =>
          destruct (bool_decide_reflect P) as [Hd|Hd]
      end; [left|right]; done. }
    destruct (is_hit_cell_classic tc) eqn:Hhit.
    + apply bind_Some in H as (s1 & Hs1 & H).
      apply bind_Some in H as (g1 & Hg1 & H).
      destruct (findIndex (ship_at x y) (ships target)) as [si|] eqn:Hsi.
      * destruct (ship_found _ _ _ _ Hsi) as (hs & Hhs & Hin).
        rewrite Hhs in H. cbn [mbind option_bind] in H.
        apply bind_Some in H as (sunk & Hev & H). destruct sunk.
        -- apply bind_Some in H as (g2 & Hg2 & H).
           apply bind_Some in H as (s2 & Hs2 & H). injection H as <-.
           match goal with
           | |- context [classic_finish ?a ?b ?c ?d ?e ?f] =>
               destruct (classic_finish_fields a b c d e f)
                 as (_&_&_&_&_&_&_&_&_&Hlog);
               pose proof (Hover d e f) as Hov
           end.
           eexists ai, attacker, ti, target, s2, g2, _, R_SUNK_SHIP, _, _.
           split_and!; [done|done|done|done
             |rewrite classic_finish_players, list_alter_alter_eq; reflexivity
             |intros p; unfold compose; cbn beta;
              match goal with
              | |- context [forallb ?f ?l] => by destruct (forallb f l)
              end
             |exact Hlog|mem
             |by eapply sunk_here
             |intros x' y';
              destruct (sunk_frame _ _ _ _ _ _ _ x' y' Hs1 Hs2 Hin)
                as [?|[? ?]]; [by left|right; right];
              exists hs; split_and!;
                [by eapply list_elem_of_lookup_2|done|done|done]
             |intros x' y';
              destruct (sunk_frame _ _ _ _ _ _ _ x' y' Hg1 Hg2 Hin)
                as [?|[? ?]]; [by left|right; right];
              exists hs; split_and!;
                [by eapply list_elem_of_lookup_2|done|done|done]
             |exact Hov].
        -- injection H as <-.
           match goal with
           | |- context [classic_finish ?a ?b ?c ?d ?e ?f] =>
               destruct (classic_finish_fields a b c d e f)
                 as (_&_&_&_&_&_&_&_&_&Hlog);
               pose proof (Hover d e f) as Hov
           end.
           eexists ai, attacker, ti, target, s1, g1, _, R_HIT, _, _.
           split_and!; [done|done|done|done
             |rewrite classic_finish_players, list_alter_alter_eq; reflexivity
             |intros p; unfold compose; cbn beta;
              match goal with
              | |- context [forallb ?f ?l] => by destruct (forallb f l)
              end
             |exact Hlog|mem
             |by eapply write_here
             |intros x' y';
              destruct (write_frame _ _ _ _ _ x' y' Hs1) as [?|(?&?&?)];
                [by left|right; by left]
             |intros x' y';
              destruct (write_frame _ _ _ _ _ x' y' Hg1) as [?|(?&?&->)];
                [by left|right; left; split_and!; [done|done|mem]]
             |exact Hov].
      * injection H as <-.
        match goal with
        | |- context [classic_finish ?a ?b ?c ?d ?e ?f] =>
            destruct (classic_finish_fields a b c d e f)
              as (_&_&_&_&_&_&_&_&_&Hlog);
            pose proof (Hover d e f) as Hov
        end.
        eexists ai, attacker, ti, target, s1, g1, _, R_HIT, _, _.
        split_and!; [done|done|done|done
          |rewrite classic_finish_players, list_alter_alter_eq; reflexivity
          |intros p; unfold compose; cbn beta;
           match goal with
           | |- context [forallb ?f ?l] => by destruct (forallb f l)
           end
          |exact Hlog|mem
          |by eapply write_here
          |intros x' y';
           destruct (write_frame _ _ _ _ _ x' y' Hs1) as [?|(?&?&?)];
             [by left|right; by left]
          |intros x' y';
           destruct (write_frame _ _ _ _ _ x' y' Hg1) as [?|(?&?&->)];
             [by left|right; left; split_and!; [done|done|mem]]
          |exact Hov].
    + apply bind_Some in H as (s1 & Hs1 & H).
      apply bind_Some in H as (g1 & Hg1 & H). injection H as <-.
      match goal with
      | |- context [classic_finish ?a ?b ?c ?d ?e ?f] =>
          destruct (classic_finish_fields a b c d e f)
            as (_&_&_&_&_&_&_&_&_&Hlog);
          pose proof (Hover d e f) as Hov
      end.
      eexists ai, attacker, ti, target, s1, g1, _, R_MISS, _, _.
      split_and!; [done|done|done|done
        |rewrite classic_finish_players, list_alter_alter_eq; reflexivity
        |intros p; unfold compose; cbn beta;
         match goal with
         | |- context [forallb ?f ?l] => by destruct (forallb f l)
         end
        |exact Hlog|mem
        |by eapply write_here
        |intros x' y';
         destruct (write_frame _ _ _ _ _ x' y' Hs1) as [?|(?&?&?)];
           [by left|right; by left]
        |intros x' y';
         destruct (write_frame _ _ _ _ _ x' y' Hg1) as [?|(?&?&->)];
           [by left|right; left; split_and!; [done|done|mem]]
        |exact Hov].
  - unfold processShot_tactical in H. cbv zeta in H.
    apply bind_Some in H as (c & Hc & H).
    destruct (negb _) eqn:Hg; [left; by simplify_eq|right].
    apply bind_Some in H as (ti & Hti & H).
    apply bind_Some in H as (target & Ht & H).
    destruct (findIndex (pos_eqb x y) (decoyPositions target))
      as [decoyIndex|] eqn:Hdec.
    + apply bind_Some in H as (s1 & Hs1 & H).
      apply bind_Some in H as (tc & Htc & H).
      apply bind_Some in H as (g1 & Hg1 & H). injection H as <-.
      eexists ai, attacker, ti, target, s1, g1, _, R_HIT, _, _.
      split_and!; [done|done|done|done|reflexivity|by intros []
        |reflexivity|mem
        |by eapply write_here
        |intros x' y';
         destruct (write_frame _ _ _ _ _ x' y' Hs1) as [?|(?&?&?)];
           [by left|right; by left]
        |intros x' y'; case_bool_decide;
           [destruct (write_frame _ _ _ _ _ x' y' Hg1) as [?|(?&?&->)];
              [by left|right; left; split_and!; [done|done|mem]]
           |left; by injection Hg1 as <-]
        |right; split_and!; [by intros [? _]|done|done]].
    + apply bind_Some in H as (tc & Htc & H).
      case_bool_decide as Hship.
      * apply bind_Some in H as (s1 & Hs1 & H).
        apply bind_Some in H as (si & Hsi & H).
        destruct (ship_found _ _ _ _ Hsi) as (hs & Hhs & Hin).
        rewrite Hhs in H. cbn [mbind option_bind] in H.
        apply bind_Some in H as (g1 & Hg1 & H).
        apply bind_Some in H as (sunk & Hev & H). destruct sunk.
        -- apply bind_Some in H as (g2 & Hg2 & H).
           apply bind_Some in H as (s2 & Hs2 & H). injection H as <-.
           eexists ai, attacker, ti, target, s2, g2, _, R_SUNK_SHIP, _, _.
           split_and!; [done|done|done|done
             |rewrite (if_same_proj players) by reflexivity; reflexivity
             |by intros []
             |rewrite (if_same_proj log) by reflexivity; reflexivity
             |mem
             |by eapply sunk_here
             |intros x' y';
              destruct (sunk_frame _ _ _ _ _ _ _ x' y' Hs1 Hs2 Hin)
                as [?|[? ?]]; [by left|right; right];
              exists hs; split_and!;
                [by eapply list_elem_of_lookup_2|done|done|done]
             |intros x' y';
              destruct (sunk_frame _ _ _ _ _ _ _ x' y' Hg1 Hg2 Hin)
                as [?|[? ?]]; [by left|right; right];
              exists hs; split_and!;
                [by eapply list_elem_of_lookup_2|done|done|done]
             |].
           assert (Hfound : hitShip_of target x y = Some hs).
           { unfold hitShip_of, find. rewrite Hsi. exact Hhs. }
           case_bool_decide as Hm; [left|right].
           ++ split_and!; [split; [done|by exists hs]|done|done|done
                          |by intros []].
           ++ split_and!; [|done|done].
              intros (_ & hs' & Hhs' & Hty). congruence.
        -- injection H as <-.
           eexists ai, attacker, ti, target, s1, g1, _, R_HIT, _, _.
           split_and!; [done|done|done|done|reflexivity|by intros []
             |reflexivity|mem
             |by eapply write_here
             |intros x' y';
              destruct (write_frame _ _ _ _ _ x' y' Hs1) as [?|(?&?&?)];
                [by left|right; by left]
             |intros x' y';
              destruct (write_frame _ _ _ _ _ x' y' Hg1) as [?|(?&?&->)];
                [by left|right; left; split_and!; [done|done|mem]]
             |right; split_and!; [by intros [? _]|done|done]].
      * apply bind_Some in H as (s1 & Hs1 & H).
        apply bind_Some in H as (g1 & Hg1 & H). injection H as <-.
        eexists ai, attacker, ti, target, s1, g1, _, R_MISS, _, _.
        split_and!; [done|done|done|done|reflexivity|by intros []
          |reflexivity|mem
          |by eapply write_here
          |intros x' y';
           destruct (write_frame _ _ _ _ _ x' y' Hs1) as [?|(?&?&?)];
             [by left|right; by left]
          |intros x' y'; case_bool_decide;
             [left; by injection Hg1 as <-
             |destruct (write_frame _ _ _ _ _ x' y' Hg1) as [?|(?&?&->)];
              [by left|right; left; split_and!; [done|done|mem]]]
          |right; split_and!; [by intros [? _]|done|done]].
Qed.

Lemma lookup_alter_store (F : Player → Player) (tid : string) (sN gN : Grid)
    (ai ti : nat) (ps : list Player) i p p' :
  (∀ q, player_id (F q) = player_id q ∧ shots (F q) = shots q ∧
        grid (F q) = gN) →
  ps !! i = Some p →
  alter F ti (alter (store_shots tid sN) ai ps) !! i = Some p' →
  grid p' = (if decide (ti = i) then gN else grid p) ∧
  shots p' = (if decide (ai = i) then <[tid := sN]> (shots p) else shots p).
Proof.
  intros HF Hp Hp'. rewrite list_lookup_alter in Hp'.
  assert (∀ q, alter (store_shots tid sN) ai ps !! i = Some q →
               grid q = grid p ∧
               shots q = (if decide (ai = i) then <[tid := sN]> (shots p)
                          else shots p)) as Hq.
  { intros q Hq. rewrite list_lookup_alter in Hq. case_decide; subst.
    - rewrite Hp in Hq. by injection Hq as <-.
    - by assert (q = p) as -> by congruence. }
  destruct (decide (ti = i)) as [->|Hne].
  - apply fmap_Some in Hp' as (q & Hq' & ->).
    destruct (HF q) as (_ & -> & ->). split; [done|]. by apply Hq.
  - by apply Hq.
Qed.

(** ** The shots behind a sunk ship *)

Lemma unshot_guard gs attacker tid x y c :
  cell_read (shots_for attacker tid (gridDimensions gs)) x y = Some c →
  unshot gs attacker tid x y ↔
  match gameMode gs with
  | CLASSIC => bool_decide (c = Some EMPTY)
  | TACTICAL => is_open_cell_tactical c
  end = true.
Proof.
  intros Hc. unfold unshot. cbv zeta. rewrite (cell_read_opt _ _ _ _ Hc).
  destruct (gameMode gs).
  - by rewrite bool_decide_eq_true.
  - unfold is_open_cell_tactical.
    by rewrite orb_true_iff, !bool_decide_eq_true.
Qed.

Lemma marks_one x y (live : Prop) g0 g1 s0 s1 v w :
  g1 = g0 ∨ (cell_write g0 x y v = Some g1 ∧ v ≠ SHIP) →
  (¬ live → cell_opt g1 x y ≠ Some SHIP) →
  cell_write s0 x y w = Some s1 →
  shot_marks x y live g0 g1 s0 s1.
Proof.
  intros Hg Hlive Hs. split_and!; [| |done|].
  - intros x' y' H0 H1. destruct Hg as [->|[Hg _]]; [done|].
    rewrite (cell_write_opt _ _ _ _ _ x' y' Hg) in H1.
    case_decide; [done|congruence].
  - intros x' y' H1. destruct Hg as [->|[Hg Hv]]; [done|].
    rewrite (cell_write_opt _ _ _ _ _ x' y' Hg) in H1.
    case_decide; [congruence|done].
  - intros x' y'. rewrite (cell_write_opt _ _ _ _ _ x' y' Hs).
    case_decide; [by right; left|by left].
Qed.

Lemma marks_sunk x y (live : Prop) g0 g1 g2 s0 s1 s2 ps w :
  cell_write g0 x y HIT = Some g1 →
  every_hit g1 ps = Some true →
  cells_write g1 ps SUNK = Some g2 →
  cell_write s0 x y w = Some s1 →
  cells_write s1 ps SUNK = Some s2 →
  shot_marks x y live g0 g2 s0 s2.
Proof.
  intros Hg1 Hev Hg2 Hs1 Hs2. split_and!.
  - intros x' y' H0 H2.
    destruct (decide (x' = x ∧ y' = y)) as [?|Hne]; [done|exfalso].
    rewrite (cells_write_opt _ _ _ _ x' y' Hg2) in H2.
    destruct (existsb _ ps) eqn:E.
    + apply existsb_pos_eqb in E.
      pose proof (every_hit_true _ _ Hev _ E) as Hh. simpl in Hh.
      rewrite (cell_write_opt _ _ _ _ _ x' y' Hg1), decide_False in Hh
        by done.
      congruence.
    + rewrite (cell_write_opt _ _ _ _ _ x' y' Hg1), decide_False in H2
        by done.
      done.
  - intros x' y' H2.
    rewrite (cells_write_opt _ _ _ _ x' y' Hg2) in H2.
    destruct (existsb _ ps); [done|].
    rewrite (cell_write_opt _ _ _ _ _ x' y' Hg1) in H2.
    case_decide; [done|done].
  - intros _. rewrite (cells_write_opt _ _ _ _ x y Hg2).
    destruct (existsb _ ps); [done|].
    rewrite (cell_write_opt _ _ _ _ _ x y Hg1), decide_True by done.
    done.
  - intros x' y'. rewrite (cells_write_opt _ _ _ _ x' y' Hs2).
    rewrite (cells_write_opt _ _ _ _ x' y' Hg2).
    destruct (existsb _ ps); [by right; right|].
    rewrite (cell_write_opt _ _ _ _ _ x' y' Hs1).
    case_decide; [by right; left|by left].
Qed.

Lemma findIndex_pos_eqb_Some x y (l : list Pos) i :
  findIndex (pos_eqb x y) l = Some i → mkPos x y ∈ l.
Proof.
  intros (q & Hq & Hb)%findIndex_Some.
  apply existsb_pos_eqb, existsb_exists. exists q. split; [|done].
  apply list_elem_of_In. by eapply list_elem_of_lookup_2.
Qed.

(** The cells a shot marks: the cases of a call of [processShot], by the
    guard. *)
Lemma processShot_marks gs tid x y gs' :
  processShot gs tid x y = Some gs' →
  ∃ ai attacker,
    findPlayer (currentPlayerId gs) (players gs) = Some ai ∧
    players gs !! ai = Some attacker ∧
    ((¬ unshot gs attacker tid x y ∧ gs' = gs) ∨
     (unshot gs attacker tid x y ∧
      ∃ ti target sN gN (F : Player → Player),
        findPlayer (Some tid) (players gs) = Some ti ∧
        players gs !! ti = Some target ∧
        players gs' = alter F ti (alter (store_shots tid sN) ai (players gs)) ∧
        (∀ p, player_id (F p) = player_id p ∧ shots (F p) = shots p ∧
              grid (F p) = gN) ∧
        shot_marks x y (live_decoy target x y) (grid target) gN
          (shots_for attacker tid (gridDimensions gs)) sN)).
Proof.
  unfold processShot. intros H.
  apply bind_Some in H as (ai & Hai & H).
  apply bind_Some in H as (attacker & Ha & H).
  exists ai, attacker. split; [done|]. split; [done|].
  destruct (gameMode gs) eqn:Hmode.
  - unfold processShot_classic in H. cbv zeta in H.
    apply bind_Some in H as (ti & Hti & H).
    apply bind_Some in H as (target & Ht & H).
    apply bind_Some in H as (c & Hc & H).
    pose proof (unshot_guard gs attacker tid x y c Hc) as Hun.
    rewrite Hmode in Hun.
    destruct (negb _) eqn:Hg.
    { left. split; [|by simplify_eq]. rewrite Hun.
      apply negb_true_iff in Hg. by rewrite Hg. }
    right. split; [apply Hun; by apply negb_false_iff in Hg|].
    apply bind_Some in H as (tc & Htc & H).
    destruct (is_hit_cell_classic tc) eqn:Hhit.
    + apply bind_Some in H as (s1 & Hs1 & H).
      apply bind_Some in H as (g1 & Hg1 & H).
      assert (Hone : shot_marks x y (live_decoy target x y) (grid target)
                       g1 (shots_for attacker tid (gridDimensions gs)) s1).
      { eapply marks_one; [right; by split| |done].
        intros _. by rewrite (cell_write_opt _ _ _ _ _ x y Hg1), decide_True. }
      destruct (findIndex (ship_at x y) (ships target)) as [si|] eqn:Hsi.
      * destruct (ship_found _ _ _ _ Hsi) as (hs & Hhs & Hin).
        rewrite Hhs in H. cbn [mbind option_bind] in H.
        apply bind_Some in H as (sunk & Hev & H). destruct sunk.
        -- apply bind_Some in H as (g2 & Hg2 & H).
           apply bind_Some in H as (s2 & Hs2 & H). injection H as <-.
           eexists ti, target, s2, g2, _.
           split_and!; [done|done
             |rewrite classic_finish_players, list_alter_alter_eq; reflexivity
             |intros p; unfold compose; cbn beta;
              match goal with
              | |- context [forallb ?f ?l] => by destruct (forallb f l)
              end
             |by eapply marks_sunk].
        -- injection H as <-.
           eexists ti, target, s1, g1, _.
           split_and!; [done|done
             |rewrite classic_finish_players, list_alter_alter_eq; reflexivity
             |intros p; unfold compose; cbn beta;
              match goal with
              | |- context [forallb ?f ?l] => by destruct (forallb f l)
              end
             |done].
      * injection H as <-.
        eexists ti, target, s1, g1, _.
        split_and!; [done|done
          |rewrite classic_finish_players, list_alter_alter_eq; reflexivity
          |intros p; unfold compose; cbn beta;
           match goal with
           | |- context [forallb ?f ?l] => by destruct (forallb f l)
           end
          |done].
    + apply bind_Some in H as (s1 & Hs1 & H).
      apply bind_Some in H as (g1 & Hg1 & H). injection H as <-.
      eexists ti, target, s1, g1, _.
      split_and!; [done|done
        |rewrite classic_finish_players, list_alter_alter_eq; reflexivity
        |intros p; unfold compose; cbn beta;
         match goal with
         | |- context [forallb ?f ?l] => by destruct (forallb f l)
         end
        |].
      eapply marks_one; [right; by split| |done].
      intros _. by rewrite (cell_write_opt _ _ _ _ _ x y Hg1), decide_True.
  - unfold processShot_tactical in H. cbv zeta in H.
    apply bind_Some in H as (c & Hc & H).
    pose proof (unshot_guard gs attacker tid x y c Hc) as Hun.
    rewrite Hmode in Hun.
    destruct (negb _) eqn:Hg.
    { left. split; [|by simplify_eq]. rewrite Hun.
      apply negb_true_iff in Hg. by rewrite Hg. }
    right. split; [apply Hun; by apply negb_false_iff in Hg|].
    apply bind_Some in H as (ti & Hti & H).
    apply bind_Some in H as (target & Ht & H).
    destruct (findIndex (pos_eqb x y) (decoyPositions target))
      as [decoyIndex|] eqn:Hdec.
    + apply bind_Some in H as (s1 & Hs1 & H).
      apply bind_Some in H as (tc & Htc & H).
      apply bind_Some in H as (g1 & Hg1 & H). injection H as <-.
      eexists ti, target, s1, g1, _.
      split_and!; [done|done|reflexivity|by intros []|].
      eapply (marks_one _ _ _ _ _ _ _ EMPTY); [| |done].
      * case_bool_decide; [right; by split|left; by injection Hg1 as <-].
      * intros Hlive. destruct Hlive.
        by eapply findIndex_pos_eqb_Some.
    + apply bind_Some in H as (tc & Htc & H).
      case_bool_decide as Hship.
      * apply bind_Some in H as (s1 & Hs1 & H).
        apply bind_Some in H as (si & Hsi & H).
        destruct (ship_found _ _ _ _ Hsi) as (hs & Hhs & Hin).
        rewrite Hhs in H. cbn [mbind option_bind] in H.
        apply bind_Some in H as (g1 & Hg1 & H).
        apply bind_Some in H as (sunk & Hev & H). destruct sunk.
        -- apply bind_Some in H as (g2 & Hg2 & H).
           apply bind_Some in H as (s2 & Hs2 & H). injection H as <-.
           eexists ti, target, s2, g2, _.
           split_and!; [done|done
             |rewrite (if_same_proj players) by reflexivity; reflexivity
             |by intros []
             |by eapply marks_sunk].
        -- injection H as <-.
           eexists ti, target, s1, g1, _.
           split_and!; [done|done|reflexivity|by intros []|].
           eapply marks_one; [right; by split| |done].
           intros _.
           by rewrite (cell_write_opt _ _ _ _ _ x y Hg1), decide_True.
      * apply bind_Some in H as (s1 & Hs1 & H).
        apply bind_Some in H as (g1 & Hg1 & H). injection H as <-.
        eexists ti, target, s1, g1, _.
        split_and!; [done|done|reflexivity|by intros []|].
        eapply (marks_one _ _ _ _ _ _ _ MISS); [| |done].
        -- case_bool_decide; [left; by injection Hg1 as <-|right; by split].
        -- intros _. case_bool_decide as Hd.
           ++ injection Hg1 as <-. rewrite (cell_read_opt _ _ _ _ Htc).
              by subst tc.
           ++ by rewrite (cell_write_opt _ _ _ _ _ x y Hg1), decide_True.
Qed.

Lemma processShot_players_kept gs tid x y gs' :
  processShot gs tid x y = Some gs' →
  Forall2 player_kept (players gs) (players gs').
Proof.
  assert (Hrefl : Forall2 player_kept (players gs) (players gs)).
  { apply Forall2_same_length_lookup. split; [done|].
    intros i p p' H1 H2. assert (p = p') as -> by congruence.
    apply player_kept_refl. }
  unfold processShot. intros H.
  apply bind_Some in H as (ai & Hai & H).
  apply bind_Some in H as (attacker & Hatt & H).
  destruct (gameMode gs) eqn:Hmode.
  - unfold processShot_classic in H. cbv zeta in H.
    apply bind_Some in H as (ti & Hti & H).
    apply bind_Some in H as (target & Htg & H).
    apply bind_Some in H as (c & Hc & H).
    destruct (negb _) eqn:Hg; [by simplify_eq|].
    opt_inv H; simplify_eq;
      rewrite classic_finish_players, list_alter_alter_eq;
      (apply players_kept_alter; [unfold compose; kept
                                 |apply store_shots_kept]).
  - unfold processShot_tactical in H. cbv zeta in H.
    apply bind_Some in H as (c & Hc & H).
    destruct (negb _) eqn:Hg; [by simplify_eq|].
    opt_inv H; simplify_eq;
      try match goal with
          | |- context [if bool_decide ?P then _ else _] =>
              destruct (bool_decide P)
          end; rsimpl;
      (apply players_kept_alter; [kept|apply store_shots_kept]).
Qed.

Lemma kept_ship p p' s' :
  player_kept p p' → s' ∈ ships p' →
  ∃ s, s ∈ ships p ∧ positions s' = positions s.
Proof.
  intros (_&_&_&_&_&_&_&_&_&Hs&_) Hin.
  apply list_elem_of_lookup in Hin as (j & Hj).
  destruct (Forall2_lookup_r _ _ _ _ _ Hs Hj) as (s & Hs0 & Hk).
  exists s. split; [by eapply list_elem_of_lookup_2|].
  by destruct Hk as (_&_&_&?&_).
Qed.

Lemma kept_decoy p p' x y :
  player_kept p p' → live_decoy p' x y → live_decoy p x y.
Proof.
  intros (_&_&_&_&_&_&_&_&_&_&_&_&Hd). unfold live_decoy.
  intros Hin. by eapply elem_of_sublist.
Qed.

Lemma kept_ids ps ps' :
  Forall2 player_kept ps ps' → player_id <$> ps' = player_id <$> ps.
Proof.
  induction 1 as [|p p' ps ps' Hk _ IH]; [done|].
  rewrite !fmap_cons, IH. by destruct Hk as (-> & _).
Qed.

Lemma same_id_same_index (ps : list Player) i j p q :
  NoDup (player_id <$> ps) → ps !! i = Some p → ps !! j = Some q →
  player_id p = player_id q → i = j.
Proof.
  intros Hnd Hp Hq Hid. eapply NoDup_lookup; [exact Hnd| |].
  - by rewrite list_lookup_fmap, Hp.
  - by rewrite list_lookup_fmap, Hq, Hid.
Qed.

(** One shot more, and every ship cell that stopped reading [SHIP] is
    still accounted for. *)
Lemma processShot_told l gs tid x y gs' :
  shots_told l gs → processShot gs tid x y = Some gs' →
  shots_told (l ++ [(tid, (x, y))]) gs'.
Proof.
  intros Hinv H i p' s' q Hp' Hs' Hq Hr. unfold fired_at.
  pose proof (processShot_players_kept _ _ _ _ _ H) as Hk.
  destruct (Forall2_lookup_r _ _ _ _ _ Hk Hp') as (p & Hp & Hkp).
  destruct (kept_ship _ _ _ Hkp Hs') as (s & Hs & Hpos).
  rewrite Hpos in Hq.
  assert (Hid : player_id p' = player_id p) by (by destruct Hkp as (-> & _)).
  rewrite Hid.
  destruct (decide (cell_opt (grid p) (px q) (py q) = Some SHIP))
    as [Hr0|Hr0].
  2:{ apply elem_of_app. left. by apply (Hinv i p s q). }
  apply elem_of_app. right. apply list_elem_of_singleton.
  destruct (processShot_marks _ _ _ _ _ H)
    as (ai & attacker & Hai & Ha & [[_ ->]|(_ & ti & target & sN & gN & F
         & Hti & Ht & Hps & HF & HA & _)]).
  { assert (p' = p) as -> by congruence. done. }
  rewrite Hps in Hp'.
  destruct (lookup_alter_store _ _ _ _ _ _ _ _ _ _ HF Hp Hp') as [Hg _].
  case_decide as Hd; [subst i|unfold reads in *; congruence].
  assert (p = target) as -> by congruence.
  destruct (findPlayer_Some _ _ _ Hti) as (t0 & Ht0 & Htid).
  assert (t0 = target) as -> by congruence. injection Htid as ->.
  unfold reads in *. rewrite Hg in Hr.
  destruct (HA _ _ Hr0 Hr) as [-> ->]. done.
Qed.

Lemma processShots_told l0 gs l gs' :
  shots_told l0 gs → processShots gs l = Some gs' →
  shots_told (l0 ++ l) gs'.
Proof.
  revert l0 gs. induction l as [|[tid [x y]] l IH]; intros l0 gs Hinv H;
    simpl in H.
  - simplify_eq. by rewrite app_nil_r.
  - apply bind_Some in H as (gs1 & H1 & H).
    replace (l0 ++ (tid, (x, y)) :: l) with ((l0 ++ [(tid, (x, y))]) ++ l)
      by (by rewrite <- app_assoc).
    eapply IH; [|done]. by eapply processShot_told.
Qed.

Lemma processShot_same_frame gs tid x y gs' :
  processShot gs tid x y = Some gs' →
  currentPlayerId gs' = currentPlayerId gs ∧ gameMode gs' = gameMode gs ∧
  gridDimensions gs' = gridDimensions gs.
Proof.
  intros H. destruct (processShot_fired _ _ _ _ _ H)
    as [->|(ai & ti & sN & F & _ & _ & _ & _ & _ & ? & ? & ?)]; done.
Qed.

Lemma unshot_frame gs gs' a a' tid x y :
  gameMode gs' = gameMode gs → gridDimensions gs' = gridDimensions gs →
  cell_opt (shots_for a' tid (gridDimensions gs)) x y
  = cell_opt (shots_for a tid (gridDimensions gs)) x y →
  unshot gs a tid x y → unshot gs' a' tid x y.
Proof. unfold unshot. cbv zeta. by intros -> -> ->. Qed.

(** One shot more, and every ship cell shot at has stopped reading
    [SHIP], while every ship cell that still reads [SHIP] is open. *)
Lemma processShot_landed l gs tid x y gs' :
  shots_landed l gs → processShot gs tid x y = Some gs' →
  shots_landed (l ++ [(tid, (x, y))]) gs'.
Proof.
  intros [Hnd Hinv] H.
  pose proof (processShot_players_kept _ _ _ _ _ H) as Hk.
  split; [by rewrite (kept_ids _ _ Hk)|].
  intros i p' s' q Hp' Hs' Hq.
  destruct (Forall2_lookup_r _ _ _ _ _ Hk Hp') as (p & Hp & Hkp).
  destruct (kept_ship _ _ _ Hkp Hs') as (s & Hs & Hpos).
  rewrite Hpos in Hq.
  assert (Hid : player_id p' = player_id p) by (by destruct Hkp as (-> & _)).
  destruct (Hinv i p s q Hp Hs Hq) as (HD & HR & HB).
  unfold fired_at in *. rewrite Hid. unfold reads in *.
  destruct (processShot_same_frame _ _ _ _ _ H) as (Hcur & Hmode & Hdim).
  destruct (processShot_marks _ _ _ _ _ H)
    as (ai & attacker & Hai & Ha & [[Hnun ->]|(Hun & ti & target & sN & gN
         & F & Hti & Ht & Hps & HF & HA & HN & HBs & HS)]).
  { assert (p' = p) as -> by congruence.
    split_and!; [done|done|].
    intros [Hin|Hin%list_elem_of_singleton]%elem_of_app; [by apply HB|].
    injection Hin as Hi Hx Hy. intros Hr. apply Hnun.
    rewrite <- Hi, <- Hx, <- Hy. by apply (HR Hr ai attacker). }
  destruct (findPlayer_Some _ _ _ Hti) as (t0 & Ht0 & Htid).
  assert (t0 = target) as -> by congruence. injection Htid as Htid.
  pose proof Hp' as Hp''. rewrite Hps in Hp''.
  destruct (lookup_alter_store _ _ _ _ _ _ _ _ _ _ HF Hp Hp'') as [Hg _].
  assert (Hsame : player_id p = tid → i = ti ∧ p = target ∧ grid p' = gN).
  { intros Hpt.
    assert (i = ti) as -> by (eapply same_id_same_index; [done..|congruence]).
    rewrite decide_True in Hg by done. split_and!; [done|congruence|done]. }
  assert (Hold : cell_opt (grid p') (px q) (py q) = Some SHIP →
                 cell_opt (grid p) (px q) (py q) = Some SHIP).
  { rewrite Hg. case_decide as Hd; [subst i|done].
    assert (p = target) as -> by congruence. apply HN. }
  split_and!.
  - intros Hl. apply HD. by eapply kept_decoy.
  - intros Hr ai' attacker' Hai' Ha'.
    rewrite Hcur, Hps, !findPlayer_alter in Hai';
      [|done|intros r; by destruct (HF r) as (?&?&?)].
    assert (ai' = ai) as -> by congruence.
    pose proof Ha' as Ha''. rewrite Hps in Ha''.
    destruct (lookup_alter_store _ _ _ _ _ _ _ _ _ _ HF Ha Ha'') as [_ Hsh].
    rewrite decide_True in Hsh by done.
    pose proof (HR (Hold Hr) ai attacker Hai Ha) as Hopen.
    eapply unshot_frame; [done|done| |exact Hopen].
    rewrite (shots_for_insert attacker tid _ sN _ attacker' Hsh).
    destruct (decide (player_id p = tid)) as [Hpt|Hpt]; [|done].
    destruct (Hsame Hpt) as (-> & -> & HgN). rewrite HgN in Hr.
    rewrite Hpt.
    destruct (HS (px q) (py q)) as [E|[[Hx Hy]|E]]; [done| |congruence].
    exfalso. rewrite Hx, Hy in Hr, HD. by apply HBs.
  - intros [Hin|Hin%list_elem_of_singleton]%elem_of_app.
    + intros Hr. by apply HB, Hold.
    + injection Hin as Hi Hx Hy.
      destruct (Hsame Hi) as (-> & -> & HgN). rewrite HgN, Hx, Hy.
      apply HBs. by rewrite <- Hx, <- Hy.
Qed.

Lemma processShots_landed l0 gs l gs' :
  shots_landed l0 gs → processShots gs l = Some gs' →
  shots_landed (l0 ++ l) gs'.
Proof.
  revert l0 gs. induction l as [|[tid [x y]] l IH]; intros l0 gs Hinv H;
    simpl in H.
  - simplify_eq. by rewrite app_nil_r.
  - apply bind_Some in H as (gs1 & H1 & H).
    replace (l0 ++ (tid, (x, y)) :: l) with ((l0 ++ [(tid, (x, y))]) ++ l)
      by (by rewrite <- app_assoc).
    eapply IH; [|done]. by eapply processShot_landed.
Qed.

Lemma fresh_told gs : fresh_state gs → shots_told [] gs.
Proof.
  intros Hf i p s q Hp Hs Hq Hr. exfalso. apply Hr.
  apply list_elem_of_lookup in Hs as (j & Hj).
  destruct (Hf i p Hp) as [Hall _]. destruct (Hall j s Hj) as [_ Hsh].
  by apply Hsh.
Qed.

Lemma open_landed gs : open_battle gs → shots_landed [] gs.
Proof.
  intros [Hnd Hopen]. split; [done|]. intros i p s q Hp Hs Hq.
  destruct (Hopen i p s q Hp Hs Hq) as [HD HU].
  split_and!; [done|by intros _|]. unfold fired_at. by intros ?%elem_of_nil.
Qed.

(** The invariant of the fleets after a sequence of shots. *)
Lemma processShots_ships_ok gs l gs' i p :
  fresh_state gs → processShots gs l = Some gs' →
  players gs' !! i = Some p →
  ∃ sg, ships_ok sg (grid p) (ships p).
Proof.
  intros Hfresh Hrun Hp. destruct l as [|[tid [x y]] l].
  - simpl in Hrun. simplify_eq. exists [].
    apply fresh_ships_ok. by eapply Hfresh.
  - pose proof (processShots_fleet_inv _ _ _ (fresh_fleet_inv _ Hfresh) Hrun)
      as Hinv.
    simpl in Hrun. apply bind_Some in Hrun as (gs1 & H1 & Hrun).
    destruct (processShots_has_current _ _ _
                (processShot_has_current _ _ _ _ _ H1) Hrun)
      as (ai & a & Hai & Ha).
    eexists. by eapply (Hinv ai a i p).
Qed.

(** C1 (amended).  Start from a state in which no ship is sunk, the
    positions of every ship read Ship on the owner's grid and ships do not
    overlap, and run any sequence [l] of [processShot] calls, in either
    mode.  For a placed ship [s] of a player [p] afterwards:
    - [isSunk] is set iff every position of the ship has been hit, that
      is, iff no position of it still reads Ship;
    - a position stops reading Ship only through a shot at it: it is the
      coordinate of a call of [l] that targets [p];
    - the positions of a sunk ship read Sunk, and the positions of a ship
      afloat read Ship or Hit, at least one of them Ship; so the positions
      of no placed ship all read Hit: the shot that hits the last position
      marks the ship sunk and rewrites its cells to Sunk within the same
      call;
    - when the battle starts open (distinct player ids, no decoy on a ship
      position, no confirmed result of the player at turn at a ship
      position), a position reads Ship exactly as long as no call of [l]
      has shot at it, and [isSunk] is set iff every position of the ship
      has been shot at. *)
Theorem processShots_sunk_iff gs l gs' i p j s :
  fresh_state gs →
  processShots gs l = Some gs' →
  players gs' !! i = Some p →
  ships p !! j = Some s →
  positions s ≠ [] →
  (isSunk s = true ↔ ∀ q, q ∈ positions s → ¬ reads (grid p) q SHIP) ∧
  (∀ q, q ∈ positions s → ¬ reads (grid p) q SHIP → fired_at l p q) ∧
  (isSunk s = true ↔ ∀ q, q ∈ positions s → reads (grid p) q SUNK) ∧
  (isSunk s = false →
   ∀ q, q ∈ positions s → reads (grid p) q SHIP ∨ reads (grid p) q HIT) ∧
  ¬ (∀ q, q ∈ positions s → reads (grid p) q HIT) ∧
  (open_battle gs →
   (∀ q, q ∈ positions s → (reads (grid p) q SHIP ↔ ¬ fired_at l p q)) ∧
   (isSunk s = true ↔ ∀ q, q ∈ positions s → fired_at l p q)).
Proof.
  intros Hfresh Hrun Hp Hs Hne.
  destruct (processShots_ships_ok _ _ _ _ _ Hfresh Hrun Hp) as (sg & Hok).
  destruct (ships_ok_sunk_iff _ _ _ _ _ Hok Hs Hne) as [Hsunk Hhit].
  pose proof (processShots_told [] _ _ _ (fresh_told _ Hfresh) Hrun) as Htold.
  rewrite app_nil_l in Htold.
  assert (Hin : s ∈ ships p) by (by eapply list_elem_of_lookup_2).
  assert (Hship : isSunk s = true ↔
                  ∀ q, q ∈ positions s → ¬ reads (grid p) q SHIP).
  { split.
    - intros Ht q Hq Hr. pose proof (proj1 Hsunk Ht q Hq) as Hr'.
      unfold reads in *. congruence.
    - intros Hall. destruct (isSunk s) eqn:E; [done|].
      destruct (ok_intact _ _ _ Hok j s Hs E Hne) as (q & Hq & Hr).
      by destruct (Hall q Hq). }
  split_and!; [done|by intros q Hq; apply (Htold i p s q)|done| |done|].
  - intros E q Hq. by eapply (ok_afloat _ _ _ Hok).
  - intros Hopen.
    pose proof (processShots_landed [] _ _ _ (open_landed _ Hopen) Hrun)
      as [_ Hl].
    rewrite app_nil_l in Hl.
    assert (Hcell : ∀ q, q ∈ positions s →
                         (reads (grid p) q SHIP ↔ ¬ fired_at l p q)).
    { intros q Hq. destruct (Hl i p s q Hp Hin Hq) as (_ & _ & HB).
      split; [by intros Hr Hsh; apply HB|].
      intros Hn. unfold reads.
      destruct (decide (cell_opt (grid p) (px q) (py q) = Some SHIP))
        as [|Hd]; [done|].
      destruct Hn. by apply (Htold i p s q). }
    split; [done|]. rewrite Hship. split.
    + intros Hall q Hq. by apply (Htold i p s q), Hall.
    + intros Hall q Hq Hr. apply (Hcell q Hq) in Hr. by apply Hr, Hall.
Qed.

Lemma duel_open : open_battle duel.
Proof.
  split.
  - let l := eval vm_compute in (player_id <$> players duel) in
    change (NoDup l).
    apply NoDup_cons. split; [|apply NoDup_singleton].
    by intros ?%list_elem_of_singleton.
  - intros i p s q Hp Hs Hq. index_cases i Hp.
    + elem_cases Hs. elem_cases Hq;
        (split; [unfold live_decoy; vm_compute; by intros ?%elem_of_nil|];
         intros ai attacker Hai Ha; vm_compute in Hai; simplify_eq;
         vm_compute in Ha; simplify_eq; run).
    + elem_cases Hs. elem_cases Hq;
        (split; [unfold live_decoy; vm_compute; by intros ?%elem_of_nil|];
         intros ai attacker Hai Ha; vm_compute in Hai; simplify_eq;
         vm_compute in Ha; simplify_eq; run).
Qed.

(** C1 (amended) on scenario A, after the two shots that sink Bob's ship:
    the battle starts fresh and open, no position of the ship reads Ship
    any more, both were shot at, and the ship is sunk. *)
Lemma processShots_sunk_iff_witness :
  let l := [("b"%string, (0, 0)); ("b"%string, (1, 0))] in
  fresh_state duel ∧ open_battle duel ∧
  ∃ gs' p s,
    processShots duel l = Some gs' ∧
    players gs' !! 1%nat = Some p ∧
    ships p !! 0%nat = Some s ∧
    positions s ≠ [] ∧
    (isSunk s = true ↔ ∀ q, q ∈ positions s → ¬ reads (grid p) q SHIP) ∧
    (∀ q, q ∈ positions s → ¬ reads (grid p) q SHIP → fired_at l p q) ∧
    (isSunk s = true ↔ ∀ q, q ∈ positions s → reads (grid p) q SUNK) ∧
    ¬ (∀ q, q ∈ positions s → reads (grid p) q HIT) ∧
    (∀ q, q ∈ positions s → (reads (grid p) q SHIP ↔ ¬ fired_at l p q)) ∧
    (isSunk s = true ↔ ∀ q, q ∈ positions s → fired_at l p q).
Proof.
  cbv zeta. split; [exact duel_fresh|]. split; [exact duel_open|].
  pose (p := the (players duel_sunk !! 1%nat)).
  pose (s := the (ships p !! 0%nat)).
  assert (Hp : players duel_sunk !! 1%nat = Some p) by run.
  assert (Hs : ships p !! 0%nat = Some s) by run.
  assert (Hpos : positions s ≠ []).
  { assert (positions s = [mkPos 0 0; mkPos 1 0]) as -> by run. done. }
  exists duel_sunk, p, s.
  split; [exact duel_shots|]. split; [exact Hp|]. split; [exact Hs|].
  split; [exact Hpos|].
  destruct (processShots_sunk_iff duel _ duel_sunk 1 p 0 s
              duel_fresh duel_shots Hp Hs Hpos)
    as (H1 & H2 & H3 & _ & H5 & H6).
  destruct (H6 duel_open) as [H7 H8].
  split_and!; assumption.
Defined.

(** X8.  a shot that passes the guard adds exactly one entry to the log: it
    names the attacker, the target, the coordinate and the turn, and its
    result is a hit, a miss or a sunk ship; the shot grid that the
    attacker keeps for the target then reads at the coordinate what the
    entry says.  A shot that does not pass the guard returns the state as
    it is. *)
Theorem processShot_logged gs tid x y gs' :
  processShot gs tid x y = Some gs' →
  gs' = gs ∨
  ∃ e ai attacker attacker',
    findPlayer (currentPlayerId gs) (players gs) = Some ai ∧
    players gs !! ai = Some attacker ∧
    players gs' !! ai = Some attacker' ∧
    log gs' = e :: log gs ∧
    log_turn e = turn gs ∧ log_playerId e = player_id attacker ∧
    log_targetId e = Some tid ∧ log_coords e = Some (mkPos x y) ∧
    log_result e ∈ [R_HIT; R_MISS; R_SUNK_SHIP] ∧
    cell_opt (shots_for attacker' tid (gridDimensions gs)) x y
    = Some (cell_of_result (log_result e)).
Proof.
  intros H. destruct (processShot_effect _ _ _ _ _ H)
    as [->|(ai & attacker & ti & target & sN & gN & F & r & sn & hn & Hai
            & Ha & Hti & Ht & Hps & HF & Hlog & Hr & Hcell & _)];
    [by left|right].
  destruct (lookup_lt_is_Some_2 (players gs') ai) as [a' Ha'].
  { rewrite Hps, !length_alter. by eapply lookup_lt_Some. }
  pose proof Ha' as Ha''. rewrite Hps in Ha''.
  destruct (lookup_alter_store _ _ _ _ _ _ _ _ _ _ HF Ha Ha'') as [_ Hsh].
  rewrite decide_True in Hsh by done.
  destruct (findPlayer_Some _ _ _ Hti) as (t0 & Ht0 & Htid).
  assert (t0 = target) as -> by congruence.
  exists (shot_log gs attacker target x y r sn hn), ai, attacker, a'.
  split_and!; try done.
  unfold shots_for. by rewrite Hsh, lookup_insert_eq.
Qed.

(** X9.  a shot changes the grid of the target only, and on it only the
    cell shot at or, when a ship sinks, the cells of that ship, which then
    read [SUNK].  A cell that a shot changes never reads [SHIP], [DECOY]
    or [RADAR_CONTACT] afterwards. *)
Theorem processShot_grid_frame gs tid x y gs' i p p' x' y' :
  processShot gs tid x y = Some gs' →
  players gs !! i = Some p → players gs' !! i = Some p' →
  cell_opt (grid p') x' y' ≠ cell_opt (grid p) x' y' →
  findPlayer (Some tid) (players gs) = Some i ∧
  cell_opt (grid p') x' y' ∈ [Some HIT; Some MISS; Some EMPTY; Some SUNK] ∧
  ((x' = x ∧ y' = y) ∨
   ∃ s, s ∈ ships p ∧ mkPos x y ∈ positions s ∧
        mkPos x' y' ∈ positions s ∧ cell_opt (grid p') x' y' = Some SUNK).
Proof.
  intros H Hp Hp' Hne. destruct (processShot_effect _ _ _ _ _ H)
    as [->|(ai & attacker & ti & target & sN & gN & F & r & sn & hn & Hai
            & Ha & Hti & Ht & Hps & HF & _ & _ & _ & _ & Hgrid & _)];
    [congruence|].
  rewrite Hps in Hp'.
  destruct (lookup_alter_store _ _ _ _ _ _ _ _ _ _ HF Hp Hp') as [Hg _].
  case_decide as Hd; [subst i|congruence].
  assert (p = target) as -> by congruence. rewrite Hg in *.
  split; [done|].
  destruct (Hgrid x' y') as [?|[(-> & -> & Hin)|(s & ? & ? & ? & Hs)]];
    [done| |].
  - split; [|by left]. revert Hin. generalize (cell_opt gN x y).
    intros c Hc. repeat (apply elem_of_cons in Hc as [->|Hc]; [mem|]).
    by apply elem_of_nil in Hc.
  - split; [rewrite Hs; by do 3 right; left|right]. by exists s.
Qed.

(** X10.  a shot changes the shot grids of the player at turn only, and of
    these only the one kept for the target: there the cell shot at and,
    when a ship sinks, the cells of that ship, which then read [SUNK]. *)
Theorem processShot_shots_frame gs tid x y gs' i p p' k x' y' :
  let d := gridDimensions gs in
  processShot gs tid x y = Some gs' →
  players gs !! i = Some p → players gs' !! i = Some p' →
  cell_opt (shots_for p' k d) x' y' ≠ cell_opt (shots_for p k d) x' y' →
  findPlayer (currentPlayerId gs) (players gs) = Some i ∧ k = tid ∧
  ((x' = x ∧ y' = y) ∨
   ∃ ti target s,
     findPlayer (Some tid) (players gs) = Some ti ∧
     players gs !! ti = Some target ∧ s ∈ ships target ∧
     mkPos x y ∈ positions s ∧ mkPos x' y' ∈ positions s ∧
     cell_opt (shots_for p' k d) x' y' = Some SUNK).
Proof.
  intros d H Hp Hp' Hne. destruct (processShot_effect _ _ _ _ _ H)
    as [->|(ai & attacker & ti & target & sN & gN & F & r & sn & hn & Hai
            & Ha & Hti & Ht & Hps & HF & _ & _ & _ & Hshots & _)];
    [congruence|].
  rewrite Hps in Hp'.
  destruct (lookup_alter_store _ _ _ _ _ _ _ _ _ _ HF Hp Hp') as [_ Hs].
  case_decide as Hd; [subst i|unfold shots_for in Hne; congruence].
  assert (p = attacker) as -> by congruence.
  rewrite (shots_for_insert attacker tid k sN d p' Hs) in Hne |- *.
  case_decide as Hk; [subst k|done].
  split; [done|]. split; [done|].
  destruct (Hshots x' y') as [?|[?|(s & ? & ? & ? & ?)]]; [done|by left|].
  right. by exists ti, target, s.
Qed.

(** X11.  when a shot ends the game.  Under tactical rules a shot that passes
    the guard ends the game exactly when it sinks the Mothership of the
    target; the player at turn is then the winner and the target is
    eliminated.  Under classic rules it ends the game exactly when at
    most one player is left in the game afterwards, and that player, if
    any, is the winner.  In every other case the phase and the winner are
    as before. *)
Theorem processShot_game_over gs tid x y gs' :
  processShot gs tid x y = Some gs' →
  gs' = gs ∨
  ∃ e ti target target',
    log gs' = e :: log gs ∧
    findPlayer (Some tid) (players gs) = Some ti ∧
    players gs !! ti = Some target ∧
    players gs' !! ti = Some target' ∧
    match gameMode gs with
    | TACTICAL =>
        (sinks_mothership target x y (log_result e) ∧
         phase gs' = GAME_OVER ∧ hasActedThisTurn gs' = true ∧
         winner gs' = currentPlayerId gs ∧ isEliminated target' = true) ∨
        (¬ sinks_mothership target x y (log_result e) ∧
         phase gs' = phase gs ∧ winner gs' = winner gs)
    | CLASSIC =>
        (game_decided gs' ∧ phase gs' = GAME_OVER ∧
         hasActedThisTurn gs' = true ∧
         winner gs' = player_id <$> head (activePlayers gs')) ∨
        (¬ game_decided gs' ∧ phase gs' = phase gs ∧
         winner gs' = winner gs)
    end.
Proof.
  intros H. destruct (processShot_effect _ _ _ _ _ H)
    as [->|(ai & attacker & ti & target & sN & gN & F & r & sn & hn & Hai
            & Ha & Hti & Ht & Hps & HF & Hlog & _ & _ & _ & _ & Hover)];
    [by left|right].
  destruct (lookup_lt_is_Some_2 (players gs') ti) as [t' Ht'].
  { rewrite Hps, !length_alter. by eapply lookup_lt_Some. }
  exists (shot_log gs attacker target x y r sn hn), ti, target, t'.
  split_and!; try done.
  destruct (gameMode gs); [done|].
  destruct Hover as [(? & ? & ? & Hw & Hel)|?]; [left|by right].
  split_and!; try done.
  - destruct (findPlayer_Some _ _ _ Hai) as (a0 & Ha0 & Hcur).
    assert (a0 = attacker) as -> by congruence. by rewrite Hw, Hcur.
  - rewrite Hps, list_lookup_alter_eq in Ht'.
    apply fmap_Some in Ht' as (q & _ & ->). apply Hel.
Qed.

(** ** What the skills do *)

Lemma length_hide_cell aid x y l l' :
  hide_cell aid x y l = Some l' → length l' = length l.
Proof.
  revert l'. induction l as [|q l IH]; intros l' H; simpl in H;
    [by simplify_eq|].
  apply bind_Some in H as (q' & _ & H).
  apply bind_Some in H as (rest & Hrest & H). simplify_eq. simpl.
  f_equal. by apply IH.
Qed.

(** X12.  a skill invocation that succeeds costs the player the action of the
    turn: [hasActedThisTurn] is set, the action in progress is cleared, no
    message is shown, and exactly one entry is added to the log, a
    [SKILL_USED] entry of the player at turn, dated to the current turn
    and without target or coordinates.  The turn counter, the player at
    turn, the phase, the winner, the damage log and the number of players
    are unchanged. *)
Theorem useSkill_success gs skillType opts isAI rnd r :
  useSkill skillType opts isAI rnd gs = Some r →
  success r = true →
  ∃ ai attacker e,
    findPlayer (currentPlayerId gs) (players gs) = Some ai ∧
    players gs !! ai = Some attacker ∧
    log (newState r) = e :: log gs ∧
    log_result e = R_SKILL_USED ∧ log_turn e = turn gs ∧
    log_playerId e = player_id attacker ∧
    log_targetId e = None ∧ log_coords e = None ∧
    hasActedThisTurn (newState r) = true ∧
    activeAction (newState r) = None ∧
    toast r = None ∧
    turn (newState r) = turn gs ∧
    currentPlayerId (newState r) = currentPlayerId gs ∧
    phase (newState r) = phase gs ∧ winner (newState r) = winner gs ∧
    hitLog (newState r) = hitLog gs ∧
    gridDimensions (newState r) = gridDimensions gs ∧
    gameMode (newState r) = gameMode gs ∧
    length (players (newState r)) = length (players gs).
Proof.
  intros H Hok. unfold useSkill in H.
  apply bind_Some in H as (ai & Hai & H).
  apply bind_Some in H as (attacker & Ha & H).
  exists ai, attacker.
  match goal with
  | |- ?G =>
      assert (Hdone : ∀ gs1 msg,
                r = skill_done gs1 (skill_log gs attacker msg) →
                log gs1 = log gs ∧ turn gs1 = turn gs ∧
                currentPlayerId gs1 = currentPlayerId gs ∧
                phase gs1 = phase gs ∧ winner gs1 = winner gs ∧
                hitLog gs1 = hitLog gs ∧
                gridDimensions gs1 = gridDimensions gs ∧
                gameMode gs1 = gameMode gs ∧
                length (players gs1) = length (players gs) →
                G)
  end.
  { intros gs1 msg -> (Hl & ? & ? & ? & ? & ? & ? & ? & ?).
    exists (skill_log gs attacker msg). rsimpl. cbn [newState skill_done].
    rsimpl. rewrite Hl. split_and!; done. }
  destruct (String.eqb skillType "Mothership") eqn:E1.
  { unfold skill_Mothership in H. cbv zeta in H.
    destruct isAI; opt_inv H; simplify_eq; try done;
      (eapply Hdone; [reflexivity|]; rsimpl; split_and!; try done;
       rewrite ?length_alter;
       try match goal with
           | E : (if ?b then _ else _) = Some ?a |- length ?a = _ =>
               destruct b; opt_inv E; simplify_eq
           end;
       unfold forget_for_opponents; by rewrite ?length_fmap). }
  destruct (String.eqb skillType "Radarship") eqn:E2.
  { unfold skill_Radarship in H. cbv zeta in H.
    opt_inv H; simplify_eq; try done;
      (eapply Hdone; [reflexivity|]; rsimpl; split_and!; try done;
       by rewrite ?length_alter). }
  destruct (String.eqb skillType "Jamship") eqn:E3.
  { unfold skill_Jamship in H. cbv zeta in H.
    opt_inv H; simplify_eq; try done;
      (eapply Hdone; [reflexivity|]; rsimpl; split_and!; try done;
       by rewrite ?length_alter). }
  destruct (String.eqb skillType "Repairship") eqn:E4.
  { unfold skill_Repairship in H. cbv zeta in H.
    opt_inv H; simplify_eq; try done;
      (eapply Hdone; [reflexivity|]; rsimpl; split_and!; try done).
    rewrite length_alter.
    match goal with
    | Hh : hide_cell _ _ _ _ = Some ?l' |- length ?l' = _ =>
        rewrite (length_hide_cell _ _ _ _ _ Hh)
    end. by rewrite length_alter. }
  destruct (String.eqb skillType "Decoyship") eqn:E5.
  { unfold skill_Decoyship in H. cbv zeta in H.
    opt_inv H; simplify_eq; try done;
      (eapply Hdone; [reflexivity|]; rsimpl; split_and!; try done;
       by rewrite ?length_alter). }
  destruct (String.eqb skillType "Commandship") eqn:E6.
  { unfold skill_Commandship in H. cbv zeta in H.
    destruct isAI; opt_inv H; simplify_eq; try done;
      (eapply Hdone; [reflexivity|]; rsimpl; split_and!; try done;
       by rewrite ?length_alter). }
  simplify_eq. by eapply Hdone.
Qed.

Lemma same_rows_refl g : same_rows g g.
Proof. unfold same_rows. induction g; by constructor. Qed.

Lemma same_rows_trans g1 g2 g3 :
  same_rows g1 g2 → same_rows g2 g3 → same_rows g1 g3.
Proof.
  unfold same_rows. intros H1 H2.
  eapply Forall2_trans; [|exact H1|exact H2]. intros ???. congruence.
Qed.

Lemma cell_write_rows g x y v g' :
  cell_write g x y v = Some g' → same_rows g g'.
Proof.
  unfold cell_write. intros H.
  apply bind_Some in H as (row & Hrow & H).
  apply bind_Some in H as (c & Hc & H). simplify_eq.
  apply zlookup_Some in Hrow as [_ Hrow].
  apply Forall2_same_length_lookup. split; [by rewrite length_insert|].
  intros i r r' Hr Hr'. destruct (decide (i = Z.to_nat y)) as [->|Hne].
  - rewrite list_lookup_insert_eq in Hr' by (by eapply lookup_lt_Some).
    injection Hr' as <-. rewrite length_insert. congruence.
  - rewrite list_lookup_insert_ne in Hr' by done. congruence.
Qed.

Lemma cells_write_rows g ps v g' :
  cells_write g ps v = Some g' → same_rows g g'.
Proof.
  revert g. induction ps as [|p ps IH]; intros g H; simpl in H.
  - injection H as <-. apply same_rows_refl.
  - apply bind_Some in H as (g1 & H1 & H).
    eapply same_rows_trans; [by eapply cell_write_rows|by apply IH].
Qed.

Lemma restore_cells_rows g l g' :
  restore_cells g l = Some g' → same_rows g g'.
Proof.
  revert g. induction l as [|c l IH]; intros g H; simpl in H.
  - injection H as <-. apply same_rows_refl.
  - apply bind_Some in H as (g1 & H1 & H).
    eapply same_rows_trans; [by eapply cell_write_rows|by apply IH].
Qed.

Lemma cell_opt_nat (g : Grid) (i j : nat) :
  cell_opt g (Z.of_nat j) (Z.of_nat i) = g !! i ≫= λ row, row !! j.
Proof.
  unfold cell_opt, zlookup. rewrite !Nat2Z.id.
  destruct (decide (0 <= Z.of_nat i)); [|lia].
  destruct (g !! i); simpl; [|done].
  destruct (decide (0 <= Z.of_nat j)); [done|lia].
Qed.

(** Two grids of the same rows that read the same everywhere are equal. *)
Lemma grid_ext g g' :
  same_rows g g' → (∀ x y, cell_opt g' x y = cell_opt g x y) → g' = g.
Proof.
  intros Hrows Hcells. apply list_eq_same_length with (length g).
  - done.
  - symmetry. by eapply Forall2_length.
  - intros i r' r Hlt Hr' Hr.
    pose proof (Forall2_lookup_lr _ _ _ _ _ _ Hrows Hr Hr') as Hlen.
    apply list_eq_same_length with (length r); [done|done|].
    intros j c' c _ Hc' Hc.
    specialize (Hcells (Z.of_nat j) (Z.of_nat i)).
    rewrite !cell_opt_nat, Hr, Hr' in Hcells. simpl in Hcells. congruence.
Qed.

Lemma cells_write_defined g ps v g' p :
  cells_write g ps v = Some g' → p ∈ ps →
  is_Some (cell_opt g (px p) (py p)).
Proof.
  revert g. induction ps as [|q ps IH]; intros g H Hp; simpl in H.
  - by apply elem_of_nil in Hp.
  - apply bind_Some in H as (g1 & H1 & H).
    apply elem_of_cons in Hp as [->|Hp]; [by eapply cell_write_Some_inv|].
    pose proof (IH _ H Hp) as Hs.
    rewrite (cell_write_opt _ _ _ _ _ _ _ H1) in Hs.
    case_decide as Hd; [|done]. destruct Hd as [-> ->].
    by eapply cell_write_Some_inv.
Qed.

Lemma save_cells_spec g ps saved :
  save_cells g ps = Some saved →
  saved_pos <$> saved = ps ∧
  ∀ c, c ∈ saved →
       sv_state c = default EMPTY (cell_opt g (sv_x c) (sv_y c)).
Proof.
  revert saved. induction ps as [|p ps IH]; intros saved H; simpl in H.
  - injection H as <-. split; [done|]. intros c Hc.
    by apply elem_of_nil in Hc.
  - apply bind_Some in H as (c0 & Hc0 & H).
    apply bind_Some in H as (rest & Hrest & H). injection H as <-.
    destruct (IH _ Hrest) as [Hpos Hst]. split.
    + rewrite fmap_cons, Hpos. unfold saved_pos. simpl. by destruct p.
    + intros c [->|Hc]%elem_of_cons; [|by apply Hst]. simpl.
      by rewrite (cell_read_opt _ _ _ _ Hc0).
Qed.

Lemma restore_cells_opt (f : Z → Z → CellState) g l g' x y :
  restore_cells g l = Some g' →
  (∀ c, c ∈ l → sv_state c = f (sv_x c) (sv_y c)) →
  cell_opt g' x y = if decide (mkPos x y ∈ saved_pos <$> l)
                    then Some (f x y) else cell_opt g x y.
Proof.
  revert g. induction l as [|c l IH]; intros g H Hf; simpl in H.
  - injection H as <-. rewrite decide_False; [done|]. apply not_elem_of_nil.
  - apply bind_Some in H as (g1 & H1 & H).
    rewrite (IH _ H) by (intros c' Hc'; apply Hf; by right).
    rewrite fmap_cons. case_decide as Hd.
    + rewrite decide_True; [done|]. by right.
    + rewrite (cell_write_opt _ _ _ _ _ _ _ H1). case_decide as Hd'.
      * destruct Hd' as [-> ->]. rewrite decide_True by (by left).
        f_equal. apply Hf. by left.
      * rewrite decide_False; [done|].
        intros [Heq|?]%elem_of_cons; [|done]. apply Hd'.
        unfold saved_pos in Heq. by injection Heq.
Qed.

(** Lifting a ship off the grid and putting it back gives the grid one
    started from. *)
Lemma lift_and_restore g ps saved g1 g' :
  save_cells g ps = Some saved →
  cells_write g ps EMPTY = Some g1 →
  restore_cells g1 saved = Some g' →
  g' = g.
Proof.
  intros Hsave Hlift Hrestore.
  destruct (save_cells_spec _ _ _ Hsave) as [Hpos Hst].
  apply grid_ext.
  - eapply same_rows_trans; [by eapply cells_write_rows|].
    by eapply restore_cells_rows.
  - intros x y.
    rewrite (restore_cells_opt
               (λ x y, default EMPTY (cell_opt g x y)) _ _ _ x y Hrestore Hst).
    rewrite Hpos. case_decide as Hd.
    + destruct (cells_write_defined _ _ _ _ _ Hlift Hd) as [v Hv].
      simpl in Hv. by rewrite Hv.
    + rewrite (cells_write_opt _ _ _ _ x y Hlift).
      destruct (existsb _ ps) eqn:E; [|done].
      by apply existsb_pos_eqb in E.
Qed.

Lemma findIndex_insert {A} (f : A → bool) (l : list A) i a b :
  l !! i = Some a → f b = f a → findIndex f (<[i := b]> l) = findIndex f l.
Proof.
  revert i. induction l as [|c l IH]; intros [|i] Hi Hf; simpl in *;
    try done.
  - injection Hi as ->. by rewrite Hf.
  - destruct (f c); [done|]. f_equal. by apply IH.
Qed.

Lemma ship_positions_back (s : Ship) ps :
  ps = positions s → ship_set_positions ps (ship_set_positions [] s) = s.
Proof. intros ->. by destruct s. Qed.

(** The player whose ship was lifted, with grid and positions restored. *)
Lemma player_restored (l : list Player) pi p g1 si s :
  l !! pi = Some p → ships p !! si = Some s →
  alter (λ q, p_set_grid (grid p)
                (p_set_ships
                   (alter (ship_set_positions (positions s)) si (ships q)) q))
        pi
        (alter (λ q, p_set_grid g1
                       (p_set_ships
                          (<[si := ship_set_positions [] s]> (ships q)) q))
               pi l)
  = l.
Proof.
  intros Hp Hs. rewrite list_alter_alter_eq.
  rewrite <- (list_alter_id id l pi) at 2 by done.
  apply list_alter_ext; [|done]. intros q Hq.
  assert (q = p) as -> by congruence. unfold compose. rsimpl.
  assert (alter (ship_set_positions (positions s)) si
            (<[si := ship_set_positions [] s]> (ships p)) = ships p) as ->.
  { rewrite list_insert_alter, list_alter_alter_eq.
    rewrite <- (list_alter_id id (ships p) si) at 2 by done.
    apply list_alter_ext; [|done]. intros s' Hs'.
    assert (s' = s) as -> by congruence. unfold compose.
    by apply ship_positions_back. }
  by destruct p.
Qed.

(** X13.  a rejected placement undoes the activation of the escape.  When
    the human player activates the Mothership escape and the placement
    chosen afterwards is refused, the state returned is the state before
    the activation, the action in progress apart: grid, ships and
    positions are exactly as they were. *)
Theorem escape_rejected_round_trip gs gs1 o rnd r :
  handleActivateMothershipEscape gs = Some gs1 →
  useSkill "Mothership" o false rnd gs1 = Some r →
  success r = false →
  newState r = g_set_activeAction None gs ∧
  toast r = Some "Invalid placement for escape maneuver."%string.
Proof.
  intros Hact Hskill Hfail. unfold handleActivateMothershipEscape in Hact.
  apply bind_Some in Hact as (pi & Hpi & Hact).
  apply bind_Some in Hact as (player & Hp & Hact).
  apply bind_Some in Hact as (mi & Hmi & Hact).
  apply bind_Some in Hact as (m & Hm & Hact).
  destruct (negb _ || _); [done|]. cbv zeta in Hact.
  apply bind_Some in Hact as (saved & Hsave & Hact).
  apply bind_Some in Hact as (g1 & Hlift & Hact). injection Hact as <-.
  unfold useSkill in Hskill. rsimpl.
  rewrite findPlayer_alter, Hpi in Hskill by done.
  cbn [mbind option_bind] in Hskill.
  rewrite list_lookup_alter_eq, Hp in Hskill.
  cbn [mbind option_bind fmap option_fmap option_map] in Hskill.
  change (String.eqb "Mothership" "Mothership") with true in Hskill.
  cbv iota in Hskill. unfold skill_Mothership in Hskill.
  cbv zeta in Hskill. rsimpl.
  cbn [mbind option_bind act_shipToMove act_originalPositions] in Hskill.
  apply bind_Some in Hskill as (ok & Hok & Hskill).
  rewrite (findIndex_insert _ _ _ m) in Hskill by done.
  rewrite Hmi in Hskill. cbn [mbind option_bind] in Hskill.
  rewrite list_lookup_insert_eq in Hskill by (by eapply lookup_lt_Some).
  cbn [mbind option_bind] in Hskill.
  destruct ok.
  { opt_inv Hskill; simplify_eq; done. }
  apply bind_Some in Hskill as (restored & Hres & Hskill).
  injection Hskill as <-.
  pose proof (lift_and_restore _ _ _ _ _ Hsave Hlift Hres) as ->.
  destruct (save_cells_spec _ _ _ Hsave) as [-> _].
  split; [|done]. unfold skill_fail. cbn [newState]. rsimpl.
  rewrite (player_restored _ _ _ _ _ _ Hp Hm). by destruct gs.
Qed.

(** X14.  a rejected placement undoes the selection of a ship to relocate.
    When the human player picks a ship for the Commandship and the
    placement chosen afterwards is refused, the state returned is the
    state before the ship was picked, the action in progress apart. *)
Theorem relocation_rejected_round_trip gs s gs1 o rnd r :
  handleSelectShipForRelocation gs s = Some gs1 →
  useSkill "Commandship" o false rnd gs1 = Some r →
  success r = false →
  newState r = g_set_activeAction None gs ∧
  toast r = Some "Invalid placement for relocation."%string.
Proof.
  intros Hact Hskill Hfail. unfold handleSelectShipForRelocation in Hact.
  apply bind_Some in Hact as (pi & Hpi & Hact).
  apply bind_Some in Hact as (player & Hp & Hact).
  apply bind_Some in Hact as (si & Hsi & Hact).
  apply bind_Some in Hact as (m & Hm & Hact).
  destruct (_ || _); [done|]. cbv zeta in Hact.
  apply bind_Some in Hact as (saved & Hsave & Hact).
  apply bind_Some in Hact as (g1 & Hlift & Hact). injection Hact as <-.
  destruct (findIndex_Some _ _ _ Hsi) as (m' & Hm' & Hname).
  assert (m' = m) as -> by congruence.
  apply bool_decide_eq_true in Hname.
  unfold useSkill in Hskill. rsimpl.
  rewrite findPlayer_alter, Hpi in Hskill by done.
  cbn [mbind option_bind] in Hskill.
  rewrite list_lookup_alter_eq, Hp in Hskill.
  cbn [mbind option_bind fmap option_fmap option_map] in Hskill.
  change (String.eqb "Commandship" "Mothership") with false in Hskill.
  change (String.eqb "Commandship" "Radarship") with false in Hskill.
  change (String.eqb "Commandship" "Jamship") with false in Hskill.
  change (String.eqb "Commandship" "Repairship") with false in Hskill.
  change (String.eqb "Commandship" "Decoyship") with false in Hskill.
  change (String.eqb "Commandship" "Commandship") with true in Hskill.
  cbv iota in Hskill. unfold skill_Commandship in Hskill.
  cbv zeta in Hskill. rsimpl.
  cbn [mbind option_bind act_shipToMove act_originalPositions] in Hskill.
  apply bind_Some in Hskill as (ok & Hok & Hskill).
  rewrite (findIndex_insert _ _ _ m) in Hskill by done.
  change (ship_name (ship_set_positions [] m)) with (ship_name m) in Hskill.
  rewrite Hname, Hsi in Hskill. cbn [mbind option_bind] in Hskill.
  rewrite list_lookup_insert_eq in Hskill by (by eapply lookup_lt_Some).
  cbn [mbind option_bind] in Hskill.
  destruct ok.
  { opt_inv Hskill; simplify_eq; done. }
  apply bind_Some in Hskill as (restored & Hres & Hskill).
  injection Hskill as <-.
  pose proof (lift_and_restore _ _ _ _ _ Hsave Hlift Hres) as ->.
  destruct (save_cells_spec _ _ _ Hsave) as [-> _].
  split; [|done]. unfold skill_fail. cbn [newState]. rsimpl.
  rewrite (player_restored _ _ _ _ _ _ Hp Hm). by destruct gs.
Qed.

Lemma all_placeable_true g d ps :
  all_placeable g d ps = Some true →
  ∀ p, p ∈ ps → in_bounds d p ∧ reads g p EMPTY.
Proof.
  induction ps as [|q ps IH]; simpl; intros H p Hp.
  - by apply elem_of_nil in Hp.
  - apply bind_Some in H as (b & Hb & H). destruct b; [|done].
    apply elem_of_cons in Hp as [->|Hp]; [|by apply IH].
    unfold placeable_cell in Hb. case_decide as Hd; [done|].
    apply bind_Some in Hb as (c & Hc & Hb). injection Hb as Hb.
    apply bool_decide_eq_true in Hb. subst c.
    split; [unfold in_bounds; lia|]. by apply cell_read_opt in Hc.
Qed.

(** X15.  an accepted relocation of the human player.  The ship picked for
    the Commandship lies afterwards on the footprint of the placement:
    cells inside the grid that were free once the ship was lifted, and
    that now read [SHIP].  The ship is marked as relocated, the
    Commandship cools down for 4 turns, and the same ship cannot be
    picked for relocation again. *)
Theorem relocation_accepted gs s gs1 o rnd r :
  handleSelectShipForRelocation gs s = Some gs1 →
  useSkill "Commandship" o false rnd gs1 = Some r →
  success r = true →
  ∃ pi player player' si s0 s',
    findPlayer (currentPlayerId gs) (players gs) = Some pi ∧
    players gs !! pi = Some player ∧
    players (newState r) !! pi = Some player' ∧
    findIndex (is_named (ship_name s)) (ships player) = Some si ∧
    ships player !! si = Some s0 ∧
    ships player' !! si = Some s' ∧
    positions s'
    = footprint (ship_length s0) (opt_x o) (opt_y o) (opt_isHorizontal o) ∧
    (∀ p, p ∈ positions s' →
          in_bounds (gridDimensions gs) p ∧ reads (grid player') p SHIP ∧
          (reads (grid player) p EMPTY ∨ p ∈ positions s0)) ∧
    hasBeenRelocated s' = true ∧
    skillCooldowns player' !! "Commandship"%string = Some 4 ∧
    handleSelectShipForRelocation (newState r) s = None.
Proof.
  intros Hact Hskill Hok. unfold handleSelectShipForRelocation in Hact.
  apply bind_Some in Hact as (pi & Hpi & Hact).
  apply bind_Some in Hact as (player & Hp & Hact).
  apply bind_Some in Hact as (si & Hsi & Hact).
  apply bind_Some in Hact as (m & Hm & Hact).
  destruct (_ || _); [done|]. cbv zeta in Hact.
  apply bind_Some in Hact as (saved & Hsave & Hact).
  apply bind_Some in Hact as (g1 & Hlift & Hact). injection Hact as <-.
  destruct (findIndex_Some _ _ _ Hsi) as (m' & Hm' & Hname).
  assert (m' = m) as -> by congruence.
  apply bool_decide_eq_true in Hname.
  pose proof (lookup_lt_Some _ _ _ Hm) as Hsilt.
  pose proof (lookup_lt_Some _ _ _ Hp) as Hpilt.
  unfold useSkill in Hskill. rsimpl.
  rewrite findPlayer_alter, Hpi in Hskill by done.
  cbn [mbind option_bind] in Hskill.
  rewrite list_lookup_alter_eq, Hp in Hskill.
  cbn [mbind option_bind fmap option_fmap option_map] in Hskill.
  change (String.eqb "Commandship" "Mothership") with false in Hskill.
  change (String.eqb "Commandship" "Radarship") with false in Hskill.
  change (String.eqb "Commandship" "Jamship") with false in Hskill.
  change (String.eqb "Commandship" "Repairship") with false in Hskill.
  change (String.eqb "Commandship" "Decoyship") with false in Hskill.
  change (String.eqb "Commandship" "Commandship") with true in Hskill.
  cbv iota in Hskill. unfold skill_Commandship in Hskill.
  cbv zeta in Hskill. rsimpl.
  cbn [mbind option_bind act_shipToMove act_originalPositions] in Hskill.
  apply bind_Some in Hskill as (ok & Hcan & Hskill).
  rewrite (findIndex_insert _ _ _ m) in Hskill by done.
  change (ship_name (ship_set_positions [] m)) with (ship_name m) in Hskill.
  rewrite Hname, Hsi in Hskill. cbn [mbind option_bind] in Hskill.
  rewrite list_lookup_insert_eq in Hskill by done.
  cbn [mbind option_bind] in Hskill.
  destruct ok; [|opt_inv Hskill; simplify_eq; done].
  apply bind_Some in Hskill as ([newGrid newShip] & Hplace & Hskill).
  injection Hskill as <-.
  unfold placeShip in Hplace. cbv zeta in Hplace. rsimpl.
  apply bind_Some in Hplace as (g2 & Hwrite & Hplace).
  injection Hplace as <- <-.
  unfold canPlaceShip in Hcan. rsimpl.
  pose proof (all_placeable_true _ _ _ Hcan) as Hfree.
  set (fp := footprint (ship_length m) (opt_x o) (opt_y o)
                       (opt_isHorizontal o)) in *.
  eexists pi, player, _, si, m, _.
  split_and!; [done|done| | done|done| | | | | |].
  - cbn [newState skill_done]. rsimpl.
    rewrite list_alter_alter_eq, list_lookup_alter_eq, Hp. reflexivity.
  - unfold compose, set_cooldown. rsimpl.
    by rewrite list_insert_insert_eq, list_lookup_insert_eq.
  - done.
  - unfold compose, set_cooldown. rsimpl. intros p Hpin.
    destruct (Hfree p Hpin) as [Hin Hempty]. split_and!; [done| |].
    + unfold reads. rewrite (cells_write_opt _ _ _ _ _ _ Hwrite).
      destruct p as [a b]. apply existsb_pos_eqb in Hpin. simpl.
      by rewrite Hpin.
    + unfold reads in *.
      rewrite (cells_write_opt _ _ _ _ _ _ Hlift) in Hempty.
      destruct (existsb _ (positions m)) eqn:E; [right|by left].
      apply existsb_pos_eqb in E. by destruct p.
  - done.
  - unfold compose, set_cooldown. rsimpl. by rewrite lookup_insert_eq.
  - unfold handleSelectShipForRelocation.
    cbn [newState skill_done]. rsimpl.
    rewrite list_alter_alter_eq, findPlayer_alter, Hpi by done.
    cbn [mbind option_bind].
    rewrite list_lookup_alter_eq, Hp.
    cbn [mbind option_bind fmap option_fmap option_map].
    unfold compose, set_cooldown. rsimpl.
    rewrite list_insert_insert_eq.
    rewrite (findIndex_insert _ _ _ m), Hsi by done.
    cbn [mbind option_bind].
    rewrite list_lookup_insert_eq by done.
    cbn [mbind option_bind]. rsimpl. by rewrite orb_true_r.
Qed.

(** A cell of the ship that exists in the grid reads [EMPTY] once the
    cells of the ship are cleared. *)
Lemma clear_cells_cleared g ps x y :
  mkPos x y ∈ ps → is_Some (cell_opt g x y) →
  cell_opt (clear_cells g ps) x y = Some EMPTY.
Proof.
  unfold clear_cells. revert g.
  induction ps as [|p ps IH]; intros g Hin Hs; simpl.
  - by apply elem_of_nil in Hin.
  - assert (Hkeep : ∀ ps' g', cell_opt g' x y = Some EMPTY →
              cell_opt (foldl (λ g0 q, clear_if_set g0 (px q) (py q)) g' ps')
                       x y = Some EMPTY).
    { induction ps' as [|q ps' IH']; intros g' Hg'; simpl; [done|].
      apply IH'. rewrite clear_if_set_opt. by case_decide. }
    destruct (decide (p = mkPos x y)) as [->|Hne].
    + apply Hkeep. rewrite clear_if_set_opt. simpl.
      by rewrite decide_True.
    + apply IH.
      * apply elem_of_cons in Hin as [?|?]; [congruence|done].
      * rewrite clear_if_set_opt. case_decide; [by eexists|done].
Qed.

(** X16.  an accepted escape of the human player.  The Mothership lies
    afterwards on the footprint of the placement, on cells inside the
    grid that now read [SHIP], and is no longer marked as damaged; the
    escape is used up, so that it cannot be activated again; and every
    opponent's record of shots at the cells the Mothership left reads
    [EMPTY] again. *)
Theorem escape_accepted gs gs1 o rnd r :
  handleActivateMothershipEscape gs = Some gs1 →
  useSkill "Mothership" o false rnd gs1 = Some r →
  success r = true →
  ∃ pi player player' mi m0 m',
    findPlayer (currentPlayerId gs) (players gs) = Some pi ∧
    players gs !! pi = Some player ∧
    players (newState r) !! pi = Some player' ∧
    findIndex (is_type "Mothership") (ships player) = Some mi ∧
    ships player !! mi = Some m0 ∧
    ships player' !! mi = Some m' ∧
    positions m'
    = footprint (ship_length m0) (opt_x o) (opt_y o) (opt_isHorizontal o) ∧
    (∀ p, p ∈ positions m' →
          in_bounds (gridDimensions gs) p ∧ reads (grid player') p SHIP) ∧
    isDamaged m' = false ∧
    skillUses player' !! "Mothership"%string = Some 0 ∧
    handleActivateMothershipEscape (newState r) = None ∧
    (∀ i q q' g p,
       players gs !! i = Some q → player_id q ≠ player_id player →
       players (newState r) !! i = Some q' →
       shots q !! player_id player = Some g →
       p ∈ positions m0 → is_Some (cell_opt g (px p) (py p)) →
       ∃ g', shots q' !! player_id player = Some g' ∧
             cell_opt g' (px p) (py p) = Some EMPTY).
Proof.
  intros Hact Hskill Hok. unfold handleActivateMothershipEscape in Hact.
  apply bind_Some in Hact as (pi & Hpi & Hact).
  apply bind_Some in Hact as (player & Hp & Hact).
  apply bind_Some in Hact as (mi & Hmi & Hact).
  apply bind_Some in Hact as (m & Hm & Hact).
  destruct (negb _ || _); [done|]. cbv zeta in Hact.
  apply bind_Some in Hact as (saved & Hsave & Hact).
  apply bind_Some in Hact as (g1 & Hlift & Hact). injection Hact as <-.
  pose proof (lookup_lt_Some _ _ _ Hm) as Hmilt.
  pose proof (lookup_lt_Some _ _ _ Hp) as Hpilt.
  destruct (save_cells_spec _ _ _ Hsave) as [Hpos _].
  unfold useSkill in Hskill. rsimpl.
  rewrite findPlayer_alter, Hpi in Hskill by done.
  cbn [mbind option_bind] in Hskill.
  rewrite list_lookup_alter_eq, Hp in Hskill.
  cbn [mbind option_bind fmap option_fmap option_map] in Hskill.
  change (String.eqb "Mothership" "Mothership") with true in Hskill.
  cbv iota in Hskill. unfold skill_Mothership in Hskill.
  cbv zeta in Hskill. rsimpl.
  cbn [mbind option_bind act_shipToMove act_originalPositions] in Hskill.
  apply bind_Some in Hskill as (ok & Hcan & Hskill).
  rewrite (findIndex_insert _ _ _ m) in Hskill by done.
  rewrite Hmi in Hskill. cbn [mbind option_bind] in Hskill.
  rewrite list_lookup_insert_eq in Hskill by done.
  cbn [mbind option_bind] in Hskill.
  destruct ok; [|opt_inv Hskill; simplify_eq; done].
  apply bind_Some in Hskill as (ps1 & Hps1 & Hskill).
  apply bind_Some in Hskill as ([newGrid newShip] & Hplace & Hskill).
  injection Hskill as <-.
  unfold placeShip in Hplace. cbv zeta in Hplace. rsimpl.
  apply bind_Some in Hplace as (g2 & Hwrite & Hplace).
  injection Hplace as <- <-.
  unfold canPlaceShip in Hcan. rsimpl.
  pose proof (all_placeable_true _ _ _ Hcan) as Hfree.
  set (fp := footprint (ship_length m) (opt_x o) (opt_y o)
                       (opt_isHorizontal o)) in *.
  set (lift := λ p : Player,
         p_set_grid g1
           (p_set_ships (<[mi := ship_set_positions [] m]> (ships p)) p)) in *.
  assert (Hps1' : ∀ i q, alter lift pi (players gs) !! i = Some q →
            ∃ q1, ps1 !! i = Some q1 ∧ player_id q1 = player_id q ∧
                  (player_id q = player_id player → q1 = q) ∧
                  (player_id q ≠ player_id player →
                   q1 = forget_cells (player_id player) (positions m) q)).
  { intros i q Hq. destruct (forallb _ _) eqn:Hall.
    - injection Hps1 as <-. exists q. split_and!; try done.
      intros Hne. rewrite forallb_forall in Hall.
      specialize (Hall q). rewrite bool_decide_eq_true in Hall.
      destruct Hne. apply Hall. apply list_elem_of_In.
      by eapply list_elem_of_lookup_2.
    - cbn [mbind option_bind] in Hps1. injection Hps1 as <-.
      unfold forget_for_opponents. rewrite list_lookup_fmap, Hq.
      cbn [fmap option_fmap option_map]. eexists. split; [done|].
      rewrite Hpos. case_bool_decide as Hb; split_and!; try done.
      unfold forget_cells. destruct (shots q !! _); done. }
  assert (Hpl : ∃ p1, ps1 !! pi = Some p1 ∧ lift player = p1).
  { destruct (Hps1' pi (lift player)) as (q1 & Hq1 & _ & Hsame & _);
      [by rewrite list_lookup_alter_eq, Hp|].
    exists q1. split; [done|]. symmetry. by apply Hsame. }
  destruct Hpl as (p1 & Hp1 & <-).
  eexists pi, player, _, mi, m, _.
  split_and!; [done|done| |done|done| | | | | | |].
  - cbn [newState skill_done]. rsimpl.
    rewrite list_lookup_alter_eq, Hp1. reflexivity.
  - unfold set_uses, lift. rsimpl.
    rewrite list_lookup_alter_eq, list_lookup_insert_eq by done. reflexivity.
  - done.
  - unfold set_uses, lift. rsimpl. intros p Hpin.
    destruct (Hfree p Hpin) as [Hin Hempty]. split; [done|].
    unfold reads. rewrite (cells_write_opt _ _ _ _ _ _ Hwrite).
    destruct p as [a b]. apply existsb_pos_eqb in Hpin. simpl.
    by rewrite Hpin.
  - done.
  - unfold set_uses, lift. rsimpl. by rewrite lookup_insert_eq.
  - unfold handleActivateMothershipEscape.
    cbn [newState skill_done]. rsimpl.
    assert (Hfind : findPlayer (currentPlayerId gs) ps1 = Some pi).
    { rewrite <- Hpi. destruct (forallb _ _) eqn:Hall.
      - injection Hps1 as <-. by apply findPlayer_alter.
      - cbn [mbind option_bind] in Hps1. injection Hps1 as <-.
        unfold forget_for_opponents.
        rewrite findPlayer_fmap; [by apply findPlayer_alter|].
        intros a. case_bool_decide; [done|]. unfold forget_cells.
        by destruct (shots a !! _). }
    rewrite findPlayer_alter, Hfind by done.
    cbn [mbind option_bind].
    rewrite list_lookup_alter_eq, Hp1.
    cbn [mbind option_bind fmap option_fmap option_map].
    unfold set_uses, lift. rsimpl.
    rewrite (findIndex_alter _ _ _ mi) by done.
    rewrite (findIndex_insert _ _ _ m), Hmi by done.
    cbn [mbind option_bind].
    rewrite list_lookup_alter_eq, list_lookup_insert_eq by done.
    cbn [mbind option_bind fmap option_fmap option_map].
    unfold uses_of. rsimpl. rewrite lookup_insert_eq. simpl.
    by rewrite orb_true_r.
  - intros i q q' g p Hq Hne Hq' Hg Hpin Hdef.
    assert (i ≠ pi) as Hi by (intros ->; congruence).
    cbn [newState skill_done] in Hq'. rsimpl.
    rewrite list_lookup_alter_ne in Hq' by done.
    destruct (Hps1' i q) as (q1 & Hq1 & _ & _ & Hforget);
      [by rewrite list_lookup_alter_ne|].
    rewrite Hforget in Hq1 by done.
    assert (q' = forget_cells (player_id player) (positions m) q) as ->
      by congruence.
    unfold forget_cells. rewrite Hg. rsimpl. rewrite lookup_insert_eq.
    eexists. split; [done|]. apply clear_cells_cleared; [|done].
    by destruct p.
Qed.

Lemma hide_cell_lookup aid x y l l' i q' :
  hide_cell aid x y l = Some l' → l' !! i = Some q' →
  ∃ q, l !! i = Some q ∧ grid q' = grid q ∧ ships q' = ships q ∧
       skillCooldowns q' = skillCooldowns q ∧
       ∀ g', shots q' !! aid = Some g' → cell_opt g' x y = Some EMPTY.
Proof.
  revert l' i. induction l as [|p l IH]; intros l' i H Hq'; simpl in H.
  - injection H as <-. by rewrite lookup_nil in Hq'.
  - apply bind_Some in H as (p' & Hp' & H).
    apply bind_Some in H as (rest & Hrest & H). injection H as <-.
    destruct i as [|i]; [|by eapply IH]. simpl in Hq'. injection Hq' as ->.
    exists p. split; [done|].
    destruct (shots p !! aid) as [g|] eqn:Hg.
    + apply bind_Some in Hp' as (g1 & Hg1 & Hp'). injection Hp' as <-.
      rsimpl. split_and!; try done. intros g'.
      rewrite lookup_insert_eq. intros [= <-].
      rewrite (cell_write_opt _ _ _ _ _ _ _ Hg1). by rewrite decide_True.
    + injection Hp' as <-. split_and!; try done. intros g'. by rewrite Hg.
Qed.

Lemma some_hit_spec g ps b :
  some_hit g ps = Some b →
  (b = true ↔ ∃ p, p ∈ ps ∧ reads g p HIT).
Proof.
  revert b. induction ps as [|q ps IH]; intros b H; simpl in H.
  - injection H as <-. split; [done|]. intros (p & Hp & _).
    by apply elem_of_nil in Hp.
  - apply bind_Some in H as (c & Hc & H). apply cell_read_opt in Hc.
    case_bool_decide as Hd.
    + injection H as <-. split; [|done]. intros _. exists q.
      split; [by left|]. unfold reads. congruence.
    + rewrite (IH _ H). split.
      * intros (p & Hp & Hr). exists p. split; [by right|done].
      * intros (p & [->|Hp]%elem_of_cons & Hr); [|by exists p].
        unfold reads in Hr. congruence.
Qed.

(** X17.  a repair that succeeds.  The cell reads [SHIP] again on the grid
    of the caster and no other cell of that grid changes; the ship at the
    cell is marked as repaired, and stays marked as damaged exactly when
    one of its positions still reads [HIT]; the Repairship cools down for
    3 turns; and in every player's record of shots at the caster the cell
    reads [EMPTY] again. *)
Theorem useSkill_Repairship_effect gs ai attacker x y h t isAI rnd r :
  findPlayer (currentPlayerId gs) (players gs) = Some ai →
  players gs !! ai = Some attacker →
  useSkill "Repairship" (mkOpts x y h t) isAI rnd gs = Some r →
  success r = true →
  ∃ attacker' si s s',
    players (newState r) !! ai = Some attacker' ∧
    cell_opt (grid attacker') x y = Some SHIP ∧
    (∀ x' y', ¬ (x' = x ∧ y' = y) →
              cell_opt (grid attacker') x' y'
              = cell_opt (grid attacker) x' y') ∧
    skillCooldowns attacker' !! "Repairship"%string = Some 3 ∧
    findIndex (ship_at x y) (ships attacker) = Some si ∧
    ships attacker !! si = Some s ∧
    ships attacker' !! si = Some s' ∧
    hasBeenRepaired s' = true ∧ positions s' = positions s ∧
    isSunk s' = isSunk s ∧
    (isDamaged s' = true ↔
     ∃ p, p ∈ positions s ∧ reads (grid attacker') p HIT) ∧
    (∀ i q' g, players (newState r) !! i = Some q' →
               shots q' !! player_id attacker = Some g →
               cell_opt g x y = Some EMPTY).
Proof.
  intros Hai Ha H Hok.
  rewrite (useSkill_Repairship_unfold _ _ _ _ _ _ Hai Ha) in H.
  unfold skill_Repairship in H. cbn [opt_x opt_y] in H. cbv zeta in H.
  destruct (from_option isSunk _ _); [by simplify_eq|].
  destruct (from_option hasBeenRepaired _ _); [by simplify_eq|].
  apply bind_Some in H as (c & Hc & H).
  destruct (negb _); [by simplify_eq|].
  case_bool_decide; [by simplify_eq|].
  apply bind_Some in H as (g1 & Hg1 & H).
  apply bind_Some in H as (ps1 & Hps1 & H).
  apply bind_Some in H as (si & Hsi & H).
  apply bind_Some in H as (s & Hs & H).
  rewrite Hsi in Hs. cbn [mbind option_bind] in Hs.
  apply bind_Some in H as (still & Hstill & H). injection H as <-.
  pose proof (lookup_lt_Some _ _ _ Ha) as Hailt.
  destruct (lookup_lt_is_Some_2 ps1 ai) as [a1 Ha1].
  { by rewrite (length_hide_cell _ _ _ _ _ Hps1), length_alter. }
  destruct (hide_cell_lookup _ _ _ _ _ _ _ Hps1 Ha1)
    as (a0 & Ha0 & Hg & Hss & Hcd & _).
  rewrite list_lookup_alter_eq, Ha in Ha0. injection Ha0 as <-.
  rsimpl.
  eexists _, si, s, _. cbn [newState skill_done]. rsimpl.
  split_and!.
  - rewrite list_lookup_alter_eq, Ha1. reflexivity.
  - unfold set_cooldown. rsimpl. rewrite Hg.
    rewrite (cell_write_opt _ _ _ _ _ _ _ Hg1). by rewrite decide_True.
  - intros x' y' Hne. unfold set_cooldown. rsimpl. rewrite Hg.
    rewrite (cell_write_opt _ _ _ _ _ _ _ Hg1). by rewrite decide_False.
  - unfold set_cooldown. rsimpl. by rewrite lookup_insert_eq.
  - done.
  - done.
  - unfold set_cooldown. rsimpl.
    rewrite Hss, list_lookup_alter_eq, Hs. reflexivity.
  - done.
  - done.
  - done.
  - unfold set_cooldown. rsimpl. rewrite Hg.
    apply (some_hit_spec _ _ _ Hstill).
  - intros i q' g Hq' Hshots.
    rewrite list_lookup_alter in Hq'. case_decide as Hd.
    + subst i. rewrite Ha1 in Hq'. injection Hq' as <-.
      unfold set_cooldown in Hshots. rsimpl.
      destruct (hide_cell_lookup _ _ _ _ _ _ _ Hps1 Ha1)
        as (_ & _ & _ & _ & _ & Hhid). by apply Hhid.
    + destruct (hide_cell_lookup _ _ _ _ _ _ _ Hps1 Hq')
        as (_ & _ & _ & _ & _ & Hhid). by apply Hhid.
Qed.

Lemma radar_scan_sound sg og d cs cells c :
  radar_scan (Some sg) (Some og) d cs = Some cells → c ∈ cells →
  mkPos (sc_x c) (sc_y c) ∈ cs ∧
  sc_x c < cols d ∧ sc_y c < rows d ∧
  cell_opt sg (sc_x c) (sc_y c) = Some EMPTY ∧
  sc_state c = radar_echo (cell_opt og (sc_x c) (sc_y c)).
Proof.
  revert cells. induction cs as [|p cs IH]; intros cells H Hc; simpl in H.
  - injection H as <-. by apply elem_of_nil in Hc.
  - assert (Hrest : ∀ cells', radar_scan (Some sg) (Some og) d cs
                              = Some cells' → c ∈ cells' →
              mkPos (sc_x c) (sc_y c) ∈ p :: cs ∧
              sc_x c < cols d ∧ sc_y c < rows d ∧
              cell_opt sg (sc_x c) (sc_y c) = Some EMPTY ∧
              sc_state c = radar_echo (cell_opt og (sc_x c) (sc_y c))).
    { intros cells' H' Hc'. destruct (IH _ H' Hc') as (? & ?).
      split; [by right|done]. }
    case_bool_decide as Hb; [|by eapply Hrest].
    cbn [mbind option_bind] in H.
    apply bind_Some in H as (seen & Hseen & H).
    case_bool_decide as Hs; [|by eapply Hrest]. subst seen.
    cbn [mbind option_bind] in H.
    apply bind_Some in H as (oc & Hoc & H).
    apply bind_Some in H as (rest & Hr & H). injection H as <-.
    apply elem_of_cons in Hc as [->|Hc]; [|by eapply Hrest].
    cbn [sc_x sc_y sc_state]. rewrite pos_eta.
    split_and!; [by left|lia|lia|by apply cell_read_opt in Hseen|].
    unfold radar_echo. by rewrite (cell_read_opt _ _ _ _ Hoc).
Qed.

Lemma radar_scan_complete sg og d cs cells p :
  radar_scan (Some sg) (Some og) d cs = Some cells → p ∈ cs →
  px p < cols d → py p < rows d →
  cell_opt sg (px p) (py p) = Some EMPTY →
  ∃ c, c ∈ cells ∧ sc_x c = px p ∧ sc_y c = py p.
Proof.
  intros H Hp Hx Hy He. revert cells H.
  induction cs as [|q cs IH]; intros cells H; simpl in H.
  - by apply elem_of_nil in Hp.
  - apply elem_of_cons in Hp as [<-|Hp].
    + rewrite bool_decide_eq_true_2 in H by done.
      cbn [mbind option_bind] in H.
      apply bind_Some in H as (seen & Hseen & H).
      apply cell_read_opt in Hseen. rewrite He in Hseen. subst seen.
      rewrite bool_decide_eq_true_2 in H by done.
      cbn [mbind option_bind] in H.
      apply bind_Some in H as (oc & Hoc & H).
      apply bind_Some in H as (rest & Hr & H). injection H as <-.
      eexists. split; [by left|done].
    + assert (Hrest : ∀ cells', radar_scan (Some sg) (Some og) d cs
                                = Some cells' →
                ∃ c, c ∈ cells' ∧ sc_x c = px p ∧ sc_y c = py p)
        by (intros; by apply IH).
      case_bool_decide as Hb; [|by apply Hrest].
      cbn [mbind option_bind] in H.
      apply bind_Some in H as (seen & Hseen & H).
      case_bool_decide as Hs; [|by apply Hrest].
      cbn [mbind option_bind] in H.
      apply bind_Some in H as (oc & Hoc & H).
      apply bind_Some in H as (rest & Hr & H). injection H as <-.
      destruct (Hrest _ Hr) as (c & Hc & ?). exists c.
      split; [by right|done].
Qed.

Lemma elem_of_scan_cells x y p :
  p ∈ scan_cells x y ↔ (x <= px p <= x + 1 ∧ y <= py p <= y + 1).
Proof.
  unfold scan_cells. cbn. destruct p as [a b]. simpl.
  rewrite !elem_of_cons, elem_of_nil. split.
  - intros [[= -> ->]|[[= -> ->]|[[= -> ->]|[[= -> ->]|[]]]]]; lia.
  - intros [Ha Hb].
    assert (a = x ∨ a = x + 1) as [->| ->] by lia;
      assert (b = y ∨ b = y + 1) as [->| ->] by lia;
      rewrite ?Z.add_0_r; auto.
Qed.

(** X18.  what a radar scan reports.  The report lists exactly the cells of
    the 2x2 block at the coordinate that lie below the bounds of the grid
    and that the caster has not shot at, each with a contact when the
    opponent's grid reads [SHIP] or [DECOY] there and with a miss
    otherwise.  The scan is stored for the caster and changes no grid and
    no record of shots. *)
Theorem radar_scan_report gs ai attacker oi opponent sg x y h t isAI rnd r :
  let d := gridDimensions gs in
  findPlayer (currentPlayerId gs) (players gs) = Some ai →
  players gs !! ai = Some attacker →
  findOpponent attacker (players gs) = Some oi →
  players gs !! oi = Some opponent →
  shots attacker !! player_id opponent = Some sg →
  useSkill "Radarship" (mkOpts x y h t) isAI rnd gs = Some r →
  ∃ cells,
    radarScanResult (newState r) = Some (player_id attacker, cells) ∧
    (∀ c, c ∈ cells →
          x <= sc_x c <= x + 1 ∧ y <= sc_y c <= y + 1 ∧
          sc_x c < cols d ∧ sc_y c < rows d ∧
          cell_opt sg (sc_x c) (sc_y c) = Some EMPTY ∧
          sc_state c
          = radar_echo (cell_opt (grid opponent) (sc_x c) (sc_y c))) ∧
    (∀ x' y', x <= x' <= x + 1 → y <= y' <= y + 1 →
              x' < cols d → y' < rows d →
              cell_opt sg x' y' = Some EMPTY →
              ∃ c, c ∈ cells ∧ sc_x c = x' ∧ sc_y c = y') ∧
    (∀ i q', players (newState r) !! i = Some q' →
             ∃ q, players gs !! i = Some q ∧
                  grid q' = grid q ∧ shots q' = shots q ∧
                  ships q' = ships q).
Proof.
  intros d Hai Ha Hoi Ho Hsg H. unfold useSkill in H.
  rewrite Hai in H. cbn [mbind option_bind] in H. rewrite Ha in H.
  cbn [mbind option_bind] in H.
  change (String.eqb "Radarship" "Mothership") with false in H.
  change (String.eqb "Radarship" "Radarship") with true in H.
  cbv iota in H. unfold skill_Radarship in H. cbv zeta in H.
  rewrite Hoi in H. cbn [mbind option_bind] in H. rewrite Ho in H.
  cbn [mbind option_bind fmap option_fmap option_map opt_x opt_y] in H.
  rewrite Hsg in H.
  apply bind_Some in H as (cells & Hscan & H). injection H as <-.
  exists cells. cbn [newState skill_done]. rsimpl. split_and!.
  - done.
  - intros c Hc.
    destruct (radar_scan_sound _ _ _ _ _ _ Hscan Hc)
      as (Hin%elem_of_scan_cells & ? & ? & ? & ?).
    simpl in Hin. split_and!; try done; lia.
  - intros x' y' Hx Hy Hxc Hyr He.
    destruct (radar_scan_complete _ _ _ _ _ (mkPos x' y') Hscan)
      as (c & ? & ? & ?); try done.
    + apply elem_of_scan_cells. simpl. lia.
    + by exists c.
  - intros i q' Hq'. rewrite list_lookup_alter in Hq'.
    case_decide as Hd; [subst i|by exists q'].
    rewrite Ha in Hq'. injection Hq' as <-. by exists attacker.
Qed.

(** X19.  A decoy is deployed on an empty cell of one's own grid, and
    nowhere else.  When the cell at the coordinate reads [EMPTY] the skill
    succeeds: the cell reads [DECOY], the coordinate is a live decoy of
    the caster, one use of the Decoyship is spent where the caster has a
    counter for it, and the ships and every other cell are unchanged.
    When the cell reads anything else the skill fails and the state is
    the input state with the action in progress cleared. *)
Theorem useSkill_Decoyship_effect gs ai attacker x y h t isAI rnd r :
  findPlayer (currentPlayerId gs) (players gs) = Some ai →
  players gs !! ai = Some attacker →
  useSkill "Decoyship" (mkOpts x y h t) isAI rnd gs = Some r →
  if decide (cell_opt (grid attacker) x y = Some EMPTY) then
    success r = true ∧
    ∃ attacker',
      players (newState r) !! ai = Some attacker' ∧
      cell_opt (grid attacker') x y = Some DECOY ∧
      (∀ x' y', ¬ (x' = x ∧ y' = y) →
                cell_opt (grid attacker') x' y'
                = cell_opt (grid attacker) x' y') ∧
      live_decoy attacker' x y ∧
      decoyPositions attacker' = decoyPositions attacker ++ [mkPos x y] ∧
      (∀ u, skillUses attacker !! "Decoyship"%string = Some u →
            skillUses attacker' !! "Decoyship"%string = Some (u - 1)) ∧
      (∀ k, k ≠ "Decoyship"%string →
            skillUses attacker' !! k = skillUses attacker !! k) ∧
      ships attacker' = ships attacker
  else
    success r = false ∧ newState r = g_set_activeAction None gs.
Proof.
  intros Hai Ha H. unfold useSkill in H.
  rewrite Hai in H. cbn [mbind option_bind] in H. rewrite Ha in H.
  cbn [mbind option_bind] in H.
  change (String.eqb "Decoyship" "Mothership") with false in H.
  change (String.eqb "Decoyship" "Radarship") with false in H.
  change (String.eqb "Decoyship" "Jamship") with false in H.
  change (String.eqb "Decoyship" "Repairship") with false in H.
  change (String.eqb "Decoyship" "Decoyship") with true in H.
  cbv iota in H. unfold skill_Decoyship in H. cbv zeta in H.
  cbn [opt_x opt_y] in H.
  apply bind_Some in H as (c & Hc & H). apply cell_read_opt in Hc.
  rewrite Hc. case_bool_decide as Hb.
  - subst c. rewrite decide_True by done.
    apply bind_Some in H as (g1 & Hg1 & H). injection H as <-.
    split; [done|]. cbn [newState skill_done]. rsimpl.
    eexists. rewrite list_lookup_alter_eq, Ha.
    split; [reflexivity|]. rsimpl. split_and!.
    + rewrite (cell_write_opt _ _ _ _ _ _ _ Hg1). by rewrite decide_True.
    + intros x' y' Hne.
      rewrite (cell_write_opt _ _ _ _ _ _ _ Hg1). by rewrite decide_False.
    + unfold live_decoy. rsimpl. apply elem_of_app. right. by left.
    + done.
    + intros u Hu. by rewrite lookup_alter_eq, Hu.
    + intros k Hk. by rewrite lookup_alter_ne.
    + done.
  - rewrite decide_False by done. by injection H as <-.
Qed.

(** X20.  a shot at a live decoy under tactical rules.  The attacker's
    record reads [HIT] at the cell and the log reports a hit on an
    unidentified contact, as for a ship; the target loses the decoy, its
    cell reads [EMPTY] again if it read [DECOY], its ships and every
    other cell are untouched, nothing is entered in the damage log, and
    the attacker keeps the turn. *)
Theorem processShot_decoy gs tid x y ai attacker ti target gs' :
  gameMode gs = TACTICAL →
  findPlayer (currentPlayerId gs) (players gs) = Some ai →
  players gs !! ai = Some attacker →
  findPlayer (Some tid) (players gs) = Some ti →
  players gs !! ti = Some target →
  unshot gs attacker tid x y →
  live_decoy target x y →
  processShot gs tid x y = Some gs' →
  ∃ e attacker' target' k,
    log gs' = e :: log gs ∧
    log_result e = R_HIT ∧
    log_hitShipName e = Some "unidentified contact"%string ∧
    log_sunkShipName e = None ∧
    players gs' !! ai = Some attacker' ∧
    cell_opt (shots_for attacker' tid (gridDimensions gs)) x y = Some HIT ∧
    players gs' !! ti = Some target' ∧
    ships target' = ships target ∧
    decoyPositions target !! k = Some (mkPos x y) ∧
    decoyPositions target' = delete k (decoyPositions target) ∧
    (cell_opt (grid target) x y = Some DECOY →
     cell_opt (grid target') x y = Some EMPTY) ∧
    (∀ x' y', ¬ (x' = x ∧ y' = y) →
              cell_opt (grid target') x' y' = cell_opt (grid target) x' y') ∧
    hitLog gs' = hitLog gs ∧
    hasActedThisTurn gs' = false.
Proof.
  intros Hmode Hai Ha Hti Ht Hun Hlive H. unfold processShot in H.
  rewrite Hai in H. cbn [mbind option_bind] in H. rewrite Ha in H.
  cbn [mbind option_bind] in H. rewrite Hmode in H.
  unfold processShot_tactical in H. cbv zeta in H.
  unfold unshot in Hun. rewrite Hmode in Hun. cbv zeta in Hun.
  apply bind_Some in H as (c & Hc & H).
  rewrite (cell_read_opt _ _ _ _ Hc) in Hun.
  assert (is_open_cell_tactical c = true) as Hopen.
  { unfold is_open_cell_tactical.
    destruct Hun as [->| ->]; [done|].
    rewrite (bool_decide_eq_true_2 (Some RADAR_CONTACT = Some RADAR_CONTACT))
      by done.
    apply orb_true_r. }
  rewrite Hopen in H. cbn [negb] in H.
  rewrite Hti in H. cbn [mbind option_bind] in H. rewrite Ht in H.
  cbn [mbind option_bind] in H.
  destruct (findIndex (pos_eqb x y) (decoyPositions target)) as [k|] eqn:Hk;
    [|by apply findIndex_pos_eqb_None in Hk].
  destruct (findIndex_Some _ _ _ Hk) as (q & Hq & Heq).
  assert (q = mkPos x y) as ->.
  { unfold pos_eqb in Heq. apply andb_true_iff in Heq as [H1 H2].
    apply bool_decide_eq_true in H1, H2. destruct q. simpl in *. congruence. }
  apply bind_Some in H as (s1 & Hs1 & H).
  apply bind_Some in H as (tc & Htc & H). apply cell_read_opt in Htc.
  apply bind_Some in H as (g1 & Hg1 & H). injection H as <-. rsimpl.
  pose proof (lookup_lt_Some _ _ _ Ha) as Hailt.
  pose proof (lookup_lt_Some _ _ _ Ht) as Htilt.
  set (F := λ p : Player,
         p_set_grid g1
           (p_set_decoyPositions (delete k (decoyPositions p)) p)).
  destruct (lookup_alter_alter_shots F tid s1 ai ti _ _
              (λ p, conj eq_refl eq_refl) Ha) as (a' & Ha' & Hsh).
  destruct (lookup_lt_is_Some_2
              (alter F ti (alter (store_shots tid s1) ai (players gs))) ti)
    as [t' Ht']; [by rewrite !length_alter|].
  assert (Htarget' : ships t' = ships target ∧
                     decoyPositions t' = delete k (decoyPositions target) ∧
                     grid t' = g1).
  { rewrite list_lookup_alter_eq in Ht'.
    apply fmap_Some in Ht' as (t0 & Ht0 & ->).
    rewrite list_lookup_alter in Ht0. case_decide.
    - subst ti. rewrite Ha in Ht0. injection Ht0 as <-.
      assert (target = attacker) as -> by congruence. done.
    - assert (t0 = target) as -> by congruence. done. }
  destruct Htarget' as (Hships & Hdec & Hgrid).
  eexists _, a', t', k.
  split_and!; [reflexivity|done|done|done|exact Ha'| |exact Ht'|done|done
              |done| | |done|done].
  - unfold shots_for. rewrite Hsh, lookup_insert_eq. simpl.
    rewrite (cell_write_opt _ _ _ _ _ _ _ Hs1). by rewrite decide_True.
  - intros Hd. rewrite Htc in Hd. subst tc.
    rewrite bool_decide_eq_true_2 in Hg1 by done. rewrite Hgrid.
    rewrite (cell_write_opt _ _ _ _ _ _ _ Hg1). by rewrite decide_True.
  - intros x' y' Hne. rewrite Hgrid. case_bool_decide.
    + rewrite (cell_write_opt _ _ _ _ _ _ _ Hg1). by rewrite decide_False.
    + by injection Hg1 as <-.
Qed.

Lemma clear_cells_strict g ps g' :
  cells_write g ps EMPTY = Some g' → clear_cells g ps = g'.
Proof.
  unfold clear_cells. revert g.
  induction ps as [|p ps IH]; intros g H; simpl in H |- *.
  - by injection H.
  - apply bind_Some in H as (g1 & H1 & H).
    unfold clear_if_set at 2. rewrite H1. simpl. by apply IH.
Qed.

(** X21.  a relocation by the AI that succeeds.  The ship named by the move
    is neither damaged, sunk nor relocated before; it is moved to one of
    the first hundred placements drawn, the first one that fits.  Its new
    cells lie inside the grid, were free or its own, and read [SHIP]; the
    cells it left read [EMPTY]; the ship is marked as relocated and the
    Commandship cools down for 4 turns. *)
Theorem useSkill_Commandship_AI gs ai attacker o rnd r :
  findPlayer (currentPlayerId gs) (players gs) = Some ai →
  players gs !! ai = Some attacker →
  useSkill "Commandship" o true rnd gs = Some r →
  success r = true →
  ∃ s0 si attacker' x y h j,
    find (λ s, bool_decide (Some (ship_type s) = opt_targetShipType o))
         (ships attacker) = Some s0 ∧
    isDamaged s0 = false ∧ isSunk s0 = false ∧ hasBeenRelocated s0 = false ∧
    (j < 100)%nat ∧ rnd j = (h, (x, y)) ∧
    players (newState r) !! ai = Some attacker' ∧
    findIndex (is_named (ship_name s0)) (ships attacker) = Some si ∧
    ships attacker' !! si
    = Some (ship_set_hasBeenRelocated true
              (ship_set_positions (footprint (ship_length s0) x y h) s0)) ∧
    (∀ p, p ∈ footprint (ship_length s0) x y h →
          in_bounds (gridDimensions gs) p ∧ reads (grid attacker') p SHIP ∧
          (reads (grid attacker) p EMPTY ∨ p ∈ positions s0)) ∧
    (∀ p, p ∈ positions s0 → p ∉ footprint (ship_length s0) x y h →
          reads (grid attacker') p EMPTY) ∧
    skillCooldowns attacker' !! "Commandship"%string = Some 4.
Proof.
  intros Hai Ha H Hok. unfold useSkill in H.
  rewrite Hai in H. cbn [mbind option_bind] in H. rewrite Ha in H.
  cbn [mbind option_bind] in H.
  change (String.eqb "Commandship" "Mothership") with false in H.
  change (String.eqb "Commandship" "Radarship") with false in H.
  change (String.eqb "Commandship" "Jamship") with false in H.
  change (String.eqb "Commandship" "Repairship") with false in H.
  change (String.eqb "Commandship" "Decoyship") with false in H.
  change (String.eqb "Commandship" "Commandship") with true in H.
  cbv iota in H. unfold skill_Commandship in H. cbv zeta in H.
  destruct (find _ (ships attacker)) as [s0|] eqn:Hfind;
    [|by simplify_eq].
  destruct (isDamaged s0) eqn:Hdam; [cbn [orb] in H; by simplify_eq|].
  destruct (isSunk s0) eqn:Hsunk; [cbn [orb] in H; by simplify_eq|].
  destruct (hasBeenRelocated s0) eqn:Hrel; [cbn [orb] in H; by simplify_eq|].
  cbn [orb] in H.
  apply bind_Some in H as (placement & Hplace & H).
  destruct placement as [[[x y] h]|]; [|by simplify_eq].
  apply bind_Some in H as (g1 & Hlift & H).
  apply bind_Some in H as ([newGrid newShip] & Hput & H).
  apply bind_Some in H as (si & Hsi & H). injection H as <-.
  unfold placeShip in Hput. cbv zeta in Hput.
  apply bind_Some in Hput as (g2 & Hwrite & Hput).
  injection Hput as <- <-.
  change (ship_name (ship_set_positions _ s0)) with (ship_name s0) in Hsi.
  unfold findRandomValidPlacement in Hplace.
  assert (Htry : tryPlacements 100 0
                   (clear_cells (grid attacker) (positions s0))
                   (ship_length s0) (gridDimensions gs) rnd
                 = Some (Some (x, y, h))).
  { destruct (grid attacker) as [|[|c0 row] g0]; try done. }
  rewrite (clear_cells_strict _ _ _ Hlift) in Htry.
  apply tryPlacements_spec in Htry as (j & Hj & Hd & Hcan & _).
  pose proof (all_placeable_true _ _ _ Hcan) as Hfree.
  pose proof (lookup_lt_Some _ _ _ Ha) as Hailt.
  destruct (findIndex_Some _ _ _ Hsi) as (s1 & Hs1 & _).
  pose proof (lookup_lt_Some _ _ _ Hs1) as Hsilt.
  eexists s0, si, _, x, y, h, j. cbn [newState skill_done]. rsimpl.
  split_and!; [done|done|done|done|lia|done
              |rewrite list_lookup_alter_eq, Ha; reflexivity|done| | | |].
  - unfold set_cooldown. rsimpl. by rewrite list_lookup_insert_eq.
  - unfold set_cooldown. rsimpl. intros p Hp.
    destruct (Hfree p Hp) as [Hin He]. split_and!; [done| |].
    + unfold reads. rewrite (cells_write_opt _ _ _ _ _ _ Hwrite).
      destruct p as [a b]. apply existsb_pos_eqb in Hp. simpl.
      by rewrite Hp.
    + unfold reads in *. rewrite (cells_write_opt _ _ _ _ _ _ Hlift) in He.
      destruct (existsb _ (positions s0)) eqn:E; [right|by left].
      apply existsb_pos_eqb in E. by destruct p.
  - unfold set_cooldown. rsimpl. intros p Hp Hnot. unfold reads.
    rewrite (cells_write_opt _ _ _ _ _ _ Hwrite).
    destruct (existsb _ (footprint _ _ _ _)) eqn:E.
    { apply existsb_pos_eqb in E. destruct Hnot. by destruct p. }
    rewrite (cells_write_opt _ _ _ _ _ _ Hlift).
    destruct p as [a b]. apply existsb_pos_eqb in Hp. simpl. by rewrite Hp.
  - unfold set_cooldown. rsimpl. by rewrite lookup_insert_eq.
Qed.

(** ** The moves of the AI *)

Lemma pick_elem rnd l c : pick rnd l = Some c → c ∈ l.
Proof. unfold pick. apply list_elem_of_lookup_2. Qed.

Lemma pick_None rnd l : pick rnd l = None → l = [].
Proof.
  unfold pick. intros H%lookup_ge_None. destruct l as [|a l]; [done|].
  pose proof (Nat.mod_upper_bound rnd (length (a :: l))) as Hlt.
  simpl in *. lia.
Qed.

Lemma elem_of_emptyCells g d c :
  c ∈ emptyCells_of g d ↔
  in_bounds d c ∧ shot_at g (px c) (py c) = EMPTY.
Proof.
  unfold emptyCells_of, in_bounds.
  rewrite list_elem_of_filter, elem_of_all_cells. tauto.
Qed.

Lemma push_new_elem acc c c' :
  c' ∈ push_new acc c ↔ c' ∈ acc ∨ c' = c.
Proof.
  unfold push_new. case_decide as Hd.
  - split; [by left|]. by intros [?| ->].
  - rewrite elem_of_app, list_elem_of_singleton. tauto.
Qed.

Lemma elem_of_potentialTargets g d c :
  c ∈ potentialTargets_of g d ↔
  ∃ hit, hit ∈ hitCells_of g d ∧ c ∈ adjacent hit ∧ boostable g d c = true.
Proof.
  unfold potentialTargets_of.
  assert (Hinner : ∀ cells acc,
            c ∈ foldl (λ acc' cell,
                         if boostable g d cell then push_new acc' cell
                         else acc') acc cells ↔
            c ∈ acc ∨ (c ∈ cells ∧ boostable g d c = true)).
  { induction cells as [|a cells IH]; intros acc; simpl.
    - split; [by left|]. intros [?|[H _]]; [done|].
      by apply elem_of_nil in H.
    - rewrite IH. destruct (boostable g d a) eqn:Hb.
      + rewrite push_new_elem, elem_of_cons. split.
        * intros [[?| ->]|[? ?]]; auto.
        * intros [?|[[->|?] ?]]; auto.
      + rewrite elem_of_cons. split.
        * intros [?|[? ?]]; auto.
        * intros [?|[[->|?] ?]]; [auto|congruence|auto]. }
  assert (Houter : ∀ hits acc,
            c ∈ foldl (λ acc hit,
                         foldl (λ acc' cell,
                                  if boostable g d cell
                                  then push_new acc' cell else acc')
                               acc (adjacent hit)) acc hits ↔
            c ∈ acc ∨ ∃ hit, hit ∈ hits ∧ c ∈ adjacent hit
                             ∧ boostable g d c = true).
  { induction hits as [|a hits IH]; intros acc; cbn [foldl].
    - split; [by left|]. intros [?|(hit & H & _)]; [done|].
      by apply elem_of_nil in H.
    - rewrite IH, Hinner. split.
      + intros [[?|[? ?]]|(hit & ? & ? & ?)]; [by left| |].
        * right. exists a. split_and!; [by left|done|done].
        * right. exists hit. split_and!; [by right|done|done].
      + intros [?|(hit & [->|?]%elem_of_cons & ? & ?)]; [by do 2 left| |].
        * left. by right.
        * right. by exists hit. }
  rewrite Houter. split; [|by right].
  intros [H|?]; [by apply elem_of_nil in H|done].
Qed.

Lemma boostable_empty g d c :
  boostable g d c = true ↔
  in_bounds d c ∧ shot_at g (px c) (py c) = EMPTY.
Proof.
  unfold boostable, in_grid, in_bounds.
  rewrite andb_true_iff, !bool_decide_eq_true. split; intros [? ?];
    (split; [lia|done]).
Qed.

(** X22.  the classic AI never shoots at a cell it has a result for, as long
    as a cell without result is left: the cell it chooses lies inside the
    grid and reads [EMPTY] in its record of shots.  When a hit has a free
    neighbour the cell chosen is a free neighbour of a hit; otherwise,
    when a free cell of even parity is left, the cell chosen is one of
    them.  Only when no cell is free does it fall back on the corner
    (0,0). *)
Theorem getAIMove_spec g d rnd :
  let c := getAIMove g d rnd in
  ((∃ e, in_bounds d e ∧ shot_at g (px e) (py e) = EMPTY) →
   in_bounds d c ∧ shot_at g (px c) (py c) = EMPTY) ∧
  ((∃ hit e, hit ∈ hitCells_of g d ∧ e ∈ adjacent hit ∧
             in_bounds d e ∧ shot_at g (px e) (py e) = EMPTY) →
   ∃ hit, hit ∈ hitCells_of g d ∧ c ∈ adjacent hit) ∧
  ((¬ ∃ hit e, hit ∈ hitCells_of g d ∧ e ∈ adjacent hit ∧
               in_bounds d e ∧ shot_at g (px e) (py e) = EMPTY) →
   (∃ e, in_bounds d e ∧ shot_at g (px e) (py e) = EMPTY ∧
         (px e + py e) mod 2 = 0) →
   (px c + py c) mod 2 = 0) ∧
  ((¬ ∃ e, in_bounds d e ∧ shot_at g (px e) (py e) = EMPTY) →
   c = mkPos 0 0).
Proof.
  intros c. subst c. unfold getAIMove. cbv zeta.
  set (target := if bool_decide _ then _ else None).
  assert (Htarget : ∀ c, target = Some c →
            ∃ hit, hit ∈ hitCells_of g d ∧ c ∈ adjacent hit ∧
                   in_bounds d c ∧ shot_at g (px c) (py c) = EMPTY).
  { intros c Hc. unfold target in Hc. case_bool_decide; [|done].
    apply pick_elem, elem_of_potentialTargets in Hc as (hit & ? & ? & Hb).
    apply boostable_empty in Hb as [? ?]. by exists hit. }
  assert (Hnone : target = None →
            ¬ ∃ hit e, hit ∈ hitCells_of g d ∧ e ∈ adjacent hit ∧
                       in_bounds d e ∧ shot_at g (px e) (py e) = EMPTY).
  { intros Hn (hit & e & Hhit & Hadj & Hin & He). unfold target in Hn.
    rewrite bool_decide_eq_true_2 in Hn.
    - apply pick_None in Hn.
      assert (e ∈ potentialTargets_of g d) as Hel.
      { apply elem_of_potentialTargets. exists hit. split_and!; try done.
        by apply boostable_empty. }
      rewrite Hn in Hel. by apply elem_of_nil in Hel.
    - destruct (hitCells_of g d); [by apply elem_of_nil in Hhit|].
      simpl. lia. }
  destruct target as [c|] eqn:Ht.
  - destruct (Htarget c eq_refl) as (hit & Hhit & Hadj & Hin & He).
    split_and!.
    + done.
    + intros _. by exists hit.
    + intros Hno. destruct Hno. by exists hit, c.
    + intros Hno. destruct Hno. by exists c.
  - specialize (Hnone eq_refl).
    destruct (pick rnd (huntCells_of g d)) as [c|] eqn:Hh.
    + apply pick_elem in Hh. unfold huntCells_of in Hh.
      apply list_elem_of_filter in Hh as [Hpar [Hin He]%elem_of_emptyCells].
      split_and!; [done|done|done|]. intros Hno. destruct Hno. by exists c.
    + apply pick_None in Hh.
      assert (Hnohunt : ¬ ∃ e, in_bounds d e ∧ shot_at g (px e) (py e) = EMPTY
                               ∧ (px e + py e) mod 2 = 0).
      { intros (e & Hin & He & Hpar).
        assert (e ∈ huntCells_of g d) as Hel.
        { unfold huntCells_of. apply list_elem_of_filter. split; [done|].
          by apply elem_of_emptyCells. }
        rewrite Hh in Hel. by apply elem_of_nil in Hel. }
      destruct (pick rnd (emptyCells_of g d)) as [c|] eqn:Hemp.
      * apply pick_elem, elem_of_emptyCells in Hemp as [Hin He].
        split_and!; [done|done|done|]. intros Hno. destruct Hno.
        by exists c.
      * apply pick_None in Hemp. split_and!; [|done|done|done].
        intros (e & Hin & He).
        assert (e ∈ emptyCells_of g d) as Hel
          by (by apply elem_of_emptyCells).
        rewrite Hemp in Hel. by apply elem_of_nil in Hel.
Qed.

(** *** [findBestTargets] *)

Lemma findBestTargets_fold m g l :
  let acc := foldl (λ (acc : Z * list Pos) c,
          let '(maxProbability, bestTargets) := acc in
          if is_open_at g c then
            if decide (pm_at m (px c) (py c) > maxProbability)
            then (pm_at m (px c) (py c), [c])
            else if decide (pm_at m (px c) (py c) = maxProbability)
            then (maxProbability, bestTargets ++ [c])
            else acc
          else acc) (-1, []) l in
  -1 <= acc.1 ∧
  (∀ c, c ∈ acc.2 ↔
        c ∈ l ∧ is_open_at g c = true ∧ pm_at m (px c) (py c) = acc.1) ∧
  (∀ c, c ∈ l → is_open_at g c = true → pm_at m (px c) (py c) <= acc.1).
Proof.
  induction l as [|a l IH] using rev_ind; cbv zeta.
  - simpl. split_and!; [lia| |].
    + intros c. split; [by intros ?%elem_of_nil|].
      by intros [?%elem_of_nil _].
    + by intros c ?%elem_of_nil.
  - rewrite foldl_app. cbn [foldl]. cbv zeta in IH.
    destruct (foldl _ _ l) as [mx best]. simpl in IH.
    destruct IH as (Hmx & Hbest & Hle).
    destruct (is_open_at g a) eqn:Hopen.
    + destruct (decide (pm_at m (px a) (py a) > mx)) as [Hgt|Hngt]; simpl.
      * split_and!; [lia| |].
        -- intros c. rewrite list_elem_of_singleton, elem_of_app,
             list_elem_of_singleton. split.
           ++ intros ->. split_and!; [by right|done|done].
           ++ intros ([Hc| ->] & Ho & Hv); [|done].
              specialize (Hle c Hc Ho). lia.
        -- intros c [Hc| ->%list_elem_of_singleton]%elem_of_app Ho; [|lia].
           specialize (Hle c Hc Ho). lia.
      * destruct (decide (pm_at m (px a) (py a) = mx)) as [Heq|Hne]; simpl.
        -- split_and!; [lia| |].
           ++ intros c. rewrite !elem_of_app, list_elem_of_singleton, Hbest.
              split.
              ** intros [(? & ? & ?)| ->]; split_and!; auto.
              ** intros ([?| ->] & ? & ?); auto.
           ++ intros c [Hc| ->%list_elem_of_singleton]%elem_of_app Ho; [|lia].
              by apply Hle.
        -- split_and!; [lia| |].
           ++ intros c. rewrite elem_of_app, list_elem_of_singleton, Hbest.
              split.
              ** intros (? & ? & ?); split_and!; auto.
              ** intros ([?| ->] & ? & ?); [auto|lia].
           ++ intros c [Hc| ->%list_elem_of_singleton]%elem_of_app Ho; [|lia].
              by apply Hle.
    + simpl. split_and!; [lia| |].
      * intros c. rewrite elem_of_app, list_elem_of_singleton, Hbest.
        split.
        -- intros (? & ? & ?); split_and!; auto.
        -- intros ([?| ->] & ? & ?); [auto|congruence].
      * intros c [Hc| ->%list_elem_of_singleton]%elem_of_app Ho;
          [by apply Hle|congruence].
Qed.

(** X23.  the cells that [findBestTargets] returns are cells of the heatmap
    that are open in the record of shots ([EMPTY] or [RADAR_CONTACT]) and
    that carry the greatest value among the open cells; every open cell
    of that value is returned; and a cell is returned as soon as some
    open cell has a value of at least -1, which is the case for every
    heatmap of non-negative counts. *)
Theorem findBestTargets_spec m g :
  (∀ c, c ∈ findBestTargets m g →
        c ∈ pm_cells m ∧ is_open_at g c = true ∧
        ∀ c', c' ∈ pm_cells m → is_open_at g c' = true →
              pm_at m (px c') (py c') <= pm_at m (px c) (py c)) ∧
  (∀ c c', c ∈ findBestTargets m g → c' ∈ pm_cells m →
           is_open_at g c' = true →
           pm_at m (px c') (py c') = pm_at m (px c) (py c) →
           c' ∈ findBestTargets m g) ∧
  (∀ c, c ∈ pm_cells m → is_open_at g c = true →
        -1 <= pm_at m (px c) (py c) → findBestTargets m g ≠ []).
Proof.
  unfold findBestTargets.
  pose proof (findBestTargets_fold m g (pm_cells m)) as H. cbv zeta in H.
  destruct H as (Hmx & Hbest & Hle). split_and!.
  - intros c (Hc & Ho & Hv)%Hbest. split_and!; [done|done|].
    intros c' Hc' Ho'. rewrite Hv. by apply Hle.
  - intros c c' (Hc & Ho & Hv)%Hbest Hc' Ho' Heq. apply Hbest.
    split_and!; [done|done|congruence].
  - intros c Hc Ho Hge Hnil.
    set (acc := foldl _ _ _) in *.
    destruct (decide (pm_at m (px c) (py c) = acc.1)) as [Heq|Hne].
    + assert (c ∈ acc.2) as Hin by (by apply Hbest).
      rewrite Hnil in Hin. by apply elem_of_nil in Hin.
    + specialize (Hle c Hc Ho).
      (* the maximum is attained by a cell, or it is still -1 *)
      assert (acc.1 = -1 ∨ ∃ b, b ∈ acc.2) as [Hm1|[b Hb]].
      { clear -Hnil. subst acc.
        induction (pm_cells m) as [|a l IH] using rev_ind; [by left|].
        rewrite foldl_app in Hnil |- *. cbn [foldl] in *.
        destruct (foldl _ _ l) as [mx best]. simpl in *.
        destruct (is_open_at g a); [|by apply IH].
        destruct (decide (pm_at m (px a) (py a) > mx)); simpl in *; [done|].
        destruct (decide (pm_at m (px a) (py a) = mx)); simpl in *.
        - by destruct best.
        - by apply IH. }
      * lia.
      * rewrite Hnil in Hb. by apply elem_of_nil in Hb.
Qed.

(** *** [findBestRadarSpot] *)

Lemma elem_of_block_anchors d c :
  c ∈ block_anchors d ↔ 0 <= px c < cols d - 1 ∧ 0 <= py c < rows d - 1.
Proof.
  unfold block_anchors. rewrite list_elem_of_bind. destruct c as [a b].
  simpl. split.
  - intros (y & Hc & Hy). apply list_elem_of_bind in Hc as (x & Hc & Hx).
    apply list_elem_of_singleton in Hc. injection Hc as -> ->.
    apply elem_of_seqZ in Hx, Hy. lia.
  - intros [Ha Hb]. exists b. split; [|apply elem_of_seqZ; lia].
    apply list_elem_of_bind. exists a.
    split; [by apply list_elem_of_singleton|apply elem_of_seqZ; lia].
Qed.

Lemma findBestRadarSpot_fold m l :
  let acc := foldl (λ (acc : Z * Pos) c,
          if decide (density m c > fst acc) then (density m c, c) else acc)
        (-1, mkPos 0 0) l in
  -1 <= acc.1 ∧
  (∀ c, c ∈ l → density m c <= acc.1) ∧
  ((acc.1 = -1 ∧ acc.2 = mkPos 0 0) ∨
   (acc.2 ∈ l ∧ density m acc.2 = acc.1)).
Proof.
  induction l as [|a l IH] using rev_ind; cbv zeta.
  - simpl. split_and!; [lia| |by left]. by intros c ?%elem_of_nil.
  - rewrite foldl_app. cbn [foldl]. cbv zeta in IH.
    destruct (foldl _ _ l) as [mx best]. simpl in IH |- *.
    destruct IH as (Hmx & Hle & Hbest).
    destruct (decide (density m a > mx)) as [Hgt|Hngt]; simpl.
    + split_and!; [lia| |].
      * intros c [Hc| ->%list_elem_of_singleton]%elem_of_app; [|lia].
        specialize (Hle c Hc). lia.
      * right. split; [|done]. apply elem_of_app. right. by left.
    + split_and!; [lia| |].
      * intros c [Hc| ->%list_elem_of_singleton]%elem_of_app; [|lia].
        by apply Hle.
      * destruct Hbest as [?|[? ?]]; [by left|right].
        split; [|done]. apply elem_of_app. by left.
Qed.

Lemma map_shape_update d f m c : map_shape d m → map_shape d (pm_update f m c).
Proof.
  intros [Hl Hr]. unfold pm_update. case_decide; [|done]. split.
  - by rewrite length_alter.
  - apply Forall_alter; [done|]. intros row Hrow. rewrite length_alter.
    intros. rewrite Forall_forall in Hr. apply Hr.
    by eapply list_elem_of_lookup_2.
Qed.

Lemma foldl_invariant {A B} (P : A → Prop) (f : A → B → A) a l :
  (∀ a b, P a → P (f a b)) → P a → P (foldl f a l).
Proof.
  intros Hf. revert a. induction l as [|b l IH]; intros a Ha; [done|].
  simpl. apply IH. by apply Hf.
Qed.

(** The heatmap that the AI builds has the dimensions of the game. *)
Lemma buildProbabilityMap_shape opponent g d :
  map_shape d (buildProbabilityMap opponent g d).
Proof.
  unfold buildProbabilityMap, boost, rawProbabilityMap.
  apply foldl_invariant.
  { intros m hit Hm. apply foldl_invariant; [|done].
    intros m2 cell Hm2. destruct (boostable g d cell); [|done].
    by apply map_shape_update. }
  apply foldl_invariant.
  { intros m ship Hm. unfold count_ship.
    apply foldl_invariant; [|done]. intros m1 y Hm1.
    apply foldl_invariant; [|done]. intros m2 x Hm2.
    assert (Hcp : ∀ h m3, map_shape d m3 →
              map_shape d (count_placement g d (hitCells_of g d)
                             (ship_length ship) x y h m3)).
    { intros h m3 Hm3. unfold count_placement.
      destruct (canShipBePlaced _ _ _ _ _ _); [|done]. cbv zeta.
      case_bool_decide; [|done].
      apply foldl_invariant; [|done]. intros. by apply map_shape_update. }
    by apply Hcp, Hcp. }
  split.
  - by rewrite length_replicate.
  - apply Forall_replicate. by rewrite length_replicate.
Qed.

Lemma map_shape_lookup d m x y :
  map_shape d m → 0 <= x < cols d → 0 <= y < rows d →
  is_Some (pm_lookup m x y).
Proof.
  intros [Hl Hr] Hx Hy. unfold pm_lookup, zlookup.
  rewrite decide_True by lia.
  destruct (lookup_lt_is_Some_2 m (Z.to_nat y)) as [row Hrow]; [lia|].
  rewrite Hrow. cbn [mbind option_bind]. rewrite decide_True by lia.
  apply lookup_lt_is_Some_2.
  rewrite Forall_forall in Hr.
  rewrite (Hr row) by (by eapply list_elem_of_lookup_2). lia.
Qed.

(** X24.  On a heatmap of the dimensions of the game every read of
    [findBestRadarSpot] stays inside the map, and the spot it returns is
    the anchor of a 2x2 block of greatest density; the block lies inside
    the grid as soon as the grid has two rows and two columns; without
    any block of density above -1 the spot is the corner (0,0). *)
Theorem findBestRadarSpot_spec m d :
  map_shape d m →
  let r := findBestRadarSpot m d in
  (∀ c, c ∈ block_anchors d → density m c <= Z.max (-1) (density m r)) ∧
  (r ∈ block_anchors d ∨
   (r = mkPos 0 0 ∧ ∀ c, c ∈ block_anchors d → density m c <= -1)) ∧
  (2 <= rows d → 2 <= cols d →
   ∀ p, p ∈ scan_cells (px r) (py r) → in_bounds d p) ∧
  (∀ c p, c ∈ block_anchors d → p ∈ scan_cells (px c) (py c) →
          is_Some (pm_lookup m (px p) (py p))).
Proof.
  intros Hshape r. subst r. unfold findBestRadarSpot.
  pose proof (findBestRadarSpot_fold m (block_anchors d)) as H.
  cbv zeta in H. destruct H as (Hmx & Hle & Hbest).
  set (acc := foldl _ _ _) in *.
  assert (Hor : acc.2 ∈ block_anchors d ∨
                (acc.2 = mkPos 0 0 ∧
                 ∀ c, c ∈ block_anchors d → density m c <= -1)).
  { destruct Hbest as [[Hm1 H0]|[Hin _]]; [right|by left].
    split; [done|]. intros c Hc. rewrite <- Hm1. by apply Hle. }
  split_and!.
  - intros c Hc. specialize (Hle c Hc).
    destruct Hbest as [[Hm1 _]|[_ Hd]]; lia.
  - done.
  - intros Hr Hc p Hp.
    assert (0 <= px acc.2 < cols d - 1 ∧ 0 <= py acc.2 < rows d - 1)
      as [Hx Hy].
    { destruct Hor as [Hin|[-> _]].
      - by apply elem_of_block_anchors in Hin.
      - simpl. lia. }
    unfold scan_cells in Hp. cbn in Hp.
    repeat (apply elem_of_cons in Hp as [->|Hp];
            [unfold in_bounds; simpl; lia|]).
    by apply elem_of_nil in Hp.
  - intros c p Hc Hp. apply elem_of_block_anchors in Hc as [Hx Hy].
    apply (map_shape_lookup d); [done| |];
      unfold scan_cells in Hp; cbn in Hp;
      repeat (apply elem_of_cons in Hp as [->|Hp]; [simpl; lia|]);
      by apply elem_of_nil in Hp.
Qed.

Lemma first_choice {A} (P : A → Prop) (os : list (option A)) (fb : A) :
  Forall (λ o, ∀ a, o = Some a → P a) os → P fb →
  P (default fb (head (omap id os))).
Proof.
  intros Hos Hfb. induction Hos as [|o os Ho _ IH]; [done|].
  destruct o as [a|]; simpl; [by apply Ho|done].
Qed.

Lemma longest_elem (ss : list Ship) s : longest ss = Some s → s ∈ ss.
Proof.
  unfold longest.
  assert (∀ acc, foldl (λ best s0,
                          match best with
                          | Some b => if decide (ship_length s0 > ship_length b)
                                      then Some s0 else best
                          | None => Some s0
                          end) acc ss = Some s →
                 acc = Some s ∨ s ∈ ss) as H.
  { induction ss as [|a ss IH]; intros acc Hacc; simpl in Hacc; [by left|].
    destruct (IH _ Hacc) as [Heq|?]; [|right; by right].
    destruct acc as [b|].
    - case_decide; [|by left]. injection Heq as ->. right. by left.
    - injection Heq as ->. right. by left. }
  intros Hs. by destruct (H None Hs).
Qed.

(** X25.  the tactical AI keeps to the gates that the engine does not check.
    Whatever the state, the move it returns is an attack on a cell that is
    open in its record of shots (the corner (0,0) being the last resort),
    or a skill whose cooldown is at zero, or, for the decoy and the
    escape, whose uses are not spent.  A repair is aimed at a cell of an
    unrepaired ship of its own that reads [HIT] and was damaged before the
    current turn; a relocation names a ship of its own that is neither
    damaged, sunk nor relocated before. *)
Theorem getAITacticalMove_in_order aiPlayer opponent gs rnd1 rnd2 :
  let d := gridDimensions gs in
  let shotsGrid := default (createEmptyGrid (rows d) (cols d))
                           (shots aiPlayer !! player_id opponent) in
  move_in_order aiPlayer gs shotsGrid
    (getAITacticalMove aiPlayer opponent gs rnd1 rnd2).
Proof.
  intros d sg. unfold getAITacticalMove. cbv zeta. fold d. fold sg.
  set (pm := buildProbabilityMap opponent sg d).
  apply first_choice.
  - repeat first [apply Forall_cons_2|apply Forall_nil_2]; intros mv Hmv.
    + (* escape, or the repair of the Mothership *)
      destruct (find (is_type "Mothership") (ships aiPlayer)) as [m|] eqn:Hm;
        [|done].
      apply find_elem in Hm as [Hm Hty]. apply bool_decide_eq_true in Hty.
      destruct (isDamaged m) eqn:Hdam; [|done]. cbn [andb] in Hmv.
      destruct (escapeSkillUnlocked aiPlayer
                && bool_decide (uses_of aiPlayer "Mothership" > 0)) eqn:He.
      * injection Hmv as <-. left.
        apply andb_true_iff in He as [? ?%bool_decide_eq_true].
        split_and!; try done. by exists m.
      * destruct (bool_decide (cooldown_of aiPlayer "Repairship" = 0)
                  && negb (hasBeenRepaired m)) eqn:Hr; [|done].
        apply andb_true_iff in Hr as [?%bool_decide_eq_true ?%negb_true_iff].
        apply fmap_Some in Hmv as (pos & Hpos & ->).
        apply find_elem in Hpos as [? ?].
        right. left. split_and!; try done. by exists pos, m.
    + (* the last shot at the Mothership of the opponent *)
      destruct (find (is_type "Mothership") (ships opponent)) as [om|];
        [|done].
      destruct (isDamaged om); [|done].
      case_bool_decide; [|done].
      apply fmap_Some in Hmv as (pos & Hpos & ->).
      apply find_elem in Hpos as [_ He%bool_decide_eq_true].
      left. unfold is_open_at. by rewrite bool_decide_eq_true_2.
    + (* a target of high probability *)
      destruct (findBestTargets pm sg !! _) as [b|] eqn:Hb; [|done].
      case_decide; [|done]. injection Hmv as <-. left.
      apply list_elem_of_lookup_2 in Hb.
      pose proof (findBestTargets_fold pm sg (pm_cells pm)) as Hfold.
      cbv zeta in Hfold. destruct Hfold as (_ & Hbest & _).
      by apply Hbest in Hb as (_ & ? & _).
    + (* jam *)
      destruct (find (is_type "Repairship") (ships opponent)) as [rs|];
        [|done].
      destruct (bool_decide (cooldown_of aiPlayer "Jamship" = 0)) eqn:Hcd;
        [|done].
      apply bool_decide_eq_true in Hcd. cbn [andb] in Hmv.
      destruct (_ && _ && _); [|done].
      case_bool_decide; [|done]. injection Hmv as <-.
      right. right. left. split_and!; [done|done|by eexists].
    + (* relocation *)
      case_bool_decide as Hcd; [|done].
      apply fmap_Some in Hmv as (s & Hs & ->).
      right. right. right. left. split_and!; [done|done|].
      unfold findShipToRelocate in Hs. cbv zeta in Hs.
      apply head_Some in Hs as (l' & Hs).
      assert (s ∈ omap
                (λ t, ship ← find (relocatable t) (ships aiPlayer);
                      if decide (foldl (λ sum pos,
                                          sum + pm_at
                                            (buildProbabilityMap aiPlayer
                                               (default
                                                  (createEmptyGrid (rows d)
                                                     (cols d))
                                                  (shots opponent
                                                   !! player_id aiPlayer)) d)
                                            (px pos) (py pos))
                                       0 (positions ship)
                                 > ship_length ship * 2)
                      then Some ship else None)
                valuableShipsPriority) as Hin
        by (rewrite Hs; by left).
      apply list_elem_of_omap in Hin as (t & _ & Ht).
      apply bind_Some in Ht as (s' & Hfind & Ht).
      case_decide; [|done]. injection Ht as ->.
      apply find_elem in Hfind as [Hin Hrel].
      exists s. split_and!; [done|done|].
      unfold relocatable in Hrel |- *.
      apply andb_true_iff in Hrel as [Hrel ?].
      apply andb_true_iff in Hrel as [Hrel ?].
      apply andb_true_iff in Hrel as [_ ?].
      rewrite bool_decide_eq_true_2 by done. simpl.
      by repeat (apply andb_true_iff; split).
    + (* repair *)
      case_bool_decide as Hcd; [|done].
      apply bind_Some in Hmv as (s & Hs & Hmv).
      apply fmap_Some in Hmv as (pos & Hpos & ->).
      apply longest_elem, list_elem_of_filter in Hs as [(_ & _ & ? & _) ?].
      apply find_elem in Hpos as [? ?].
      right. left. split_and!; [done|done|]. by exists pos, s.
    + (* radar *)
      case_bool_decide as Hcd; [|done]. injection Hmv as <-.
      do 4 right. left. split_and!; [done|done|by eexists].
    + (* decoy *)
      case_bool_decide as Hcd; [|done].
      apply fmap_Some in Hmv as (pos & Hpos & ->).
      do 5 right. split_and!; [done|done|by eexists].
  - (* the attack of last resort *)
    destruct (findBestTargets pm sg !! _) as [b|] eqn:Hb.
    + left. apply list_elem_of_lookup_2 in Hb.
      pose proof (findBestTargets_fold pm sg (pm_cells pm)) as Hfold.
      cbv zeta in Hfold. destruct Hfold as (_ & Hbest & _).
      by apply Hbest in Hb as (_ & ? & _).
    + destruct (filter _ (all_cells d) !! _) as [c|] eqn:Hc; simpl;
        [left|by right].
      apply list_elem_of_lookup_2, list_elem_of_filter in Hc as [He _].
      unfold is_open_at. by rewrite bool_decide_eq_true_2.
Qed.

(** ** Setting a game up and giving it up *)

Lemma deployed_ship_at d g ss x y :
  deployed d g ss → cell_opt g x y = Some SHIP →
  is_Some (findIndex (ship_at x y) ss).
Proof.
  intros Hd Hc. destruct (dep_cells _ _ _ Hd x y SHIP Hc) as [?|[_ Hs]];
    [done|]. destruct Hs as (s & Hs & Hin).
  destruct (findIndex (ship_at x y) ss) eqn:E; [by eexists|].
  pose proof (findIndex_None _ _ E s Hs) as Hf.
  apply ship_at_elem in Hin. congruence.
Qed.

(** X26.  a game against the AI starts in order.  When the human player
    hands in a fleet laid out by the rules, [handleReady] lets the AI lay
    out its own and starts the battle: the phase is [PLAYING], the human
    player is at turn, both fleets are laid out by the rules, and every
    shot of the human player at a cell inside the grid finds the state in
    order, so that [processShot] returns for it. *)
Theorem game_against_AI_starts_in_order id1 id2 gid name mode name2 idx p
    restarts rnd gs idx' :
  let game := (handleCreateGame id1 id2 gid name mode true name2 idx).1 in
  let d := gridDimensions game in
  id1 ≠ id2 →
  player_id p = id1 → isAI p = false →
  shots p = {[ id2 := createEmptyGrid (rows d) (cols d) ]} →
  set_up d p →
  handleReady game idx p restarts rnd = Some (gs, idx') →
  phase gs = PLAYING ∧ currentPlayerId gs = Some id1 ∧ idx' = idx ∧
  gridDimensions gs = d ∧ gameMode gs = mode ∧
  (∃ ai, players gs = [p_set_isReady true p; ai] ∧
         player_id ai = id2 ∧ isAI ai = true ∧ isReady ai = true ∧
         set_up d ai ∧
         config_of <$> ships ai = shipsConfig gs) ∧
  fresh_state gs ∧
  (∀ x y, 0 <= x < cols d → 0 <= y < rows d →
          shootable gs id2 x y ∧ is_Some (processShot gs id2 x y)).
Proof.
  intros game d Hne Hid Hai Hshots (Hdep & Hel & Hdec) H.
  assert (Hgame : ∃ cfg, game =
    mkGame gid SETUP
      [store_shots id2 (createEmptyGrid 12 12)
         (createInitialPlayer id1 name false cfg (mkDims 12 12) mode);
       store_shots id1 (createEmptyGrid 12 12)
         (createInitialPlayer id2 "Gemini AI" true cfg (mkDims 12 12) mode)]
      None None 2 1 (mkDims 12 12) cfg mode [] false None None None ∅ ∧
    NoDup (cfg_name <$> cfg)).
  { unfold game, handleCreateGame. destruct mode; simpl; eexists;
      (split; [reflexivity|]); apply (bool_decide_unpack _);
      by vm_compute. }
  destruct Hgame as (cfg & Hgame & Hnd).
  assert (d = mkDims 12 12) as Hd by (unfold d; by rewrite Hgame).
  clearbody d. rewrite Hgame in H. clear Hgame. clearbody game.
  unfold handleReady in H. cbn [players] in H.
  match type of H with
  | context [findIndex ?f ?l] =>
      replace (findIndex f l) with (Some 0%nat) in H
        by (symmetry; simpl; by rewrite Hid, bool_decide_eq_true_2)
  end.
  cbn [mbind option_bind] in H. cbv zeta in H.
  cbn [insert list_insert] in H.
  match type of H with
  | context [forallb ?f ?l] =>
      replace (forallb f l) with false in H
        by (symmetry; simpl; by rewrite Hai)
  end.
  match type of H with
  | context [findIndex isAI ?l] =>
      replace (findIndex isAI l) with (Some 1%nat) in H
        by (symmetry; simpl; by rewrite Hai)
  end.
  cbn [lookup list_lookup mbind option_bind] in H.
  apply bind_Some in H as (nps & Hnps & H).
  apply bind_Some in Hnps as (placed & Hplaced & Hnps).
  injection Hnps as <-. cbn [insert list_insert lookup list_lookup] in H.
  cbn [mbind option_bind] in H. injection H as <- <-.
  rsimpl. cbn [p_set_isReady player_id].
  destruct (placeShipsForAI_deployed_aux _ _ _ _ _ _ Hplaced)
    as (Hpd & Hperm & Hready & Hpid & Hpshots & Hpel & Hpdec & Hpai & Hord).
  cbn [player_id isAI shots isEliminated decoyPositions] in *.
  assert (Hfresh : fresh_state
            (g_set_currentPlayerId (Some (player_id p))
               (g_set_phase PLAYING
                  (g_set_players [p_set_isReady true p; placed]
                     (mkGame gid SETUP
                        [store_shots id2 (createEmptyGrid 12 12)
                           (createInitialPlayer (player_id p) name false cfg
                              (mkDims 12 12) mode);
                         store_shots (player_id p) (createEmptyGrid 12 12)
                           (createInitialPlayer id2 "Gemini AI" true cfg
                              (mkDims 12 12) mode)]
                        None None 2 1 (mkDims 12 12) cfg mode [] false None
                        None None ∅))))).
  { intros i q Hq. rsimpl. destruct i as [|[|i]]; simpl in Hq; [| |done].
    - injection Hq as <-. apply Hdep.
    - injection Hq as <-. apply Hpd. }
  split_and!.
  - done.
  - rsimpl. by rewrite Hid.
  - done.
  - done.
  - done.
  - exists placed. rsimpl. rewrite Hd in *.
    split_and!; try done. by apply Hord.
  - done.
  - intros x y Hx Hy.
    match goal with
    | |- ?S ∧ _ =>
        assert (Hs : S); [|split; [exact Hs|by apply processShot_shootable]]
    end.
    unfold shootable. rsimpl. cbv zeta.
    rewrite Hd in *. cbn [rows cols] in *.
    exists 0%nat, (p_set_isReady true p), 1%nat, placed.
    split_and!; try done.
    + simpl. by rewrite bool_decide_eq_true_2.
    + simpl. rewrite Hid, bool_decide_eq_false_2 by done.
      by rewrite Hpid, bool_decide_eq_true_2.
    + unfold shots_for. cbn [shots p_set_isReady]. rewrite Hshots.
      rewrite lookup_singleton_eq. apply (grid_shape_empty (mkDims 12 12)).
    + apply Hpd.
    + apply Hpd.
    + by apply (deployed_ship_at (mkDims 12 12)).
    + lia.
    + lia.
    + lia.
    + lia.
Qed.

(** X27.  the setup of a game between two humans on one device.  The game
    is created with the first player to set up.  When the first player
    is ready the hand-over screen is shown for the second; when the
    second is ready the battle starts with the first player at turn.
    Both calls of [handleReady] return, whatever fleets are handed in. *)
Theorem hot_seat_setup id1 id2 gid name mode name2 idx p1 p2 restarts rnd :
  let created := handleCreateGame id1 id2 gid name mode false name2 idx in
  id1 ≠ id2 →
  player_id p1 = id1 → isAI p1 = false →
  player_id p2 = id2 → isAI p2 = false →
  phase created.1 = SETUP ∧ currentPlayerId created.1 = None ∧
  created.2 = Some 0%nat ∧
  ∃ g1 g3,
    handleReady created.1 created.2 p1 restarts rnd = Some (g1, Some 1%nat) ∧
    phase g1 = TURN_TRANSITION ∧ currentPlayerId g1 = Some id2 ∧
    phase (handleContinueFromTransition g1 (Some 1%nat)) = SETUP ∧
    handleReady (handleContinueFromTransition g1 (Some 1%nat)) (Some 1%nat)
                p2 restarts rnd = Some (g3, None) ∧
    phase g3 = PLAYING ∧ currentPlayerId g3 = Some id1 ∧
    players g3 = [p_set_isReady true p1; p_set_isReady true p2] ∧
    turn g3 = 1 ∧ hasActedThisTurn g3 = false ∧ log g3 = [].
Proof.
  intros created Hne Hid1 Hai1 Hid2 Hai2.
  assert (Hcreated : ∃ cfg d h0 a0, created =
    (mkGame gid SETUP [h0; a0] None None 2 1 d cfg mode [] false None None
            None ∅, Some 0%nat) ∧
    player_id h0 = id1 ∧ player_id a0 = id2 ∧ isAI a0 = false).
  { unfold created, handleCreateGame. destruct mode; simpl;
      by eexists _, _, _, _. }
  destruct Hcreated as (cfg & d & h0 & a0 & Hc & Hh0 & Ha0 & Hai0).
  clearbody created. subst created. cbn [fst snd]. rsimpl.
  split_and!; [done|done|done|].
  eexists _, _. split_and!.
  - unfold handleReady. cbn [players].
    replace (findIndex _ [h0; a0]) with (Some 0%nat)
      by (symmetry; simpl; by rewrite Hh0, Hid1, bool_decide_eq_true_2).
    cbn [mbind option_bind]. cbv zeta. cbn [insert list_insert].
    replace (forallb _ _) with true
      by (symmetry; simpl; by rewrite Hai1, Hai0).
    rewrite bool_decide_eq_true_2 by done.
    cbn [lookup list_lookup mbind option_bind]. reflexivity.
  - done.
  - rsimpl. by rewrite Ha0.
  - done.
  - unfold handleReady, handleContinueFromTransition. rsimpl.
    replace (findIndex _ [p_set_isReady true p1; a0]) with (Some 1%nat)
      by (symmetry; simpl;
          rewrite Hid1, Ha0, Hid2, bool_decide_eq_false_2,
            bool_decide_eq_true_2 by done; done).
    cbn [mbind option_bind]. cbv zeta. cbn [insert list_insert].
    replace (forallb _ _) with true
      by (symmetry; simpl; by rewrite Hai1, Hai2).
    rewrite bool_decide_eq_false_2 by done.
    cbn [lookup list_lookup mbind option_bind]. reflexivity.
  - done.
  - rsimpl. cbn [p_set_isReady player_id]. by rewrite Hid1.
  - done.
  - done.
  - done.
  - done.
Qed.

Lemma find_is_Some {A} (f : A → bool) (l : list A) a :
  a ∈ l → f a = true → is_Some (find f l).
Proof.
  intros Ha Hf. unfold find.
  destruct (findIndex f l) as [i|] eqn:E.
  - destruct (findIndex_Some _ _ _ E) as (b & Hb & _).
    simpl. rewrite Hb. by eexists.
  - by rewrite (findIndex_None _ _ E a Ha) in Hf.
Qed.

(** X28.  a surrender.  [handleSurrender] stores a new state exactly when
    the player at turn is a player of the game and some player has another
    identifier.  The game is then over and the winner is a player whose
    identifier is not the one of the player at turn, so that the player
    who surrenders never wins; one entry is added to the log, and the
    players and the turn counter are unchanged. *)
Theorem handleSurrender_spec gs :
  (is_Some (handleSurrender gs) ↔
   ∃ sid p o, currentPlayerId gs = Some sid ∧ sid ≠ ""%string ∧
              p ∈ players gs ∧ player_id p = sid ∧
              o ∈ players gs ∧ player_id o ≠ sid) ∧
  (∀ gs', handleSurrender gs = Some gs' →
     phase gs' = GAME_OVER ∧
     (∃ o, o ∈ players gs ∧ winner gs' = Some (player_id o) ∧
           Some (player_id o) ≠ currentPlayerId gs) ∧
     (∃ e, log gs' = e :: log gs ∧ log_result e = R_SKILL_USED ∧
           Some (log_playerId e) = currentPlayerId gs ∧
           log_turn e = turn gs) ∧
     players gs' = players gs ∧ turn gs' = turn gs ∧
     currentPlayerId gs' = currentPlayerId gs).
Proof.
  unfold handleSurrender. split.
  - split.
    + intros [gs' H].
      apply bind_Some in H as (sid & Hsid & H).
      destruct (String.eqb sid "") eqn:E; [done|].
      apply String.eqb_neq in E.
      apply bind_Some in H as (p & Hp & H).
      apply bind_Some in H as (o & Ho & _).
      apply find_elem in Hp as [? ?%bool_decide_eq_true].
      apply find_elem in Ho as [? Hno%negb_true_iff].
      apply bool_decide_eq_false in Hno.
      by exists sid, p, o.
    + intros (sid & p & o & -> & Hne & Hp & Hid & Ho & Hoid).
      cbn [mbind option_bind].
      apply String.eqb_neq in Hne. rewrite Hne.
      destruct (find_is_Some (λ q, bool_decide (player_id q = sid))
                  (players gs) p Hp) as [p' ->];
        [by apply bool_decide_eq_true|].
      destruct (find_is_Some (λ q, negb (bool_decide (player_id q = sid)))
                  (players gs) o Ho) as [o' ->];
        [by apply negb_true_iff, bool_decide_eq_false|].
      by eexists.
  - intros gs' H.
    apply bind_Some in H as (sid & Hsid & H).
    destruct (String.eqb sid ""); [done|].
    apply bind_Some in H as (p & Hp & H).
    apply bind_Some in H as (o & Ho & H). injection H as <-.
    apply find_elem in Ho as [? Hno%negb_true_iff].
    apply bool_decide_eq_false in Hno. rsimpl.
    split_and!; try done.
    + exists o. split_and!; [done|done|]. rewrite Hsid. congruence.
    + eexists. split_and!; [reflexivity|done|done|done].
Qed.

(** ** The further properties on the example games *)

Lemma patrol_shape : grid_shape (mkDims 6 6) (grid patrol_ann).
Proof. split; [run|]. vm_compute. repeat constructor. Qed.

(** X1 on the patrol: a ship of length 2 fits at (3,5). *)
Lemma canPlaceShip_placeShip_witness :
  grid_shape (mkDims 6 6) (grid patrol_ann) ∧
  ∃ g',
    canPlaceShip (grid patrol_ann) 2 3 5 true (mkDims 6 6) = Some true ∧
    placeShip (grid patrol_ann)
              (shipToPlace (mkShipConfig "Tender" "Tender" 2)) 3 5 true
    = Some (g', ship_set_positions [mkPos 3 5; mkPos 4 5]
                  (shipToPlace (mkShipConfig "Tender" "Tender" 2))) ∧
    cell_opt g' 4 5 = Some SHIP.
Proof.
  split; [exact patrol_shape|].
  destruct (canPlaceShip_placeShip (mkDims 6 6) (grid patrol_ann)
              (shipToPlace (mkShipConfig "Tender" "Tender" 2)) 3 5 true
              patrol_shape) as (b & Hb & _ & _ & Hplace).
  assert (Hcan : canPlaceShip (grid patrol_ann) 2 3 5 true (mkDims 6 6)
                 = Some true) by run.
  assert (b = true) as -> by (cbn [ship_length shipToPlace cfg_length] in Hb;
                              congruence).
  destruct (Hplace eq_refl) as (g' & Hp & _ & Hcells).
  exists g'. split; [exact Hcan|]. split; [exact Hp|].
  rewrite Hcells. reflexivity.
Defined.

(** X2 on the patrol: of the draws for Ann's Jamship the first two
    propose the row of the Radarship, the third one fits. *)
Lemma findRandomValidPlacement_fits_witness :
  let s := the (ships patrol_ann !! 1%nat) in
  grid_shape (mkDims 6 6) (grid patrol_ann) ∧
  findRandomValidPlacement patrol_ann (Some s) (mkDims 6 6) row_draws
  = Some (Some (0, 1, true)) ∧
  (∃ j, (j < 100)%nat ∧ row_draws j = (true, (0, 1))) ∧
  ∀ p, p ∈ footprint (ship_length s) 0 1 true →
       in_bounds (mkDims 6 6) p ∧
       (reads (grid patrol_ann) p EMPTY ∨ p ∈ positions s).
Proof.
  intros s.
  destruct (findRandomValidPlacement_fits (mkDims 6 6) patrol_ann s row_draws
              patrol_shape) as (r & Hr & Hfit).
  assert (Hrun : findRandomValidPlacement patrol_ann (Some s) (mkDims 6 6)
                   row_draws = Some (Some (0, 1, true))) by run.
  assert (r = Some (0, 1, true)) as -> by congruence.
  exact (conj patrol_shape (conj Hrun (Hfit 0 1 true eq_refl))).
Defined.

(** X3 on the fleet of the patrol, laid out from [row_draws]. *)
Lemma placeShipsForAI_deployed_witness :
  placeShipsForAI 0 patrol_recruit patrol_config (mkDims 6 6) row_draws
  = Some patrol_cy ∧
  deployed (mkDims 6 6) (grid patrol_cy) (ships patrol_cy) ∧
  config_of <$> ships patrol_cy ≡ₚ patrol_config ∧
  isReady patrol_cy = true ∧
  placeShipsForAI 7 patrol_recruit patrol_config (mkDims 6 6) row_draws
  = Some patrol_cy.
Proof.
  assert (H : placeShipsForAI 0 patrol_recruit patrol_config (mkDims 6 6)
                row_draws = Some patrol_cy) by run.
  assert (Hle : (0 ≤ 7)%nat) by lia.
  destruct (placeShipsForAI_deployed 0 patrol_recruit patrol_config
              (mkDims 6 6) row_draws patrol_cy H) as (Hd & Hp & _ & Hm).
  split; [exact H|]. split; [exact Hd|]. split; [exact Hp|].
  split; [run|]. exact (Hm 7%nat Hle).
Defined.

(** X4 on the same fleet. *)
Lemma placeShipsForAI_order_witness :
  NoDup (cfg_name <$> patrol_config) ∧
  placeShipsForAI 0 patrol_recruit patrol_config (mkDims 6 6) row_draws
  = Some patrol_cy ∧
  config_of <$> ships patrol_cy = patrol_config.
Proof.
  assert (Hnd : NoDup (cfg_name <$> patrol_config))
    by (apply (bool_decide_unpack _); vm_compute; exact I).
  assert (H : placeShipsForAI 0 patrol_recruit patrol_config (mkDims 6 6)
                row_draws = Some patrol_cy) by run.
  exact (conj Hnd (conj H (placeShipsForAI_order 0 patrol_recruit
                             patrol_config (mkDims 6 6) row_draws patrol_cy
                             Hnd H))).
Defined.

(** X5 on the patrol: Ann ends her turn and Bob is next. *)
Lemma advanceTurn_next_player_witness :
  findPlayer (currentPlayerId patrol) (players patrol) = Some 0%nat ∧
  players patrol !! 0%nat = Some patrol_ann ∧
  ∃ gs' k np,
    advanceTurn patrol = Some gs' ∧
    (1 ≤ k ≤ length (players patrol))%nat ∧
    seat_after patrol 0 k = Some np ∧
    currentPlayerId gs' = Some (player_id np) ∧
    (∀ j q, (1 ≤ j < k)%nat → seat_after patrol 0 j = Some q →
            isEliminated q = true) ∧
    ((k < length (players patrol))%nat → isEliminated np = false) ∧
    ((∃ q, q ∈ players patrol ∧ isEliminated q = false) →
     isEliminated np = false).
Proof.
  assert (H1 : findPlayer (currentPlayerId patrol) (players patrol)
               = Some 0%nat) by run.
  assert (H2 : players patrol !! 0%nat = Some patrol_ann) by run.
  exact (conj H1 (conj H2 (advanceTurn_next_player patrol 0 patrol_ann
                             H1 H2))).
Defined.

(** X6 on the patrol, a game of two humans: the boards are kept and the
    hand-over screen is shown. *)
Lemma advanceTurn_keeps_boards_witness :
  advanceTurn patrol = Some patrol_bob_turn ∧
  same_fleets (players patrol_bob_turn) (players patrol) ∧
  log patrol_bob_turn = log patrol ∧
  hitLog patrol_bob_turn = hitLog patrol ∧
  winner patrol_bob_turn = winner patrol ∧
  phase patrol_bob_turn = TURN_TRANSITION ∧
  (1 < length (humans patrol))%nat.
Proof.
  assert (H1 : findPlayer (currentPlayerId patrol) (players patrol)
               = Some 0%nat) by run.
  assert (H2 : players patrol !! 0%nat = Some patrol_ann) by run.
  assert (H3 : advanceTurn patrol = Some patrol_bob_turn) by run.
  destruct (advanceTurn_keeps_boards patrol 0 patrol_ann patrol_bob_turn
              H1 H2 H3) as (Hf & Hl & Hh & Hw & _).
  split; [exact H3|]. split; [exact Hf|]. split; [exact Hl|].
  split; [exact Hh|]. split; [exact Hw|]. split; [run|].
  vm_compute. lia.
Defined.

(** X7 on the patrol: Bob's hit on Ann's Mothership. *)
Lemma processShot_keeps_witness :
  processShot patrol_bob_first "a" 0 4 = Some patrol_mothership_hit ∧
  Forall2 player_kept (players patrol_bob_first)
          (players patrol_mothership_hit) ∧
  turn patrol_mothership_hit = turn patrol_bob_first ∧
  currentPlayerId patrol_mothership_hit = currentPlayerId patrol_bob_first ∧
  activeAction patrol_mothership_hit = activeAction patrol_bob_first.
Proof.
  assert (H : processShot patrol_bob_first "a" 0 4
              = Some patrol_mothership_hit) by run.
  destruct (processShot_keeps patrol_bob_first "a" 0 4 patrol_mothership_hit
              H) as (Hk & Ht & Hc & _ & _ & _ & Ha & _).
  exact (conj H (conj Hk (conj Ht (conj Hc Ha)))).
Defined.

(** X8 on scenario A: the first shot is logged as a hit. *)
Lemma processShot_logged_witness :
  processShot duel "b" 0 0 = Some duel_hit ∧
  ∃ e ai attacker attacker',
    findPlayer (currentPlayerId duel) (players duel) = Some ai ∧
    players duel !! ai = Some attacker ∧
    players duel_hit !! ai = Some attacker' ∧
    log duel_hit = e :: log duel ∧
    log_turn e = turn duel ∧ log_playerId e = player_id attacker ∧
    log_targetId e = Some "b"%string ∧ log_coords e = Some (mkPos 0 0) ∧
    log_result e ∈ [R_HIT; R_MISS; R_SUNK_SHIP] ∧
    cell_opt (shots_for attacker' "b" (gridDimensions duel)) 0 0
    = Some (cell_of_result (log_result e)).
Proof.
  assert (H : processShot duel "b" 0 0 = Some duel_hit) by run.
  split; [exact H|].
  destruct (processShot_logged duel "b" 0 0 duel_hit H) as [Heq|Hlog];
    [|exact Hlog].
  apply (f_equal (λ gs, length (log gs))) in Heq. vm_compute in Heq.
  discriminate.
Defined.

(** X9 on scenario A: the second shot, at (1,0), sinks the ship, and the
    cell (0,0) of Bob's grid changes with it. *)
Lemma processShot_grid_frame_witness :
  let p := the (players duel_hit !! 1%nat) in
  let p' := the (players duel_sunk !! 1%nat) in
  processShot duel_hit "b" 1 0 = Some duel_sunk ∧
  cell_opt (grid p') 0 0 ≠ cell_opt (grid p) 0 0 ∧
  findPlayer (Some "b"%string) (players duel_hit) = Some 1%nat ∧
  cell_opt (grid p') 0 0 ∈ [Some HIT; Some MISS; Some EMPTY; Some SUNK] ∧
  ((0 = 1 ∧ 0 = 0) ∨
   ∃ s, s ∈ ships p ∧ mkPos 1 0 ∈ positions s ∧
        mkPos 0 0 ∈ positions s ∧ cell_opt (grid p') 0 0 = Some SUNK).
Proof.
  intros p p'.
  assert (H : processShot duel_hit "b" 1 0 = Some duel_sunk) by run.
  assert (Hp : players duel_hit !! 1%nat = Some p) by run.
  assert (Hp' : players duel_sunk !! 1%nat = Some p') by run.
  assert (Hne : cell_opt (grid p') 0 0 ≠ cell_opt (grid p) 0 0)
    by (intros E; vm_compute in E; discriminate).
  exact (conj H (conj Hne (processShot_grid_frame duel_hit "b" 1 0 duel_sunk
                             1 p p' 0 0 H Hp Hp' Hne))).
Defined.

(** X10 on the same shot: the cell (0,0) of the record that Ann keeps of
    her shots at Bob changes with it. *)
Lemma processShot_shots_frame_witness :
  let d := gridDimensions duel_hit in
  let p := the (players duel_hit !! 0%nat) in
  let p' := the (players duel_sunk !! 0%nat) in
  processShot duel_hit "b" 1 0 = Some duel_sunk ∧
  cell_opt (shots_for p' "b" d) 0 0 ≠ cell_opt (shots_for p "b" d) 0 0 ∧
  findPlayer (currentPlayerId duel_hit) (players duel_hit) = Some 0%nat ∧
  "b"%string = "b"%string ∧
  ((0 = 1 ∧ 0 = 0) ∨
   ∃ ti target s,
     findPlayer (Some "b"%string) (players duel_hit) = Some ti ∧
     players duel_hit !! ti = Some target ∧ s ∈ ships target ∧
     mkPos 1 0 ∈ positions s ∧ mkPos 0 0 ∈ positions s ∧
     cell_opt (shots_for p' "b" d) 0 0 = Some SUNK).
Proof.
  intros d p p'.
  assert (H : processShot duel_hit "b" 1 0 = Some duel_sunk) by run.
  assert (Hp : players duel_hit !! 0%nat = Some p) by run.
  assert (Hp' : players duel_sunk !! 0%nat = Some p') by run.
  assert (Hne : cell_opt (shots_for p' "b" d) 0 0
                ≠ cell_opt (shots_for p "b" d) 0 0)
    by (intros E; vm_compute in E; discriminate).
  exact (conj H (conj Hne (processShot_shots_frame duel_hit "b" 1 0 duel_sunk
                             0 p p' "b" 0 0 H Hp Hp' Hne))).
Defined.

(** X11 on the same shot: under classic rules it leaves one player in
    the game, which is then over. *)
Lemma processShot_game_over_witness :
  processShot duel_hit "b" 1 0 = Some duel_sunk ∧
  ∃ e ti target target',
    log duel_sunk = e :: log duel_hit ∧
    findPlayer (Some "b"%string) (players duel_hit) = Some ti ∧
    players duel_hit !! ti = Some target ∧
    players duel_sunk !! ti = Some target' ∧
    ((game_decided duel_sunk ∧ phase duel_sunk = GAME_OVER ∧
      hasActedThisTurn duel_sunk = true ∧
      winner duel_sunk = player_id <$> head (activePlayers duel_sunk)) ∨
     (¬ game_decided duel_sunk ∧ phase duel_sunk = phase duel_hit ∧
      winner duel_sunk = winner duel_hit)).
Proof.
  assert (H : processShot duel_hit "b" 1 0 = Some duel_sunk) by run.
  split; [exact H|].
  destruct (processShot_game_over duel_hit "b" 1 0 duel_sunk H)
    as [Heq|Hover]; [|exact Hover].
  apply (f_equal (λ gs, length (log gs))) in Heq. vm_compute in Heq.
  discriminate.
Defined.

(** X12 on the tactical duel: Ann's radar scan. *)
Lemma useSkill_success_witness :
  useSkill "Radarship" (mkOpts 2 2 true None) false corner_draws skirmish
  = Some skirmish_scan ∧
  success skirmish_scan = true ∧
  ∃ e,
    log (newState skirmish_scan) = e :: log skirmish ∧
    log_result e = R_SKILL_USED ∧
    hasActedThisTurn (newState skirmish_scan) = true ∧
    activeAction (newState skirmish_scan) = None ∧
    toast skirmish_scan = None.
Proof.
  assert (H : useSkill "Radarship" (mkOpts 2 2 true None) false corner_draws
                skirmish = Some skirmish_scan) by run.
  assert (Hs : success skirmish_scan = true) by run.
  destruct (useSkill_success skirmish "Radarship" (mkOpts 2 2 true None)
              false corner_draws skirmish_scan H Hs)
    as (ai & attacker & e & _ & _ & Hlog & Hres & _ & _ & _ & _ & Hact
        & Haction & Htoast & _).
  split; [exact H|]. split; [exact Hs|]. exists e.
  exact (conj Hlog (conj Hres (conj Hact (conj Haction Htoast)))).
Defined.

(** X13 on the patrol: Ann's escape to a placement that leaves the
    grid. *)
Lemma escape_rejected_round_trip_witness :
  handleActivateMothershipEscape patrol_ann_turn = Some escape_under_way ∧
  useSkill "Mothership" (mkOpts 5 0 true None) false corner_draws
    escape_under_way = Some escape_refused ∧
  success escape_refused = false ∧
  newState escape_refused = g_set_activeAction None patrol_ann_turn ∧
  toast escape_refused = Some "Invalid placement for escape maneuver."%string.
Proof.
  assert (H1 : handleActivateMothershipEscape patrol_ann_turn
               = Some escape_under_way) by run.
  assert (H2 : useSkill "Mothership" (mkOpts 5 0 true None) false
                 corner_draws escape_under_way = Some escape_refused) by run.
  assert (H3 : success escape_refused = false) by run.
  exact (conj H1 (conj H2 (conj H3
           (escape_rejected_round_trip patrol_ann_turn escape_under_way
              (mkOpts 5 0 true None) corner_draws escape_refused
              H1 H2 H3)))).
Defined.

(** X14 in the battle: Ann's Radarship, picked and sent off the grid. *)
Lemma relocation_rejected_round_trip_witness :
  handleSelectShipForRelocation battle ann_radarship
  = Some radarship_picked ∧
  useSkill "Commandship" (mkOpts 11 1 true None) false corner_draws
    radarship_picked = Some relocation_refused ∧
  success relocation_refused = false ∧
  newState relocation_refused = g_set_activeAction None battle ∧
  toast relocation_refused
  = Some "Invalid placement for relocation."%string.
Proof.
  assert (H1 : handleSelectShipForRelocation battle ann_radarship
               = Some radarship_picked) by run.
  assert (H2 : useSkill "Commandship" (mkOpts 11 1 true None) false
                 corner_draws radarship_picked = Some relocation_refused)
    by run.
  assert (H3 : success relocation_refused = false) by run.
  exact (conj H1 (conj H2 (conj H3
           (relocation_rejected_round_trip battle ann_radarship
              radarship_picked (mkOpts 11 1 true None) corner_draws
              relocation_refused H1 H2 H3)))).
Defined.

(** X15 in the battle: Ann's Radarship, moved to (6,1). *)
Lemma relocation_accepted_witness :
  handleSelectShipForRelocation battle ann_radarship
  = Some radarship_picked ∧
  useSkill "Commandship" (mkOpts 6 1 true None) false corner_draws
    radarship_picked = Some relocation_done ∧
  success relocation_done = true ∧
  ∃ player' s',
    players (newState relocation_done) !! 0%nat = Some player' ∧
    ships player' !! 2%nat = Some s' ∧
    positions s' = [mkPos 6 1; mkPos 7 1; mkPos 8 1] ∧
    hasBeenRelocated s' = true ∧
    skillCooldowns player' !! "Commandship"%string = Some 4 ∧
    handleSelectShipForRelocation (newState relocation_done) ann_radarship
    = None.
Proof.
  assert (H1 : handleSelectShipForRelocation battle ann_radarship
               = Some radarship_picked) by run.
  assert (H2 : useSkill "Commandship" (mkOpts 6 1 true None) false
                 corner_draws radarship_picked = Some relocation_done)
    by run.
  assert (H3 : success relocation_done = true) by run.
  destruct (relocation_accepted battle ann_radarship radarship_picked
              (mkOpts 6 1 true None) corner_draws relocation_done H1 H2 H3)
    as (pi & player & player' & si & s0 & s' & Hpi & Hp & Hp' & Hsi & Hs0
        & Hs' & Hpos & _ & Hrel & Hcd & Hagain).
  assert (pi = 0%nat) as -> by (vm_compute in Hpi; congruence).
  assert (player = ann) as -> by (vm_compute in Hp; vm_compute; congruence).
  assert (si = 2%nat) as -> by (vm_compute in Hsi; congruence).
  assert (s0 = ann_radarship) as ->
    by (vm_compute in Hs0; vm_compute; congruence).
  split; [exact H1|]. split; [exact H2|]. split; [exact H3|].
  exists player', s'. split; [exact Hp'|]. split; [exact Hs'|].
  split; [rewrite Hpos; run|]. exact (conj Hrel (conj Hcd Hagain)).
Defined.

(** X16 on the patrol: Ann's Mothership escapes to (3,5). *)
Lemma escape_accepted_witness :
  handleActivateMothershipEscape patrol_ann_turn = Some escape_under_way ∧
  useSkill "Mothership" (mkOpts 3 5 true None) false corner_draws
    escape_under_way = Some escape_done ∧
  success escape_done = true ∧
  ∃ player' m',
    players (newState escape_done) !! 0%nat = Some player' ∧
    ships player' !! 2%nat = Some m' ∧
    positions m' = [mkPos 3 5; mkPos 4 5] ∧
    isDamaged m' = false ∧
    skillUses player' !! "Mothership"%string = Some 0 ∧
    handleActivateMothershipEscape (newState escape_done) = None.
Proof.
  assert (H1 : handleActivateMothershipEscape patrol_ann_turn
               = Some escape_under_way) by run.
  assert (H2 : useSkill "Mothership" (mkOpts 3 5 true None) false
                 corner_draws escape_under_way = Some escape_done) by run.
  assert (H3 : success escape_done = true) by run.
  destruct (escape_accepted patrol_ann_turn escape_under_way
              (mkOpts 3 5 true None) corner_draws escape_done H1 H2 H3)
    as (pi & player & player' & mi & m0 & m' & Hpi & Hp & Hp' & Hmi & Hm0
        & Hm' & Hpos & _ & Hdam & Huses & Hagain & _).
  assert (pi = 0%nat) as -> by (vm_compute in Hpi; congruence).
  assert (mi = 2%nat) as ->.
  { assert (Hp0 : players patrol_ann_turn !! 0%nat
                  = Some (the (players patrol_ann_turn !! 0%nat))) by run.
    assert (player = the (players patrol_ann_turn !! 0%nat)) as ->
      by congruence.
    vm_compute in Hmi. congruence. }
  assert (Hlen : ship_length m0 = 2).
  { assert (Hp0 : players patrol_ann_turn !! 0%nat
                  = Some (the (players patrol_ann_turn !! 0%nat))) by run.
    assert (player = the (players patrol_ann_turn !! 0%nat)) as ->
      by congruence.
    vm_compute in Hm0. injection Hm0 as <-. reflexivity. }
  split; [exact H1|]. split; [exact H2|]. split; [exact H3|].
  exists player', m'. split; [exact Hp'|]. split; [exact Hm'|].
  split; [rewrite Hpos, Hlen; run|]. exact (conj Hdam (conj Huses Hagain)).
Defined.

(** X17 on the tactical duel: Ann repairs the cell that Bob hit the turn
    before. *)
Lemma useSkill_Repairship_effect_witness :
  let attacker := the (players skirmish_ann_later !! 0%nat) in
  useSkill "Repairship" (mkOpts 0 4 true None) false corner_draws
    skirmish_ann_later = Some skirmish_repair ∧
  success skirmish_repair = true ∧
  cell_opt (grid attacker) 0 4 = Some HIT ∧
  ∃ attacker' s',
    players (newState skirmish_repair) !! 0%nat = Some attacker' ∧
    cell_opt (grid attacker') 0 4 = Some SHIP ∧
    skillCooldowns attacker' !! "Repairship"%string = Some 3 ∧
    ships attacker' !! 0%nat = Some s' ∧
    hasBeenRepaired s' = true ∧ isDamaged s' = false.
Proof.
  intros attacker.
  assert (H1 : findPlayer (currentPlayerId skirmish_ann_later)
                 (players skirmish_ann_later) = Some 0%nat) by run.
  assert (H2 : players skirmish_ann_later !! 0%nat = Some attacker) by run.
  assert (H3 : useSkill "Repairship" (mkOpts 0 4 true None) false
                 corner_draws skirmish_ann_later = Some skirmish_repair)
    by run.
  assert (H4 : success skirmish_repair = true) by run.
  destruct (useSkill_Repairship_effect skirmish_ann_later 0 attacker 0 4
              true None false corner_draws skirmish_repair H1 H2 H3 H4)
    as (attacker' & si & s & s' & Ha' & Hcell & _ & Hcd & Hsi & _ & Hs'
        & Hrep & _).
  assert (si = 0%nat) as -> by (vm_compute in Hsi; congruence).
  split; [exact H3|]. split; [exact H4|]. split; [run|].
  exists attacker', s'.
  split; [exact Ha'|]. split; [exact Hcell|]. split; [exact Hcd|].
  split; [exact Hs'|]. split; [exact Hrep|].
  assert (Ha0 : players (newState skirmish_repair) !! 0%nat
                = Some (the (players (newState skirmish_repair) !! 0%nat)))
    by run.
  assert (attacker' = the (players (newState skirmish_repair) !! 0%nat))
    as -> by congruence.
  vm_compute in Hs'. injection Hs' as <-. reflexivity.
Defined.

(** X18 on the tactical duel: the scan of the corner that holds Bob's
    ship reports four cells, two of them with a contact. *)
Lemma radar_scan_report_witness :
  useSkill "Radarship" (mkOpts 0 0 true None) false corner_draws skirmish
  = Some skirmish_echo ∧
  shots skirmish_ann !! "b"%string = Some (createEmptyGrid 5 5) ∧
  ∃ cells,
    radarScanResult (newState skirmish_echo) = Some ("a"%string, cells) ∧
    (∀ c, c ∈ cells →
          0 <= sc_x c <= 1 ∧ 0 <= sc_y c <= 1 ∧
          sc_state c
          = radar_echo (cell_opt (grid skirmish_bob) (sc_x c) (sc_y c))) ∧
    (∃ c, c ∈ cells ∧ sc_x c = 1 ∧ sc_y c = 0) ∧
    (∀ i q', players (newState skirmish_echo) !! i = Some q' →
             ∃ q, players skirmish !! i = Some q ∧
                  grid q' = grid q ∧ shots q' = shots q ∧
                  ships q' = ships q).
Proof.
  assert (H1 : findPlayer (currentPlayerId skirmish) (players skirmish)
               = Some 0%nat) by run.
  assert (H2 : players skirmish !! 0%nat = Some skirmish_ann) by run.
  assert (H3 : findOpponent skirmish_ann (players skirmish) = Some 1%nat)
    by run.
  assert (H4 : players skirmish !! 1%nat = Some skirmish_bob) by run.
  assert (H5 : shots skirmish_ann !! player_id skirmish_bob
               = Some (createEmptyGrid 5 5)) by run.
  assert (H6 : useSkill "Radarship" (mkOpts 0 0 true None) false
                 corner_draws skirmish = Some skirmish_echo) by run.
  destruct (radar_scan_report skirmish 0 skirmish_ann 1 skirmish_bob
              (createEmptyGrid 5 5) 0 0 true None false corner_draws
              skirmish_echo H1 H2 H3 H4 H5 H6)
    as (cells & Hres & Hsound & Hcomplete & Hframe).
  split; [exact H6|]. split; [exact H5|]. exists cells.
  split; [exact Hres|]. split.
  { intros c Hc. destruct (Hsound c Hc) as (Hx & Hy & _ & _ & _ & Hst).
    exact (conj Hx (conj Hy Hst)). }
  split; [|exact Hframe].
  apply (Hcomplete 1 0); [lia|lia|vm_compute; reflexivity
                         |vm_compute; reflexivity|run].
Defined.

(** X19 on the patrol: Ann's decoy on the empty cell (5,5). *)
Lemma useSkill_Decoyship_effect_witness :
  useSkill "Decoyship" (mkOpts 5 5 true None) false corner_draws patrol
  = Some patrol_decoy ∧
  cell_opt (grid patrol_ann) 5 5 = Some EMPTY ∧
  success patrol_decoy = true ∧
  ∃ attacker',
    players (newState patrol_decoy) !! 0%nat = Some attacker' ∧
    cell_opt (grid attacker') 5 5 = Some DECOY ∧
    (∀ x' y', ¬ (x' = 5 ∧ y' = 5) →
              cell_opt (grid attacker') x' y'
              = cell_opt (grid patrol_ann) x' y') ∧
    live_decoy attacker' 5 5 ∧
    decoyPositions attacker' = decoyPositions patrol_ann ++ [mkPos 5 5] ∧
    (∀ u, skillUses patrol_ann !! "Decoyship"%string = Some u →
          skillUses attacker' !! "Decoyship"%string = Some (u - 1)) ∧
    (∀ k, k ≠ "Decoyship"%string →
          skillUses attacker' !! k = skillUses patrol_ann !! k) ∧
    ships attacker' = ships patrol_ann.
Proof.
  assert (H1 : findPlayer (currentPlayerId patrol) (players patrol)
               = Some 0%nat) by run.
  assert (H2 : players patrol !! 0%nat = Some patrol_ann) by run.
  assert (H3 : useSkill "Decoyship" (mkOpts 5 5 true None) false
                 corner_draws patrol = Some patrol_decoy) by run.
  assert (H4 : cell_opt (grid patrol_ann) 5 5 = Some EMPTY) by run.
  pose proof (useSkill_Decoyship_effect patrol 0 patrol_ann 5 5 true None
                false corner_draws patrol_decoy H1 H2 H3) as H.
  rewrite decide_True in H by exact H4.
  exact (conj H3 (conj H4 H)).
Defined.

(** X24 on the heatmap that the AI builds of Ann's fleet in the cove. *)
Lemma findBestRadarSpot_spec_witness :
  let m := buildProbabilityMap cove_ann
             (shots_for cove_gemini "a" (mkDims 3 3)) (mkDims 3 3) in
  map_shape (mkDims 3 3) m ∧
  findBestRadarSpot m (mkDims 3 3) = mkPos 0 0 ∧
  (∀ c, c ∈ block_anchors (mkDims 3 3) →
        density m c <= density m (mkPos 0 0)) ∧
  (∀ p, p ∈ scan_cells 0 0 → in_bounds (mkDims 3 3) p).
Proof.
  intros m.
  assert (Hshape : map_shape (mkDims 3 3) m)
    by apply buildProbabilityMap_shape.
  assert (Hspot : findBestRadarSpot m (mkDims 3 3) = mkPos 0 0) by run.
  destruct (findBestRadarSpot_spec m (mkDims 3 3) Hshape)
    as (Hmax & _ & Hin & _).
  rewrite Hspot in Hmax, Hin.
  split; [exact Hshape|]. split; [exact Hspot|]. split.
  - intros c Hc. specialize (Hmax c Hc).
    assert (Hd : density m (mkPos 0 0) = 28) by run. lia.
  - apply Hin; simpl; lia.
Defined.

(** X20 on the patrol: Bob shoots at Ann's decoy. *)
Lemma processShot_decoy_witness :
  let attacker := the (players patrol_decoy_bob !! 1%nat) in
  let target := the (players patrol_decoy_bob !! 0%nat) in
  unshot patrol_decoy_bob attacker "a" 5 5 ∧
  live_decoy target 5 5 ∧
  processShot patrol_decoy_bob "a" 5 5 = Some patrol_decoy_hit ∧
  ∃ e attacker' target',
    log patrol_decoy_hit = e :: log patrol_decoy_bob ∧
    log_result e = R_HIT ∧
    log_hitShipName e = Some "unidentified contact"%string ∧
    players patrol_decoy_hit !! 1%nat = Some attacker' ∧
    cell_opt (shots_for attacker' "a" (gridDimensions patrol_decoy_bob)) 5 5
    = Some HIT ∧
    players patrol_decoy_hit !! 0%nat = Some target' ∧
    ships target' = ships target ∧
    cell_opt (grid target') 5 5 = Some EMPTY ∧
    hitLog patrol_decoy_hit = hitLog patrol_decoy_bob ∧
    hasActedThisTurn patrol_decoy_hit = false.
Proof.
  intros attacker target.
  assert (H0 : gameMode patrol_decoy_bob = TACTICAL) by run.
  assert (H1 : findPlayer (currentPlayerId patrol_decoy_bob)
                 (players patrol_decoy_bob) = Some 1%nat) by run.
  assert (H2 : players patrol_decoy_bob !! 1%nat = Some attacker) by run.
  assert (H3 : findPlayer (Some "a"%string) (players patrol_decoy_bob)
               = Some 0%nat) by run.
  assert (H4 : players patrol_decoy_bob !! 0%nat = Some target) by run.
  assert (H5 : unshot patrol_decoy_bob attacker "a" 5 5) by (left; run).
  assert (H6 : live_decoy target 5 5).
  { unfold live_decoy. replace (decoyPositions target) with [mkPos 5 5] by run.
    constructor. }
  assert (H7 : processShot patrol_decoy_bob "a" 5 5 = Some patrol_decoy_hit)
    by run.
  destruct (processShot_decoy patrol_decoy_bob "a" 5 5 1 attacker 0 target
              patrol_decoy_hit H0 H1 H2 H3 H4 H5 H6 H7)
    as (e & attacker' & target' & k & Hlog & Hres & Hname & _ & Ha' & Hshot
        & Ht' & Hships & _ & _ & Hcell & _ & Hhit & Hact).
  split; [exact H5|]. split; [exact H6|]. split; [exact H7|].
  exists e, attacker', target'.
  split; [exact Hlog|]. split; [exact Hres|]. split; [exact Hname|].
  split; [exact Ha'|]. split; [exact Hshot|]. split; [exact Ht'|].
  split; [exact Hships|]. split; [apply Hcell; run|].
  exact (conj Hhit Hact).
Defined.

(** X21 in the battle: the AI relocates its Radarship; the first two
    draws propose the row of its Commandship, the third one fits. *)
Lemma useSkill_Commandship_AI_witness :
  useSkill "Commandship" (mkOpts 0 0 true (Some "Radarship"%string)) true
    row_draws battle_gemini_turn = Some gemini_relocation ∧
  success gemini_relocation = true ∧
  ∃ s0 attacker' x y h j,
    find (is_type "Radarship") (ships gemini) = Some s0 ∧
    hasBeenRelocated s0 = false ∧
    (j < 100)%nat ∧ row_draws j = (h, (x, y)) ∧
    players (newState gemini_relocation) !! 1%nat = Some attacker' ∧
    (∀ p, p ∈ footprint (ship_length s0) x y h →
          in_bounds (mkDims 12 12) p ∧ reads (grid attacker') p SHIP) ∧
    skillCooldowns attacker' !! "Commandship"%string = Some 4.
Proof.
  assert (H1 : findPlayer (currentPlayerId battle_gemini_turn)
                 (players battle_gemini_turn) = Some 1%nat) by run.
  assert (H2 : players battle_gemini_turn !! 1%nat = Some gemini) by run.
  assert (H3 : useSkill "Commandship"
                 (mkOpts 0 0 true (Some "Radarship"%string)) true row_draws
                 battle_gemini_turn = Some gemini_relocation) by run.
  assert (H4 : success gemini_relocation = true) by run.
  destruct (useSkill_Commandship_AI battle_gemini_turn 1 gemini
              (mkOpts 0 0 true (Some "Radarship"%string)) row_draws
              gemini_relocation H1 H2 H3 H4)
    as (s0 & si & attacker' & x & y & h & j & Hf & _ & _ & Hrel & Hj & Hd
        & Ha' & _ & _ & Hfp & _ & Hcd).
  split; [exact H3|]. split; [exact H4|].
  exists s0, attacker', x, y, h, j.
  split; [exact Hf|]. split; [exact Hrel|]. split; [exact Hj|].
  split; [exact Hd|]. split; [exact Ha'|]. split; [|exact Hcd].
  intros p Hp. destruct (Hfp p Hp) as (Hin & Hr & _). exact (conj Hin Hr).
Defined.

(** X26 on a game of Ann against the AI, both fleets laid out from
    [row_draws]. *)
Lemma game_against_AI_starts_in_order_witness :
  set_up (mkDims 12 12) ann_ready ∧
  handleReady lobby None ann_ready 0 row_draws = Some (first_battle, None) ∧
  phase first_battle = PLAYING ∧
  currentPlayerId first_battle = Some "a"%string ∧
  fresh_state first_battle ∧
  (∀ x y, 0 <= x < 12 → 0 <= y < 12 →
          shootable first_battle "b" x y ∧
          is_Some (processShot first_battle "b" x y)).
Proof.
  assert (Hp : placeShipsForAI 0 (the (players lobby !! 0%nat))
                 (shipsConfig lobby) (gridDimensions lobby) row_draws
               = Some ann_ready) by run.
  destruct (placeShipsForAI_deployed_aux _ _ _ _ _ _ Hp)
    as (Hdep & _ & _ & _ & _ & _ & _ & _ & _).
  assert (Hset : set_up (mkDims 12 12) ann_ready).
  { split; [exact Hdep|]. split; run. }
  assert (Hready : handleReady lobby None ann_ready 0 row_draws
                   = Some (first_battle, None)) by run.
  assert (Hne : "a"%string ≠ "b"%string) by discriminate.
  destruct (game_against_AI_starts_in_order "a" "b" "g" "Ann" TACTICAL ""
              None ann_ready 0 row_draws first_battle None Hne)
    as (Hph & Hcur & _ & _ & _ & _ & Hfresh & Hshoot);
    [run|run|run|exact Hset|exact Hready|].
  exact (conj Hset (conj Hready (conj Hph (conj Hcur (conj Hfresh Hshoot))))).
Defined.

(** X27 on a game of Ann against Bob on one device. *)
Lemma hot_seat_setup_witness :
  let created := handleCreateGame "a" "b" "g" "Ann" TACTICAL false "Bob" None in
  phase created.1 = SETUP ∧ currentPlayerId created.1 = None ∧
  created.2 = Some 0%nat ∧
  ∃ g1 g3,
    handleReady created.1 created.2 ann 0 row_draws = Some (g1, Some 1%nat) ∧
    phase g1 = TURN_TRANSITION ∧ currentPlayerId g1 = Some "b"%string ∧
    phase (handleContinueFromTransition g1 (Some 1%nat)) = SETUP ∧
    handleReady (handleContinueFromTransition g1 (Some 1%nat)) (Some 1%nat)
                bob 0 row_draws = Some (g3, None) ∧
    phase g3 = PLAYING ∧ currentPlayerId g3 = Some "a"%string ∧
    players g3 = [p_set_isReady true ann; p_set_isReady true bob] ∧
    turn g3 = 1 ∧ hasActedThisTurn g3 = false ∧ log g3 = [].
Proof.
  assert (Hne : "a"%string ≠ "b"%string) by discriminate.
  assert (H1 : player_id ann = "a"%string) by run.
  assert (H2 : isAI ann = false) by run.
  assert (H3 : player_id bob = "b"%string) by run.
  assert (H4 : isAI bob = false) by run.
  exact (hot_seat_setup "a" "b" "g" "Ann" TACTICAL "Bob" None ann bob 0
           row_draws Hne H1 H2 H3 H4).
Defined.
